(** * Email verification engine: a shallow embedding of the server and page code

    The development follows the layout of the JavaScript sources:
    - [server/validators/email.js]   : format check, DNS facade, [validateEmail]
    - [server/validators/smtp.js]    : [readResponse], [verifyMailbox]
    - [server/validators/providers.js]: [getProviderConfig]
    - [server/lib/proxyManager.js]   : the proxy pool and its file
    - [server/routes/validation.js]  : retry wrapper, single, batch and bulk routes
    - [src/lib/csvProcessing.ts]     : CSV lines, the files of a user, their validation

    Definitions come first (one module per source file), then the
    vocabulary of the statements and the scenarios, then the theorems. *)

From Stdlib Require Import ZArith NArith Ascii String List Bool Lia DecimalString Sorted.
From stdpp Require Import base option list strings gmap.

Local Open Scope Z_scope.

(* ===================================================================== *)
(** * JavaScript values and strings *)
(* ===================================================================== *)

Module JS.

(** A JavaScript string is a sequence of UTF-16 code units. *)
Definition jschar := N.
Definition jsstring := list jschar.

(** Literals are written as Rocq strings and converted code unit by
    code unit (the literals of the program are all ASCII). *)
Fixpoint str (s : string) : jsstring :=
  match s with
  | EmptyString => []
  | String a r => N_of_ascii a :: str r
  end.

Definition ch (a : ascii) : jschar := N_of_ascii a.

Definition jschar_eqb (a b : jschar) : bool := N.eqb a b.

Fixpoint jsstring_eqb (a b : jsstring) : bool :=
  match a, b with
  | [], [] => true
  | x :: a', y :: b' => jschar_eqb x y && jsstring_eqb a' b'
  | _, _ => false
  end.

(** [s.startsWith(p)] *)
Fixpoint startsWith (p s : jsstring) : bool :=
  match p, s with
  | [], _ => true
  | x :: p', y :: s' => jschar_eqb x y && startsWith p' s'
  | _ :: _, [] => false
  end.

(** [s.includes(p)] *)
Fixpoint includes (p s : jsstring) : bool :=
  startsWith p s ||
  match s with
  | [] => false
  | _ :: s' => includes p s'
  end.

(** [s.substring(i)] and [s.substring(0, n)] for in-range arguments
    (out-of-range arguments are clamped, as [drop] and [take] do). *)
Definition substring_from (i : nat) (s : jsstring) : jsstring := drop i s.
Definition substring_to (n : nat) (s : jsstring) : jsstring := take n s.

(** [s.split(sep)] for a non-empty separator: cut at every occurrence,
    scanning from the left; the pieces never contain the separator. *)
Fixpoint split_go (sep : jsstring) (cur : jsstring) (s : jsstring)
         (fuel : nat) : list jsstring :=
  match fuel with
  | O => [rev cur]
  | S fuel' =>
      match s with
      | [] => [rev cur]
      | c :: s' =>
          if startsWith sep s
          then rev cur :: split_go sep [] (drop (length sep) s) fuel'
          else split_go sep (c :: cur) s' fuel'
      end
  end.

Definition split (sep s : jsstring) : list jsstring :=
  split_go sep [] s (length s).

(** Values that reach the validator from a JSON body.  Numbers are kept
    as integers and every object or array is [JObj]; the code only asks
    for truthiness and [typeof]. *)
Inductive JSVal : Type :=
| JUndefined
| JNull
| JBool (b : bool)
| JNum (z : Z)
| JStr (s : jsstring)
| JObj.

Definition truthy (v : JSVal) : bool :=
  match v with
  | JUndefined | JNull => false
  | JBool b => b
  | JNum z => negb (z =? 0)
  | JStr s => match s with [] => false | _ => true end
  | JObj => true
  end.

Definition is_string (v : JSVal) : bool :=
  match v with JStr _ => true | _ => false end.

Definition string_of_Z (z : Z) : string :=
  DecimalString.NilZero.string_of_int (Z.to_int z).

(** The conversion done by a template literal. *)
Definition to_js_string (v : JSVal) : jsstring :=
  match v with
  | JUndefined => str "undefined"
  | JNull => str "null"
  | JBool b => if b then str "true" else str "false"
  | JNum z => str (string_of_Z z)
  | JStr s => s
  | JObj => str "[object Object]"
  end.

End JS.
Import JS.

(* ===================================================================== *)
(** * Regular expressions (as used with [RegExp.prototype.test]) *)
(* ===================================================================== *)

Module Regex.

(** The two patterns of the program use character classes, grouping,
    [?], [*], [+], bounded repetition and the anchors [^] and [$]
    without flags: [test] succeeds iff the whole subject is in the
    language of the pattern. *)
Inductive re : Type :=
| Void
| Eps
| Cls (p : jschar -> bool)
| Cat (r1 r2 : re)
| Alt (r1 r2 : re)
| Star (r : re).

Definition Opt (r : re) : re := Alt Eps r.
Definition Plus (r : re) : re := Cat r (Star r).

(** [r{0,n}] *)
Fixpoint upto (n : nat) (r : re) : re :=
  match n with
  | O => Eps
  | S k => Opt (Cat r (upto k r))
  end.

(** [r{n}] and [r{n,}] *)
Fixpoint exactly (n : nat) (r : re) : re :=
  match n with
  | O => Eps
  | S k => Cat r (exactly k r)
  end.

Definition atleast (n : nat) (r : re) : re := Cat (exactly n r) (Star r).

(** Juxtaposition of several items. *)
Fixpoint seq (rs : list re) : re :=
  match rs with
  | [] => Eps
  | [r] => r
  | r :: rs' => Cat r (seq rs')
  end.

(** Language of a pattern. *)
Inductive matches : re -> jsstring -> Prop :=
| m_eps : matches Eps []
| m_cls p c : p c = true -> matches (Cls p) [c]
| m_cat r1 r2 s1 s2 :
    matches r1 s1 -> matches r2 s2 -> matches (Cat r1 r2) (s1 ++ s2)
| m_alt_l r1 r2 s : matches r1 s -> matches (Alt r1 r2) s
| m_alt_r r1 r2 s : matches r2 s -> matches (Alt r1 r2) s
| m_star_nil r : matches (Star r) []
| m_star_app r s1 s2 :
    matches r s1 -> matches (Star r) s2 -> matches (Star r) (s1 ++ s2).

(** The matcher: Brzozowski derivatives with the usual simplifications. *)
Fixpoint nullable (r : re) : bool :=
  match r with
  | Void => false
  | Eps => true
  | Cls _ => false
  | Cat r1 r2 => nullable r1 && nullable r2
  | Alt r1 r2 => nullable r1 || nullable r2
  | Star _ => true
  end.

Definition cat (r1 r2 : re) : re :=
  match r1, r2 with
  | Void, _ => Void
  | _, Void => Void
  | Eps, _ => r2
  | _, _ => Cat r1 r2
  end.

Definition alt (r1 r2 : re) : re :=
  match r1, r2 with
  | Void, _ => r2
  | _, Void => r1
  | _, _ => Alt r1 r2
  end.

Fixpoint deriv (c : jschar) (r : re) : re :=
  match r with
  | Void => Void
  | Eps => Void
  | Cls p => if p c then Eps else Void
  | Cat r1 r2 =>
      if nullable r1
      then alt (cat (deriv c r1) r2) (deriv c r2)
      else cat (deriv c r1) r2
  | Alt r1 r2 => alt (deriv c r1) (deriv c r2)
  | Star r1 => cat (deriv c r1) (Star r1)
  end.

Fixpoint test (r : re) (s : jsstring) : bool :=
  match s with
  | [] => nullable r
  | c :: s' => test (deriv c r) s'
  end.

(** Character classes. *)
Definition range (lo hi : ascii) (c : jschar) : bool :=
  (N_of_ascii lo <=? c)%N && (c <=? N_of_ascii hi)%N.

Definition one_of (s : string) (c : jschar) : bool :=
  existsb (jschar_eqb c) (str s).

Definition chr (a : ascii) : re := Cls (jschar_eqb (ch a)).

Definition digit : jschar -> bool := range "0" "9".
Definition letter (c : jschar) : bool := range "a" "z" c || range "A" "Z" c.
Definition alnum (c : jschar) : bool := letter c || digit c.

(** [.] without the [s] flag: anything but a line terminator. *)
Definition line_terminator (c : jschar) : bool :=
  (c =? 10)%N || (c =? 13)%N || (c =? 8232)%N || (c =? 8233)%N.
Definition dot : re := Cls (fun c => negb (line_terminator c)).

End Regex.

(* ===================================================================== *)
(** * server/validators/email.js : format check *)
(* ===================================================================== *)

Module EmailFormat.
Import Regex.

(** [[a-zA-Z0-9._%+-]] *)
Definition local_char (c : jschar) : bool := alnum c || one_of "._%+-" c.
(** [[a-zA-Z0-9-]] *)
Definition label_char (c : jschar) : bool := alnum c || one_of "-" c.

(** [/^[a-zA-Z0-9](?:[a-zA-Z0-9._%+-]{0,61}[a-zA-Z0-9])?@[a-zA-Z0-9](?:[a-zA-Z0-9-]*[a-zA-Z0-9])?(?:\.[a-zA-Z]{2,})+$/] *)
Definition local_re : re :=
  seq [ Cls alnum; Opt (seq [ upto 61 (Cls local_char); Cls alnum ]) ].

Definition domain_re : re :=
  seq [ Cls alnum;
        Opt (seq [ Star (Cls label_char); Cls alnum ]);
        Plus (seq [ chr "."; atleast 2 (Cls letter) ]) ].

Definition emailRegex : re := seq [ local_re; chr "@"; domain_re ].

Definition validateEmailFormat (email : JSVal) : bool :=
  match email with
  | JStr s =>
      if negb (truthy email) || negb (is_string email) then false
      else test emailRegex s
  | _ => false
  end.

End EmailFormat.

(* ===================================================================== *)
(** * Control flow: state, exceptions, [try]/[catch]/[finally] *)
(* ===================================================================== *)

Module Control.

(** Everything the program throws is an [Error] object; only its
    [message] is ever read. *)
Inductive JSError : Type := Error (message : string).

Definition message (e : JSError) : string :=
  match e with Error m => m end.

Inductive Completion (A : Type) : Type :=
| Normal (a : A)
| Throw (e : JSError).
Arguments Normal {A} a.
Arguments Throw {A} e.

(** A computation over a store [S]: the store survives a throw, so a
    [catch] block sees the assignments made before the exception. *)
Definition M (S A : Type) : Type := S -> Completion A * S.

Definition ret {S A} (a : A) : M S A := fun s => (Normal a, s).

Definition bind {S A B} (m : M S A) (f : A -> M S B) : M S B :=
  fun s =>
    match m s with
    | (Normal a, s') => f a s'
    | (Throw e, s') => (Throw e, s')
    end.

Definition throw {S A} (e : JSError) : M S A := fun s => (Throw e, s).

Definition try_catch {S A} (body : M S A) (handler : JSError -> M S A) : M S A :=
  fun s =>
    match body s with
    | (Normal a, s') => (Normal a, s')
    | (Throw e, s') => handler e s'
    end.

Definition try_finally {S A} (body : M S A) (final : M S unit) : M S A :=
  fun s =>
    match body s with
    | (c, s') =>
        match final s' with
        | (Normal _, s'') => (c, s'')
        | (Throw e, s'') => (Throw e, s'')
        end
    end.

Definition get {S} : M S S := fun s => (Normal s, s).
Definition put {S} (s : S) : M S unit := fun _ => (Normal tt, s).
Definition modify {S} (f : S -> S) : M S unit := fun s => (Normal tt, f s).

(** Run a computation on the second component of a pair of stores
    (the first component holds the local variables of the caller). *)
Definition lift {L S A} (m : M S A) : M (L * S) A :=
  fun ls =>
    match m (snd ls) with
    | (c, s') => (c, (fst ls, s'))
    end.

Definition getL {L S} : M (L * S) L := fun ls => (Normal (fst ls), ls).
Definition modifyL {L S} (f : L -> L) : M (L * S) unit :=
  fun ls => (Normal tt, (f (fst ls), snd ls)).

(** Run a block with fresh locals and drop them at the end. *)
Definition with_locals {L S A} (init : L) (m : M (L * S) A) : M S A :=
  fun s =>
    match m (init, s) with
    | (c, (_, s')) => (c, s')
    end.

#[global] Instance M_ret {S} : MRet (M S) := fun A => @ret S A.
#[global] Instance M_bind {S} : MBind (M S) := fun A B f m => @bind S A B m f.
#[global] Instance M_fmap {S} : FMap (M S) :=
  fun A B f m => @bind S A B m (fun a => ret (f a)).

End Control.
Import Control.

(* ===================================================================== *)
(** * The world the server runs in *)
(* ===================================================================== *)

Module World.

(** ** Proxy pool (fields of [ProxyManager]) *)
Record Proxy : Type := {
  host : jsstring;
  port : Z;
  username : option jsstring;
  password : option jsstring;
  failures : Z;
  lastUsed : Z;
  connections : Z
}.

(** ** SMTP commands written by the dialog *)
Inductive Cmd : Type :=
| EHLO (domain : jsstring)
| HELO (domain : jsstring)
| MAIL_FROM (address : jsstring)
| RCPT_TO (email : jsstring)
| QUIT.

Definition is_rcpt (c : Cmd) : bool :=
  match c with RCPT_TO _ => true | _ => false end.

(** ** A connection seen from the client *)
Record Socket : Type := {
  sk_proxy : option nat;      (* pool entry whose handlers are attached *)
  sk_host : jsstring;
  sk_port : Z;
  sk_session : nat;           (* which dial produced it *)
  sk_sent : list Cmd;         (* commands written so far, oldest first *)
  sk_destroyed : bool
}.

(** Calls received by the pool, oldest first. *)
Inductive PoolEvent : Type :=
| Acquired (i : nat)
| MarkedFailure (i : nat)
| MarkedSuccess (i : nat)
| Released (i : nat)
| ResetAll.

(** A proxy handle is the position of the entry in [proxies]: the
    entries are shared objects, mutated in place by every holder. *)
Record World : Type := {
  proxies : list Proxy;
  currentIndex : nat;
  ticks : nat;                                  (* readings of [Date.now()] so far *)
  sockets : list Socket;                        (* every socket opened, by id *)
  dialed : list (option nat * jsstring * Z);    (* connection attempts: proxy, host, port *)
  poolLog : list PoolEvent;
  probes : list jsstring;                       (* hosts handed to [verifyMailbox] *)
  sleeps : list Z                               (* [setTimeout] delays awaited *)
}.

(** ** What the outside answers *)

(** One connection attempt.  [respond sent timeout] are the chunks of
    data delivered while the reader that follows the commands [sent]
    is listening, before [timeout] ms elapse ([sent = []] is the
    greeting); [writes sent] is the outcome of writing the last
    command of [sent]. *)
Record Session : Type := {
  connect : Completion unit;
  respond : list Cmd -> Z -> list jsstring;
  writes : list Cmd -> Completion unit;
  randIndex : nat;            (* [Math.floor(Math.random() * VALID_DOMAINS.length)] *)
  randToken : jsstring        (* [Math.random().toString(36).substring(2)] *)
}.

Record MXRecord : Type := {
  exchange : jsstring;
  priority : Z
}.

Inductive RRType : Type := RR_A | RR_AAAA | RR_CNAME.

Record Env : Type := {
  clock : nat -> Z;                                   (* k-th reading of [Date.now()] *)
  net : nat -> Session;                               (* k-th connection attempt *)
  dnsResolve : jsstring -> RRType -> bool;            (* promise fulfilled? *)
  resolveMx : jsstring -> Completion (list MXRecord);
  resolveTxt : jsstring -> Completion (list (list jsstring))
}.

(** Field updates. *)
Definition set_pool (ps : list Proxy) (ci : nat) (w : World) : World :=
  {| proxies := ps; currentIndex := ci; ticks := ticks w; sockets := sockets w;
     dialed := dialed w; poolLog := poolLog w; probes := probes w; sleeps := sleeps w |}.
Definition set_ticks (n : nat) (w : World) : World :=
  {| proxies := proxies w; currentIndex := currentIndex w; ticks := n; sockets := sockets w;
     dialed := dialed w; poolLog := poolLog w; probes := probes w; sleeps := sleeps w |}.
Definition set_sockets (sk : list Socket) (w : World) : World :=
  {| proxies := proxies w; currentIndex := currentIndex w; ticks := ticks w; sockets := sk;
     dialed := dialed w; poolLog := poolLog w; probes := probes w; sleeps := sleeps w |}.
Definition set_dialed (d : list (option nat * jsstring * Z)) (w : World) : World :=
  {| proxies := proxies w; currentIndex := currentIndex w; ticks := ticks w; sockets := sockets w;
     dialed := d; poolLog := poolLog w; probes := probes w; sleeps := sleeps w |}.
Definition set_poolLog (l : list PoolEvent) (w : World) : World :=
  {| proxies := proxies w; currentIndex := currentIndex w; ticks := ticks w; sockets := sockets w;
     dialed := dialed w; poolLog := l; probes := probes w; sleeps := sleeps w |}.
Definition set_probes (p : list jsstring) (w : World) : World :=
  {| proxies := proxies w; currentIndex := currentIndex w; ticks := ticks w; sockets := sockets w;
     dialed := dialed w; poolLog := poolLog w; probes := p; sleeps := sleeps w |}.
Definition set_sleeps (s : list Z) (w : World) : World :=
  {| proxies := proxies w; currentIndex := currentIndex w; ticks := ticks w; sockets := sockets w;
     dialed := dialed w; poolLog := poolLog w; probes := probes w; sleeps := s |}.

Definition set_proxy_fields (f l c : Z) (p : Proxy) : Proxy :=
  {| host := host p; port := port p; username := username p; password := password p;
     failures := f; lastUsed := l; connections := c |}.

Definition set_socket_fields (sent : list Cmd) (d : bool) (s : Socket) : Socket :=
  {| sk_proxy := sk_proxy s; sk_host := sk_host s; sk_port := sk_port s;
     sk_session := sk_session s; sk_sent := sent; sk_destroyed := d |}.

(** [Date.now()] *)
Definition now (env : Env) : M World Z :=
  fun w => (Normal (clock env (ticks w)), set_ticks (S (ticks w)) w).

(** [await new Promise(resolve => setTimeout(resolve, ms))] *)
Definition sleep (ms : Z) : M World unit :=
  modify (fun w => set_sleeps (sleeps w ++ [ms]) w).

Definition log_pool (e : PoolEvent) : M World unit :=
  modify (fun w => set_poolLog (poolLog w ++ [e]) w).

End World.
Import World.

(* ===================================================================== *)
(** * server/lib/proxyManager.js *)
(* ===================================================================== *)

Module ProxyManager.

Definition PROXY_TIMEOUT : Z := 10000.
Definition MAX_FAILURES : Z := 3.
Definition MAX_CONNECTIONS : Z := 3.
Definition COOLDOWN_PERIOD : Z := 30000.

(** Depth of JavaScript recursion the engine allows before it throws
    a [RangeError]. *)
Definition CALL_DEPTH : nat := 1024.

(** Entries as [loadProxies] creates them. *)
Definition loaded (h : jsstring) (p : Z) (u pw : option jsstring) : Proxy :=
  {| host := h; port := p; username := u; password := pw;
     failures := 0; lastUsed := 0; connections := 0 |}.

(** In-place update of the entry behind a handle. *)
Definition update_proxy (i : nat) (f : Proxy -> Proxy) : M World unit :=
  modify (fun w =>
    match proxies w !! i with
    | Some p => set_pool (<[i := f p]> (proxies w)) (currentIndex w) w
    | None => w
    end).

(** The test of the [if] inside the scan: the entry is skipped. *)
Definition skipped (now : Z) (proxy : Proxy) : bool :=
  (MAX_FAILURES <=? failures proxy)
  || (MAX_CONNECTIONS <=? connections proxy)
  || (now - lastUsed proxy <? COOLDOWN_PERIOD).

(** The [while (attempts < this.proxies.length)] loop; [remaining] is
    [this.proxies.length - attempts]. *)
Fixpoint scan (now : Z) (remaining : nat) : M World (option nat) :=
  match remaining with
  | O => mret None
  | S k =>
      w ← get;
      match proxies w !! currentIndex w with
      | None =>
          throw (Error "Cannot read properties of undefined (reading 'failures')")
      | Some proxy =>
          let i := currentIndex w in
          modify (set_pool (proxies w) ((i + 1) mod length (proxies w))%nat);;
          if skipped now proxy then scan now k
          else
            update_proxy i (fun p => set_proxy_fields (failures p) now (connections p + 1) p);;
            log_pool (Acquired i);;
            mret (Some i)
      end
  end.

Definition reset_proxy (p : Proxy) : Proxy := set_proxy_fields 0 0 0 p.

Fixpoint getNextProxy_rec (env : Env) (depth : nat) : M World (option nat) :=
  match depth with
  | O => throw (Error "Maximum call stack size exceeded")
  | S d =>
      w ← get;
      if (length (proxies w) =? 0)%nat then mret None
      else
        now ← World.now env;
        found ← scan now (length (proxies w));
        match found with
        | Some i => mret (Some i)
        | None =>
            w' ← get;
            if forallb (fun p => MAX_FAILURES <=? failures p) (proxies w')
            then
              modify (fun w'' => set_pool (map reset_proxy (proxies w'')) (currentIndex w'') w'');;
              log_pool ResetAll;;
              getNextProxy_rec env d
            else mret None
        end
  end.

Definition getNextProxy (env : Env) : M World (option nat) :=
  getNextProxy_rec env CALL_DEPTH.

Definition markProxyFailure (proxy : option nat) : M World unit :=
  match proxy with
  | None => mret tt
  | Some i =>
      update_proxy i (fun p =>
        set_proxy_fields (failures p + 1) (lastUsed p) (Z.max 0 (connections p - 1)) p);;
      log_pool (MarkedFailure i)
  end.

Definition markProxySuccess (proxy : option nat) : M World unit :=
  match proxy with
  | None => mret tt
  | Some i =>
      update_proxy i (fun p => set_proxy_fields 0 (lastUsed p) (connections p) p);;
      log_pool (MarkedSuccess i)
  end.

Definition releaseProxy (proxy : option nat) : M World unit :=
  match proxy with
  | None => mret tt
  | Some i =>
      update_proxy i (fun p =>
        set_proxy_fields (failures p) (lastUsed p) (Z.max 0 (connections p - 1)) p);;
      log_pool (Released i)
  end.

(** ** Sockets and their handlers

    [createProxyConnection] attaches three handlers to a proxied
    socket: ['error'] marks the proxy as failed, ['timeout'] destroys
    the socket, ['close'] releases the proxy.  A socket closes once,
    whoever destroys it.  Two things of the event loop are folded
    into [destroy].  The ['close'] handler, which the engine runs in a
    later turn, runs with [destroy] itself: the counters of a world
    are those after the pending ['close'] events have run.  The idle
    timer of ['timeout'] is not a separate event: a silent socket
    stays open until the reader's own timer fires and [cleanup]
    destroys it, where the engine may destroy it earlier, while the
    reader waits.  The [activeConnections] map of the class is never
    read and is left out. *)

Definition update_socket (sid : nat) (f : Socket -> Socket) : M World unit :=
  modify (fun w =>
    match sockets w !! sid with
    | Some s => set_sockets (<[sid := f s]> (sockets w)) w
    | None => w
    end).

(** [socket.destroy()]: the socket closes once, and its ['close']
    handler (attached for proxied sockets only) releases the proxy. *)
Definition destroy (sid : nat) : M World unit :=
  w ← get;
  match sockets w !! sid with
  | None => mret tt
  | Some s =>
      if sk_destroyed s then mret tt
      else
        update_socket sid (set_socket_fields (sk_sent s) true);;
        releaseProxy (sk_proxy s)
  end.

(** A transport error on an open socket: the ['error'] handler marks
    the proxy as failed, then the socket closes. *)
Definition socket_error (sid : nat) : M World unit :=
  w ← get;
  match sockets w !! sid with
  | None => mret tt
  | Some s =>
      if sk_destroyed s then mret tt
      else markProxyFailure (sk_proxy s);; destroy sid
  end.

(** Opening the connection consumes the next [Session] of the
    environment and records the attempt. *)
Definition dial (env : Env) (proxy : option nat) (targetHost : jsstring)
           (targetPort : Z) : M World nat :=
  w ← get;
  let k := length (dialed w) in
  modify (set_dialed (dialed w ++ [(proxy, targetHost, targetPort)]));;
  match connect (net env k) with
  | Throw e => throw e
  | Normal _ =>
      w' ← get;
      let sid := length (sockets w') in
      modify (set_sockets (sockets w' ++
        [ {| sk_proxy := proxy; sk_host := targetHost; sk_port := targetPort;
             sk_session := k; sk_sent := []; sk_destroyed := false |} ]));;
      mret sid
  end.

Definition createProxyConnection (env : Env) (proxy : option nat)
           (targetHost : jsstring) (targetPort : Z) : M World nat :=
  match proxy with
  | None => dial env None targetHost targetPort
  | Some _ =>
      try_catch
        (dial env proxy targetHost targetPort)
        (fun error => markProxyFailure proxy;; throw error)
  end.

End ProxyManager.

(* ===================================================================== *)
(** * server/validators/providers.js *)
(* ===================================================================== *)

Module Providers.

Record ProviderConfig : Type := {
  provider : jsstring;
  domains : list jsstring;
  mxDomains : list jsstring;
  reliable : bool;
  heloHost : option jsstring;
  requireTLS : bool;
  rejectCatchAll : bool;
  timeout : Z;
  acceptCodes : list Z;
  rejectCodes : list Z;
  retryAttempts : Z;
  customValidation : bool
}.

(** [PROVIDERS], in the order of [Object.entries]; the key is kept in
    [provider], which is what [{ ...config, provider }] adds. *)
Definition PROVIDERS : list ProviderConfig :=
  [ {| provider := str "gmail.com";
       domains := [str "gmail.com"; str "googlemail.com"];
       mxDomains := [str "google.com"; str "googlemail.com"; str "gmail.com"];
       reliable := true;
       heloHost := Some (str "gmail-smtp-in.l.google.com");
       requireTLS := true;
       rejectCatchAll := true;
       timeout := 15000;
       acceptCodes := [250];
       rejectCodes := [550; 551; 552; 553; 554];
       retryAttempts := 2;
       customValidation := false |};
    {| provider := str "outlook.com";
       domains := [str "outlook.com"; str "hotmail.com"; str "live.com"; str "msn.com"];
       mxDomains := [str "outlook.com"; str "hotmail.com"; str "microsoft.com"];
       reliable := true;
       heloHost := Some (str "outlook-com.olc.protection.outlook.com");
       requireTLS := false;
       rejectCatchAll := true;
       timeout := 30000;
       acceptCodes := [250; 251; 252];
       rejectCodes := [550; 551; 552; 553; 554];
       retryAttempts := 3;
       customValidation := true |};
    {| provider := str "yahoo.com";
       domains := [str "yahoo.com"; str "ymail.com"];
       mxDomains := [str "yahoo.com"; str "yahoodns.net"];
       reliable := true;
       heloHost := Some (str "mta7.am0.yahoodns.net");
       requireTLS := true;
       rejectCatchAll := true;
       timeout := 12000;
       acceptCodes := [250];
       rejectCodes := [550; 551; 552; 553; 554];
       retryAttempts := 2;
       customValidation := false |} ].

Definition generic : ProviderConfig :=
  {| provider := str "generic";
     domains := [];
     mxDomains := [];
     reliable := false;
     heloHost := None;
     requireTLS := false;
     rejectCatchAll := true;
     timeout := 10000;
     acceptCodes := [250; 251; 252];
     rejectCodes := [550; 551; 552; 553; 554];
     retryAttempts := 2;
     customValidation := false |}.

(** [toLowerCase] on the ASCII letters (a domain that reaches the
    lookup has passed the format pattern and is ASCII). *)
Definition toLowerCase (s : jsstring) : jsstring :=
  map (fun c => if Regex.range "A" "Z" c then (c + 32)%N else c) s.

Definition getProviderConfig (domain : jsstring) : ProviderConfig :=
  let lowerDomain := toLowerCase domain in
  match
    find (fun config => existsb (jsstring_eqb lowerDomain) (domains config)) PROVIDERS
  with
  | Some config => config
  | None =>
      match
        find (fun config =>
                existsb (fun mxDomain => includes mxDomain lowerDomain) (mxDomains config))
             PROVIDERS
      with
      | Some config => config
      | None => generic
      end
  end.

End Providers.
Import Providers.

(* ===================================================================== *)
(** * server/validators/smtp.js *)
(* ===================================================================== *)

Module Smtp.
Import Regex ProxyManager.

Definition TIMEOUT : Z := 10000.
Definition MAX_RETRIES : Z := 3.
Definition RETRY_DELAY : Z := 2000.

Definition VALID_DOMAINS : list jsstring :=
  [ str "salesforce.com"; str "sendgrid.net"; str "mailchimp.com";
    str "amazonses.com"; str "postmarkapp.com" ].

Definition CRLF : jsstring := [13%N; 10%N].

(** ** [writeCommand] *)
Definition writeCommand (env : Env) (socket : nat) (command : Cmd) : M World unit :=
  w ← get;
  match sockets w !! socket with
  | None => throw (Error "Socket is closed")
  | Some s =>
      if sk_destroyed s then throw (Error "Socket is closed")
      else
        let sent := sk_sent s ++ [command] in
        match writes (net env (sk_session s)) sent with
        | Normal _ => update_socket socket (set_socket_fields sent false)
        | Throw err => socket_error socket;; throw err
        end
  end.

(** ** [readResponse]

    The promise listens to ['data'] events; the chunks that arrive
    while it listens are given by the environment, and data that
    arrives when nobody listens is not kept for the next reader. *)

(** The pattern of the reader: [^[0-9]{3}], then an optional group made
    of [[ -]] and [.*], then [$]. *)
Definition response_re : re :=
  seq [ exactly 3 (Cls digit); Opt (seq [ Cls (one_of " -"); Star dot ]) ].

(** One ['data'] event: the buffer grows, and once it holds a CRLF the
    lines are tried in order; the first one that matches resolves the
    promise. *)
Definition handleData (response data : jsstring) : jsstring * option jsstring :=
  let response := response ++ data in
  if includes CRLF response
  then (response, find (test response_re) (split CRLF response))
  else (response, None).

(** The listener stays attached until a line resolves; when the data
    runs out first, the timer fires. *)
Fixpoint listen (response : jsstring) (chunks : list jsstring) : option jsstring :=
  match chunks with
  | [] => None
  | data :: later =>
      match handleData response data with
      | (_, Some line) => Some line
      | (response', None) => listen response' later
      end
  end.

Definition readResponse (env : Env) (socket : nat) (timeout : Z) : M World jsstring :=
  w ← get;
  match sockets w !! socket with
  | None => throw (Error "Response timeout")
  | Some s =>
      match listen [] (respond (net env (sk_session s)) (sk_sent s) timeout) with
      | Some line => mret line
      | None => throw (Error "Response timeout")
      end
  end.

(** ** [verifyMailbox] *)

(** The object literals returned by [verifyMailbox]: none of them has
    an [isCatchAll] property. *)
Record VerifyResult : Type := {
  success : bool;
  mailboxExists : bool;
  code : option Z;
  message : option jsstring;
  error : option string
}.

(** Reading the absent property. *)
Definition isCatchAll (r : VerifyResult) : JSVal := JUndefined.

(** [parseInt(code, 10)] on a string of decimal digits. *)
Definition parseInt (s : jsstring) : Z :=
  fold_left (fun acc c => 10 * acc + (Z.of_N c - 48)) s 0.

(** [let socket = null; let currentProxy = null;] *)
Record Locals : Type := {
  socket : option nat;
  currentProxy : option nat
}.

Definition cleanup (env : Env) : M (Locals * World) unit :=
  try_catch
    (l ← getL;
     match socket l with
     | None => mret tt
     | Some sid =>
         w ← lift get;
         match sockets w !! sid with
         | None => mret tt
         | Some s =>
             if sk_destroyed s then mret tt
             else
               try_finally
                 (lift (writeCommand env sid QUIT);;
                  try_catch (lift (readResponse env sid 1000);; mret tt)
                            (fun _ => mret tt))
                 (lift (destroy sid))
         end
     end)
    (fun error => mret tt).

Definition effective_timeout (config : ProviderConfig) : Z :=
  if timeout config =? 0 then TIMEOUT else timeout config.

(** The [try] block of one attempt, in three parts: the greeting and
    EHLO/HELO exchange, the MAIL FROM / RCPT TO probe with its
    [return], and the acquisition and connection that precede them. *)
Definition greet (env : Env) (sid : nat) (domain : jsstring)
           (config : ProviderConfig) : M (Locals * World) unit :=
  greeting ← lift (readResponse env sid (effective_timeout config));
  if negb (startsWith (str "220") greeting)
  then throw (Error "Invalid server greeting")
  else
    lift (writeCommand env sid (EHLO domain));;
    ehloResponse ← lift (readResponse env sid (effective_timeout config));
    if negb (startsWith (str "250") ehloResponse)
    then
      lift (writeCommand env sid (HELO domain));;
      ehloResponse' ← lift (readResponse env sid (effective_timeout config));
      if negb (startsWith (str "250") ehloResponse')
      then throw (Error "HELO/EHLO failed")
      else mret tt
    else mret tt.

Definition probe (env : Env) (sid : nat) (proxy : option nat) (email : JSVal)
           (config : ProviderConfig) : M (Locals * World) VerifyResult :=
  w ← lift get;
  let session := net env (default 0%nat (sk_session <$> sockets w !! sid)) in
  let fromDomain := nth (randIndex session) VALID_DOMAINS (str "undefined") in
  let fromAddress := str "verify." ++ randToken session ++ str "@" ++ fromDomain in
  lift (writeCommand env sid (MAIL_FROM fromAddress));;
  fromResponse ← lift (readResponse env sid (effective_timeout config));
  if negb (startsWith (str "250") fromResponse)
  then throw (Error "MAIL FROM failed")
  else
    lift (writeCommand env sid (RCPT_TO (to_js_string email)));;
    rcptResponse ← lift (readResponse env sid (effective_timeout config));
    let code := substring_to 3 rcptResponse in
    let exists_ :=
      startsWith (str "2") code
      || jsstring_eqb code (str "451")
      || jsstring_eqb code (str "452") in
    lift (markProxySuccess proxy);;
    cleanup env;;
    mret {| success := true;
            mailboxExists := exists_;
            code := Some (parseInt code);
            message := Some (substring_from 4 rcptResponse);
            error := None |}.

Definition attempt (env : Env) (host : jsstring) (email : JSVal) (domain : jsstring)
           (config : ProviderConfig) : M (Locals * World) VerifyResult :=
  proxy ← lift (getNextProxy env);
  modifyL (fun l => {| socket := socket l; currentProxy := proxy |});;
  match proxy with
  | None => throw (Error "No available proxies")
  | Some _ =>
      sid ← lift (createProxyConnection env proxy host 25);
      modifyL (fun l => {| socket := Some sid; currentProxy := currentProxy l |});;
      greet env sid domain config;;
      probe env sid proxy email config
  end.

(** The [catch] block of one attempt. *)
Definition attempt_failed (env : Env) (retryCount : Z) : M (Locals * World) unit :=
  l ← getL;
  (match currentProxy l with
   | Some _ => lift (markProxyFailure (currentProxy l))
   | None => mret tt
   end);;
  cleanup env;;
  let retryCount := retryCount + 1 in
  if retryCount <? MAX_RETRIES
  then lift (sleep (RETRY_DELAY * retryCount))
  else mret tt.

(** [while (retryCount < MAX_RETRIES)]; [remaining] is
    [MAX_RETRIES - retryCount]. *)
Fixpoint attempts (env : Env) (host : jsstring) (email : JSVal) (domain : jsstring)
         (config : ProviderConfig)
         (remaining : nat) (retryCount : Z) : M (Locals * World) VerifyResult :=
  match remaining with
  | O =>
      mret {| success := false;
              mailboxExists := false;
              code := None;
              message := None;
              error := Some ("Verification failed after " +:+ string_of_Z MAX_RETRIES
                             +:+ " attempts") |}
  | S k =>
      returned ←
        try_catch
          (Some <$> attempt env host email domain config)
          (fun error => attempt_failed env retryCount;; mret None);
      match returned with
      | Some result => mret result
      | None => attempts env host email domain config k (retryCount + 1)
      end
  end.

Definition verifyMailbox (env : Env) (host : jsstring) (email : JSVal)
           (domain : jsstring) (config : ProviderConfig) : M World VerifyResult :=
  modify (fun w => set_probes (probes w ++ [host]) w);;
  with_locals {| socket := None; currentProxy := None |}
    (attempts env host email domain config (Z.to_nat MAX_RETRIES) 0).

(** ** [verifyMailboxWithRetry] *)

Definition or_else (s : option string) (d : string) : string :=
  match s with
  | Some m => if String.eqb m "" then d else m
  | None => d
  end.

Fixpoint retry_loop (env : Env) (host : jsstring) (email : JSVal) (domain : jsstring)
         (config : ProviderConfig)
         (maxRetries : Z) (remaining : nat) (retryCount : Z)
         (lastError : option JSError) : M World VerifyResult :=
  match remaining with
  | O =>
      mret {| success := false;
              mailboxExists := false;
              code := None;
              message := None;
              error := Some (or_else (Control.message <$> lastError)
                               ("Verification failed after " +:+ string_of_Z maxRetries
                                +:+ " attempts")) |}
  | S k =>
      outcome ←
        try_catch
          (result ← verifyMailbox env host email domain config;
           if success result then mret (inl result)
           else mret (inr (Error (or_else (error result) "Verification failed"))))
          (fun error =>
             (if includes (str "connect") (str (Control.message error))
              then sleep (RETRY_DELAY * 2 ^ retryCount)
              else mret tt);;
             mret (inr error));
      match outcome with
      | inl result => mret result
      | inr lastError' =>
          (if retryCount <? maxRetries - 1
           then sleep (RETRY_DELAY * 2 ^ retryCount)
           else mret tt);;
          retry_loop env host email domain config maxRetries k (retryCount + 1)
                     (Some lastError')
      end
  end.

Definition verifyMailboxWithRetry (env : Env) (host : jsstring) (email : JSVal)
           (domain : jsstring) (config : ProviderConfig) : M World VerifyResult :=
  let maxRetries := if jsstring_eqb (provider config) (str "outlook.com") then 5 else MAX_RETRIES in
  retry_loop env host email domain config maxRetries (Z.to_nat maxRetries) 0 None.

End Smtp.

(* ===================================================================== *)
(** * server/validators/email.js : the staged pipeline *)
(* ===================================================================== *)

Module Validator.
Import EmailFormat Smtp.

(** ** DNS facade *)

Definition checkDNS (env : Env) (domain : jsstring) : bool :=
  existsb (dnsResolve env domain) [RR_A; RR_AAAA; RR_CNAME].

(** [records.sort((a, b) => a.priority - b.priority)]: stable. *)
Fixpoint insert_mx (x : MXRecord) (sorted : list MXRecord) : list MXRecord :=
  match sorted with
  | [] => [x]
  | y :: rest =>
      if priority x <=? priority y then x :: sorted else y :: insert_mx x rest
  end.

Definition sort_mx (records : list MXRecord) : list MXRecord :=
  fold_right insert_mx [] records.

(** [None] is the [false] of the source. *)
Definition checkMX (env : Env) (domain : jsstring) : option (list MXRecord) :=
  match resolveMx env domain with
  | Normal records =>
      match records with
      | [] => None
      | _ => Some (sort_mx records)
      end
  | Throw _ => None
  end.

Record SpfResult : Type := { spf_exists : bool; spf_record : JSVal }.

Definition checkSPF (env : Env) (domain : jsstring) : SpfResult :=
  match resolveTxt env domain with
  | Normal txtRecords =>
      match find (startsWith (str "v=spf1")) (concat txtRecords) with
      | Some spfRecord => {| spf_exists := truthy (JStr spfRecord); spf_record := JStr spfRecord |}
      | None => {| spf_exists := false; spf_record := JUndefined |}
      end
  | Throw _ => {| spf_exists := false; spf_record := JNull |}
  end.

(** ** The result object *)

Record Checks : Type := {
  format : bool;
  dns : bool;
  mx : bool;
  spf : bool;
  smtp : bool;
  mailbox : bool;
  catchAll : JSVal
}.

Record Details : Type := {
  mxRecords : list MXRecord;
  spfRecord : JSVal;
  smtpResponse : option VerifyResult
}.

Record ValidationResult : Type := {
  email : JSVal;
  valid : bool;
  checks : Checks;
  details : Details;
  reason : string
}.

(** The variables of [validateEmail] that its [catch] block and the
    code after the loop can see. *)
Record Frame : Type := {
  result : ValidationResult;
  smtpSuccess : bool;
  lastError : option string
}.

Definition initial (email : JSVal) : Frame :=
  {| result :=
       {| email := email;
          valid := false;
          checks := {| format := false; dns := false; mx := false; spf := false;
                       smtp := false; mailbox := false; catchAll := JBool false |};
          details := {| mxRecords := []; spfRecord := JNull; smtpResponse := None |};
          reason := "" |};
     smtpSuccess := false;
     lastError := None |}.

Definition on_result (f : ValidationResult -> ValidationResult) (fr : Frame) : Frame :=
  {| result := f (result fr); smtpSuccess := smtpSuccess fr; lastError := lastError fr |}.
Definition on_checks (f : Checks -> Checks) (r : ValidationResult) : ValidationResult :=
  {| email := email r; valid := valid r; checks := f (checks r);
     details := details r; reason := reason r |}.
Definition on_details (f : Details -> Details) (r : ValidationResult) : ValidationResult :=
  {| email := email r; valid := valid r; checks := checks r;
     details := f (details r); reason := reason r |}.
Definition set_reason (s : string) (r : ValidationResult) : ValidationResult :=
  {| email := email r; valid := valid r; checks := checks r;
     details := details r; reason := s |}.
Definition set_valid (b : bool) (r : ValidationResult) : ValidationResult :=
  {| email := email r; valid := b; checks := checks r;
     details := details r; reason := reason r |}.
Definition set_smtpSuccess (b : bool) (fr : Frame) : Frame :=
  {| result := result fr; smtpSuccess := b; lastError := lastError fr |}.
Definition set_lastError (e : option string) (fr : Frame) : Frame :=
  {| result := result fr; smtpSuccess := smtpSuccess fr; lastError := e |}.

Definition set_format (b : bool) (c : Checks) : Checks :=
  {| format := b; dns := dns c; mx := mx c; spf := spf c; smtp := smtp c;
     mailbox := mailbox c; catchAll := catchAll c |}.
Definition set_dns (b : bool) (c : Checks) : Checks :=
  {| format := format c; dns := b; mx := mx c; spf := spf c; smtp := smtp c;
     mailbox := mailbox c; catchAll := catchAll c |}.
Definition set_mx (b : bool) (c : Checks) : Checks :=
  {| format := format c; dns := dns c; mx := b; spf := spf c; smtp := smtp c;
     mailbox := mailbox c; catchAll := catchAll c |}.
Definition set_spf (b : bool) (c : Checks) : Checks :=
  {| format := format c; dns := dns c; mx := mx c; spf := b; smtp := smtp c;
     mailbox := mailbox c; catchAll := catchAll c |}.
Definition set_smtp_checks (s m : bool) (ca : JSVal) (c : Checks) : Checks :=
  {| format := format c; dns := dns c; mx := mx c; spf := spf c; smtp := s;
     mailbox := m; catchAll := ca |}.

Definition set_mxRecords (l : list MXRecord) (d : Details) : Details :=
  {| mxRecords := l; spfRecord := spfRecord d; smtpResponse := smtpResponse d |}.
Definition set_spfRecord (v : JSVal) (d : Details) : Details :=
  {| mxRecords := mxRecords d; spfRecord := v; smtpResponse := smtpResponse d |}.
Definition set_smtpResponse (v : option VerifyResult) (d : Details) : Details :=
  {| mxRecords := mxRecords d; spfRecord := spfRecord d; smtpResponse := v |}.

(** ** [validateEmail] *)

(** [email.split('@')] *)
Definition split_at {S} (email : JSVal) : M S (list jsstring) :=
  match email with
  | JStr s => mret (split (str "@") s)
  | _ => throw (Error "email.split is not a function")
  end.

(** One turn of [for (const mx of mxRecords)]; the value tells whether
    the turn ended in [break]. *)
Definition mx_turn (env : Env) (email : JSVal) (domain : jsstring)
           (providerConfig : ProviderConfig) (mx : MXRecord) : M (Frame * World) bool :=
  try_catch
    (verifyResult ←
       lift (if jsstring_eqb (provider providerConfig) (str "outlook.com")
             then verifyMailboxWithRetry env (exchange mx) email domain providerConfig
             else verifyMailbox env (exchange mx) email domain providerConfig);
     if success verifyResult
     then
       modifyL (on_result (on_checks
         (set_smtp_checks true (mailboxExists verifyResult) (isCatchAll verifyResult))));;
       modifyL (on_result (on_details (set_smtpResponse (Some verifyResult))));;
       if truthy (isCatchAll verifyResult) && rejectCatchAll providerConfig
       then
         modifyL (on_result (set_valid false));;
         modifyL (on_result (set_reason "Catch-all domain detected"));;
         mret true
       else
         fr ← getL;
         if mailbox (checks (result fr))
         then modifyL (set_smtpSuccess true);; mret true
         else modifyL (set_lastError (error verifyResult));; mret false
     else
       modifyL (set_lastError (error verifyResult));; mret false)
    (fun error =>
       modifyL (set_lastError (Some (Control.message error)));; mret false).

Fixpoint mx_loop (env : Env) (email : JSVal) (domain : jsstring)
         (providerConfig : ProviderConfig) (mxRecords : list MXRecord) : M (Frame * World) unit :=
  match mxRecords with
  | [] => mret tt
  | mx :: rest =>
      stop ← mx_turn env email domain providerConfig mx;
      if (stop : bool) then mret tt
      else mx_loop env email domain providerConfig rest
  end.

(** The body of the outer [try]. *)
Definition stages (env : Env) (email : JSVal) : M (Frame * World) unit :=
  modifyL (on_result (on_checks (set_format (validateEmailFormat email))));;
  fr ← getL;
  if negb (format (checks (result fr)))
  then modifyL (on_result (set_reason "Invalid email format"))
  else
    parts ← split_at email;
    let localPart := default [] (parts !! 0%nat) in
    if (64 <? length localPart)%nat
    then modifyL (on_result (set_reason "Local part exceeds maximum length"))
    else
      match parts !! 1%nat with
      | None => throw (Error "Cannot read properties of undefined (reading 'length')")
      | Some domain =>
          if (255 <? length domain)%nat
          then modifyL (on_result (set_reason "Domain exceeds maximum length"))
          else
            modifyL (on_result (on_checks (set_dns (checkDNS env domain))));;
            fr ← getL;
            if negb (dns (checks (result fr)))
            then modifyL (on_result (set_reason "Domain does not exist"))
            else
              match checkMX env domain with
              | None => modifyL (on_result (set_reason "No mail servers found for domain"))
              | Some mxRecords =>
                  modifyL (on_result (on_checks (set_mx true)));;
                  modifyL (on_result (on_details (set_mxRecords mxRecords)));;
                  let spfResult := checkSPF env domain in
                  modifyL (on_result (on_checks (set_spf (spf_exists spfResult))));;
                  modifyL (on_result (on_details (set_spfRecord (spf_record spfResult))));;
                  let providerConfig := getProviderConfig domain in
                  modifyL (set_smtpSuccess false);;
                  modifyL (set_lastError None);;
                  mx_loop env email domain providerConfig mxRecords;;
                  fr ← getL;
                  if smtpSuccess fr
                  then
                    modifyL (on_result (set_valid true));;
                    modifyL (on_result (set_reason "Email is valid"))
                  else if dns (checks (result fr)) && mx (checks (result fr))
                  then
                    modifyL (on_result (set_valid false));;
                    modifyL (on_result (set_reason
                      (or_else (lastError fr) "Failed to verify mailbox")))
                  else
                    modifyL (on_result (set_valid false));;
                    modifyL (on_result (set_reason "Domain validation failed"))
              end
      end.

Definition validateEmail (env : Env) (email : JSVal) : M World ValidationResult :=
  with_locals (initial email)
    (try_catch
       (stages env email)
       (fun error =>
          modifyL (on_result (set_reason ("Validation error: " +:+ Control.message error))));;
     fr ← getL;
     mret (result fr)).

End Validator.

(* ===================================================================== *)
(** * server/routes/validation.js *)
(* ===================================================================== *)

Module Routes.
Import Validator.

Definition BATCH_SIZE : nat := 5.
Definition MAX_RETRIES : Z := 3.
Definition RETRY_DELAY : Z := 5000.
Definition BATCH_DELAY : Z := 2000.

Fixpoint validateEmailWithRetry_rec (env : Env) (depth : nat) (email : JSVal)
         (retryCount : Z) : M World ValidationResult :=
  match depth with
  | O => throw (Error "Maximum call stack size exceeded")
  | S d =>
      try_catch
        (validateEmail env email)
        (fun error =>
           if retryCount <? MAX_RETRIES
           then
             sleep (RETRY_DELAY * (retryCount + 1));;
             validateEmailWithRetry_rec env d email (retryCount + 1)
           else throw error)
  end.

Definition validateEmailWithRetry (env : Env) (email : JSVal) : M World ValidationResult :=
  validateEmailWithRetry_rec env ProxyManager.CALL_DEPTH email 0.

(** ** Entries of a result array *)

(** The [checks] literal of the placeholder objects (no [catchAll]). *)
Record PlaceholderChecks : Type := {
  p_format : bool;
  p_dns : bool;
  p_mx : bool;
  p_spf : bool;
  p_smtp : bool;
  p_mailbox : bool
}.

Inductive Entry : Type :=
| Validated (value : ValidationResult)
| Placeholder (valid : bool) (reason : string) (checks : PlaceholderChecks).

Definition placeholder (reason : string) : Entry :=
  Placeholder false reason
    {| p_format := false; p_dns := false; p_mx := false;
       p_spf := false; p_smtp := false; p_mailbox := false |}.

(** ** Promise combinators

    The validations of one batch are started together; the model runs
    them one after the other, in the order of the array, which is the
    order in which both combinators report their results. *)
Definition settle {A} (p : M World A) : M World (Completion A) :=
  fun w => match p w with (c, w') => (Normal c, w') end.

Fixpoint allSettled {A} (ps : list (M World A)) : M World (list (Completion A)) :=
  match ps with
  | [] => mret []
  | p :: rest =>
      c ← settle p;
      cs ← allSettled rest;
      mret (c :: cs)
  end.

Fixpoint fulfilled_values {A} (cs : list (Completion A)) : Completion (list A) :=
  match cs with
  | [] => Normal []
  | Throw e :: _ => Throw e
  | Normal a :: rest =>
      match fulfilled_values rest with
      | Normal l => Normal (a :: l)
      | Throw e => Throw e
      end
  end.

Definition all {A} (ps : list (M World A)) : M World (list A) :=
  cs ← allSettled ps;
  match fulfilled_values cs with
  | Normal l => mret l
  | Throw e => throw e
  end.

(** [arr.slice(i, j)] *)
Definition slice {A} (i j : nat) (l : list A) : list A := take (j - i) (drop i l).

Section Route.
(** The routes call [validateEmailWithRetry]; they are written once
    for any validator and instantiated below. *)
Variable validator : JSVal -> M World ValidationResult.

(** *** [POST /validate/batch] *)

Inductive Body : Type :=
| NotAnArray (v : JSVal)
| ArrayOf (emails : list JSVal).

Inductive BatchResponse : Type :=
| BadRequest (error : string)
| Json (results : list Entry)
| ServerError (error details : string).

Definition entry_of_settled (settled : Completion ValidationResult) : Entry :=
  match settled with
  | Normal value => Validated value
  | Throw reason => placeholder (Smtp.or_else (Some (Control.message reason)) "Validation failed")
  end.

(** [for (let i = 0; i < emails.length; i += batchSize)]; the local
    store is [results]. *)
Fixpoint batch_loop (emails : list JSVal) (fuel : nat) (i : nat)
  : M (list Entry * World) unit :=
  match fuel with
  | O => mret tt
  | S fuel' =>
      if (i <? length emails)%nat
      then
        let batch := slice i (i + BATCH_SIZE) emails in
        try_catch
          (batchResults ← lift (allSettled (map validator batch));
           modifyL (fun results => results ++ map entry_of_settled batchResults);;
           if (i + BATCH_SIZE <? length emails)%nat
           then lift (sleep BATCH_DELAY)
           else mret tt)
          (fun error =>
             modifyL (fun results =>
               results ++ map (fun _ => placeholder "Batch processing error") batch));;
        batch_loop emails fuel' (i + BATCH_SIZE)%nat
      else mret tt
  end.

Definition validate_batch (body : Body) : M World BatchResponse :=
  try_catch
    (match body with
     | NotAnArray _ =>
         mret (BadRequest "Invalid request format. Expected array of emails.")
     | ArrayOf emails =>
         with_locals []
           (batch_loop emails (length emails) 0;;
            results ← getL;
            mret (Json results))
     end)
    (fun error => mret (ServerError "Failed to validate batch" (Control.message error))).

(** *** [POST /validate/bulk] *)

(** A parsed CSV row: column name to field. *)
Definition Row : Type := gmap string jsstring.

Inductive Event : Type :=
| Progress (processed total : nat) (results : list Entry)
| Complete (results : list Entry)
| Failed (error : string).

(** [a || b] on fields that are strings or [undefined]. *)
Definition field_or (a b : option jsstring) : option jsstring :=
  match a with
  | Some (_ :: _) => a
  | _ => b
  end.

Definition email_of (record : Row) : option jsstring :=
  field_or (field_or (record !! "email") (record !! "Email")) (record !! "EMAIL").

Record Bulk : Type := {
  batch : list jsstring;
  results : list Entry;
  processed : nat;
  written : list Event
}.

Definition flush_batch (total : nat) : M (Bulk * World) unit :=
  try_catch
    (st ← getL;
     batchResults ← lift (all (map (fun email => validator (JStr email)) (batch st)));
     let entries := map Validated batchResults in
     let processed' := (processed st + length (batch st))%nat in
     modifyL (fun st =>
       {| batch := batch st; results := results st ++ entries;
          processed := processed';
          written := written st ++ [Progress processed' total entries] |});;
     if (processed' <? total)%nat then lift (sleep BATCH_DELAY) else mret tt)
    (fun error =>
       st ← getL;
       let errorResults := map (fun _ => placeholder "Batch processing error") (batch st) in
       let processed' := (processed st + length (batch st))%nat in
       modifyL (fun st =>
         {| batch := batch st; results := results st ++ errorResults;
            processed := processed';
            written := written st ++ [Progress processed' total errorResults] |}));;
  modifyL (fun st =>
    {| batch := []; results := results st; processed := processed st;
       written := written st |}).

(** [for await (const record of parser)] *)
Fixpoint bulk_loop (total : nat) (records : list Row) : M (Bulk * World) unit :=
  match records with
  | [] => mret tt
  | record :: rest =>
      (match email_of record with
       | Some (c :: e) =>
           modifyL (fun st =>
             {| batch := batch st ++ [c :: e]; results := results st;
                processed := processed st; written := written st |});;
           st ← getL;
           if (length (batch st) =? BATCH_SIZE)%nat
              || (processed st + length (batch st) =? total)%nat
           then flush_batch total
           else mret tt
       | _ => mret tt
       end);;
      bulk_loop total rest
  end.

(** The rows are those the CSV parser yields, in both passes over
    the uploaded file; the value is the sequence of chunks written
    to the response. *)
Definition validate_bulk (rows : list Row) : M World (list Event) :=
  with_locals {| batch := []; results := []; processed := 0%nat; written := [] |}
    (try_catch
       (let total := length rows in
        bulk_loop total rows;;
        modifyL (fun st =>
          {| batch := batch st; results := results st; processed := processed st;
             written := written st ++ [Complete (results st)] |}))
       (fun error =>
          modifyL (fun st =>
            {| batch := batch st; results := results st; processed := processed st;
               written := written st ++ [Failed "Failed to process CSV file"] |}));;
     st ← getL;
     mret (written st)).

End Route.

Definition batch_route (env : Env) : Body -> M World BatchResponse :=
  validate_batch (validateEmailWithRetry env).

Definition bulk_route (env : Env) : list Row -> M World (list Event) :=
  validate_bulk (validateEmailWithRetry env).

End Routes.

(* ===================================================================== *)
(** * Built-in string functions used by the files below *)
(* ===================================================================== *)

Module Text.

(** White space and line terminators, as [String.prototype.trim]
    removes them: TAB, LF, VT, FF, CR, SP, NBSP, U+1680, U+2000 to
    U+200A, LS, PS, U+202F, U+205F, U+3000 and the BOM. *)
Definition is_space (c : jschar) : bool :=
  ((9 <=? c) && (c <=? 13) || (c =? 32) || (c =? 160) || (c =? 5760)
   || (8192 <=? c) && (c <=? 8202) || (c =? 8232) || (c =? 8233)
   || (c =? 8239) || (c =? 8287) || (c =? 12288) || (c =? 65279))%N.

Fixpoint trimStart (s : jsstring) : jsstring :=
  match s with
  | c :: s' => if is_space c then trimStart s' else s
  | [] => []
  end.

Definition trimEnd (s : jsstring) : jsstring := rev (trimStart (rev s)).

(** [s.trim()] *)
Definition trim (s : jsstring) : jsstring := trimEnd (trimStart s).

(** [cells.join(sep)] *)
Fixpoint join (sep : jsstring) (cells : list jsstring) : jsstring :=
  match cells with
  | [] => []
  | [c] => c
  | c :: rest => c ++ sep ++ join sep rest
  end.

(** [parseInt(s, 10)]: leading white space is skipped, a sign is
    read, then the longest run of decimal digits; [None] is [NaN].
    The value is the integer the digits denote, which is what the
    engine returns up to 2^53.  Beyond that the engine rounds to a
    double (to [Infinity] for a very long run), which the model does
    not follow: what is stated of the value of a port is stated for
    numbers up to 2^53 only. *)
Definition is_digit (c : jschar) : bool := ((48 <=? c) && (c <=? 57))%N.

Fixpoint digits (s : jsstring) : jsstring :=
  match s with
  | c :: s' => if is_digit c then c :: digits s' else []
  | [] => []
  end.

Definition digits_value (ds : jsstring) : Z :=
  fold_left (fun acc c => 10 * acc + (Z.of_N c - 48)) ds 0.

Definition parseInt10 (s : jsstring) : option Z :=
  let s := trimStart s in
  let '(sign, s) :=
    match s with
    | c :: s' =>
        if jschar_eqb c (ch "-") then (-1, s')
        else if jschar_eqb c (ch "+") then (1, s')
        else (1, s)
    | [] => (1, s)
    end in
  match digits s with
  | [] => None
  | ds => Some (sign * digits_value ds)
  end.

End Text.

(* ===================================================================== *)
(** * server/routes/validation.js : [POST /validate] *)
(* ===================================================================== *)

Module SingleRoute.
Import Validator Routes.

(** The three answers of the route: [res.status(400).json(...)],
    [res.json(result)] and [res.status(500).json(...)]. *)
Inductive Response : Type :=
| Status400 (valid : bool) (reason : string)
| Status200 (result : ValidationResult)
| Status500 (valid : bool) (reason : string) (error : option string).

Section Route.
Variable validator : JSVal -> M World ValidationResult.
(** [process.env.NODE_ENV === 'development'] *)
Variable development : bool.

(** [email] is [req.body.email], [undefined] when the body has no
    such property. *)
Definition validate_single (email : JSVal) : M World Response :=
  try_catch
    (if negb (truthy email)
     then mret (Status400 false "Email is required")
     else
       result ← validator email;
       mret (Status200 result))
    (fun error =>
       mret (Status500 false "Validation service error"
               (if development then Some (Control.message error) else None))).
End Route.

Definition single_route (env : Env) (development : bool) : JSVal -> M World Response :=
  validate_single (validateEmailWithRetry env) development.

End SingleRoute.


(* ===================================================================== *)
(** * server/lib/proxyManager.js : [loadProxies] *)
(* ===================================================================== *)

Module ProxyFile.
Import Text ProxyManager.

(** The object built from one line, before the last [filter]: the
    pieces of [line.split(':')], each trimmed; a missing piece is
    [undefined], and [parseInt(undefined, 10)] is [NaN]. *)
Record Candidate : Type := {
  c_host : option jsstring;
  c_port : option Z;
  c_username : option jsstring;
  c_password : option jsstring
}.

Definition candidate (line : jsstring) : Candidate :=
  let pieces := map trim (split (str ":") line) in
  {| c_host := pieces !! 0%nat;
     c_port := match pieces !! 1%nat with
               | Some port => parseInt10 port
               | None => None
               end;
     c_username := pieces !! 2%nat;
     c_password := pieces !! 3%nat |}.

(** [proxy.host && !isNaN(proxy.port)] *)
Definition accepted (c : Candidate) : option Proxy :=
  match c_host c, c_port c with
  | Some (h0 :: h), Some p => Some (loaded (h0 :: h) p (c_username c) (c_password c))
  | _, _ => None
  end.

(** [line && !line.startsWith('#')] *)
Definition is_entry (line : jsstring) : bool :=
  match line with
  | [] => false
  | _ => negb (startsWith (str "#") line)
  end.

Definition parseProxies (content : jsstring) : list Proxy :=
  omap (fun line => accepted (candidate line))
       (List.filter is_entry (map trim (split [10%N] content))).

(** [file] is the outcome of [fs.readFile(filePath, 'utf8')]. *)
Definition loadProxies (file : Completion jsstring) : M World bool :=
  try_catch
    (match file with
     | Normal content =>
         modify (fun w => set_pool (parseProxies content) (currentIndex w) w);;
         mret true
     | Throw error => throw error
     end)
    (fun error => mret false).

End ProxyFile.
(* ===================================================================== *)
(** * src/lib/csvProcessing.ts : reading and writing CSV lines *)
(* ===================================================================== *)

Module Csv.

Import Text.

(** The double quote (U+0022) and the comma. *)
Definition quote : jschar := 34%N.
Definition comma : jschar := ch ",".

(** The loop of [parseCSVLine]; [line] is what remains of the line
    from index [i] on.  An escaped quote advances by two. *)
Fixpoint parse_loop (line : jsstring) (inQuotes : bool) (currentValue : jsstring)
         (result : list jsstring) : list jsstring :=
  match line with
  | [] => result ++ [currentValue]
  | char :: rest =>
      if jschar_eqb char quote
      then
        match rest with
        | next :: rest' =>
            if inQuotes && jschar_eqb next quote
            then parse_loop rest' inQuotes (currentValue ++ [quote]) result
            else parse_loop rest (negb inQuotes) currentValue result
        | [] => parse_loop rest (negb inQuotes) currentValue result
        end
      else if jschar_eqb char comma && negb inQuotes
      then parse_loop rest inQuotes [] (result ++ [currentValue])
      else parse_loop rest inQuotes (currentValue ++ [char]) result
  end.

Definition parseCSVLine (line : jsstring) : list jsstring :=
  map trim (parse_loop line false [] []).

(** A cell handed to [escapeCSVValue]: [string | boolean]. *)
Inductive Cell : Type :=
| Text (s : jsstring)
| Flag (b : bool).

(** [String(value)] *)
Definition String_of (value : Cell) : jsstring :=
  match value with
  | Text s => s
  | Flag b => if b then str "true" else str "false"
  end.

(** [s.replace] of every double quote by two double quotes. *)
Definition double_quotes (s : jsstring) : jsstring :=
  flat_map (fun c => if jschar_eqb c quote then [quote; quote] else [c]) s.

Definition escapeCSVValue (value : Cell) : jsstring :=
  let stringValue := String_of value in
  if includes [comma] stringValue || includes [quote] stringValue
     || includes [10%N] stringValue
  then [quote] ++ double_quotes stringValue ++ [quote]
  else stringValue.

(** The text written by [updateValidatedFile]: the header line with
    the validation headers appended, then one line per row. *)
Definition csvContent (headers validationHeaders : list jsstring)
           (allRows : list (list jsstring)) : jsstring :=
  join [10%N]
    (join [comma] (map (fun h => escapeCSVValue (Text h)) (headers ++ validationHeaders))
     :: map (fun row => join [comma] (map (fun v => escapeCSVValue (Text v)) row)) allRows).

End Csv.

(* ===================================================================== *)
(** * src/lib/csvProcessing.ts : the files of a user and their validation *)
(* ===================================================================== *)

Module CsvFlow.
Import Text.

Definition BATCH_SIZE : nat := 50.
Definition MAX_RETRIES : Z := 3.
Definition RETRY_DELAY : Z := 2000.

(** A [File]: its [name] and its content. *)
Record File : Type := { name : jsstring; text : jsstring }.

(** [ValidationResult] as the page reads it: [checks.catchAll] is
    not part of the declared type and may be absent. *)
Record Checks : Type := {
  mx : bool;
  dns : bool;
  spf : bool;
  mailbox : bool;
  smtp : bool;
  catchAll : option bool
}.

Record Result : Type := {
  valid : bool;
  reason : jsstring;
  checks : Checks
}.

(** A response of [fetch]: [ok], [status] and the outcome of
    [json()], an array whose entries may be [null]. *)
Record Response : Type := {
  ok : bool;
  status : Z;
  json : Completion (list (option Result))
}.

(** What the page asks of the outside, oldest first: the session
    ([supabase.auth.getUser()]), the bucket ([ensureUserBucket]), the
    clock, the storage ([upload], [download], [remove]), the batch
    route of the server, the timer and the progress callback, which
    is handed [(processedCount / totalRows) * 100]. *)
Inductive Call : Type :=
| GetUser
| EnsureUserBucket (id : jsstring)
| GetTime
| Upload (path content : jsstring) (upsert : bool)
| Download (path : jsstring)
| Remove (path : jsstring)
| PostBatch (emails : list (option jsstring))
| Sleep (ms : Z)
| Progress (processedCount totalRows : nat).

Definition Store : Type := list Call.

(** The answers of the outside, given the position of the call in
    the log and its arguments.  [getUser] gives the id of the user,
    or [None] for [null]; the storage calls give the fields [data]
    and [error] of the object they resolve with.  [toLowerCase] is
    the function of the engine. *)
Record Env : Type := {
  getUser : nat -> Completion (option jsstring);
  ensureUserBucket : nat -> jsstring -> Completion unit;
  getTime : nat -> Z;
  upload : nat -> jsstring -> jsstring -> bool -> Completion (option JSError);
  download : nat -> jsstring -> Completion (option jsstring * option JSError);
  remove : nat -> jsstring -> Completion (option JSError);
  fetch : nat -> list (option jsstring) -> Completion Response;
  toLowerCase : jsstring -> jsstring
}.

(** One call to the outside: it is logged, and answered. *)
Definition outside {A} (c : Call) (answer : nat -> Completion A) : M Store A :=
  fun s => (answer (length s), s ++ [c]).

Definition sleep (ms : Z) : M Store unit := outside (Sleep ms) (fun _ => Normal tt).

(** [/[^a-zA-Z0-9._-]/g] *)
Definition safe_char (c : jschar) : bool :=
  Regex.letter c || Regex.digit c || Regex.one_of "._-" c.

(** [name.replace(/[^a-zA-Z0-9._-]/g, '_')] *)
Definition sanitize (name : jsstring) : jsstring :=
  map (fun c => if safe_char c then c else ch "_") name.

(** [s.replace(pattern, replacement)] with a string pattern: the
    first occurrence is replaced (the replacement holds no [$]). *)
Fixpoint replace_first (pattern replacement s : jsstring) : jsstring :=
  if startsWith pattern s then replacement ++ drop (length pattern) s
  else
    match s with
    | [] => []
    | c :: s' => c :: replace_first pattern replacement s'
    end.

Definition validationHeaders : list jsstring :=
  [ str "validation_result"; str "validation_reason"; str "mx_check";
    str "dns_check"; str "spf_check"; str "mailbox_check"; str "smtp_check";
    str "catch_all" ].

Definition String_of_bool (b : bool) : jsstring :=
  if b then str "true" else str "false".

(** The cells pushed on a row for its result; [None] is a missing or
    [null] entry of the answer. *)
Definition result_cells (result : option Result) : list jsstring :=
  match result with
  | Some result =>
      [ if valid result then str "Valid" else str "Invalid";
        map (fun c => if jschar_eqb c (ch ",") then ch ";" else c) (reason result);
        String_of_bool (mx (checks result));
        String_of_bool (dns (checks result));
        String_of_bool (spf (checks result));
        String_of_bool (mailbox (checks result));
        String_of_bool (smtp (checks result));
        String_of_bool (default false (catchAll (checks result))) ]
  | None => replicate (length validationHeaders) []
  end.

(** [batchRows.forEach((row, index) => ...)]: the rows are those of
    [rows], extended in place. *)
Definition push_results (batchRows : list (list jsstring))
           (validationResults : list (option Result)) : list (list jsstring) :=
  imap (fun index row => row ++ result_cells (mjoin (validationResults !! index))) batchRows.

Definition push_errors (batchRows : list (list jsstring)) : list (list jsstring) :=
  map (fun row => row ++ replicate (length validationHeaders) (str "Error: Failed to validate"))
      batchRows.

Record CSVData : Type := {
  headers : list jsstring;
  rows : list (list jsstring);
  emailIndex : nat
}.

Section Flow.
Variable env : Env.

Definition uploadAndProcessCSV (file : File) : M Store jsstring :=
  try_catch
    (user ← outside GetUser (getUser env);
     match user with
     | None => throw (Error "User not authenticated")
     | Some id =>
         outside (EnsureUserBucket id) (fun k => ensureUserBucket env k id);;
         timestamp ← outside GetTime (fun k => Normal (getTime env k));
         let sanitizedFileName := sanitize (name file) in
         let filePath :=
           id ++ str "/processing/" ++ str (string_of_Z timestamp) ++ str "_"
              ++ sanitizedFileName in
         uploadError ← outside (Upload filePath (text file) false)
                               (fun k => upload env k filePath (text file) false);
         match uploadError with
         | Some e => throw e
         | None => mret filePath
         end
     end)
    (fun error => throw (Error "Failed to upload file")).

Definition downloadProcessedCSV (filePath : jsstring) : M Store jsstring :=
  try_catch
    (user ← outside GetUser (getUser env);
     match user with
     | None => throw (Error "User not authenticated")
     | Some id =>
         if negb (startsWith (id ++ str "/") filePath)
         then throw (Error "Unauthorized access to file")
         else
           answer ← outside (Download filePath) (fun k => download env k filePath);
           match snd answer with
           | Some e => throw e
           | None =>
               match fst answer with
               | None => throw (Error "No data found")
               | Some data => mret data
               end
           end
     end)
    (fun error => throw (Error "Failed to download file")).

Definition parseCSV (text : jsstring) : M Store CSVData :=
  let lines :=
    List.filter (fun line => match line with [] => false | _ => true end)
                (map trim (split [10%N] text)) in
  match lines with
  | [] => throw (Error "CSV file is empty")
  | first :: rest =>
      let headers := Csv.parseCSVLine first in
      match
        list_find (fun h =>
                     includes (str "email") (toLowerCase env h)
                     || jsstring_eqb (toLowerCase env h) (str "address")
                     || jsstring_eqb (toLowerCase env h) (str "mail") = true) headers
      with
      | None => throw (Error "No email column found in CSV")
      | Some (emailIndex, _) =>
          mret {| headers := headers;
                  rows := map Csv.parseCSVLine rest;
                  emailIndex := emailIndex |}
      end
  end.

(** The [try] block of [validateEmailBatch]. *)
Definition post_batch (emails : list (option jsstring)) : M Store (list (option Result)) :=
  response ← outside (PostBatch emails) (fun k => fetch env k emails);
  if negb (ok response)
  then throw (Error ("Server responded with " +:+ string_of_Z (status response)))
  else fun s => (json response, s).

Fixpoint validateEmailBatch_rec (depth : nat) (emails : list (option jsstring))
         (retryCount : Z) : M Store (list (option Result)) :=
  match depth with
  | O => throw (Error "Maximum call stack size exceeded")
  | S d =>
      try_catch
        (post_batch emails)
        (fun error =>
           if retryCount <? MAX_RETRIES
           then
             sleep (RETRY_DELAY * (retryCount + 1));;
             validateEmailBatch_rec d emails (retryCount + 1)
           else throw error)
  end.

Definition validateEmailBatch (emails : list (option jsstring)) :
  M Store (list (option Result)) :=
  validateEmailBatch_rec ProxyManager.CALL_DEPTH emails 0.

Definition updateValidatedFile (filePath : jsstring)
           (headers validationHeaders : list jsstring)
           (allRows : list (list jsstring)) : M Store unit :=
  let csvContent := Csv.csvContent headers validationHeaders allRows in
  let validatedPath := replace_first (str "/processing/") (str "/validated/") filePath in
  uploadError ← outside (Upload validatedPath csvContent true)
                        (fun k => upload env k validatedPath csvContent true);
  match uploadError with
  | Some e => throw e
  | None =>
      deleteError ← outside (Remove filePath) (fun k => remove env k filePath);
      mret tt
  end.

(** [while (!batchSuccess && retryCount < MAX_RETRIES)]; [remaining]
    is [MAX_RETRIES - retryCount].  The value is the rows of the
    batch as the loop leaves them ([failedBatches] is only
    printed and is left out). *)
Fixpoint batch_tries (remaining : nat) (retryCount : Z)
         (batchRows : list (list jsstring)) (batchEmails : list (option jsstring)) :
  M Store (list (list jsstring)) :=
  match remaining with
  | O => mret batchRows
  | S k =>
      turn ←
        try_catch
          (validationResults ← validateEmailBatch batchEmails;
           mret (inl (push_results batchRows validationResults)))
          (fun error =>
             let retryCount := retryCount + 1 in
             if retryCount =? MAX_RETRIES
             then mret (inr (push_errors batchRows))
             else sleep (RETRY_DELAY * retryCount);; mret (inr batchRows));
      match turn with
      | inl batchRows' => mret batchRows'
      | inr batchRows' => batch_tries k (retryCount + 1) batchRows' batchEmails
      end
  end.

(** [for (let i = 0; i < totalRows; i += BATCH_SIZE)]; the state is
    [rows], whose arrays the batch extends, and [processedCount].
    [fuel] bounds the number of turns: [i] grows at each turn, so
    [totalRows] turns are enough. *)
Fixpoint batches (fuel : nat) (filePath : jsstring) (headers : list jsstring)
         (emailIndex totalRows i : nat) : M ((list (list jsstring) * nat) * Store) unit :=
  match fuel with
  | O => mret tt
  | S fuel' =>
      if negb (i <? totalRows)%nat then mret tt
      else
        l ← getL;
        let rows := fst l in
        let batchRows := take BATCH_SIZE (drop i rows) in
        let batchEmails := map (fun row => row !! emailIndex) batchRows in
        batchRows' ← lift (batch_tries (Z.to_nat MAX_RETRIES) 0 batchRows batchEmails);
        modifyL (fun l => (take i (fst l) ++ batchRows' ++ drop (i + length batchRows) (fst l),
                           (snd l + length batchRows)%nat));;
        l ← getL;
        lift (outside (Progress (snd l) totalRows) (fun _ => Normal tt));;
        try_catch
          (lift (updateValidatedFile filePath headers validationHeaders (fst l)))
          (fun error => throw (Error "Failed to save validation results"));;
        batches fuel' filePath headers emailIndex totalRows (i + BATCH_SIZE)
  end.

Definition updateCSVWithValidation (filePath : jsstring) : M Store unit :=
  try_catch
    (user ← outside GetUser (getUser env);
     match user with
     | None => throw (Error "User not authenticated")
     | Some id =>
         if negb (startsWith (id ++ str "/") filePath)
         then throw (Error "Unauthorized access to file")
         else
           answer ← outside (Download filePath) (fun k => download env k filePath);
           match snd answer with
           | Some e => throw e
           | None =>
               match fst answer with
               | None => throw (Error "No file data found")
               | Some originalFile =>
                   data ← parseCSV originalFile;
                   let totalRows := length (rows data) in
                   with_locals (rows data, 0%nat)
                     (batches totalRows filePath (headers data) (emailIndex data)
                              totalRows 0)
               end
           end
     end)
    (fun error =>
       throw (Error ("Failed to update CSV: " +:+ Control.message error))).

End Flow.

End CsvFlow.

(* ===================================================================== *)
(** * Vocabulary of the statements and concrete scenarios *)
(* ===================================================================== *)

Module Spec.
Import ProxyManager.

(** An entry the scan may hand out at time [now]. *)
Definition eligible (now : Z) (p : Proxy) : Prop :=
  failures p < MAX_FAILURES /\
  connections p < MAX_CONNECTIONS /\
  COOLDOWN_PERIOD <= now - lastUsed p.

(** The marks left on the entry that is handed out. *)
Definition mark (now : Z) (p : Proxy) : Proxy :=
  set_proxy_fields (failures p) now (connections p + 1) p.

(** Position [k] steps after the cursor, around the pool. *)
Definition around (w : World) (k : nat) : nat :=
  ((currentIndex w + k) mod length (proxies w))%nat.

(** World left by a scan that hands out entry [i], found as [p]. *)
Definition handed_out (now : Z) (i : nat) (p : Proxy) (w : World) : World :=
  set_poolLog (poolLog w ++ [Acquired i])
    (set_pool (<[i := mark now p]> (proxies w))
              ((i + 1) mod length (proxies w))%nat w).

(** What the batch route stores for an address: its validation result
    when the validation completed (in some world [wi] of the run), and
    otherwise the placeholder. *)
Definition stored_for (validator : JSVal -> M World Validator.ValidationResult)
           (email : JSVal) (e : Routes.Entry) : Prop :=
  exists wi,
    e = match fst (validator email wi) with
        | Normal value => Routes.Validated value
        | Throw err =>
            Routes.Placeholder false
              (Smtp.or_else (Some (Control.message err)) "Validation failed")
              {| Routes.p_format := false; Routes.p_dns := false; Routes.p_mx := false;
                 Routes.p_spf := false; Routes.p_smtp := false;
                 Routes.p_mailbox := false |}
        end.

(** What the bulk route stores for an address of a flushed batch: a
    validation result, or the placeholder of a batch that failed. *)
Definition flushed_for (validator : JSVal -> M World Validator.ValidationResult)
           (email : jsstring) (e : Routes.Entry) : Prop :=
  (exists wi value,
      fst (validator (JStr email) wi) = Normal value /\ e = Routes.Validated value)
  \/ e = Routes.placeholder "Batch processing error".

(** The addresses of the rows that have one, in row order. *)
Definition addresses (rows : list Routes.Row) : list jsstring :=
  omap (fun record =>
          match Routes.email_of record with
          | Some (c :: e) => Some (c :: e)
          | _ => None
          end) rows.

(** Number of addresses that fill whole batches among [n]. *)
Definition flushed (n : nat) : nat :=
  (Routes.BATCH_SIZE * (n / Routes.BATCH_SIZE))%nat.

Definition is_progress (ev : Routes.Event) : Prop :=
  match ev with Routes.Progress _ _ _ => True | _ => False end.

(** A dialog that ran to its [return]. *)
Definition completed (vr : Smtp.VerifyResult) : Prop :=
  Smtp.success vr = true /\ Smtp.error vr = None.

(** The part of the result that the MX loop never writes. *)
Definition static (r : Validator.ValidationResult) :=
  (Validator.email r, Validator.valid r, Validator.reason r,
   Validator.format (Validator.checks r), Validator.dns (Validator.checks r),
   Validator.mx (Validator.checks r), Validator.spf (Validator.checks r),
   Validator.mxRecords (Validator.details r), Validator.spfRecord (Validator.details r)).

(** [log] lists, in order, one or more probes of each host of [mxs]. *)
Definition covers (mxs : list MXRecord) (log : list jsstring) : Prop :=
  exists blocks,
    log = concat blocks /\
    Forall2 (fun mx block => exists k, block = repeat (exchange mx) (S k)) mxs blocks.

(** The RCPT commands written so far on socket [sid] are [cmds]. *)
Definition rcpts_on (sid : nat) (cmds : list Cmd) (w : World) : Prop :=
  exists s, sockets w !! sid = Some s /\ filter is_rcpt (sk_sent s) = cmds.

(** The locals of [verifyMailbox] before any connection is made. *)
Definition no_socket : Smtp.Locals :=
  {| Smtp.socket := None; Smtp.currentProxy := None |}.

(** The delays awaited by [remaining] failed attempts of
    [verifyMailbox], the first of which has counter [retryCount]. *)
Fixpoint delays (remaining : nat) (retryCount : Z) : list Z :=
  match remaining with
  | O => []
  | S k =>
      (if retryCount + 1 <? Smtp.MAX_RETRIES
       then [Smtp.RETRY_DELAY * (retryCount + 1)] else [])
      ++ delays k (retryCount + 1)
  end.

(** What a turn of the MX loop may leave in [checks.catchAll] and in
    [lastError], given what was there. *)
Definition catchAll_after (before after : JSVal) : Prop :=
  after = before \/ after = JUndefined.

Definition lastError_after (before after : option string) : Prop :=
  after = before \/ after = None \/
  after = Some "Verification failed after 3 attempts"%string.

(** Facts about the result [r] of a validation run from [w] to [w']. *)
Definition settled (w : World) (r : Validator.ValidationResult) (w' : World) : Prop :=
  Validator.catchAll (Validator.checks r) <> JBool true /\
  Validator.reason r <> "Catch-all domain detected"%string /\
  (Validator.mailbox (Validator.checks r) = true ->
   Validator.valid r = true /\ Validator.reason r = "Email is valid"%string) /\
  (Validator.mx (Validator.checks r) = true ->
   Validator.mailbox (Validator.checks r) = false ->
   exists log,
     probes w' = probes w ++ log /\
     covers (Validator.mxRecords (Validator.details r)) log).

(** The two shapes of the object returned by a verification. *)
Definition verdict (vr : Smtp.VerifyResult) : Prop :=
  (Smtp.success vr = true /\ Smtp.error vr = None)
  \/ (Smtp.success vr = false /\ Smtp.mailboxExists vr = false /\
      Smtp.error vr = Some "Verification failed after 3 attempts").

End Spec.

(** Judgements about computations: an invariant of the store kept on
    every exit, the absence of exceptions, a property of the value
    returned, and the general triple with a postcondition for each
    kind of exit. *)
Module Logic.

Definition hoare {S A} (P : S -> Prop) (m : M S A)
           (Q : A -> S -> Prop) (E : JSError -> S -> Prop) : Prop :=
  forall s, P s ->
    match m s with
    | (Normal a, s') => Q a s'
    | (Throw e, s') => E e s'
    end.

Definition inv {S A} (I : S -> Prop) (m : M S A) : Prop :=
  hoare I m (fun _ => I) (fun _ => I).

Definition nothrow {S A} (m : M S A) : Prop :=
  hoare (fun _ => True) m (fun _ _ => True) (fun _ _ => False).

Definition returns {S A} (P : A -> Prop) (m : M S A) : Prop :=
  hoare (fun _ => True) m (fun a _ => P a) (fun _ _ => True).

(** Predicates on the world that do not look at the pool, the clock
    counter or the pool log; and those that moreover do not look at
    the sockets, the dial log or the delays. *)
Definition pool_stable (I : World -> Prop) : Prop :=
  (forall w ps ci, I w -> I (set_pool ps ci w)) /\
  (forall w n, I w -> I (set_ticks n w)) /\
  (forall w l, I w -> I (set_poolLog l w)).

Definition quiet (I : World -> Prop) : Prop :=
  pool_stable I /\
  (forall w sk, I w -> I (set_sockets sk w)) /\
  (forall w d, I w -> I (set_dialed d w)) /\
  (forall w sl, I w -> I (set_sleeps sl w)).

(** The same predicate on a store that also holds local variables. *)
Definition on_world {L S} (I : S -> Prop) : L * S -> Prop :=
  fun ls => I (snd ls).

End Logic.

(** Concrete environments used to run the model. *)
Module Scenarios.
Import ProxyManager Smtp Validator Routes.

(** A three-line EHLO reply, as one buffer. *)
Definition ehlo_reply : jsstring :=
  str "250-mx.example.com" ++ CRLF ++ str "250-SIZE 1000" ++ CRLF
  ++ str "250 END" ++ CRLF.

(** The same reply cut at arbitrary places. *)
Definition ehlo_chunks : list jsstring :=
  [ str "250-mx.exam"; str "ple.com" ++ [13%N];
    [10%N] ++ str "250-SIZE 1000" ++ CRLF ++ str "250 END" ++ CRLF ].

(** A server that greets with [greeting], answers EHLO with the
    three-line reply, accepts any sender and answers every RCPT TO,
    whatever the recipient, with [rcpt]. *)
Definition server (greeting rcpt : jsstring) : Session :=
  {| connect := Normal tt;
     respond := fun sent _ =>
       match last sent with
       | None => [greeting ++ CRLF]
       | Some (EHLO _) => [ehlo_reply]
       | Some (HELO _) => [str "250 mx.example.com" ++ CRLF]
       | Some (MAIL_FROM _) => [str "250 OK" ++ CRLF]
       | Some (RCPT_TO _) => [rcpt ++ CRLF]
       | Some QUIT => [str "221 Bye" ++ CRLF]
       end;
     writes := fun _ => Normal tt;
     randIndex := 1;
     randToken := str "k3j2h1" |}.

Definition mx_records : list MXRecord :=
  [ {| exchange := str "mx2.example.com"; priority := 20 |};
    {| exchange := str "mx1.example.com"; priority := 10 |} ].

(** Every domain resolves, has the two MX hosts above and an SPF
    record; the clock readings are [tick] ms apart. *)
Definition environment (tick : Z) (greeting rcpt : jsstring) : Env :=
  {| clock := fun k => 1700000000000 + tick * Z.of_nat k;
     net := fun _ => server greeting rcpt;
     dnsResolve := fun _ rr => match rr with RR_A => true | _ => false end;
     resolveMx := fun _ => Normal mx_records;
     resolveTxt := fun _ => Normal [[str "v=spf1 -all"]] |}.

Definition accepting : Env :=
  environment 1000 (str "220 mx.example.com ESMTP") (str "250 OK").
Definition rejecting : Env :=
  environment 1000 (str "220 mx.example.com ESMTP") (str "550 5.1.1 User unknown").
Definition patient : Env :=
  environment 60000 (str "220 mx.example.com ESMTP") (str "250 OK").
Definition unwelcoming : Env :=
  environment 40000 (str "554 No SMTP service here") (str "250 OK").

Definition proxy_a : Proxy := loaded (str "10.0.0.1") 1080 None None.
Definition proxy_b : Proxy := loaded (str "10.0.0.2") 1080 None None.

(** The server just started, with the given pool. *)
Definition started (pool : list Proxy) : World :=
  {| proxies := pool; currentIndex := 0; ticks := 0; sockets := [];
     dialed := []; poolLog := []; probes := []; sleeps := [] |}.

Definition address : JSVal := JStr (str "a@example.com").

(** An address whose local part has exactly 64 characters. *)
Definition local64 : jsstring := repeat (ch "a") 64.
Definition address64 : JSVal := JStr (local64 ++ str "@example.com").
Definition local63 : jsstring := repeat (ch "a") 63.
Definition address63 : JSVal := JStr (local63 ++ str "@example.com").

(** CSV rows: six with an address, one without. *)
Definition row (email : string) : Row := {[ "email"%string := str email ]}.
Definition rows : list Row :=
  [ row "a@example.com"; row "b@example.com"; row "";
    row "c@example.com"; row "d@example.com"; row "e@example.com";
    row "f@example.com" ].

End Scenarios.

(* ===================================================================== *)
(** * Further vocabulary *)
(* ===================================================================== *)

Module Props.
Import ProxyManager.

(** The characters of a domain accepted by the format pattern. *)
Definition domain_char (c : jschar) : bool :=
  EmailFormat.label_char c || jschar_eqb (ch ".") c.

(** The counters of a pool entry are in range. *)
Definition within_budget (p : Proxy) : Prop :=
  0 <= failures p /\ 0 <= connections p <= MAX_CONNECTIONS.

(** The fields of a pool entry that [loadProxies] read from the file. *)
Definition endpoint (p : Proxy) : jsstring * Z * option jsstring * option jsstring :=
  (host p, port p, username p, password p).

(** The pool is well formed: counters in range, cursor inside. *)
Definition pool_ok (w : World) : Prop :=
  Forall within_budget (proxies w) /\
  (proxies w = [] \/ (currentIndex w < length (proxies w))%nat).

(** The pool of [w] has the entries of [w0], in the same order, up to
    their counters. *)
Definition same_endpoints (w0 w : World) : Prop :=
  map endpoint (proxies w) = map endpoint (proxies w0).

Definition pool_kept (w0 w : World) : Prop := pool_ok w /\ same_endpoints w0 w.

(** A reply line as the reader accepts it: three digits, then nothing,
    or a space or a hyphen followed by text without line terminator. *)
Definition reply_line (line : jsstring) : Prop :=
  exists d1 d2 d3 rest,
    line = d1 :: d2 :: d3 :: rest /\
    Regex.digit d1 = true /\ Regex.digit d2 = true /\ Regex.digit d3 = true /\
    (rest = [] \/
     exists c text,
       rest = c :: text /\ (c = ch " " \/ c = ch "-") /\
       Forall (fun x => Regex.line_terminator x = false) text).

(** The RCPT reply codes that [verifyMailbox] takes for an existing
    mailbox: [2xx], [451] and [452]. *)
Definition accepted_code (c : Z) : bool :=
  (200 <=? c) && (c <=? 299) || (c =? 451) || (c =? 452).

(** The answer of a dialog that ran to its end, and the answer after
    three failed attempts. *)
Definition answered (vr : Smtp.VerifyResult) : Prop :=
  Smtp.success vr = true /\ Smtp.error vr = None /\
  exists c text,
    Smtp.code vr = Some c /\ 0 <= c <= 999 /\
    Smtp.message vr = Some text /\
    Smtp.mailboxExists vr = accepted_code c.

Definition gave_up (vr : Smtp.VerifyResult) : Prop :=
  Smtp.success vr = false /\ Smtp.mailboxExists vr = false /\
  Smtp.code vr = None /\ Smtp.message vr = None /\
  Smtp.error vr = Some "Verification failed after 3 attempts"%string.

(** Since the dial log was [l0], at most [k] connections were
    attempted, each to port 25 of [host] and through a proxy. *)
Definition dialed_grew (l0 : list (option nat * jsstring * Z)) (host : jsstring)
           (k : nat) (w : World) : Prop :=
  exists new,
    dialed w = l0 ++ new /\ (length new <= k)%nat /\
    Forall (fun d => exists i : nat, d = (Some i, host, 25)) new.

(** The delays awaited so far are [s]. *)
Definition slept (s : list Z) (w : World) : Prop := sleeps w = s.

(** The delays of [remaining] rounds of [verifyMailboxWithRetry] that
    all give up, the first of which has counter [retryCount]: the two
    delays inside each round, and the delay between rounds. *)
Fixpoint round_delays (maxRetries : Z) (remaining : nat) (retryCount : Z) : list Z :=
  match remaining with
  | O => []
  | S k =>
      [2000; 4000]
      ++ (if retryCount <? maxRetries - 1
          then [Smtp.RETRY_DELAY * 2 ^ retryCount] else [])
      ++ round_delays maxRetries k (retryCount + 1)
  end.

(** Every socket ever opened has been destroyed. *)
Definition all_closed (w : World) : Prop :=
  Forall (fun s => sk_destroyed s = true) (sockets w).

(** No socket is open, except possibly the one held in the variable
    [socket] of [verifyMailbox]. *)
Definition only_open (held : option nat) (w : World) : Prop :=
  forall i s, sockets w !! i = Some s -> sk_destroyed s = false -> held = Some i.

Definition holding : Smtp.Locals * World -> Prop :=
  fun lw => only_open (Smtp.socket (fst lw)) (snd lw).

(** The string does not start with white space. *)
Definition no_lead (s : jsstring) : Prop :=
  match s with c :: _ => Text.is_space c = false | [] => True end.

(** A field of a line of the proxies file: no colon, no line feed,
    nothing to trim. *)
Definition field_ok (f : jsstring) : Prop :=
  Forall (fun c => c <> ch ":" /\ c <> 10%N) f /\ Text.trim f = f.

(** The string holds no slash. *)
Definition no_slash (s : jsstring) : Prop := Forall (fun c => c <> ch "/") s.

(** The calls of [validateEmailBatch] when every request fails. *)
Definition batch_schedule (emails : list (option jsstring)) : list CsvFlow.Call :=
  [ CsvFlow.PostBatch emails; CsvFlow.Sleep 2000;
    CsvFlow.PostBatch emails; CsvFlow.Sleep 4000;
    CsvFlow.PostBatch emails; CsvFlow.Sleep 6000;
    CsvFlow.PostBatch emails ].

(** The request sent at position [k] of the log is answered with
    the array [r]. *)
Definition answered_with (env : CsvFlow.Env) (k : nat) (emails : list (option jsstring))
           (r : list (option CsvFlow.Result)) : Prop :=
  exists response,
    CsvFlow.fetch env k emails = Normal response /\
    CsvFlow.ok response = true /\
    CsvFlow.json response = Normal r.

(** The uploads of a log: path, content and [upsert]. *)
Definition uploads (s : CsvFlow.Store) : list (jsstring * jsstring * bool) :=
  omap (fun c => match c with
                 | CsvFlow.Upload p content u => Some (p, content, u)
                 | _ => None
                 end) s.

(** The values handed to the progress callback. *)
Definition progress (s : CsvFlow.Store) : list (nat * nat) :=
  omap (fun c => match c with
                 | CsvFlow.Progress done total => Some (done, total)
                 | _ => None
                 end) s.

(** The row has gained one cell for each validation header. *)
Definition annotated (row row' : list jsstring) : Prop :=
  exists cells,
    row' = row ++ cells /\ length cells = length CsvFlow.validationHeaders.

(** [value] is what the validator returned for [address], in some
    world of the run. *)
Definition validated_as (validator : JSVal -> M World Validator.ValidationResult)
           (address : jsstring) (value : Validator.ValidationResult) : Prop :=
  exists wi, fst (validator (JStr address) wi) = Normal value.

(** A progress event that reports [processed] addresses out of
    [total]. *)
Definition reports (processed total : nat) (ev : Routes.Event) : Prop :=
  exists results, ev = Routes.Progress processed total results.

(** The run of the bulk route over whole batches.  From the world
    [w], with [processed] addresses done out of [total], the
    addresses of [pending] are taken BATCH_SIZE at a time, and each
    batch is validated with [Promise.all] in the world the batch
    before it left.  A batch that is validated writes a progress
    event with its values and is followed by the delay between
    batches; a batch whose validation throws writes a progress event
    with placeholders, and no delay follows.  [evs] are the events
    written, [entries] the results collected, [w'] the world at the
    end: nothing else is run. *)
Inductive flushes (validator : JSVal -> M World Validator.ValidationResult) (total : nat) :
  nat -> list jsstring -> World -> list Routes.Event -> list Routes.Entry -> World -> Prop :=
| flushes_done processed w :
    flushes validator total processed [] w [] [] w
| flushes_validated processed batch rest w values w1 evs entries w' :
    length batch = Routes.BATCH_SIZE ->
    Routes.all (map (fun email => validator (JStr email)) batch) w = (Normal values, w1) ->
    flushes validator total (processed + Routes.BATCH_SIZE) rest
            (set_sleeps (sleeps w1 ++ [Routes.BATCH_DELAY]) w1) evs entries w' ->
    flushes validator total processed (batch ++ rest) w
            (Routes.Progress (processed + Routes.BATCH_SIZE) total
                             (map Routes.Validated values) :: evs)
            (map Routes.Validated values ++ entries) w'
| flushes_failed processed batch rest w error w1 evs entries w' :
    length batch = Routes.BATCH_SIZE ->
    Routes.all (map (fun email => validator (JStr email)) batch) w = (Throw error, w1) ->
    flushes validator total (processed + Routes.BATCH_SIZE) rest w1 evs entries w' ->
    flushes validator total processed (batch ++ rest) w
            (Routes.Progress (processed + Routes.BATCH_SIZE) total
                             (map (fun _ => Routes.placeholder "Batch processing error") batch)
             :: evs)
            (map (fun _ => Routes.placeholder "Batch processing error") batch ++ entries) w'.

End Props.

(** Further data for the runs. *)
Module Samples.
Import Routes Scenarios.

(** CSV rows that all have an address. *)
Definition full_rows : list Row :=
  [ row "a@example.com"; row "b@example.com"; row "c@example.com";
    row "d@example.com"; row "e@example.com"; row "f@example.com" ].

(** Cells with a comma, a double quote and surrounding blanks. *)
Definition cells : list Csv.Cell :=
  [ Csv.Text (str "Doe, Jane");
    Csv.Flag true;
    Csv.Text (str " say " ++ [Csv.quote] ++ str "hi" ++ [Csv.quote] ++ str " ") ].

Definition plain_line : jsstring := str "a@example.com, Ann ,42".

(** A proxies file: a comment, an entry, a blank line, an entry with
    credentials and surrounding blanks, a line without port. *)
Definition proxies_txt : jsstring :=
  Text.join [10%N]
    [ str "# pool"; str "10.0.0.1:1080"; str "";
      str "  10.0.0.2:1080:alice:secret "; str "10.0.0.3" ].

(** A pool of one proxy, just after it was handed out; and the same
    pool after three failures were marked on that proxy. *)
Definition just_used : World :=
  snd (ProxyManager.getNextProxy accepting (started [proxy_a])).

Definition failed_thrice : World :=
  snd ((ProxyManager.markProxyFailure (Some 0%nat);;
        ProxyManager.markProxyFailure (Some 0%nat);;
        ProxyManager.markProxyFailure (Some 0%nat)) just_used).

(** A storage that accepts everything, for the user [id]; the
    validation service is out of reach. *)
Definition storage_for (id : jsstring) : CsvFlow.Env :=
  {| CsvFlow.getUser := fun _ => Normal (Some id);
     CsvFlow.ensureUserBucket := fun _ _ => Normal tt;
     CsvFlow.getTime := fun _ => 1700000000000;
     CsvFlow.upload := fun _ _ _ _ => Normal None;
     CsvFlow.download := fun _ _ => Normal (Some (str "email"), None);
     CsvFlow.remove := fun _ _ => Normal None;
     CsvFlow.fetch := fun _ _ => Throw (Error "Failed to fetch");
     CsvFlow.toLowerCase := Providers.toLowerCase |}.

Definition ann : jsstring := str "7c9e6679-ann".
Definition bob : jsstring := str "7c9e6679-bob".

(** A table whose cells hold commas, double quotes and blanks. *)
Definition table_headers : list jsstring := [ str "Name"; str "Email" ].
Definition table_rows : list (list jsstring) :=
  [ [ str "Doe, Jane"; str " jane@example.com" ];
    [ str "say " ++ [Csv.quote] ++ str "hi" ++ [Csv.quote]; str "joe@example.com " ] ].

Definition contacts : CsvFlow.File :=
  {| CsvFlow.name := str "my contacts (1)/2024.csv"; CsvFlow.text := str "email" |}.

End Samples.

(* ===================================================================== *)
(** * The matcher decides the language of a pattern *)
(* ===================================================================== *)

Section RegexFacts.
Import Regex.

Lemma matches_void s : ~ matches Void s.
Proof. intros H; inversion H. Qed.

Lemma eps_inv s : matches Eps s -> s = [].
Proof. intros H; inversion H; reflexivity. Qed.

Lemma cls_inv p s : matches (Cls p) s -> exists c, s = [c] /\ p c = true.
Proof. intros H; inversion H; subst; eauto. Qed.

Lemma cat_inv r1 r2 s :
  matches (Cat r1 r2) s ->
  exists s1 s2, s = s1 ++ s2 /\ matches r1 s1 /\ matches r2 s2.
Proof. intros H; inversion H; subst; eauto. Qed.

Lemma alt_inv r1 r2 s : matches (Alt r1 r2) s -> matches r1 s \/ matches r2 s.
Proof. intros H; inversion H; subst; auto. Qed.

Lemma cat_intro r1 r2 s1 s2 s :
  s = s1 ++ s2 -> matches r1 s1 -> matches r2 s2 -> matches (Cat r1 r2) s.
Proof. intros ->; apply m_cat. Qed.

Lemma nullable_matches r : nullable r = true <-> matches r [].
Proof.
  induction r as [| |p|r1 IH1 r2 IH2|r1 IH1 r2 IH2|r IH]; simpl.
  - split; [discriminate | intros H; inversion H].
  - split; [constructor | reflexivity].
  - split; [discriminate | intros H; inversion H].
  - rewrite andb_true_iff, IH1, IH2. split.
    + intros [M1 M2]. eapply cat_intro; eauto. reflexivity.
    + intros H. apply cat_inv in H as (s1 & s2 & E & M1 & M2).
      symmetry in E. apply app_eq_nil in E as [-> ->]. auto.
  - rewrite orb_true_iff, IH1, IH2. split.
    + intros [M | M]; [apply m_alt_l | apply m_alt_r]; assumption.
    + apply alt_inv.
  - split; [constructor | reflexivity].
Qed.

Lemma cat_matches r1 r2 s : matches (cat r1 r2) s <-> matches (Cat r1 r2) s.
Proof.
  split.
  - destruct r1, r2; simpl; intros H;
      try (exfalso; exact (matches_void _ H)); try exact H;
      try (apply (cat_intro _ _ [] s); [reflexivity | constructor | exact H]).
  - intros H. apply cat_inv in H as (s1 & s2 & -> & M1 & M2).
    destruct r1, r2; simpl;
      try (exfalso; eapply matches_void; eassumption);
      try (constructor; assumption);
      apply eps_inv in M1; subst; simpl; assumption.
Qed.

Lemma alt_matches r1 r2 s : matches (alt r1 r2) s <-> matches (Alt r1 r2) s.
Proof.
  split.
  - destruct r1, r2; simpl; intros H;
      try exact H;
      try (apply m_alt_r; exact H);
      try (apply m_alt_l; exact H).
  - intros H. apply alt_inv in H as [M | M];
      destruct r1, r2; simpl;
      try (exfalso; eapply matches_void; eassumption);
      try assumption;
      try (apply m_alt_l; assumption);
      try (apply m_alt_r; assumption).
Qed.

(** A non-empty word of [r*] starts with a non-empty word of [r]. *)
Lemma star_cons_inv r c s :
  matches (Star r) (c :: s) ->
  exists s1 s2, s = s1 ++ s2 /\ matches r (c :: s1) /\ matches (Star r) s2.
Proof.
  intros H.
  remember (Star r) as r' eqn:Er. remember (c :: s) as w eqn:Ew.
  revert c s Ew.
  induction H as [| | | | | |r0 s1 s2 M1 _ M2 IH2]; intros d t Ew;
    try discriminate.
  injection Er as ->.
  destruct s1 as [|c1 s1]; simpl in Ew.
  - apply IH2; [reflexivity | assumption].
  - injection Ew as <- <-. exists s1, s2. auto.
Qed.

Lemma deriv_matches c r s : matches (deriv c r) s <-> matches r (c :: s).
Proof.
  revert s; induction r as [| |p|r1 IH1 r2 IH2|r1 IH1 r2 IH2|r IH]; intros s; simpl.
  - split; intros H; inversion H.
  - split; intros H; inversion H.
  - destruct (p c) eqn:Ep; split; intros H.
    + apply eps_inv in H as ->. constructor; assumption.
    + apply cls_inv in H as (c' & E & _). injection E as _ ->. constructor.
    + inversion H.
    + apply cls_inv in H as (c' & E & Hp). injection E as -> _. congruence.
  - assert (Hcat : matches (cat (deriv c r1) r2) s <->
                   exists s1 s2, s = s1 ++ s2 /\ matches r1 (c :: s1) /\ matches r2 s2).
    { rewrite cat_matches. split.
      - intros H. apply cat_inv in H as (s1 & s2 & -> & M1 & M2).
        exists s1, s2. rewrite <- IH1. auto.
      - intros (s1 & s2 & -> & M1 & M2). constructor; [apply IH1|]; assumption. }
    assert (Hsplit : matches (Cat r1 r2) (c :: s) <->
              (exists s1 s2, s = s1 ++ s2 /\ matches r1 (c :: s1) /\ matches r2 s2)
              \/ (matches r1 [] /\ matches r2 (c :: s))).
    { split.
      - intros H. apply cat_inv in H as (s1 & s2 & E & M1 & M2).
        destruct s1 as [|c1 s1]; simpl in E.
        + subst. auto.
        + injection E as -> ->. left. eauto.
      - intros [(s1 & s2 & -> & M1 & M2) | [M1 M2]].
        + apply (cat_intro _ _ (c :: s1) s2); auto.
        + apply (cat_intro _ _ [] (c :: s)); auto. }
    rewrite Hsplit.
    destruct (nullable r1) eqn:En.
    + split.
      * intros H. apply alt_matches, alt_inv in H as [M | M].
        -- left. apply Hcat. assumption.
        -- right. split; [apply nullable_matches | apply IH2]; assumption.
      * intros [H | [M1 M2]]; apply alt_matches.
        -- apply m_alt_l, Hcat. assumption.
        -- apply m_alt_r, IH2. assumption.
    + rewrite Hcat. split; [auto|].
      intros [H | [M1 M2]]; [assumption|].
      apply nullable_matches in M1. congruence.
  - rewrite alt_matches. split; intros H.
    + apply alt_inv in H as [M | M];
        [apply m_alt_l, IH1 | apply m_alt_r, IH2]; assumption.
    + apply alt_inv in H as [M | M];
        [apply m_alt_l, IH1 | apply m_alt_r, IH2]; assumption.
  - rewrite cat_matches. split.
    + intros H. apply cat_inv in H as (s1 & s2 & -> & M1 & M2).
      apply (m_star_app _ (c :: s1) s2); [apply IH|]; assumption.
    + intros H. apply star_cons_inv in H as (s1 & s2 & -> & M1 & M2).
      constructor; [apply IH|]; assumption.
Qed.

Lemma test_matches r s : test r s = true <-> matches r s.
Proof.
  revert r; induction s as [|c s IH]; intros r; simpl.
  - apply nullable_matches.
  - rewrite IH. apply deriv_matches.
Qed.

End RegexFacts.

(* ===================================================================== *)
(** * Shape of the strings accepted by the two patterns *)
(* ===================================================================== *)

Section PatternFacts.
Import Regex EmailFormat Smtp.

Lemma upto_cls_length n p s :
  matches (upto n (Cls p)) s -> (length s <= n)%nat /\ Forall (fun c => p c = true) s.
Proof.
  revert s; induction n as [|n IH]; intros s H; simpl in H.
  - apply eps_inv in H as ->. split; [reflexivity | constructor].
  - apply alt_inv in H as [H | H].
    + apply eps_inv in H as ->. split; [simpl; lia | constructor].
    + apply cat_inv in H as (s1 & s2 & -> & M1 & M2).
      apply cls_inv in M1 as (c & -> & Hc).
      apply IH in M2 as [Hl Hf]. split; [simpl; lia | constructor; assumption].
Qed.

Lemma star_cls_forall p s :
  matches (Star (Cls p)) s -> Forall (fun c => p c = true) s.
Proof.
  intros H. remember (Star (Cls p)) as r eqn:Er.
  induction H as [| | | | | |r0 s1 s2 M1 _ M2 IH2]; try discriminate.
  - constructor.
  - injection Er as ->. apply cls_inv in M1 as (c & -> & Hc).
    constructor; [assumption | apply IH2; reflexivity].
Qed.

Lemma local_char_not_at c : local_char c = true -> c <> ch "@".
Proof.
  intros H ->. vm_compute in H. discriminate.
Qed.

Lemma alnum_local_char c : alnum c = true -> local_char c = true.
Proof. intros H. unfold local_char. rewrite H. reflexivity. Qed.

(** The local part accepted by the format pattern. *)
Lemma local_re_shape s :
  matches local_re s ->
  (1 <= length s <= 63)%nat /\ Forall (fun c => c <> ch "@") s.
Proof.
  intros H. unfold local_re in H; cbn [seq] in H.
  apply cat_inv in H as (s1 & s2 & -> & M1 & M2).
  apply cls_inv in M1 as (c & -> & Hc).
  apply alt_inv in M2 as [M2 | M2].
  - apply eps_inv in M2 as ->. split; [simpl; lia|].
    repeat constructor. apply local_char_not_at, alnum_local_char, Hc.
  - apply cat_inv in M2 as (s3 & s4 & -> & M3 & M4).
    apply upto_cls_length in M3 as [Hl Hf].
    apply cls_inv in M4 as (c' & -> & Hc').
    split.
    + simpl. rewrite length_app. simpl. lia.
    + constructor; [apply local_char_not_at, alnum_local_char, Hc|].
      apply Forall_app; split.
      * eapply Forall_impl; [exact Hf|]. intros x Hx. apply local_char_not_at, Hx.
      * repeat constructor. apply local_char_not_at, alnum_local_char, Hc'.
Qed.

(** Every address that passes [validateEmailFormat] is a local part of
    at most 63 characters, an [@] and the rest. *)
Lemma format_local_part_at_most_63 s :
  validateEmailFormat (JStr s) = true ->
  exists localPart domain,
    s = localPart ++ ch "@" :: domain /\
    (1 <= length localPart <= 63)%nat /\
    Forall (fun c => c <> ch "@") localPart.
Proof.
  unfold validateEmailFormat.
  destruct (negb (truthy (JStr s)) || negb (is_string (JStr s))); [discriminate|].
  intros H. apply test_matches in H.
  unfold emailRegex in H; cbn [seq] in H.
  apply cat_inv in H as (l & r & -> & Ml & Mr).
  apply cat_inv in Mr as (a & d & -> & Ma & Md).
  apply cls_inv in Ma as (c & -> & Hc).
  apply N.eqb_eq in Hc. subst c.
  exists l, d. split; [reflexivity|]. apply local_re_shape, Ml.
Qed.

(** A line accepted by the reader's pattern holds neither CR nor LF. *)
Lemma response_line_no_crlf (line : jsstring) :
  test response_re line = true ->
  Forall (fun c : jschar => c <> 13%N /\ c <> 10%N) line.
Proof.
  intros H. apply test_matches in H.
  unfold response_re in H; cbn [seq exactly] in H.
  assert (Hd : forall c, digit c = true -> c <> 13%N /\ c <> 10%N).
  { intros c Hc. split; intros ->; vm_compute in Hc; discriminate. }
  apply cat_inv in H as (s1 & s2 & -> & M1 & M2).
  apply cat_inv in M1 as (a1 & s3 & -> & A1 & M1).
  apply cat_inv in M1 as (a2 & s4 & -> & A2 & M1).
  apply cat_inv in M1 as (a3 & s5 & -> & A3 & M1).
  apply eps_inv in M1 as ->.
  apply cls_inv in A1 as (d1 & -> & D1).
  apply cls_inv in A2 as (d2 & -> & D2).
  apply cls_inv in A3 as (d3 & -> & D3).
  simpl. repeat (constructor; [apply Hd; assumption|]).
  apply alt_inv in M2 as [M2 | M2].
  - apply eps_inv in M2 as ->. constructor.
  - apply cat_inv in M2 as (b & t & -> & B & T).
    apply cls_inv in B as (c & -> & Hc).
    apply star_cls_forall in T.
    simpl. constructor.
    + split; intros ->; vm_compute in Hc; discriminate.
    + eapply Forall_impl; [exact T|]. intros x Hx. simpl in Hx.
      unfold line_terminator in Hx.
      split; intros ->; vm_compute in Hx; discriminate.
Qed.

End PatternFacts.

(* ===================================================================== *)
(** * Facts about [split] and [includes] *)
(* ===================================================================== *)

Section SplitFacts.
Import Smtp.

Lemma includes_unfold (p s : jsstring) :
  includes p s =
  startsWith p s || match s with [] => false | _ :: s' => includes p s' end.
Proof. destruct s; reflexivity. Qed.

Lemma startsWith_app (q t : jsstring) : startsWith q (q ++ t) = true.
Proof.
  induction q as [|x q IH]; simpl; [reflexivity|].
  unfold jschar_eqb. rewrite N.eqb_refl. apply IH.
Qed.

Lemma includes_middle (p a b : jsstring) : includes p (a ++ p ++ b) = true.
Proof.
  induction a as [|x a IH].
  - rewrite includes_unfold. simpl. rewrite startsWith_app. reflexivity.
  - rewrite includes_unfold. simpl. rewrite IH. apply orb_true_r.
Qed.

Lemma includes_nil_false : includes CRLF [] = false.
Proof. reflexivity. Qed.

(** A prefix of [line CRLF rest] that already holds a CRLF holds the
    whole first line, when the line has no CR of its own. *)
Lemma startsWith_CRLF_cons (c : jschar) (s : jsstring) : c <> 13%N -> startsWith CRLF (c :: s) = false.
Proof.
  intros H. unfold CRLF. cbn [startsWith]. unfold jschar_eqb.
  rewrite (proj2 (N.eqb_neq 13 c)); [reflexivity | congruence].
Qed.

Lemma prefix_with_crlf (line rest buf later : jsstring) :
  Forall (fun c : jschar => c <> 13%N /\ c <> 10%N) line ->
  buf ++ later = line ++ CRLF ++ rest ->
  includes CRLF buf = true ->
  exists rest', buf = line ++ CRLF ++ rest'.
Proof.
  intros Hline. revert buf later.
  induction Hline as [|c line [Hc _] _ IH]; intros buf later E Hinc.
  - destruct buf as [|x [|y buf]].
    + discriminate.
    + unfold CRLF in Hinc. cbn [includes startsWith] in Hinc.
      rewrite andb_false_r in Hinc. discriminate.
    + unfold CRLF in E. cbn [app] in E. injection E as -> -> _.
      exists buf. reflexivity.
  - destruct buf as [|x buf]; [discriminate|].
    cbn [app] in E. injection E as -> E.
    rewrite includes_unfold, startsWith_CRLF_cons in Hinc by assumption.
    cbn [orb] in Hinc.
    destruct (IH buf later E Hinc) as [rest' ->].
    exists rest'. reflexivity.
Qed.

Lemma split_go_first_line (line rest cur : jsstring) fuel :
  Forall (fun c : jschar => c <> 13%N /\ c <> 10%N) line ->
  (length (line ++ CRLF ++ rest) <= fuel)%nat ->
  exists tl, split_go CRLF cur (line ++ CRLF ++ rest) fuel = (rev cur ++ line) :: tl.
Proof.
  intros Hline. revert cur fuel.
  induction Hline as [|c line [Hc _] _ IH]; intros cur fuel Hf.
  - destruct fuel as [|fuel]; [cbn in Hf; lia|].
    cbn [app]. unfold CRLF at 2. cbn [app split_go].
    destruct (startsWith CRLF _) eqn:Hs; [|cbn in Hs; discriminate].
    rewrite app_nil_r. eauto.
  - destruct fuel as [|fuel]; [cbn in Hf; lia|].
    cbn [app length] in Hf.
    cbn [app split_go]. rewrite startsWith_CRLF_cons by assumption.
    destruct (IH (c :: cur) fuel) as [tl ->]; [lia|].
    exists tl. cbn [rev]. rewrite <- app_assoc. reflexivity.
Qed.

Lemma split_first_line (line rest : jsstring) :
  Forall (fun c : jschar => c <> 13%N /\ c <> 10%N) line ->
  exists tl, split CRLF (line ++ CRLF ++ rest) = line :: tl.
Proof.
  intros H. unfold split.
  destruct (split_go_first_line line rest [] (length (line ++ CRLF ++ rest)) H) as [tl E];
    [lia|].
  exists tl. exact E.
Qed.

End SplitFacts.

(* ===================================================================== *)
(** * The proxy pool *)
(* ===================================================================== *)

Section PoolFacts.
Import ProxyManager Spec.

Lemma skipped_eligible now p : skipped now p = false <-> eligible now p.
Proof.
  unfold skipped, eligible, MAX_FAILURES, MAX_CONNECTIONS, COOLDOWN_PERIOD.
  rewrite !orb_false_iff, !Z.leb_gt, Z.ltb_ge. tauto.
Qed.

Lemma scan_step now rem w p :
  proxies w !! currentIndex w = Some p ->
  scan now (S rem) w =
  if skipped now p
  then scan now rem (set_pool (proxies w) (around w 1) w)
  else (Normal (Some (currentIndex w)), handed_out now (currentIndex w) p w).
Proof.
  intros Hp. cbn [scan]. unfold mbind, M_bind, bind, get at 1. rewrite Hp.
  unfold modify at 1. destruct (skipped now p); [reflexivity|].
  unfold update_proxy, log_pool, modify, mret, M_ret, ret.
  cbn [proxies set_pool]. rewrite Hp. reflexivity.
Qed.

Lemma scan_spec now rem w :
  (currentIndex w < length (proxies w))%nat ->
  (exists k p,
      (k < rem)%nat /\
      proxies w !! around w k = Some p /\ skipped now p = false /\
      (forall j, (j < k)%nat ->
         exists q, proxies w !! around w j = Some q /\ skipped now q = true) /\
      scan now rem w = (Normal (Some (around w k)), handed_out now (around w k) p w))
  \/
  ((forall j, (j < rem)%nat ->
      exists q, proxies w !! around w j = Some q /\ skipped now q = true) /\
   scan now rem w = (Normal None, set_pool (proxies w) (around w rem) w)).
Proof.
  revert w. induction rem as [|rem IH]; intros w Hc.
  - right. split; [intros j Hj; lia|].
    cbn. unfold around. rewrite Nat.add_0_r, Nat.mod_small by assumption.
    destruct w; reflexivity.
  - destruct (lookup_lt_is_Some_2 _ _ Hc) as [p Hp].
    assert (H0 : around w 0 = currentIndex w).
    { unfold around. rewrite Nat.add_0_r. apply Nat.mod_small, Hc. }
    rewrite (scan_step _ _ _ _ Hp).
    destruct (skipped now p) eqn:Hs.
    + set (w1 := set_pool (proxies w) (around w 1) w).
      assert (Hc1 : (currentIndex w1 < length (proxies w1))%nat).
      { subst w1. cbn. unfold around. apply Nat.mod_upper_bound. lia. }
      assert (Har : forall j, around w1 j = around w (S j)).
      { intros j. subst w1. unfold around. cbn [currentIndex proxies set_pool].
        rewrite Nat.Div0.add_mod_idemp_l. f_equal. lia. }
      destruct (IH w1 Hc1) as [(k & q & Hk & Hq & Hsq & Hbefore & Hrun) | [Hall Hrun]].
      * left. exists (S k), q. rewrite Har in Hq, Hrun.
        split; [lia|]. split; [exact Hq|]. split; [exact Hsq|]. split.
        -- intros [|j] Hj.
           ++ exists p. rewrite H0. auto.
           ++ destruct (Hbefore j) as (q' & Hq' & Hs'); [lia|].
              rewrite Har in Hq'. eauto.
        -- rewrite Hrun. subst w1. reflexivity.
      * right. split.
        -- intros [|j] Hj.
           ++ exists p. rewrite H0. auto.
           ++ destruct (Hall j) as (q' & Hq' & Hs'); [lia|].
              rewrite Har in Hq'. eauto.
        -- rewrite Hrun, Har. subst w1. reflexivity.
    + left. exists 0%nat, p. rewrite H0.
      split; [lia|]. split; [exact Hp|]. split; [exact Hs|].
      split; [intros j Hj; lia | reflexivity].
Qed.

Lemma getNextProxy_rec_step env d w :
  getNextProxy_rec env (S d) w =
  if (length (proxies w) =? 0)%nat then (Normal None, w)
  else
    match scan (clock env (ticks w)) (length (proxies w)) (set_ticks (S (ticks w)) w) with
    | (Normal (Some i), w') => (Normal (Some i), w')
    | (Normal None, w') =>
        if forallb (fun p => MAX_FAILURES <=? failures p) (proxies w')
        then getNextProxy_rec env d
               (set_poolLog (poolLog w' ++ [ResetAll])
                  (set_pool (map reset_proxy (proxies w')) (currentIndex w') w'))
        else (Normal None, w')
    | (Throw e, w') => (Throw e, w')
    end.
Proof.
  cbn [getNextProxy_rec]. unfold mbind, M_bind, bind, get at 1.
  destruct (length (proxies w) =? 0)%nat; [reflexivity|].
  unfold World.now at 1.
  destruct (scan _ _ _) as [[[i|]|e] w']; try reflexivity.
  unfold get at 1. destruct (forallb _ _); reflexivity.
Qed.

Lemma around_full w :
  (currentIndex w < length (proxies w))%nat ->
  around w (length (proxies w)) = currentIndex w.
Proof.
  intros Hc. unfold around.
  rewrite <- Nat.Div0.add_mod_idemp_r, Nat.Div0.mod_same, Nat.add_0_r.
  apply Nat.mod_small, Hc.
Qed.

Lemma around_zero w :
  (currentIndex w < length (proxies w))%nat -> around w 0 = currentIndex w.
Proof. intros Hc. unfold around. rewrite Nat.add_0_r. apply Nat.mod_small, Hc. Qed.

Lemma around_lt w k :
  (currentIndex w < length (proxies w))%nat -> (around w k < length (proxies w))%nat.
Proof. intros Hc. apply Nat.mod_upper_bound. lia. Qed.

(** Every position of the pool is met within one cycle. *)
Lemma around_covers w i :
  (currentIndex w < length (proxies w))%nat ->
  (i < length (proxies w))%nat ->
  exists k, (k < length (proxies w))%nat /\ around w k = i.
Proof.
  intros Hc Hi. unfold around.
  set (n := length (proxies w)) in *. set (c := currentIndex w) in *.
  destruct (le_lt_dec c i) as [Hle | Hlt].
  - exists (i - c)%nat. split; [lia|].
    replace (c + (i - c))%nat with i by lia. apply Nat.mod_small, Hi.
  - exists (n - c + i)%nat. split; [lia|].
    replace (c + (n - c + i))%nat with (i + 1 * n)%nat by lia.
    rewrite Nat.Div0.mod_add. apply Nat.mod_small, Hi.
Qed.

End PoolFacts.

Ltac pool_size :=
  subst; unfold Spec.handed_out; cbn;
  rewrite ?length_insert, ?length_map; reflexivity.

Ltac pool_cursor :=
  subst; unfold Spec.handed_out; cbn;
  rewrite ?length_insert, ?length_map;
  first [ assumption | apply Nat.mod_upper_bound; lia ].

Section Acquire.
Import ProxyManager Spec.

Lemma forallb_false_witness {A} (f : A -> bool) (l : list A) :
  forallb f l = false -> exists x, x ∈ l /\ f x = false.
Proof.
  induction l as [|a l IH]; simpl; [discriminate|].
  destruct (f a) eqn:Ha; simpl.
  - intros H. destruct (IH H) as (x & Hx & Hfx). exists x. split; [right|]; assumption.
  - intros _. exists a. split; [left | assumption].
Qed.

Lemma skipped_reset now p :
  skipped now (reset_proxy p) = (now <? COOLDOWN_PERIOD).
Proof. unfold skipped, reset_proxy. cbn. rewrite Z.sub_0_r. reflexivity. Qed.

Lemma lookup_reset_inv (ps : list Proxy) i q :
  map reset_proxy ps !! i = Some q -> exists q0, q = reset_proxy q0.
Proof.
  rewrite list_lookup_fmap.
  destruct (ps !! i); cbn; [intros [= <-]; eauto | discriminate].
Qed.

Lemma all_skipped_not_eligible now w :
  (currentIndex w < length (proxies w))%nat ->
  (forall j, (j < length (proxies w))%nat ->
     exists q, proxies w !! around w j = Some q /\ skipped now q = true) ->
  forall p, p ∈ proxies w -> ~ eligible now p.
Proof.
  intros Hc Hall p Hp He.
  apply list_elem_of_lookup in Hp as [i Hi].
  destruct (around_covers w i Hc) as (k & Hk & <-); [eapply lookup_lt_Some; eauto|].
  destruct (Hall k Hk) as (q & Hq & Hs).
  rewrite Hi in Hq. injection Hq as <-.
  apply skipped_eligible in He. congruence.
Qed.

(** C3.  On a non-empty pool, [getNextProxy] returns after scanning at
    most one cycle from the cursor.  It hands out the first entry that
    is eligible at the time [t0] of the call (failures under
    MAX_FAILURES, connections under MAX_CONNECTIONS, last use at least
    COOLDOWN_PERIOD ago), stamps it with [t0] and counts one more
    connection.  When nothing is eligible and every entry has reached
    MAX_FAILURES, every entry is reset to zero and the scan is retried
    exactly once, at the time [t1] of the second clock reading;
    otherwise the answer is none and the pool is unchanged.  An entry
    that is handed out was within both budgets when it was picked
    (its connection count then includes this acquisition).  The pool
    keeps its size and the cursor stays inside it. *)
Theorem getNextProxy_spec env w :
  proxies w <> [] ->
  (currentIndex w < length (proxies w))%nat ->
  let n := length (proxies w) in
  let t0 := clock env (ticks w) in
  let t1 := clock env (S (ticks w)) in
  exists r w',
    getNextProxy env w = (Normal r, w') /\
    length (proxies w') = n /\
    (currentIndex w' < length (proxies w'))%nat /\
    ((exists k p,
        (k < n)%nat /\ proxies w !! around w k = Some p /\ eligible t0 p /\
        (forall j, (j < k)%nat ->
           exists q, proxies w !! around w j = Some q /\ ~ eligible t0 q) /\
        r = Some (around w k) /\
        proxies w' = <[around w k := mark t0 p]> (proxies w) /\
        currentIndex w' = ((around w k + 1) mod n)%nat /\
        poolLog w' = poolLog w ++ [Acquired (around w k)])
     \/
     ((forall p, p ∈ proxies w -> ~ eligible t0 p) /\
      (exists p, p ∈ proxies w /\ failures p < MAX_FAILURES) /\
      r = None /\
      proxies w' = proxies w /\
      currentIndex w' = currentIndex w /\
      poolLog w' = poolLog w)
     \/
     ((forall p, p ∈ proxies w -> ~ eligible t0 p) /\
      (forall p, p ∈ proxies w -> MAX_FAILURES <= failures p) /\
      exists p, proxies w !! currentIndex w = Some p /\
        if COOLDOWN_PERIOD <=? t1
        then
          r = Some (currentIndex w) /\
          proxies w' =
            <[currentIndex w := mark t1 (reset_proxy p)]> (map reset_proxy (proxies w)) /\
          currentIndex w' = ((currentIndex w + 1) mod n)%nat /\
          poolLog w' = poolLog w ++ [ResetAll; Acquired (currentIndex w)]
        else
          r = None /\
          proxies w' = map reset_proxy (proxies w) /\
          currentIndex w' = currentIndex w /\
          poolLog w' = poolLog w ++ [ResetAll])) /\
    (forall i, r = Some i ->
       exists p t,
         proxies w' !! i = Some (mark t p) /\
         failures p < MAX_FAILURES /\ connections p < MAX_CONNECTIONS /\
         COOLDOWN_PERIOD <= t - lastUsed p).
Proof.
  intros Hne Hc n t0 t1.
  assert (Hpos : (0 < length (proxies w))%nat).
  { destruct (proxies w); [congruence | simpl; lia]. }
  assert (Hn : (length (proxies w) =? 0)%nat = false).
  { apply Nat.eqb_neq. destruct (proxies w); [congruence | simpl; lia]. }
  unfold getNextProxy. change CALL_DEPTH with (S (S 1022)).
  rewrite getNextProxy_rec_step, Hn.
  set (w1 := set_ticks (S (ticks w)) w).
  assert (Hc1 : (currentIndex w1 < length (proxies w1))%nat) by exact Hc.
  assert (Har : forall k, around w1 k = around w k) by reflexivity.
  fold t0. change (length (proxies w)) with (length (proxies w1)).
  destruct (scan_spec t0 (length (proxies w1)) w1 Hc1)
    as [(k & p & Hk & Hp & Hs & Hbefore & Hrun) | [Hall Hrun]];
    rewrite Hrun; clear Hrun.
  - (* an entry is found *)
    rewrite Har in *. change (proxies w1) with (proxies w) in *.
    apply skipped_eligible in Hs.
    eexists _, _. split; [reflexivity|]. split; [pool_size|]. split; [pool_cursor|]. split.
    + left. exists k, p. repeat split; try assumption; try apply Hs.
      intros j Hj. destruct (Hbefore j Hj) as (q & Hq & Hsq).
      exists q. split; [exact Hq|]. intros He. apply skipped_eligible in He. congruence.
    + intros i [= <-]. exists p, t0.
      split; [|exact Hs].
      cbn. apply list_lookup_insert_eq. apply around_lt, Hc.
  - (* nothing is eligible *)
    assert (Hnone : forall p, p ∈ proxies w -> ~ eligible t0 p).
    { apply all_skipped_not_eligible; assumption. }
    rewrite (around_full w1 Hc1).
    cbn [proxies set_pool].
    change (proxies w1) with (proxies w). change (currentIndex w1) with (currentIndex w).
    destruct (forallb _ (proxies w)) eqn:Hfail.
    + (* every entry failed: reset and retry *)
      assert (Hallfail : forall p, p ∈ proxies w -> MAX_FAILURES <= failures p).
      { intros p Hp. rewrite forallb_forall in Hfail.
        apply Z.leb_le, Hfail, list_elem_of_In, Hp. }
      destruct (lookup_lt_is_Some_2 _ _ Hc) as [p Hp].
      rewrite getNextProxy_rec_step.
      cbn [proxies currentIndex poolLog ticks set_pool set_poolLog set_ticks].
      rewrite length_map, Hn. fold t1.
      set (w2 := set_ticks _ _).
      assert (Hc2 : (currentIndex w2 < length (proxies w2))%nat).
      { subst w2. cbn. rewrite length_map. exact Hc. }
      assert (Hp2 : proxies w2 !! currentIndex w2 = Some (reset_proxy p)).
      { subst w2. cbn. rewrite list_lookup_fmap, Hp. reflexivity. }
      replace (length (proxies w)) with (length (proxies w2))
        by (subst w2; cbn; apply length_map).
      change (clock env (ticks w1)) with t1.
      destruct (scan_spec t1 (length (proxies w2)) w2 Hc2)
        as [(k & q & Hk & Hq & Hs & Hbefore & Hrun) | [Hall2 Hrun]];
        rewrite Hrun; clear Hrun.
      * (* the retry hands out the entry under the cursor *)
        assert (Ht1 : (t1 <? COOLDOWN_PERIOD) = false).
        { change (proxies w2) with (map reset_proxy (proxies w)) in Hq.
          apply lookup_reset_inv in Hq as [q0 ->].
          rewrite skipped_reset in Hs. exact Hs. }
        assert (Hk0 : k = 0%nat).
        { destruct k as [|k]; [reflexivity|].
          destruct (Hbefore 0%nat) as (q' & Hq' & Hs'); [lia|].
          rewrite (around_zero w2 Hc2), Hp2 in Hq'. injection Hq' as <-.
          rewrite skipped_reset in Hs'. congruence. }
        subst k. rewrite (around_zero w2 Hc2) in *. rewrite Hp2 in Hq.
        injection Hq as <-.
        change (currentIndex w2) with (currentIndex w).
        eexists _, _. split; [reflexivity|]. split; [pool_size|]. split; [pool_cursor|]. split.
        -- right; right. split; [exact Hnone|]. split; [exact Hallfail|].
           exists p. split; [exact Hp|].
           replace (COOLDOWN_PERIOD <=? t1) with true
             by (symmetry; apply Z.leb_le; apply Z.ltb_ge in Ht1; exact Ht1).
           subst w2. cbn. rewrite length_map, <- app_assoc. auto.
        -- intros i [= <-]. exists (reset_proxy p), t1.
           split.
           ++ subst w2. cbn. apply list_lookup_insert_eq. rewrite length_map. exact Hc.
           ++ cbn. apply Z.ltb_ge in Ht1.
              unfold MAX_FAILURES, MAX_CONNECTIONS, COOLDOWN_PERIOD in *. lia.
      * (* the retry finds the entries still cooling down *)
        assert (Ht1 : (t1 <? COOLDOWN_PERIOD) = true).
        { destruct (Hall2 0%nat) as (q & Hq & Hs); [lia|].
          rewrite (around_zero w2 Hc2), Hp2 in Hq. injection Hq as <-.
          rewrite skipped_reset in Hs. exact Hs. }
        rewrite (around_full w2 Hc2).
        cbn [proxies set_pool].
        replace (forallb _ (proxies w2)) with false.
        2:{ subst w2. cbn [proxies set_ticks set_poolLog set_pool].
            destruct (proxies w); [congruence | reflexivity]. }
        eexists _, _. split; [reflexivity|]. split; [pool_size|]. split; [pool_cursor|]. split.
        -- right; right. split; [exact Hnone|]. split; [exact Hallfail|].
           exists p. split; [exact Hp|].
           replace (COOLDOWN_PERIOD <=? t1) with false
             by (symmetry; apply Z.leb_gt; apply Z.ltb_lt in Ht1; exact Ht1).
           subst w2. cbn. auto.
        -- intros i [=].
    + (* some entry is still under its failure budget *)
      apply forallb_false_witness in Hfail as (p & Hp & Hf).
      eexists _, _. split; [reflexivity|]. split; [pool_size|]. split; [pool_cursor|]. split.
      * right; left. split; [exact Hnone|]. split.
        -- exists p. split; [exact Hp|]. apply Z.leb_gt, Hf.
        -- cbn. auto.
      * intros i [=].
Qed.

End Acquire.

(* ===================================================================== *)
(** * The validator never rejects; the retry wrapper is transparent *)
(* ===================================================================== *)

Section RetryWrapper.
Import Validator Routes.

Lemma validateEmail_total env email w :
  exists r w', validateEmail env email w = (Normal r, w').
Proof.
  unfold validateEmail, with_locals, mbind, M_bind, bind, try_catch.
  destruct (stages env email (initial email, w)) as [[[]|e] [fr w']]; cbn; eauto.
Qed.

(** C9.  Whatever the input value and the environment, [validateEmail]
    completes normally with a result; hence [validateEmailWithRetry]
    computes exactly what one call of [validateEmail] computes, from
    any retry count: the handler with its delay and its recursive call
    is never entered. *)
Theorem validateEmailWithRetry_is_validateEmail env email w :
  (exists r w', validateEmail env email w = (Normal r, w')) /\
  validateEmailWithRetry env email w = validateEmail env email w /\
  (forall depth retryCount,
     validateEmailWithRetry_rec env (S depth) email retryCount w
     = validateEmail env email w).
Proof.
  destruct (validateEmail_total env email w) as (r & w' & E).
  split; [eauto|].
  assert (H : forall depth retryCount,
             validateEmailWithRetry_rec env (S depth) email retryCount w
             = validateEmail env email w).
  { intros depth retryCount. cbn [validateEmailWithRetry_rec].
    unfold try_catch. rewrite E. reflexivity. }
  split; [apply H | exact H].
Qed.

End RetryWrapper.

(* ===================================================================== *)
(** * Batch route *)
(* ===================================================================== *)

Section BatchRoute.
Import Validator Routes.
Variable validator : JSVal -> M World ValidationResult.

Lemma allSettled_spec (l : list JSVal) w :
  exists cs w',
    allSettled (map validator l) w = (Normal cs, w') /\
    Forall2 (fun email c => exists wi, c = fst (validator email wi)) l cs.
Proof.
  revert w; induction l as [|x l IH]; intros w.
  - exists [], w. split; [reflexivity | constructor].
  - cbn [map allSettled]. unfold mbind, M_bind, bind, settle.
    destruct (validator x w) as [c w1] eqn:E.
    destruct (IH w1) as (cs & w' & -> & HF).
    exists (c :: cs), w'. split; [reflexivity|].
    constructor; [|exact HF]. exists w. rewrite E. reflexivity.
Qed.

Lemma batch_loop_spec emails fuel i results w :
  (length emails <= i + BATCH_SIZE * fuel)%nat ->
  exists new w',
    batch_loop validator emails fuel i (results, w) = (Normal tt, (results ++ new, w')) /\
    Forall2 (Spec.stored_for validator) (drop i emails) new.
Proof.
  revert i results w. induction fuel as [|fuel IH]; intros i results w Hfuel.
  - exists [], w. rewrite app_nil_r. split; [reflexivity|].
    rewrite drop_ge by lia. constructor.
  - cbn [batch_loop].
    destruct (i <? length emails)%nat eqn:Hi.
    + unfold mbind, M_bind, bind, try_catch, lift. cbn [fst snd].
      destruct (allSettled_spec (slice i (i + BATCH_SIZE) emails) w) as (cs & w1 & -> & HF).
      unfold modifyL at 1. cbn [fst snd].
      assert (Hnext : forall w3,
        exists new w',
          batch_loop validator emails fuel (i + BATCH_SIZE)
            (results ++ map entry_of_settled cs, w3) = (Normal tt, (results ++ new, w')) /\
          Forall2 (Spec.stored_for validator) (drop i emails) new).
      { intros w3.
        destruct (IH (i + BATCH_SIZE)%nat (results ++ map entry_of_settled cs) w3)
          as (new & w' & -> & HF'); [lia|].
        exists (map entry_of_settled cs ++ new), w'.
        split; [rewrite app_assoc; reflexivity|].
        rewrite <- (take_drop BATCH_SIZE (drop i emails)).
        apply Forall2_app.
        * unfold slice in HF. replace (i + BATCH_SIZE - i)%nat with BATCH_SIZE in HF by lia.
          apply Forall2_fmap_r. eapply Forall2_impl; [exact HF|].
          intros email c [wi ->]. exists wi. reflexivity.
        * rewrite drop_drop. exact HF'. }
      destruct (i + BATCH_SIZE <? length emails)%nat; cbn; apply Hnext.
    + exists [], w. rewrite app_nil_r. split; [reflexivity|].
      apply Nat.ltb_ge in Hi. rewrite drop_ge by lia. constructor.
Qed.

(** C8.  For every array of addresses the batch route answers with an
    array of the same length in which position [i] holds what was
    stored for address [i]: the validation result when the validation
    completed, and otherwise a placeholder with [valid = false] and
    every check false; a failing item neither stops the batch nor
    shifts the entries that follow. *)
Theorem batch_keeps_length_and_order (emails : list JSVal) w :
  exists entries w',
    validate_batch validator (ArrayOf emails) w = (Normal (Json entries), w') /\
    length entries = length emails /\
    Forall2 (Spec.stored_for validator) emails entries /\
    (forall i email, emails !! i = Some email ->
       exists e, entries !! i = Some e /\ Spec.stored_for validator email e).
Proof.
  destruct (batch_loop_spec emails (length emails) 0 [] w) as (new & w' & E & HF).
  { unfold BATCH_SIZE. lia. }
  exists new, w'.
  assert (Hrun : validate_batch validator (ArrayOf emails) w = (Normal (Json new), w')).
  { unfold validate_batch, try_catch, with_locals, mbind, M_bind, bind.
    rewrite E. reflexivity. }
  rewrite drop_0 in HF.
  split; [exact Hrun|]. split; [symmetry; eapply Forall2_length; exact HF|].
  split; [exact HF|].
  intros i email Hi.
  destruct (Forall2_lookup_l _ _ _ _ _ HF Hi) as (e & He & Hs). eauto.
Qed.

End BatchRoute.

(* ===================================================================== *)
(** * Bulk route *)
(* ===================================================================== *)

Section BulkRoute.
Import Validator Routes Spec Props.
Variable validator : JSVal -> M World ValidationResult.

Lemma all_spec (l : list jsstring) w :
  exists w',
    (exists values,
        all (map (fun email => validator (JStr email)) l) w = (Normal values, w') /\
        Forall2 (Spec.flushed_for validator) l (map Validated values))
    \/ (exists e, all (map (fun email => validator (JStr email)) l) w = (Throw e, w')).
Proof.
  unfold all, mbind, M_bind, bind.
  assert (H : exists cs w',
    allSettled (map (fun email => validator (JStr email)) l) w = (Normal cs, w') /\
    Forall2 (fun email c => exists wi, c = fst (validator (JStr email) wi)) l cs).
  { revert w; induction l as [|x l IH]; intros w.
    - exists [], w. split; [reflexivity | constructor].
    - cbn [map allSettled]. unfold mbind, M_bind, bind, settle.
      destruct (validator (JStr x) w) as [c w1] eqn:E.
      destruct (IH w1) as (cs & w' & -> & HF).
      exists (c :: cs), w'. split; [reflexivity|].
      constructor; [|exact HF]. exists w. rewrite E. reflexivity. }
  destruct H as (cs & w' & -> & HF). exists w'.
  destruct (fulfilled_values cs) as [values|e] eqn:Ev.
  - left. exists values. split; [reflexivity|].
    clear -HF Ev. revert values Ev.
    induction HF as [|x c l cs [wi Hc] HF IH]; intros values Ev.
    + injection Ev as <-. constructor.
    + cbn in Ev. destruct c as [a|e]; [|discriminate].
      destruct (fulfilled_values cs) as [vs|]; [|discriminate].
      injection Ev as <-. constructor; [|apply IH; reflexivity].
      left. exists wi, a. split; [symmetry; exact Hc | reflexivity].
  - right. exists e. reflexivity.
Qed.

Lemma flush_batch_spec total st w :
  (processed st + length (batch st) < total)%nat ->
  exists entries w',
    flush_batch validator total (st, w) =
      (Normal tt,
       ({| batch := []; results := results st ++ entries;
           processed := processed st + length (batch st);
           written := written st
                      ++ [Progress (processed st + length (batch st)) total entries] |},
        w')) /\
    Forall2 (Spec.flushed_for validator) (batch st) entries /\
    ((exists values w1,
         all (map (fun email => validator (JStr email)) (batch st)) w = (Normal values, w1) /\
         entries = map Validated values /\
         w' = set_sleeps (sleeps w1 ++ [BATCH_DELAY]) w1)
     \/ (exists error,
            all (map (fun email => validator (JStr email)) (batch st)) w = (Throw error, w') /\
            entries = map (fun _ => placeholder "Batch processing error") (batch st))).
Proof.
  intros Hlt.
  unfold flush_batch, mbind, M_bind, bind, try_catch, getL, lift. cbn [fst snd].
  destruct (all_spec (batch st) w) as (w1 & [(values & E & HF) | (e & E)]); rewrite E.
  - unfold modifyL at 1. cbn [fst snd batch results processed written].
    exists (map Validated values).
    apply Nat.ltb_lt in Hlt. rewrite Hlt. cbn.
    eexists. split; [reflexivity|]. split; [exact HF|].
    left. exists values, w1. split; [reflexivity|]. split; reflexivity.
  - cbn. eexists _, _. split; [reflexivity|]. split.
    + clear. induction (batch st); constructor; [right; reflexivity | assumption].
    + right. exists e. split; reflexivity.
Qed.

Lemma bulk_loop_spec total rows st w :
  (processed st + length (batch st) + length (addresses rows) < total)%nat ->
  (length (batch st) < BATCH_SIZE)%nat ->
  let pending := batch st ++ addresses rows in
  exists new evs w',
    bulk_loop validator total rows (st, w) =
      (Normal tt,
       ({| batch := drop (flushed (length pending)) pending;
           results := results st ++ new;
           processed := processed st + flushed (length pending);
           written := written st ++ evs |}, w')) /\
    Forall2 (Spec.flushed_for validator) (take (flushed (length pending)) pending) new /\
    Forall is_progress evs /\
    flushes validator total (processed st) (take (flushed (length pending)) pending)
            w evs new w'.
Proof.
  revert st w. induction rows as [|record rows IH]; intros st w Hlt Hb pending.
  - subst pending. cbn [addresses omap list_omap] in *. rewrite app_nil_r in *.
    assert (Hz : flushed (length (batch st)) = 0%nat).
    { unfold flushed. rewrite Nat.div_small by exact Hb. lia. }
    rewrite Hz. exists [], [], w. rewrite !app_nil_r, Nat.add_0_r.
    split; [destruct st; reflexivity|]. split; [constructor|].
    split; constructor.
  - cbn [bulk_loop]. unfold mbind at 1, M_bind at 1, bind at 1.
    unfold addresses in pending, Hlt. cbn [omap list_omap] in pending, Hlt.
    fold (addresses rows) in pending, Hlt.
    destruct (email_of record) as [[|c e]|] eqn:Hemail.
    + (* empty field: the row is skipped *)
      cbn. apply IH; assumption.
    + (* the row has an address *)
      cbn [length] in Hlt.
      unfold mbind at 1, M_bind at 1, bind at 1, modifyL at 1. cbn [fst snd].
      unfold mbind at 1, M_bind at 1, bind at 1, getL at 1.
      cbn [fst snd batch processed].
      replace (processed st + length (batch st ++ [c :: e]) =? total)%nat with false
        by (symmetry; apply Nat.eqb_neq; rewrite length_app; cbn; lia).
      rewrite orb_false_r.
      assert (Hpend : pending = (batch st ++ [c :: e]) ++ addresses rows).
      { subst pending. rewrite <- app_assoc. reflexivity. }
      destruct (length (batch st ++ [c :: e]) =? BATCH_SIZE)%nat eqn:Hfull.
      * (* the batch is full: it is validated and emitted *)
        apply Nat.eqb_eq in Hfull.
        assert (Hbl : (length (batch st) + 1 = BATCH_SIZE)%nat).
        { rewrite length_app in Hfull. exact Hfull. }
        set (st1 := {| batch := batch st ++ [c :: e]; results := results st;
                       processed := processed st; written := written st |}).
        destruct (flush_batch_spec total st1 w) as (entries & w1 & -> & HF & Hrun).
        { cbn [batch processed st1]. rewrite Hfull. lia. }
        cbn [batch results processed written st1] in *. rewrite Hfull in *.
        set (st2 := {| batch := []; results := results st ++ entries;
                       processed := processed st + BATCH_SIZE;
                       written := written st ++ _ |}).
        destruct (IH st2 w1) as (new & evs & w' & -> & HF' & Hev & Htr).
        { cbn. lia. }
        { cbn. unfold BATCH_SIZE. lia. }
        cbn [batch results processed written st2 app] in *.
        assert (Hfl : flushed (length pending)
                      = (BATCH_SIZE + flushed (length (addresses rows)))%nat).
        { rewrite Hpend, length_app, Hfull. unfold flushed, BATCH_SIZE.
          replace (5 + length (addresses rows))%nat
            with (length (addresses rows) + 1 * 5)%nat by lia.
          rewrite Nat.div_add by lia. lia. }
        exists (entries ++ new), (Progress (processed st + BATCH_SIZE) total entries :: evs), w'.
        split; [|split; [|split]].
        -- rewrite Hfl. f_equal. f_equal.
           rewrite Hpend, <- Hfull, drop_app_add, <- !app_assoc, Nat.add_assoc.
           reflexivity.
        -- rewrite Hfl, Hpend, <- Hfull, take_app_add. apply Forall2_app; assumption.
        -- constructor; [exact I | exact Hev].
        -- rewrite Hfl, Hpend, <- Hfull, take_app_add. rewrite Hfull.
           destruct Hrun as [(values & w0 & Ea & -> & ->) | (error & Ea & ->)].
           ++ eapply flushes_validated; [exact Hfull | exact Ea | exact Htr].
           ++ eapply flushes_failed; [exact Hfull | exact Ea | exact Htr].
      * (* the batch is still short *)
        apply Nat.eqb_neq in Hfull.
        set (st1 := {| batch := batch st ++ [c :: e]; results := results st;
                       processed := processed st; written := written st |}).
        destruct (IH st1 w) as (new & evs & w' & E & HF' & Hev & Htr).
        { cbn. rewrite length_app. cbn. lia. }
        { cbn. rewrite length_app in *. cbn in *. lia. }
        cbn [batch results processed written st1] in *.
        rewrite <- Hpend in *.
        exists new, evs, w'. cbn.
        split; [exact E | split; [assumption | split; assumption]].
    + (* no field at all: the row is skipped *)
      cbn. apply IH; assumption.
Qed.

(** C10.  A row without an address contributes no entry.  When some
    row has none, the batches are flushed only when they reach
    BATCH_SIZE addresses: the [complete] event holds the entries of
    the first [BATCH_SIZE * (m / BATCH_SIZE)] of the [m] addresses, in
    order, and nothing for the trailing partial batch, so it is
    shorter than the number of rows, and shorter than [m] itself when
    [m] is not a multiple of BATCH_SIZE.  The trailing partial batch
    is never validated or emitted: the whole request is the run of
    the whole batches alone ([flushes]), so the validator runs on
    the addresses of the whole batches and on nothing else, the
    events before [complete] are the progress events of those
    batches, and the world at the end is the one the last of them
    left. *)
Theorem bulk_drops_trailing_batch (rows : list Row) w :
  let m := length (addresses rows) in
  (m < length rows)%nat ->
  exists entries evs w',
    validate_bulk validator rows w = (Normal (evs ++ [Complete entries]), w') /\
    Forall is_progress evs /\
    Forall2 (Spec.flushed_for validator) (take (BATCH_SIZE * (m / BATCH_SIZE)) (addresses rows)) entries /\
    length entries = (BATCH_SIZE * (m / BATCH_SIZE))%nat /\
    (length entries < length rows)%nat /\
    (m mod BATCH_SIZE <> 0 -> length entries < m)%nat /\
    flushes validator (length rows) 0
            (take (BATCH_SIZE * (m / BATCH_SIZE)) (addresses rows)) w evs entries w'.
Proof.
  intros m Hm.
  set (st0 := {| batch := []; results := []; processed := 0%nat; written := [] |}).
  destruct (bulk_loop_spec (length rows) rows st0 w) as (new & evs & w' & E & HF & Hev & Htr).
  { cbn. exact Hm. }
  { cbn. unfold BATCH_SIZE. lia. }
  cbn [batch results processed written st0 app] in *. fold m in E, HF, Htr.
  exists new, evs, w'.
  assert (Hlen : length new = flushed m).
  { apply Forall2_length in HF. rewrite <- HF, length_take.
    unfold flushed, BATCH_SIZE. fold m.
    pose proof (Nat.Div0.mul_div_le m 5). lia. }
  split; [|split; [exact Hev | split; [exact HF | split; [exact Hlen|]]]].
  - unfold validate_bulk, with_locals, mbind, M_bind, bind, try_catch.
    fold st0. rewrite E. reflexivity.
  - rewrite Hlen. unfold flushed, BATCH_SIZE.
    pose proof (Nat.Div0.mul_div_le m 5).
    split; [lia|]. split; [|exact Htr]. intros Hmod.
    pose proof (Nat.div_mod_eq m 5). lia.
Qed.

End BulkRoute.

(* ===================================================================== *)
(** * The response reader *)
(* ===================================================================== *)

Section Reader.
Import Regex Smtp.

Lemma listen_first_line (line rest : jsstring) (chunks : list jsstring) (buf : jsstring) :
  test response_re line = true ->
  buf ++ concat chunks = line ++ CRLF ++ rest ->
  includes CRLF buf = false ->
  listen buf chunks = Some line.
Proof.
  intros Hline. pose proof (response_line_no_crlf line Hline) as Hno.
  revert buf. induction chunks as [|data later IH]; intros buf E Hbuf.
  - cbn [concat] in E. rewrite app_nil_r in E. subst buf.
    rewrite (includes_middle CRLF line rest) in Hbuf. discriminate.
  - cbn [listen]. unfold handleData.
    cbn [concat] in E. rewrite app_assoc in E.
    destruct (includes CRLF (buf ++ data)) eqn:Hinc.
    + destruct (prefix_with_crlf line rest (buf ++ data) (concat later) Hno E Hinc)
        as [rest' ->].
      destruct (split_first_line line rest' Hno) as [tl ->].
      cbn [find]. rewrite Hline. reflexivity.
    + apply IH; assumption.
Qed.

(** C1 (amended).  Whatever the chunking of the data, when the stream
    received on the socket starts with a line accepted by the reader's
    pattern, followed by CRLF, the reader resolves with that first
    line; for a multi-line reply this is its first [NNN-] line, and
    the lines that follow it, the closing [NNN ] line included, are
    not returned. *)
Theorem reader_returns_first_line (line rest : jsstring) (chunks : list jsstring) :
  test response_re line = true ->
  concat chunks = line ++ CRLF ++ rest ->
  listen [] chunks = Some line.
Proof.
  intros Hline E. apply (listen_first_line line rest); auto.
Qed.

End Reader.

(* ===================================================================== *)
(** * Rules of the judgements *)
(* ===================================================================== *)

Section LogicRules.
Import Logic.
Context {S : Type}.
Implicit Types I : S -> Prop.

Lemma hoare_conseq {A} (P P' : S -> Prop) (m : M S A) Q Q' E E' :
  hoare P' m Q' E' ->
  (forall s, P s -> P' s) ->
  (forall a s, Q' a s -> Q a s) ->
  (forall e s, E' e s -> E e s) ->
  hoare P m Q E.
Proof.
  intros H HP HQ HE s Hs. specialize (H s (HP s Hs)).
  destruct (m s) as [[a|e] s']; auto.
Qed.

Lemma hoare_ret {A} (P : S -> Prop) (a : A) Q E :
  (forall s, P s -> Q a s) -> hoare P (ret a) Q E.
Proof. intros H s Hs. apply H, Hs. Qed.

Lemma hoare_throw {A} (P : S -> Prop) e (Q : A -> S -> Prop) E :
  (forall s, P s -> E e s) -> hoare P (throw e) Q E.
Proof. intros H s Hs. apply H, Hs. Qed.

Lemma hoare_bind {A B} (P : S -> Prop) (m : M S A) (f : A -> M S B) Q1 Q E :
  hoare P m Q1 E ->
  (forall a, hoare (Q1 a) (f a) Q E) ->
  hoare P (bind m f) Q E.
Proof.
  intros Hm Hf s Hs. specialize (Hm s Hs). unfold bind.
  destruct (m s) as [[a|e] s']; [apply Hf, Hm | exact Hm].
Qed.

Lemma hoare_try_catch {A} (P : S -> Prop) (m : M S A) h Q E1 E :
  hoare P m Q E1 ->
  (forall e, hoare (E1 e) (h e) Q E) ->
  hoare P (try_catch m h) Q E.
Proof.
  intros Hm Hh s Hs. specialize (Hm s Hs). unfold try_catch.
  destruct (m s) as [[a|e] s']; [exact Hm | apply Hh, Hm].
Qed.

Lemma inv_ret {A} I (a : A) : inv I (ret a).
Proof. intros s Hs. exact Hs. Qed.

Lemma inv_throw {A} I e : inv I (throw e : M S A).
Proof. intros s Hs. exact Hs. Qed.

Lemma inv_get I : inv I get.
Proof. intros s Hs. exact Hs. Qed.

Lemma inv_modify I (f : S -> S) : (forall s, I s -> I (f s)) -> inv I (modify f).
Proof. intros H s Hs. apply H, Hs. Qed.

Lemma inv_bind {A B} I (m : M S A) (f : A -> M S B) :
  inv I m -> (forall a, inv I (f a)) -> inv I (bind m f).
Proof. intros Hm Hf. eapply hoare_bind; [exact Hm | exact Hf]. Qed.

Lemma inv_try_catch {A} I (m : M S A) h :
  inv I m -> (forall e, inv I (h e)) -> inv I (try_catch m h).
Proof. intros Hm Hh. eapply hoare_try_catch; [exact Hm | exact Hh]. Qed.

Lemma inv_try_finally {A} I (m : M S A) fin :
  inv I m -> inv I fin -> inv I (try_finally m fin).
Proof.
  intros Hm Hf s Hs. specialize (Hm s Hs). unfold try_finally.
  destruct (m s) as [c s'].
  assert (Hs' : I s') by (destruct c; exact Hm).
  specialize (Hf s' Hs'). destruct (fin s') as [[[]|e] s'']; [destruct c|]; exact Hf.
Qed.

Lemma inv_lift {L A} I (m : M S A) :
  inv I m -> inv (on_world (L := L) I) (lift m).
Proof.
  intros Hm [l s] Hs. specialize (Hm s Hs). unfold lift. cbn [fst snd].
  destruct (m s) as [[a|e] s']; exact Hm.
Qed.

Lemma inv_getL {L} I : inv (on_world (L := L) I) getL.
Proof. intros s Hs. exact Hs. Qed.

Lemma inv_modifyL {L} I (f : L -> L) : inv (on_world I) (modifyL f).
Proof. intros s Hs. exact Hs. Qed.

Lemma inv_with_locals {L A} I (init : L) (m : M (L * S) A) :
  inv (on_world I) m -> inv I (with_locals init m).
Proof.
  intros Hm s Hs. specialize (Hm (init, s) Hs). unfold with_locals.
  destruct (m (init, s)) as [[a|e] [l s']]; exact Hm.
Qed.

Lemma nothrow_ret {A} (a : A) : nothrow (ret a : M S A).
Proof. intros s _. exact I. Qed.

Lemma nothrow_get : nothrow (get : M S S).
Proof. intros s _. exact I. Qed.

Lemma nothrow_modify (f : S -> S) : nothrow (modify f).
Proof. intros s _. exact I. Qed.

Lemma nothrow_bind {A B} (m : M S A) (f : A -> M S B) :
  nothrow m -> (forall a, nothrow (f a)) -> nothrow (bind m f).
Proof.
  intros Hm Hf. eapply hoare_bind; [exact Hm|]. intros a s _. apply Hf. exact I.
Qed.

Lemma nothrow_try_catch {A} (m : M S A) h :
  (forall e, nothrow (h e)) -> nothrow (try_catch m h).
Proof.
  intros Hh s _. unfold try_catch. destruct (m s) as [[a|e] s']; [exact I|].
  apply Hh. exact I.
Qed.

Lemma nothrow_lift {L A} (m : M S A) : nothrow m -> nothrow (lift m : M (L * S) A).
Proof.
  intros Hm [l s] _. specialize (Hm s I). unfold lift. cbn [fst snd].
  destruct (m s) as [[a|e] s']; exact Hm.
Qed.

Lemma nothrow_getL {L} : nothrow (getL : M (L * S) L).
Proof. intros s _. exact I. Qed.

Lemma nothrow_modifyL {L} (f : L -> L) : nothrow (modifyL f : M (L * S) unit).
Proof. intros s _. exact I. Qed.

Lemma nothrow_run {A} (m : M S A) s :
  nothrow m -> exists a s', m s = (Normal a, s').
Proof.
  intros H. specialize (H s I). destruct (m s) as [[a|e] s']; [eauto | contradiction].
Qed.

Lemma returns_ret {A} (P : A -> Prop) (a : A) : P a -> returns P (ret a : M S A).
Proof. intros H s _. exact H. Qed.

Lemma returns_throw {A} (P : A -> Prop) e : returns P (throw e : M S A).
Proof. intros s _. exact I. Qed.

Lemma returns_bind {A B} (P : B -> Prop) (m : M S A) (f : A -> M S B) :
  (forall a, returns P (f a)) -> returns P (bind m f).
Proof.
  intros Hf s _. unfold bind. destruct (m s) as [[a|e] s']; [|exact I].
  apply Hf. exact I.
Qed.

Lemma returns_bind_with {A B} (P1 : A -> Prop) (P : B -> Prop)
      (m : M S A) (f : A -> M S B) :
  returns P1 m -> (forall a, P1 a -> returns P (f a)) -> returns P (bind m f).
Proof.
  intros Hm Hf s _. specialize (Hm s I). unfold bind.
  destruct (m s) as [[a|e] s']; [|exact I]. apply (Hf a Hm). exact I.
Qed.

Lemma returns_try_catch {A} (P : A -> Prop) (m : M S A) h :
  returns P m -> (forall e, returns P (h e)) -> returns P (try_catch m h).
Proof.
  intros Hm Hh s _. specialize (Hm s I). unfold try_catch.
  destruct (m s) as [[a|e] s']; [exact Hm|]. apply Hh. exact I.
Qed.

Lemma returns_with_locals {L A} (P : A -> Prop) (init : L) (m : M (L * S) A) :
  returns P m -> returns P (with_locals init m).
Proof.
  intros Hm s _. specialize (Hm (init, s) I). unfold with_locals.
  destruct (m (init, s)) as [[a|e] [l s']]; exact Hm.
Qed.

Lemma nothrow_with_locals {L A} (init : L) (m : M (L * S) A) :
  nothrow m -> nothrow (with_locals init m).
Proof.
  intros Hm s _. specialize (Hm (init, s) I). unfold with_locals.
  destruct (m (init, s)) as [[a|e] [l s']]; exact Hm.
Qed.

Lemma returns_run {A} (P : A -> Prop) (m : M S A) s a s' :
  returns P m -> m s = (Normal a, s') -> P a.
Proof. intros H E. specialize (H s I). rewrite E in H. exact H. Qed.

Lemma inv_run {A} I (m : M S A) s :
  inv I m -> I s -> I (snd (m s)).
Proof. intros H Hs. specialize (H s Hs). destruct (m s) as [[a|e] s']; exact H. Qed.

End LogicRules.

Section Running.
Context {S : Type}.

Lemma run_bind {A B} (m : M S A) (f : A -> M S B) s :
  bind m f s =
  match m s with
  | (Normal a, s') => f a s'
  | (Throw e, s') => (Throw e, s')
  end.
Proof. reflexivity. Qed.

Lemma run_ret {A} (a : A) (s : S) : ret a s = (Normal a, s).
Proof. reflexivity. Qed.

Lemma run_throw {A} e (s : S) : throw e s = (Throw e : Completion A, s).
Proof. reflexivity. Qed.

Lemma run_modifyL {L} (f : L -> L) l (s : S) :
  modifyL f (l, s) = (Normal tt, (f l, s)).
Proof. reflexivity. Qed.

Lemma run_getL {L} (l : L) (s : S) : getL (l, s) = (Normal l, (l, s)).
Proof. reflexivity. Qed.

Lemma run_lift {L A} (m : M S A) (l : L) s :
  lift m (l, s) = match m s with (c, s') => (c, (l, s')) end.
Proof. reflexivity. Qed.

Lemma run_try_catch {A} (m : M S A) h s :
  try_catch m h s =
  match m s with
  | (Normal a, s') => (Normal a, s')
  | (Throw e, s') => h e s'
  end.
Proof. reflexivity. Qed.

End Running.

(** One step of a run whose next instruction is known. *)
Ltac run_step :=
  first [ rewrite run_bind | rewrite run_ret | rewrite run_throw
        | rewrite run_modifyL | rewrite run_getL ];
  cbv beta iota.

Ltac monadic :=
  unfold mbind, M_bind, mret, M_ret, fmap, M_fmap; cbv beta.

(* ===================================================================== *)
(** * What each operation leaves untouched *)
(* ===================================================================== *)

Create HintDb frame discriminated.

Ltac inv_go :=
  repeat
    match goal with
    | |- forall _, _ => intro
    | |- Logic.inv _ (ret _) => exact (inv_ret _ _)
    | |- Logic.inv _ (throw _) => exact (inv_throw _ _)
    | |- Logic.inv _ get => exact (inv_get _)
    | |- Logic.inv _ getL => exact (inv_getL _)
    | |- Logic.inv _ (modifyL _) => exact (inv_modifyL _ _)
    | |- Logic.inv _ (bind _ _) => simple apply @inv_bind
    | |- Logic.inv _ (try_catch _ _) => simple apply @inv_try_catch
    | |- Logic.inv _ (try_finally _ _) => simple apply @inv_try_finally
    | |- Logic.inv _ (lift _) => simple apply @inv_lift
    | |- Logic.inv _ (match ?x with _ => _ end) => destruct x
    | |- Logic.inv _ _ => solve [auto with frame]
    end.

Section PoolFrames.
Import Logic ProxyManager.
Variable I : World -> Prop.
Hypothesis HI : pool_stable I.

Lemma inv_update_proxy i f : inv I (update_proxy i f).
Proof.
  apply inv_modify. intros s Hs. destruct (proxies s !! i); [apply HI|]; exact Hs.
Qed.

Lemma inv_log_pool e : inv I (log_pool e).
Proof. apply inv_modify. intros s Hs. apply HI, Hs. Qed.

Lemma inv_now env : inv I (World.now env).
Proof. intros s Hs. cbn. apply HI, Hs. Qed.

Lemma inv_set_pool ps ci : inv I (modify (set_pool ps ci)).
Proof. apply inv_modify. intros s Hs. apply HI, Hs. Qed.

Hint Resolve inv_update_proxy inv_log_pool inv_now inv_set_pool : frame.

Lemma inv_scan now rem : inv I (scan now rem).
Proof.
  induction rem as [|rem IH]; cbn [scan]; monadic; inv_go.
Qed.

Hint Resolve inv_scan : frame.

Lemma inv_getNextProxy_rec env depth : inv I (getNextProxy_rec env depth).
Proof.
  induction depth as [|depth IH]; cbn [getNextProxy_rec]; monadic; inv_go.
  apply inv_modify. intros s Hs. apply HI, Hs.
Qed.

Lemma inv_getNextProxy env : inv I (getNextProxy env).
Proof. apply inv_getNextProxy_rec. Qed.

Lemma inv_markProxyFailure p : inv I (markProxyFailure p).
Proof. unfold markProxyFailure. monadic. inv_go. Qed.

Lemma inv_markProxySuccess p : inv I (markProxySuccess p).
Proof. unfold markProxySuccess. monadic. inv_go. Qed.

Lemma inv_releaseProxy p : inv I (releaseProxy p).
Proof. unfold releaseProxy. monadic. inv_go. Qed.

End PoolFrames.

#[local] Hint Resolve inv_update_proxy inv_log_pool inv_now inv_scan inv_getNextProxy
  inv_markProxyFailure inv_markProxySuccess inv_releaseProxy : frame.

Section SocketFrames.
Import Logic ProxyManager Smtp.
Variable I : World -> Prop.
Hypothesis HQ : quiet I.

Lemma quiet_pool_stable : pool_stable I.
Proof. apply HQ. Qed.
Hint Resolve quiet_pool_stable : frame.

Lemma inv_update_socket sid f : inv I (update_socket sid f).
Proof.
  apply inv_modify. intros s Hs. destruct (sockets s !! sid); [apply HQ|]; exact Hs.
Qed.

Lemma inv_sleep ms : inv I (sleep ms).
Proof. apply inv_modify. intros s Hs. apply HQ, Hs. Qed.

Hint Resolve inv_update_socket inv_sleep : frame.

Lemma inv_destroy sid : inv I (destroy sid).
Proof. unfold destroy. monadic. inv_go. Qed.
Hint Resolve inv_destroy : frame.

Lemma inv_socket_error sid : inv I (socket_error sid).
Proof. unfold socket_error. monadic. inv_go. Qed.
Hint Resolve inv_socket_error : frame.

Lemma inv_dial env proxy h p : inv I (dial env proxy h p).
Proof.
  unfold dial. monadic. inv_go; apply inv_modify; intros s Hs; apply HQ, Hs.
Qed.
Hint Resolve inv_dial : frame.

Lemma inv_createProxyConnection env proxy h p :
  inv I (createProxyConnection env proxy h p).
Proof. unfold createProxyConnection. monadic. inv_go. Qed.

Lemma inv_writeCommand env sid c : inv I (writeCommand env sid c).
Proof. unfold writeCommand. monadic. inv_go. Qed.

Lemma inv_readResponse env sid t : inv I (readResponse env sid t).
Proof. unfold readResponse. monadic. inv_go. Qed.

Hint Resolve inv_createProxyConnection inv_writeCommand inv_readResponse : frame.

Lemma inv_cleanup env : inv (on_world I) (cleanup env).
Proof. unfold cleanup. monadic. inv_go. Qed.
Hint Resolve inv_cleanup : frame.

Lemma inv_greet env sid domain config : inv (on_world I) (greet env sid domain config).
Proof. unfold greet. monadic. inv_go. Qed.

Lemma inv_probe env sid proxy email config :
  inv (on_world I) (probe env sid proxy email config).
Proof. unfold probe. monadic. inv_go. Qed.

Hint Resolve inv_greet inv_probe : frame.

Lemma inv_attempt env host email domain config :
  inv (on_world I) (attempt env host email domain config).
Proof. unfold attempt. monadic. inv_go. Qed.

Lemma inv_attempt_failed env retryCount :
  inv (on_world I) (attempt_failed env retryCount).
Proof. unfold attempt_failed. monadic. inv_go. Qed.

Hint Resolve inv_attempt inv_attempt_failed : frame.

Lemma inv_attempts env host email domain config remaining retryCount :
  inv (on_world I) (attempts env host email domain config remaining retryCount).
Proof.
  revert retryCount. induction remaining as [|k IH]; intros retryCount;
    cbn [attempts]; monadic; inv_go.
Qed.

End SocketFrames.

(* ===================================================================== *)
(** * [verifyMailbox]: it always returns, and what it returns *)
(* ===================================================================== *)

Ltac nothrow_go :=
  repeat
    match goal with
    | |- forall _, _ => intro
    | |- Logic.nothrow (ret _) => exact (nothrow_ret _)
    | |- Logic.nothrow get => exact nothrow_get
    | |- Logic.nothrow getL => exact nothrow_getL
    | |- Logic.nothrow (modify _) => exact (nothrow_modify _)
    | |- Logic.nothrow (modifyL _) => exact (nothrow_modifyL _)
    | |- Logic.nothrow (bind _ _) => simple apply @nothrow_bind
    | |- Logic.nothrow (try_catch _ _) => simple apply @nothrow_try_catch
    | |- Logic.nothrow (lift _) => simple apply @nothrow_lift
    | |- Logic.nothrow (with_locals _ _) => simple apply @nothrow_with_locals
    | |- Logic.nothrow (match ?x with _ => _ end) => destruct x
    | |- Logic.nothrow _ => solve [auto with frame]
    end.

Ltac returns_go :=
  repeat
    match goal with
    | |- forall _, _ => intro
    | |- Logic.returns _ (throw _) => exact (returns_throw _ _)
    | |- Logic.returns _ (bind _ _) => simple apply @returns_bind
    | |- Logic.returns _ (match ?x with _ => _ end) => destruct x
    | |- Logic.returns _ _ => solve [auto with frame]
    end.

Section Verify.
Import Logic Spec ProxyManager Smtp.

Lemma nothrow_update_proxy i f : nothrow (update_proxy i f).
Proof. apply nothrow_modify. Qed.

Lemma nothrow_log_pool e : nothrow (log_pool e).
Proof. apply nothrow_modify. Qed.

Lemma nothrow_sleep ms : nothrow (sleep ms).
Proof. apply nothrow_modify. Qed.

Hint Resolve nothrow_update_proxy nothrow_log_pool nothrow_sleep : frame.

Lemma nothrow_markProxyFailure p : nothrow (markProxyFailure p).
Proof. unfold markProxyFailure. monadic. nothrow_go. Qed.

Lemma nothrow_cleanup env : nothrow (cleanup env).
Proof. unfold cleanup. monadic. nothrow_go. Qed.

Hint Resolve nothrow_markProxyFailure nothrow_cleanup : frame.

Lemma nothrow_attempt_failed env retryCount : nothrow (attempt_failed env retryCount).
Proof. unfold attempt_failed. monadic. nothrow_go. Qed.

Hint Resolve nothrow_attempt_failed : frame.

Lemma nothrow_attempts env host email domain config remaining retryCount :
  nothrow (attempts env host email domain config remaining retryCount).
Proof.
  revert retryCount. induction remaining as [|k IH]; intros retryCount;
    cbn [attempts]; monadic; nothrow_go.
Qed.

Lemma nothrow_verifyMailbox env host email domain config :
  nothrow (verifyMailbox env host email domain config).
Proof.
  unfold verifyMailbox. monadic. nothrow_go. apply nothrow_attempts.
Qed.

Lemma returns_probe env sid proxy email config :
  returns completed (probe env sid proxy email config).
Proof.
  unfold probe. monadic. returns_go.
  apply returns_ret. split; reflexivity.
Qed.

Hint Resolve returns_probe : frame.

Lemma returns_attempt env host email domain config :
  returns completed (attempt env host email domain config).
Proof. unfold attempt. monadic. returns_go. Qed.

Lemma returns_attempts env host email domain config remaining retryCount :
  returns verdict (attempts env host email domain config remaining retryCount).
Proof.
  revert retryCount. induction remaining as [|k IH]; intros retryCount;
    cbn [attempts]; monadic.
  - apply returns_ret. right. repeat split; reflexivity.
  - apply (returns_bind_with
             (fun r => match r with Some vr => completed vr | None => True end)).
    + apply returns_try_catch.
      * apply (returns_bind_with completed); [apply returns_attempt|].
        intros vr Hvr. apply returns_ret. exact Hvr.
      * intros e. apply returns_bind. intros _. apply returns_ret. exact I.
    + intros [vr|] Hr; [apply returns_ret; left; exact Hr | apply IH].
Qed.

Lemma verifyMailbox_spec env host email domain config w :
  exists vr w',
    verifyMailbox env host email domain config w = (Normal vr, w') /\
    verdict vr /\
    probes w' = probes w ++ [host].
Proof.
  destruct (nothrow_run _ w (nothrow_verifyMailbox env host email domain config))
    as (vr & w' & E).
  exists vr, w'. split; [exact E|]. split.
  - revert E. apply returns_run.
    unfold verifyMailbox. monadic. apply returns_bind. intros _.
    apply returns_with_locals, returns_attempts.
  - set (w1 := set_probes (probes w ++ [host]) w).
    change (verifyMailbox env host email domain config w)
      with (with_locals {| socket := None; currentProxy := None |}
              (attempts env host email domain config (Z.to_nat MAX_RETRIES) 0) w1) in E.
    assert (HI : quiet (fun w' => probes w' = probes w ++ [host])).
    { repeat split; intros; assumption. }
    pose proof (inv_run _ _ w1
      (inv_with_locals _ {| socket := None; currentProxy := None |} _
         (inv_attempts _ HI env host email domain config (Z.to_nat MAX_RETRIES) 0))
      eq_refl) as H.
    rewrite E in H. exact H.
Qed.

Lemma retry_loop_spec env host email domain config maxRetries remaining retryCount
      lastError w :
  (remaining = 0%nat ->
   lastError = Some (Error "Verification failed after 3 attempts")) ->
  exists vr w' k,
    retry_loop env host email domain config maxRetries remaining retryCount lastError w
      = (Normal vr, w') /\
    verdict vr /\
    probes w' = probes w ++ repeat host k /\
    (remaining <> 0 -> k <> 0)%nat.
Proof.
  revert retryCount lastError w.
  induction remaining as [|n IH]; intros retryCount lastError w Hlast.
  - rewrite (Hlast eq_refl). eexists _, w, 0%nat. split; [reflexivity|].
    split; [right; repeat split; reflexivity|].
    split; [cbn; rewrite app_nil_r; reflexivity | congruence].
  - cbn [retry_loop]. monadic. unfold bind at 1, try_catch at 1, bind at 1.
    destruct (verifyMailbox_spec env host email domain config w)
      as (vr & w1 & -> & Hv & Hp).
    destruct Hv as [[Hs He] | (Hs & Hm & He)]; rewrite Hs.
    + exists vr, w1, 1%nat. split; [reflexivity|].
      split; [left; split; assumption|]. split; [exact Hp | congruence].
    + rewrite He. cbn [or_else String.eqb Ascii.eqb Bool.eqb ret].
      set (pause := if retryCount <? maxRetries - 1 then _ else _).
      assert (Hpause : exists w2, pause w1 = (Normal tt, w2) /\ probes w2 = probes w1).
      { subst pause. destruct (retryCount <? maxRetries - 1); eexists; split; reflexivity. }
      destruct Hpause as (w2 & Hw2 & Hp2). unfold bind. rewrite Hw2.
      destruct (IH (retryCount + 1)
                   (Some (Error "Verification failed after 3 attempts")) w2)
        as (vr' & w' & k & -> & Hv' & Hp' & _).
      { intros _. reflexivity. }
      exists vr', w', (S k). split; [reflexivity|]. split; [exact Hv'|].
      split; [|congruence].
      rewrite Hp', Hp2, Hp, <- app_assoc. reflexivity.
Qed.

Lemma verifyMailboxWithRetry_spec env host email domain config w :
  exists vr w' k,
    verifyMailboxWithRetry env host email domain config w = (Normal vr, w') /\
    verdict vr /\
    probes w' = probes w ++ repeat host (S k).
Proof.
  unfold verifyMailboxWithRetry.
  set (maxRetries := if jsstring_eqb _ _ then 5 else MAX_RETRIES).
  destruct (retry_loop_spec env host email domain config maxRetries
              (Z.to_nat maxRetries) 0 None w) as (vr & w' & k & E & Hv & Hp & Hk).
  { subst maxRetries. destruct (jsstring_eqb _ _); intros H; vm_compute in H; discriminate. }
  destruct k as [|k].
  { exfalso. apply Hk; [|reflexivity].
    subst maxRetries. destruct (jsstring_eqb _ _); intros H; vm_compute in H; discriminate. }
  exists vr, w', k. auto.
Qed.

End Verify.

(* ===================================================================== *)
(** * The order of the MX records *)
(* ===================================================================== *)

Section MxSorting.
Import Validator.

Lemma insert_mx_perm x l : Permutation (insert_mx x l) (x :: l).
Proof.
  induction l as [|y l IH]; cbn [insert_mx]; [reflexivity|].
  destruct (priority x <=? priority y); [reflexivity|].
  rewrite IH. apply perm_swap.
Qed.

Lemma insert_mx_sorted x l :
  StronglySorted (fun a b => priority a <= priority b) l ->
  StronglySorted (fun a b => priority a <= priority b) (insert_mx x l).
Proof.
  induction 1 as [|y l Hs IH Hy]; cbn [insert_mx].
  - repeat constructor.
  - destruct (priority x <=? priority y) eqn:E.
    + apply Z.leb_le in E. constructor; [constructor; assumption|].
      constructor; [exact E|].
      eapply Forall_impl; [exact Hy|]. intros z Hz. cbn in Hz. lia.
    + apply Z.leb_gt in E. constructor; [exact IH|].
      rewrite insert_mx_perm. constructor; [lia | exact Hy].
Qed.

Lemma insert_mx_filter p x l :
  List.filter (fun r => priority r =? p) (insert_mx x l)
  = List.filter (fun r => priority r =? p) (x :: l).
Proof.
  induction l as [|y l IH]; cbn [insert_mx]; [reflexivity|].
  destruct (priority x <=? priority y) eqn:E; [reflexivity|].
  apply Z.leb_gt in E.
  cbn [List.filter] in *. rewrite IH.
  destruct (priority x =? p) eqn:Ex, (priority y =? p) eqn:Ey; try reflexivity.
  apply Z.eqb_eq in Ex, Ey. lia.
Qed.

Lemma sort_mx_spec records :
  Permutation (sort_mx records) records /\
  StronglySorted (fun a b => priority a <= priority b) (sort_mx records) /\
  forall p, List.filter (fun r => priority r =? p) (sort_mx records)
            = List.filter (fun r => priority r =? p) records.
Proof.
  induction records as [|x l (IHp & IHs & IHf)]; cbn [sort_mx fold_right].
  - split; [reflexivity|]. split; [constructor | reflexivity].
  - fold (sort_mx l). split; [rewrite insert_mx_perm, IHp; reflexivity|].
    split; [apply insert_mx_sorted, IHs|].
    intros p. rewrite insert_mx_filter. cbn [List.filter]. rewrite IHf. reflexivity.
Qed.

(** What [checkMX] answers when it answers with records. *)
Lemma checkMX_records env domain mxs :
  checkMX env domain = Some mxs ->
  exists records,
    resolveMx env domain = Normal records /\
    Permutation mxs records /\
    StronglySorted (fun a b => priority a <= priority b) mxs /\
    forall p, List.filter (fun r => priority r =? p) mxs
              = List.filter (fun r => priority r =? p) records.
Proof.
  unfold checkMX. destruct (resolveMx env domain) as [records|e]; [|discriminate].
  destruct records as [|r records]; [discriminate|].
  intros [= <-]. exists (r :: records). split; [reflexivity|].
  exact (sort_mx_spec (r :: records)).
Qed.

End MxSorting.

(* ===================================================================== *)
(** * The MX loop and the pipeline *)
(* ===================================================================== *)

Section Pipeline.
Import Logic Spec Smtp Validator.

Lemma verify_spec env (b : bool) host email domain config w :
  exists vr w' k,
    (if b then verifyMailboxWithRetry env host email domain config
     else verifyMailbox env host email domain config) w = (Normal vr, w') /\
    verdict vr /\
    probes w' = probes w ++ repeat host (S k).
Proof.
  destruct b.
  - apply verifyMailboxWithRetry_spec.
  - destruct (verifyMailbox_spec env host email domain config w) as (vr & w' & E & Hv & Hp).
    exists vr, w', 0%nat. auto.
Qed.

Lemma mx_turn_spec env email domain config mx fr w :
  exists stop fr' w' k,
    mx_turn env email domain config mx (fr, w) = (Normal stop, (fr', w')) /\
    probes w' = probes w ++ repeat (exchange mx) (S k) /\
    static (result fr') = static (result fr) /\
    catchAll_after (catchAll (checks (result fr))) (catchAll (checks (result fr'))) /\
    lastError_after (lastError fr) (lastError fr') /\
    (if stop
     then smtpSuccess fr' = true /\ mailbox (checks (result fr')) = true
     else smtpSuccess fr' = smtpSuccess fr /\
          (mailbox (checks (result fr')) = false \/
           mailbox (checks (result fr')) = mailbox (checks (result fr)))).
Proof.
  unfold mx_turn. monadic. unfold try_catch, bind at 1, lift at 1. cbn [fst snd].
  destruct (verify_spec env (jsstring_eqb (provider config) (str "outlook.com"))
              (exchange mx) email domain config w) as (vr & w' & k & -> & Hv & Hp).
  destruct Hv as [[Hs He] | (Hs & Hm & He)]; rewrite Hs.
  - (* the dialog completed *)
    unfold isCatchAll. cbn [truthy andb].
    unfold bind, modifyL, getL. cbn [fst snd result checks mailbox on_result on_checks
      set_smtp_checks on_details].
    destruct (mailboxExists vr) eqn:Hmb; cbn.
    + eexists true, _, w', k. split; [reflexivity|]. cbn.
      repeat split; auto. right; reflexivity. left; reflexivity.
    + eexists false, _, w', k. split; [reflexivity|]. cbn.
      repeat split; auto. right; reflexivity. rewrite He. right; left; reflexivity.
  - (* the dialog failed three times *)
    unfold bind, modifyL. cbn.
    eexists false, _, w', k. split; [reflexivity|]. cbn.
    repeat split; auto. left; reflexivity. rewrite He. right; right; reflexivity.
Qed.

Lemma covers_nil : covers [] [].
Proof. exists []. split; [reflexivity | constructor]. Qed.

Lemma covers_cons mx k mxs log :
  covers mxs log -> covers (mx :: mxs) (repeat (exchange mx) (S k) ++ log).
Proof.
  intros (blocks & -> & HF). exists (repeat (exchange mx) (S k) :: blocks).
  split; [reflexivity|]. constructor; eauto.
Qed.

Lemma mx_loop_spec env email domain config mxs fr w :
  smtpSuccess fr = false ->
  mailbox (checks (result fr)) = false ->
  exists fr' w',
    mx_loop env email domain config mxs (fr, w) = (Normal tt, (fr', w')) /\
    static (result fr') = static (result fr) /\
    catchAll_after (catchAll (checks (result fr))) (catchAll (checks (result fr'))) /\
    lastError_after (lastError fr) (lastError fr') /\
    ((smtpSuccess fr' = true /\ mailbox (checks (result fr')) = true)
     \/ (smtpSuccess fr' = false /\ mailbox (checks (result fr')) = false /\
         exists log, probes w' = probes w ++ log /\ covers mxs log)).
Proof.
  revert fr w. induction mxs as [|mx rest IH]; intros fr w Hs Hm.
  - exists fr, w. split; [reflexivity|]. split; [reflexivity|].
    split; [left; reflexivity|]. split; [left; reflexivity|].
    right. split; [exact Hs|]. split; [exact Hm|].
    exists []. rewrite app_nil_r. split; [reflexivity | apply covers_nil].
  - cbn [mx_loop]. monadic. unfold bind at 1.
    destruct (mx_turn_spec env email domain config mx fr w)
      as (stop & fr1 & w1 & k & -> & Hp & Hst & Hca & Hle & Hstop).
    destruct stop.
    + exists fr1, w1. split; [reflexivity|]. split; [exact Hst|].
      split; [exact Hca|]. split; [exact Hle|]. left. exact Hstop.
    + destruct Hstop as [Hs1 Hm1].
      assert (Hm1' : mailbox (checks (result fr1)) = false)
        by (destruct Hm1; congruence).
      destruct (IH fr1 w1) as (fr' & w' & -> & Hst' & Hca' & Hle' & Hend);
        [congruence | exact Hm1' |].
      exists fr', w'. split; [reflexivity|]. split; [congruence|].
      split.
      { unfold catchAll_after in *. intuition congruence. }
      split.
      { unfold lastError_after in *. intuition congruence. }
      destruct Hend as [Hend | (Hs' & Hm' & log & Hlog & Hcov)]; [left; exact Hend|].
      right. split; [exact Hs'|]. split; [exact Hm'|].
      exists (repeat (exchange mx) (S k) ++ log).
      split; [rewrite Hlog, Hp, <- app_assoc; reflexivity|].
      apply covers_cons, Hcov.
Qed.

Lemma stages_spec env email w :
  match stages env email (initial email, w) with
  | (Normal _, (fr, w')) => settled w (result fr) w'
  | (Throw _, (fr, w')) =>
      mx (checks (result fr)) = false /\
      mailbox (checks (result fr)) = false /\
      catchAll (checks (result fr)) = JBool false
  end.
Proof.
  unfold stages. monadic.
  do 4 run_step.
  cbn [initial on_result on_checks set_format result checks format].
  destruct (EmailFormat.validateEmailFormat email) eqn:Hfmt; cbn [negb].
  2:{ cbn. repeat split; try discriminate. }
  destruct email as [| | | |s|]; try discriminate Hfmt.
  cbn [split_at]. monadic. do 2 run_step.
  set (parts := split (str "@") s).
  destruct (64 <? length (default [] (parts !! 0%nat)))%nat.
  { cbn. repeat split; try discriminate. }
  destruct (parts !! 1%nat) as [dom|].
  2:{ cbn. repeat split; reflexivity. }
  destruct (255 <? length dom)%nat.
  { cbn. repeat split; try discriminate. }
  do 4 run_step.
  cbn [on_result on_checks set_dns result checks dns].
  destruct (checkDNS env dom) eqn:Hdns; cbn [negb].
  2:{ cbn. repeat split; try discriminate. }
  destruct (checkMX env dom) as [mxs|] eqn:Hmx.
  2:{ cbn. repeat split; try discriminate. }
  repeat run_step.
  set (fr0 := set_lastError None _).
  destruct (mx_loop_spec env (JStr s) dom (Providers.getProviderConfig dom) mxs fr0 w)
    as (fr' & w' & -> & Hst & Hca & Hle & Hend); [reflexivity | reflexivity |].
  cbv beta iota. run_step. run_step.
  assert (Hdns' : dns (checks (result fr')) = true).
  { change (dns (checks (result fr'))) with (static (result fr')).1.1.1.1.2.
    rewrite Hst. reflexivity. }
  assert (Hmx' : mx (checks (result fr')) = true).
  { change (mx (checks (result fr'))) with (static (result fr')).1.1.1.2.
    rewrite Hst. reflexivity. }
  assert (Hrec : mxRecords (details (result fr')) = mxs).
  { change (mxRecords (details (result fr'))) with (static (result fr')).1.2.
    rewrite Hst. reflexivity. }
  assert (Hca' : catchAll (checks (result fr')) <> JBool true).
  { destruct Hca as [-> | ->]; discriminate. }
  destruct Hend as [[Hs Hm] | (Hs & Hm & log & Hlog & Hcov)]; rewrite Hs.
  - repeat run_step. cbn. unfold settled. cbn.
    split; [exact Hca'|]. split; [discriminate|]. split; [auto|].
    intros _ Hm'. congruence.
  - rewrite Hdns', Hmx'. cbn [andb]. repeat run_step. cbn. unfold settled. cbn.
    split; [exact Hca'|]. split.
    + destruct Hle as [-> | [-> | ->]]; cbn; discriminate.
    + split; [intros Hm'; congruence|].
      intros _ _. exists log. rewrite Hrec. auto.
Qed.

Lemma validateEmail_spec env email w :
  exists r w', validateEmail env email w = (Normal r, w') /\ settled w r w'.
Proof.
  pose proof (stages_spec env email w) as H.
  unfold validateEmail, with_locals. monadic.
  rewrite run_bind, run_try_catch.
  destruct (stages env email (initial email, w)) as [[[]|e] [fr w']].
  - run_step. run_step. eexists _, _. split; [reflexivity | exact H].
  - rewrite run_modifyL. run_step. run_step.
    eexists _, _. split; [reflexivity|].
    destruct H as (Hmx & Hmb & Hca). unfold settled. cbn.
    rewrite Hmx, Hmb, Hca.
    split; [discriminate|]. split; [discriminate|]. split; discriminate.
Qed.

(** Where the records of [details.mxRecords] come from: when the
    [mx] check holds, the address is a string with a domain after its
    first [@], and the records are the answer of [checkMX] for that
    domain. *)
Lemma stages_records env email w :
  match stages env email (initial email, w) with
  | (_, (fr, _)) =>
      mx (checks (result fr)) = true ->
      exists s domain,
        email = JStr s /\ split (str "@") s !! 1%nat = Some domain /\
        checkMX env domain = Some (mxRecords (details (result fr)))
  end.
Proof.
  unfold stages. monadic.
  do 4 run_step.
  cbn [initial on_result on_checks set_format result checks format].
  destruct (EmailFormat.validateEmailFormat email) eqn:Hfmt; cbn [negb].
  2:{ cbn. discriminate. }
  destruct email as [| | | |s|]; try discriminate Hfmt.
  cbn [split_at]. monadic. do 2 run_step.
  destruct (split (str "@") s !! 1%nat) as [dom|] eqn:Hdom.
  2:{ destruct (64 <? _)%nat; cbn; discriminate. }
  destruct (64 <? length (default [] (split (str "@") s !! 0%nat)))%nat.
  { cbn. discriminate. }
  destruct (255 <? length dom)%nat.
  { cbn. discriminate. }
  do 4 run_step.
  cbn [on_result on_checks set_dns result checks dns].
  destruct (checkDNS env dom) eqn:Hdns; cbn [negb].
  2:{ cbn. discriminate. }
  destruct (checkMX env dom) as [mxs|] eqn:Hmx.
  2:{ cbn. discriminate. }
  repeat run_step.
  set (fr0 := set_lastError None _).
  destruct (mx_loop_spec env (JStr s) dom (Providers.getProviderConfig dom) mxs fr0 w)
    as (fr' & w' & -> & Hst & _ & _ & _); [reflexivity | reflexivity |].
  cbv beta iota. run_step. run_step.
  assert (Hrec : mxRecords (details (result fr')) = mxs).
  { change (mxRecords (details (result fr'))) with (static (result fr')).1.2.
    rewrite Hst. reflexivity. }
  assert (Hgoal : exists s0 domain,
             JStr s = JStr s0 /\ split (str "@") s0 !! 1%nat = Some domain /\
             checkMX env domain = Some (mxRecords (details (result fr')))).
  { exists s, dom. rewrite Hrec. auto. }
  destruct (smtpSuccess fr'); [|destruct (_ && _)]; repeat run_step; cbn;
    intros _; exact Hgoal.
Qed.

Lemma validateEmail_records env email w r w' :
  validateEmail env email w = (Normal r, w') ->
  mx (checks r) = true ->
  exists s domain,
    email = JStr s /\ split (str "@") s !! 1%nat = Some domain /\
    checkMX env domain = Some (mxRecords (details r)).
Proof.
  pose proof (stages_records env email w) as H.
  unfold validateEmail, with_locals. monadic.
  rewrite run_bind, run_try_catch.
  destruct (stages env email (initial email, w)) as [[[]|e] [fr w0]].
  - run_step. run_step. intros [= <- <-]. exact H.
  - rewrite run_modifyL. run_step. run_step. intros [= <- <-]. exact H.
Qed.

(** C5 (amended).  A completed dialog that ends in a rejection does
    not stop the MX loop: the loop goes on with the next host and
    stops early only when a mailbox is confirmed.  So whenever a
    validation that reached the loop ends with [checks.mailbox] false,
    every MX host of [details.mxRecords] has been handed to the
    verifier, each at least once and in the order of that list; and
    that list is the answer of the resolver for the domain of the
    address put in priority order: the same records, by ascending
    priority, records of equal priority in the order the resolver
    gave them. *)
Theorem mx_loop_stops_only_on_mailbox env email w r w' :
  validateEmail env email w = (Normal r, w') ->
  mx (checks r) = true ->
  mailbox (checks r) = false ->
  exists log,
    probes w' = probes w ++ log /\ covers (mxRecords (details r)) log /\
    exists s domain records,
      email = JStr s /\ split (str "@") s !! 1%nat = Some domain /\
      resolveMx env domain = Normal records /\
      Permutation (mxRecords (details r)) records /\
      StronglySorted (fun a b => priority a <= priority b) (mxRecords (details r)) /\
      forall p, List.filter (fun x => priority x =? p) (mxRecords (details r))
                = List.filter (fun x => priority x =? p) records.
Proof.
  intros E Hmx Hmb.
  destruct (validateEmail_spec env email w) as (r0 & w0 & E0 & H).
  rewrite E in E0. injection E0 as <- <-.
  destruct H as (_ & _ & _ & H). destruct (H Hmx Hmb) as (log & Hlog & Hcov).
  exists log. split; [exact Hlog|]. split; [exact Hcov|].
  destruct (validateEmail_records env email w r w' E Hmx) as (s & domain & -> & Hd & Hc).
  apply checkMX_records in Hc as (records & Hr & Hperm & Hsort & Hfil).
  exists s, domain, records. split; [reflexivity|]. split; [exact Hd|].
  split; [exact Hr|]. split; [exact Hperm|]. split; [exact Hsort | exact Hfil].
Qed.

End Pipeline.

(* ===================================================================== *)
(** * The commands of one dialog *)
(* ===================================================================== *)

Section Dialog.
Import Logic Spec ProxyManager Smtp.

Lemma rcpts_on_pool_stable sid X : pool_stable (rcpts_on sid X).
Proof. repeat split; intros; assumption. Qed.
Hint Resolve rcpts_on_pool_stable : frame.

Lemma rcpts_on_insert sid X sid' (s s' : Socket) Y w :
  rcpts_on sid X w ->
  sockets w !! sid' = Some s ->
  filter is_rcpt (sk_sent s') = filter is_rcpt (sk_sent s) ++ Y ->
  rcpts_on sid (if decide (sid' = sid) then X ++ Y else X)
           (set_sockets (<[sid' := s']> (sockets w)) w).
Proof.
  intros (s0 & Hs0 & HX) Hs Hf. unfold rcpts_on. cbn [sockets set_sockets].
  destruct (decide (sid' = sid)) as [-> | Hne].
  - exists s'. rewrite list_lookup_insert_eq by (eapply lookup_lt_Some; eauto).
    split; [reflexivity|]. rewrite Hf. congruence.
  - exists s0. rewrite list_lookup_insert_ne by assumption. auto.
Qed.

Lemma rcpts_on_insert_same sid X sid' (s s' : Socket) w :
  rcpts_on sid X w ->
  sockets w !! sid' = Some s ->
  filter is_rcpt (sk_sent s') = filter is_rcpt (sk_sent s) ->
  rcpts_on sid X (set_sockets (<[sid' := s']> (sockets w)) w).
Proof.
  intros H Hs Hf.
  pose proof (rcpts_on_insert sid X sid' s s' [] w H Hs) as H'.
  rewrite !app_nil_r in H'. specialize (H' Hf).
  destruct (decide (sid' = sid)); exact H'.
Qed.

Lemma inv_destroy_rcpts sid X sid' : inv (rcpts_on sid X) (destroy sid').
Proof.
  intros w Hw. unfold destroy. monadic. rewrite run_bind. unfold get. cbv beta iota.
  destruct (sockets w !! sid') as [s|] eqn:Hs; [|exact Hw].
  destruct (sk_destroyed s); [exact Hw|].
  rewrite run_bind. unfold update_socket, modify. rewrite Hs. cbv beta iota.
  apply (inv_releaseProxy _ (rcpts_on_pool_stable sid X)).
  eapply rcpts_on_insert_same; eauto.
Qed.
Hint Resolve inv_destroy_rcpts : frame.

Lemma inv_socket_error_rcpts sid X sid' : inv (rcpts_on sid X) (socket_error sid').
Proof. unfold socket_error. monadic. inv_go. Qed.
Hint Resolve inv_socket_error_rcpts : frame.

Lemma inv_readResponse_any (I : World -> Prop) env sid t :
  inv I (readResponse env sid t).
Proof.
  intros w Hw. unfold readResponse. monadic. rewrite run_bind. unfold get. cbv beta iota.
  destruct (sockets w !! sid) as [s|]; [|exact Hw].
  destruct (listen _ _); exact Hw.
Qed.
Hint Resolve inv_readResponse_any : frame.

(** Writing command [c] on socket [sid']: on success the command is
    appended to what that socket has sent; on failure nothing is. *)
Lemma writeCommand_rcpts sid X env sid' c :
  hoare (rcpts_on sid X) (writeCommand env sid' c)
    (fun _ => rcpts_on sid (if decide (sid' = sid) then X ++ filter is_rcpt [c] else X))
    (fun _ => rcpts_on sid X).
Proof.
  intros w Hw. unfold writeCommand. monadic. rewrite run_bind. unfold get. cbv beta iota.
  destruct (sockets w !! sid') as [s|] eqn:Hs; [|exact Hw].
  destruct (sk_destroyed s); [exact Hw|].
  destruct (writes _ _) as [[]|err].
  - unfold update_socket, modify. rewrite Hs.
    eapply rcpts_on_insert; eauto. cbn [sk_sent set_socket_fields]. apply filter_app.
  - rewrite run_bind.
    pose proof (inv_socket_error_rcpts sid X sid' w Hw) as H.
    destruct (socket_error sid' w) as [[[]|e] w1]; exact H.
Qed.

Lemma inv_writeCommand_rcpts sid X env sid' c :
  is_rcpt c = false -> inv (rcpts_on sid X) (writeCommand env sid' c).
Proof.
  intros Hc. eapply hoare_conseq; [apply (writeCommand_rcpts sid X) | auto | | auto].
  intros a w H. cbv beta in H.
  assert (Hnil : filter is_rcpt [c] = []) by (destruct c; [reflexivity.. | discriminate | reflexivity]).
  rewrite Hnil, app_nil_r in H. destruct (decide _); exact H.
Qed.

Lemma inv_cleanup_rcpts sid X env : inv (on_world (rcpts_on sid X)) (cleanup env).
Proof.
  unfold cleanup. monadic. inv_go.
  apply inv_writeCommand_rcpts. reflexivity.
Qed.

Lemma inv_greet_rcpts sid X env sid' domain config :
  inv (on_world (rcpts_on sid X)) (greet env sid' domain config).
Proof.
  unfold greet. monadic. inv_go; apply inv_writeCommand_rcpts; reflexivity.
Qed.

Lemma probe_rcpts env sid proxy email config :
  hoare (on_world (rcpts_on sid []))
        (probe env sid proxy email config)
        (fun _ => on_world (rcpts_on sid [RCPT_TO (to_js_string email)]))
        (fun _ _ => True).
Proof.
  unfold probe. monadic.
  assert (Hweak : forall {A} I (m : M (Locals * World) A) Q,
    inv I m -> (forall a s, I s -> Q a s) -> hoare I m Q (fun _ _ => True)).
  { intros A I m Q Hm HQ. eapply hoare_conseq; [exact Hm | auto | exact HQ | auto]. }
  eapply hoare_bind; [apply (Hweak _ (on_world (rcpts_on sid []))); [inv_go|]|].
  { intros ? ? Hs; exact Hs. }
  intros w0. cbv beta.
  eapply hoare_bind.
  { apply (Hweak _ (on_world (rcpts_on sid []))).
    - apply inv_lift, inv_writeCommand_rcpts. reflexivity.
    - intros ? ? Hs; exact Hs. }
  intros ?.
  eapply hoare_bind.
  { apply (Hweak _ (on_world (rcpts_on sid []))); [inv_go|]. intros ? ? Hs; exact Hs. }
  intros fromResponse.
  destruct (negb _); [apply hoare_throw; auto|].
  eapply hoare_bind.
  { apply (hoare_conseq _ (on_world (rcpts_on sid []))
             (lift (writeCommand env sid (RCPT_TO (to_js_string email))))
             _ (fun _ => on_world (rcpts_on sid [RCPT_TO (to_js_string email)]))
             _ (fun _ => on_world (rcpts_on sid []))).
    - intros [l w] Hw. pose proof (writeCommand_rcpts sid [] env sid
                                     (RCPT_TO (to_js_string email)) w Hw) as H.
      rewrite run_lift. destruct (writeCommand _ _ _ w) as [[[]|e] w1]; cbv beta iota.
      + destruct (decide (sid = sid)); [exact H | contradiction].
      + exact H.
    - auto.
    - intros ? ? Hs; exact Hs.
    - auto. }
  intros ?.
  eapply hoare_bind.
  { apply (Hweak _ (on_world (rcpts_on sid [RCPT_TO (to_js_string email)]))); [inv_go|]. intros ? ? Hs; exact Hs. }
  intros rcptResponse.
  eapply hoare_bind.
  { apply (Hweak _ (on_world (rcpts_on sid [RCPT_TO (to_js_string email)]))); [inv_go|]. intros ? ? Hs; exact Hs. }
  intros ?.
  eapply hoare_bind.
  { apply (Hweak _ (on_world (rcpts_on sid [RCPT_TO (to_js_string email)]))); [apply inv_cleanup_rcpts|]. intros ? ? Hs; exact Hs. }
  intros ?. apply hoare_ret. auto.
Qed.

Lemma dial_fresh env proxy h p w :
  match dial env proxy h p w with
  | (Normal sid, w') => sid = length (sockets w) /\ rcpts_on sid [] w'
  | (Throw _, _) => True
  end.
Proof.
  unfold dial. monadic. rewrite run_bind. unfold get. cbv beta iota.
  rewrite run_bind. unfold modify at 1. cbv beta iota.
  destruct (connect _) as [[]|e]; [|exact I].
  rewrite run_bind. cbv beta iota. rewrite run_bind. unfold modify. cbv beta iota.
  rewrite run_ret. split; [reflexivity|].
  eexists. cbn [sockets set_sockets set_dialed].
  rewrite list_lookup_middle by reflexivity. split; reflexivity.
Qed.

(** A dialog that runs to its [return] has written exactly one RCPT
    command on the connection it opened: the one for the address. *)
Lemma attempt_one_rcpt env host email domain config l w vr l' w' :
  attempt env host email domain config (l, w) = (Normal vr, (l', w')) ->
  rcpts_on (length (sockets w)) [RCPT_TO (to_js_string email)] w'.
Proof.
  unfold attempt. monadic. rewrite run_bind, run_lift.
  assert (HI : pool_stable (fun w1 => sockets w1 = sockets w))
    by (repeat split; intros; assumption).
  pose proof (inv_run _ _ w (inv_getNextProxy _ HI env) eq_refl) as Hsk.
  destruct (getNextProxy env w) as [[proxy|e] w1]; cbn [snd] in Hsk; cbv beta iota;
    [|discriminate].
  run_step. rewrite run_modifyL. cbv beta iota.
  destruct proxy as [p|]; [|discriminate].
  rewrite run_bind, run_lift. unfold createProxyConnection. monadic.
  rewrite run_try_catch.
  pose proof (dial_fresh env (Some p) host 25 w1) as Hd.
  destruct (dial env (Some p) host 25 w1) as [[sid|e] w2]; cbv beta iota.
  2:{ rewrite run_bind.
      destruct (markProxyFailure (Some p) w2) as [[[]|e'] w3]; discriminate. }
  destruct Hd as [-> Hfresh]. rewrite Hsk in Hfresh.
  run_step. rewrite run_modifyL. cbv beta iota.
  rewrite run_bind.
  match goal with
  | |- context [greet env ?sid' domain config ?st] =>
      pose proof (inv_greet_rcpts (length (sockets w)) [] env sid' domain config st Hfresh)
        as Hg
  end.
  destruct (greet _ _ _ _ _) as [[[]|e] [l2 w3]]; cbv beta iota; [|discriminate].
  intros E.
  pose proof (probe_rcpts env (length (sockets w)) (Some p) email config (l2, w3) Hg) as Hp.
  rewrite Hsk in E. rewrite E in Hp. exact Hp.
Qed.

End Dialog.

(* ===================================================================== *)
(** * Empty pool *)
(* ===================================================================== *)

Section EmptyPool.
Import ProxyManager Smtp.

Lemma getNextProxy_empty env w :
  proxies w = [] -> getNextProxy env w = (Normal None, w).
Proof.
  intros H. unfold getNextProxy. change CALL_DEPTH with (S 1023).
  rewrite getNextProxy_rec_step, H. reflexivity.
Qed.

Lemma attempt_empty env host email domain config l w :
  proxies w = [] ->
  attempt env host email domain config (l, w) =
  (Throw (Error "No available proxies"),
   ({| socket := socket l; currentProxy := None |}, w)).
Proof.
  intros H. unfold attempt. monadic.
  rewrite run_bind, run_lift, (getNextProxy_empty env w H). cbv beta iota.
  rewrite run_bind, run_modifyL. reflexivity.
Qed.

Lemma attempt_failed_no_socket env retryCount w :
  attempt_failed env retryCount (Spec.no_socket, w) =
  (Normal tt,
   (Spec.no_socket,
    if retryCount + 1 <? MAX_RETRIES
    then set_sleeps (sleeps w ++ [RETRY_DELAY * (retryCount + 1)]) w
    else w)).
Proof.
  unfold attempt_failed, cleanup. monadic. cbv zeta.
  destruct (retryCount + 1 <? MAX_RETRIES); reflexivity.
Qed.

Lemma attempts_empty env host email domain config remaining retryCount w :
  proxies w = [] ->
  attempts env host email domain config remaining retryCount (Spec.no_socket, w) =
  (Normal {| success := false; mailboxExists := false; code := None;
             message := None;
             error := Some "Verification failed after 3 attempts"%string |},
   (Spec.no_socket, set_sleeps (sleeps w ++ Spec.delays remaining retryCount) w)).
Proof.
  revert retryCount w. induction remaining as [|k IH]; intros retryCount w H.
  - cbn. rewrite app_nil_r. destruct w; reflexivity.
  - cbn [attempts Spec.delays]. monadic.
    rewrite run_bind, run_try_catch, run_bind, (attempt_empty _ _ _ _ _ _ _ H).
    cbv beta iota. rewrite run_bind.
    change {| socket := socket Spec.no_socket; currentProxy := None |} with Spec.no_socket.
    rewrite attempt_failed_no_socket. cbv beta iota. rewrite run_ret. cbv beta iota.
    rewrite IH by (destruct (retryCount + 1 <? MAX_RETRIES); exact H).
    destruct (retryCount + 1 <? MAX_RETRIES); cbn; [rewrite <- app_assoc|]; reflexivity.
Qed.

(** C4 (amended).  On an empty pool [getNextProxy] answers none, and
    [verifyMailbox] then raises "No available proxies" in each of its
    three attempts: it reports failure after waiting 2 s and 4 s,
    without opening any connection.  The direct connection exists only
    inside [createProxyConnection], for a caller that passes no proxy. *)
Theorem empty_pool_fails_without_dialing env host email domain config w :
  proxies w = [] ->
  getNextProxy env w = (Normal None, w) /\
  verifyMailbox env host email domain config w =
    (Normal {| success := false; mailboxExists := false; code := None;
               message := None;
               error := Some "Verification failed after 3 attempts"%string |},
     set_sleeps (sleeps w ++ [2000; 4000]) (set_probes (probes w ++ [host]) w)) /\
  (forall targetHost targetPort,
      dialed (snd (createProxyConnection env None targetHost targetPort w))
      = dialed w ++ [(None, targetHost, targetPort)]).
Proof.
  intros H. split; [apply getNextProxy_empty, H|]. split.
  - unfold verifyMailbox. monadic. rewrite run_bind. unfold modify at 1. cbv beta iota.
    unfold with_locals. fold Spec.no_socket.
    rewrite attempts_empty by exact H. reflexivity.
  - intros targetHost targetPort. unfold createProxyConnection, dial. monadic.
    rewrite run_bind. unfold get. cbv beta iota.
    rewrite run_bind. unfold modify at 1. cbv beta iota.
    destruct (connect _) as [[]|e]; reflexivity.
Qed.

End EmptyPool.

(* ===================================================================== *)
(** * Catch-all detection *)
(* ===================================================================== *)

Section CatchAll.
Import Spec ProxyManager Smtp Validator Scenarios.

(** C2 (amended).  A dialog that runs to its [return] has written
    exactly one RCPT TO on the connection it opened, the one for the
    address under test: no probe with a random local part follows a
    positive answer, and the object returned has no [isCatchAll]
    property.  Consequently no validation ends with [checks.catchAll]
    true or with the reason "Catch-all domain detected", and whenever
    the mailbox check is positive the address is reported valid with
    the reason "Email is valid", whatever [rejectCatchAll] says. *)
Theorem no_catch_all_probe :
  (forall env host email domain config l w vr l' w',
      attempt env host email domain config (l, w) = (Normal vr, (l', w')) ->
      rcpts_on (length (sockets w)) [RCPT_TO (to_js_string email)] w' /\
      isCatchAll vr = JUndefined) /\
  (forall env email w r w',
      validateEmail env email w = (Normal r, w') ->
      catchAll (checks r) <> JBool true /\
      reason r <> "Catch-all domain detected"%string /\
      (mailbox (checks r) = true ->
       valid r = true /\ reason r = "Email is valid"%string)).
Proof.
  split.
  - intros env host email domain config l w vr l' w' E.
    split; [eapply attempt_one_rcpt; exact E | reflexivity].
  - intros env email w r w' E.
    destruct (validateEmail_spec env email w) as (r0 & w0 & E0 & H).
    rewrite E in E0. injection E0 as <- <-.
    destruct H as (H1 & H2 & H3 & _). auto.
Qed.

Lemma no_catch_all_probe_witness :
  exists r w',
    validateEmail accepting address (started [proxy_a; proxy_b]) = (Normal r, w') /\
    catchAll (checks r) <> JBool true /\
    reason r <> "Catch-all domain detected"%string /\
    (mailbox (checks r) = true ->
     valid r = true /\ reason r = "Email is valid"%string).
Proof.
  eexists _, _. split; [vm_compute; reflexivity|].
  eapply (proj2 no_catch_all_probe accepting address (started [proxy_a; proxy_b])).
  vm_compute. reflexivity.
Defined.

(** C2, counterexample: the server answers 250 to RCPT TO for any
    recipient and the profile rejects catch-all domains, yet a single
    RCPT TO is written and the address is reported valid. *)
Lemma catch_all_server_reported_valid :
  rejectCatchAll (getProviderConfig (str "example.com")) = true /\
  respond (server (str "220 mx.example.com ESMTP") (str "250 OK"))
          [RCPT_TO (str "0123456789abcdef@example.com")] 10000
    = [str "250 OK" ++ CRLF] /\
  exists r w',
    validateEmail accepting address (started [proxy_a; proxy_b]) = (Normal r, w') /\
    valid r = true /\
    reason r = "Email is valid"%string /\
    catchAll (checks r) = JUndefined /\
    map (fun s => List.filter is_rcpt (sk_sent s)) (sockets w')
      = [[RCPT_TO (str "a@example.com")]].
Proof.
  split; [reflexivity|]. split; [reflexivity|].
  eexists _, _. split; [vm_compute; reflexivity|].
  repeat split; reflexivity.
Qed.

End CatchAll.

(* ===================================================================== *)
(** * Closed runs of the model *)
(* ===================================================================== *)

Section Runs.
Import Spec Regex EmailFormat ProxyManager Smtp Validator Routes Scenarios.

Lemma reader_returns_first_line_witness :
  test response_re (str "250-mx.example.com") = true /\
  concat ehlo_chunks
    = str "250-mx.example.com" ++ CRLF
      ++ (str "250-SIZE 1000" ++ CRLF ++ str "250 END" ++ CRLF) /\
  listen [] ehlo_chunks = Some (str "250-mx.example.com").
Proof.
  split; [vm_compute; reflexivity|]. split; [vm_compute; reflexivity|].
  apply (reader_returns_first_line (str "250-mx.example.com")
           (str "250-SIZE 1000" ++ CRLF ++ str "250 END" ++ CRLF) ehlo_chunks);
    vm_compute; reflexivity.
Defined.

(** C1, counterexample: on the three-line EHLO reply ending in
    "250 END" the reader resolves with the first continuation line. *)
Lemma reader_returns_continuation_line :
  listen [] [ehlo_reply] = Some (str "250-mx.example.com") /\
  listen [] [ehlo_reply] <> Some (str "250 END").
Proof.
  split; [vm_compute; reflexivity | vm_compute; discriminate].
Qed.

Lemma getNextProxy_spec_witness :
  proxies (started [proxy_a; proxy_b]) <> [] /\
  (currentIndex (started [proxy_a; proxy_b])
   < length (proxies (started [proxy_a; proxy_b])))%nat /\
  exists r w', getNextProxy accepting (started [proxy_a; proxy_b]) = (Normal r, w').
Proof.
  assert (H1 : proxies (started [proxy_a; proxy_b]) <> []) by discriminate.
  assert (H2 : (currentIndex (started [proxy_a; proxy_b])
                < length (proxies (started [proxy_a; proxy_b])))%nat)
    by (vm_compute; lia).
  split; [exact H1|]. split; [exact H2|].
  destruct (getNextProxy_spec accepting (started [proxy_a; proxy_b]) H1 H2)
    as (r & w' & E & _).
  exists r, w'. exact E.
Defined.

Lemma empty_pool_fails_without_dialing_witness :
  proxies (started []) = [] /\
  getNextProxy accepting (started []) = (Normal None, started []).
Proof.
  split; [reflexivity|].
  apply (empty_pool_fails_without_dialing accepting (str "mx1.example.com") address
           (str "example.com") generic (started [])).
  reflexivity.
Defined.

(** C4, counterexample: the pool is empty and the server would accept
    the address, yet the verification reports failure and no
    connection is attempted. *)
Lemma empty_pool_verification_fails :
  exists vr w' r w'',
    verifyMailbox accepting (str "mx1.example.com") address (str "example.com")
                  generic (started []) = (Normal vr, w') /\
    success vr = false /\ dialed w' = [] /\
    validateEmail accepting address (started []) = (Normal r, w'') /\
    valid r = false /\
    reason r = "Verification failed after 3 attempts"%string /\
    dialed w'' = [].
Proof.
  eexists _, _, _, _. split; [vm_compute; reflexivity|].
  split; [reflexivity|]. split; [reflexivity|].
  split; [vm_compute; reflexivity|]. repeat split; reflexivity.
Qed.

Lemma mx_loop_stops_only_on_mailbox_witness :
  exists r w',
    validateEmail rejecting address (started [proxy_a; proxy_b]) = (Normal r, w') /\
    mx (checks r) = true /\ mailbox (checks r) = false /\
    exists log,
      probes w' = probes (started [proxy_a; proxy_b]) ++ log /\
      covers (mxRecords (details r)) log /\
      exists s domain records,
        address = JStr s /\ split (str "@") s !! 1%nat = Some domain /\
        resolveMx rejecting domain = Normal records /\
        Permutation (mxRecords (details r)) records /\
        StronglySorted (fun a b => priority a <= priority b) (mxRecords (details r)) /\
        forall p, List.filter (fun x => priority x =? p) (mxRecords (details r))
                  = List.filter (fun x => priority x =? p) records.
Proof.
  eexists _, _. split; [vm_compute; reflexivity|].
  split; [reflexivity|]. split; [reflexivity|].
  apply (mx_loop_stops_only_on_mailbox rejecting address (started [proxy_a; proxy_b]));
    vm_compute; reflexivity.
Defined.

(** C5, counterexample: the first MX host answers RCPT TO with 550 in
    a completed dialog, and the second MX host is dialed all the same. *)
Lemma rejected_address_probes_next_mx :
  exists vr w1 r w',
    verifyMailbox rejecting (str "mx1.example.com") address (str "example.com")
                  generic (started [proxy_a; proxy_b]) = (Normal vr, w1) /\
    success vr = true /\ mailboxExists vr = false /\ code vr = Some 550 /\
    validateEmail rejecting address (started [proxy_a; proxy_b]) = (Normal r, w') /\
    map (fun d => d.1.2) (dialed w') = [str "mx1.example.com"; str "mx2.example.com"] /\
    reason r = "Failed to verify mailbox"%string.
Proof.
  eexists _, _, _, _. split; [vm_compute; reflexivity|].
  split; [reflexivity|]. split; [reflexivity|]. split; [reflexivity|].
  split; [vm_compute; reflexivity|]. split; reflexivity.
Qed.

(** C6, evaluation at the failing input: an address whose local part
    has exactly 64 characters and is otherwise well-formed does not
    pass the format stage (one with 63 does), so the validator
    reports "Invalid email format" in every environment; the length
    stage, which would let 64 characters through, is not reached.
    In general the local part of an address that passes the format
    stage has at most 63 characters. *)
Theorem local_part_of_64_fails_format :
  length local64 = 64%nat /\
  (64 <? length local64)%nat = false /\
  validateEmailFormat address64 = false /\
  validateEmailFormat address63 = true /\
  (forall s,
      validateEmailFormat (JStr s) = true ->
      exists localPart domain,
        s = localPart ++ ch "@" :: domain /\
        (1 <= length localPart <= 63)%nat /\
        Forall (fun c => c <> ch "@") localPart) /\
  forall env w,
    exists r w',
      validateEmail env address64 w = (Normal r, w') /\
      format (checks r) = false /\ valid r = false /\
      reason r = "Invalid email format"%string.
Proof.
  assert (Hf : validateEmailFormat address64 = false) by (vm_compute; reflexivity).
  split; [reflexivity|]. split; [reflexivity|]. split; [exact Hf|].
  split; [vm_compute; reflexivity|].
  split; [exact format_local_part_at_most_63|].
  intros env w. unfold validateEmail, with_locals, stages. monadic.
  rewrite run_bind, run_try_catch. do 4 run_step.
  cbn [initial on_result on_checks set_format result checks format].
  rewrite Hf. cbn [negb]. do 3 run_step.
  eexists _, _. split; [reflexivity|]. repeat split; reflexivity.
Qed.

Lemma local_part_of_64_fails_format_witness :
  validateEmailFormat address63 = true /\
  exists localPart domain,
    local63 ++ str "@example.com" = localPart ++ ch "@" :: domain /\
    (1 <= length localPart <= 63)%nat /\
    Forall (fun c => c <> ch "@") localPart.
Proof.
  assert (H : validateEmailFormat address63 = true) by (vm_compute; reflexivity).
  split; [exact H|].
  destruct local_part_of_64_fails_format as (_ & _ & _ & _ & Hgen & _).
  exact (Hgen (local63 ++ str "@example.com") H).
Defined.

(** C7, evaluation at the failing input: dialog A has acquired the
    only proxy and is still open; dialog B acquires it 40 s later and
    fails at the greeting.  Each acquisition of B is answered by both
    [markProxyFailure] and, through the socket's ['close'] handler,
    [releaseProxy]: after B's first attempt the count is already 0
    although A is still outstanding. *)
Theorem failed_dialog_decrements_twice :
  let w1 := snd (getNextProxy unwelcoming (started [proxy_a])) in
  let w2 := snd (verifyMailbox unwelcoming (str "mx1.example.com") address
                   (str "example.com") generic w1) in
  poolLog w1 = [Acquired 0] /\
  connections <$> proxies w1 !! 0%nat = Some 1 /\
  poolLog w2 = [ Acquired 0;
                 Acquired 0; MarkedFailure 0; Released 0;
                 Acquired 0; MarkedFailure 0; Released 0;
                 Acquired 0; MarkedFailure 0; Released 0 ] /\
  connections <$> proxies w2 !! 0%nat = Some 0.
Proof.
  vm_compute. repeat split; reflexivity.
Qed.

Lemma batch_keeps_length_and_order_witness :
  exists entries w',
    batch_route accepting (ArrayOf [address; JNull; address64])
                (started [proxy_a; proxy_b]) = (Normal (Json entries), w') /\
    length entries = 3%nat.
Proof.
  destruct (batch_keeps_length_and_order (validateEmailWithRetry accepting)
              [address; JNull; address64] (started [proxy_a; proxy_b]))
    as (entries & w' & E & Hlen & _).
  exists entries, w'. split; [exact E | exact Hlen].
Defined.

Lemma bulk_drops_trailing_batch_witness :
  (length (addresses rows) < length rows)%nat /\
  exists entries evs w',
    bulk_route accepting rows (started [proxy_a; proxy_b])
      = (Normal (evs ++ [Complete entries]), w') /\
    length entries = 5%nat.
Proof.
  assert (H : (length (addresses rows) < length rows)%nat) by (vm_compute; lia).
  split; [exact H|].
  destruct (bulk_drops_trailing_batch (validateEmailWithRetry accepting) rows
              (started [proxy_a; proxy_b]) H)
    as (entries & evs & w' & E & _ & _ & Hlen & _).
  exists entries, evs, w'. split; [exact E | exact Hlen].
Defined.

(** A run of the bulk route on seven rows, one of them without an
    address: the first five addresses are validated and emitted, the
    sixth is never handed to the verifier. *)
Lemma bulk_trailing_address_never_probed :
  exists progress entries w',
    bulk_route patient rows (started [proxy_a])
      = (Normal ([progress] ++ [Complete entries]), w') /\
    length entries = 5%nat /\
    concat (map (fun s => List.filter is_rcpt (sk_sent s)) (sockets w'))
    = map (fun a => RCPT_TO (str a))
          [ "a@example.com"; "b@example.com"; "c@example.com";
            "d@example.com"; "e@example.com" ]%string.
Proof.
  eexists _, _, _. split; [vm_compute; reflexivity|].
  split; reflexivity.
Qed.

End Runs.

(* ===================================================================== *)
(** * Addresses accepted by the format stage *)
(* ===================================================================== *)

Ltac list_eq :=
  repeat (cbn [app]; rewrite <- ?app_assoc); rewrite ?app_nil_r; reflexivity.

Section SplitOnChar.

Lemma startsWith_single (c x : jschar) (s : jsstring) :
  startsWith [c] (x :: s) = jschar_eqb c x.
Proof. cbn [startsWith]. apply andb_true_r. Qed.

Lemma split_go_absent (c : jschar) (s cur : jsstring) fuel :
  Forall (fun x => x <> c) s ->
  (length s <= fuel)%nat ->
  split_go [c] cur s fuel = [rev cur ++ s].
Proof.
  intros H. revert cur fuel.
  induction H as [|x s Hx _ IH]; intros cur fuel Hf.
  - destruct fuel; cbn; rewrite app_nil_r; reflexivity.
  - destruct fuel as [|fuel]; [cbn in Hf; lia|].
    cbn [split_go]. rewrite startsWith_single.
    unfold jschar_eqb. rewrite (proj2 (N.eqb_neq c x)) by congruence.
    rewrite IH by (cbn in Hf; lia).
    cbn [rev]. rewrite <- app_assoc. reflexivity.
Qed.

Lemma split_go_at (c : jschar) (l d cur : jsstring) fuel :
  Forall (fun x => x <> c) l ->
  (length (l ++ c :: d) <= fuel)%nat ->
  split_go [c] cur (l ++ c :: d) fuel
  = (rev cur ++ l) :: split_go [c] [] d (fuel - S (length l)).
Proof.
  intros H. revert cur fuel.
  induction H as [|x l Hx _ IH]; intros cur fuel Hf.
  - destruct fuel as [|fuel]; [cbn in Hf; lia|].
    cbn [app split_go length]. rewrite startsWith_single.
    unfold jschar_eqb. rewrite N.eqb_refl.
    rewrite app_nil_r. cbn [drop]. rewrite Nat.sub_succ, Nat.sub_0_r. reflexivity.
  - destruct fuel as [|fuel]; [cbn in Hf; lia|].
    cbn [app split_go length]. rewrite startsWith_single.
    unfold jschar_eqb. rewrite (proj2 (N.eqb_neq c x)) by congruence.
    rewrite IH by (cbn in Hf; lia).
    cbn [rev]. rewrite <- app_assoc. reflexivity.
Qed.

(** [s.split(c)] when [c] occurs exactly once. *)
Lemma split_once (c : jschar) (l d : jsstring) :
  Forall (fun x => x <> c) l ->
  Forall (fun x => x <> c) d ->
  split [c] (l ++ c :: d) = [l; d].
Proof.
  intros Hl Hd. unfold split.
  rewrite split_go_at by (assumption || lia).
  rewrite split_go_absent; [reflexivity | assumption |].
  rewrite length_app. cbn [length]. lia.
Qed.

End SplitOnChar.

Section DomainShape.
Import Regex EmailFormat Props.

Lemma letter_domain_char c : letter c = true -> domain_char c = true.
Proof.
  intros H. unfold domain_char, label_char, alnum. rewrite H. reflexivity.
Qed.

Lemma alnum_domain_char c : alnum c = true -> domain_char c = true.
Proof. intros H. unfold domain_char, label_char. rewrite H. reflexivity. Qed.

Lemma domain_char_not_at c : domain_char c = true -> c <> ch "@".
Proof. intros H ->. vm_compute in H. discriminate. Qed.

Lemma exactly_cls n p s :
  matches (exactly n (Cls p)) s -> length s = n /\ Forall (fun c => p c = true) s.
Proof.
  revert s; induction n as [|n IH]; intros s H; cbn [exactly] in H.
  - apply eps_inv in H as ->. split; [reflexivity | constructor].
  - apply cat_inv in H as (s1 & s2 & -> & M1 & M2).
    apply cls_inv in M1 as (c & -> & Hc).
    apply IH in M2 as [Hl Hf]. split; [cbn; lia | constructor; assumption].
Qed.

(** One [\.[a-zA-Z]{2,}] group. *)
Lemma tld_group s :
  matches (seq [ chr "."; atleast 2 (Cls letter) ]) s ->
  exists tld, s = ch "." :: tld /\ (2 <= length tld)%nat /\
              Forall (fun c => letter c = true) tld.
Proof.
  intros H. cbn [seq] in H.
  apply cat_inv in H as (s1 & s2 & -> & M1 & M2).
  apply cls_inv in M1 as (c & -> & Hc). apply N.eqb_eq in Hc. subst c.
  unfold atleast in M2. apply cat_inv in M2 as (s3 & s4 & -> & M3 & M4).
  apply exactly_cls in M3 as [Hl Hf]. apply star_cls_forall in M4.
  exists (s3 ++ s4). split; [reflexivity|]. split.
  - rewrite length_app. lia.
  - apply Forall_app; split; assumption.
Qed.

(** A non-empty run of such groups ends with one of them. *)
Lemma tld_groups_star s :
  matches (Star (seq [ chr "."; atleast 2 (Cls letter) ])) s ->
  Forall (fun c => domain_char c = true) s /\
  (s = [] \/
   exists pre tld, s = pre ++ ch "." :: tld /\ (2 <= length tld)%nat /\
                   Forall (fun c => letter c = true) tld).
Proof.
  intros H. remember (Star _) as r eqn:Er.
  induction H as [| | | | | |r0 s1 s2 M1 _ M2 IH2]; try discriminate.
  - split; [constructor | left; reflexivity].
  - injection Er as ->. specialize (IH2 eq_refl) as [Hf Hs].
    apply tld_group in M1 as (tld & -> & Hl & Hlet).
    split.
    + apply Forall_app; split; [|exact Hf].
      constructor; [reflexivity|].
      eapply Forall_impl; [exact Hlet|]. intros x Hx. apply letter_domain_char, Hx.
    + right. destruct Hs as [-> | (pre & tld' & -> & Hl' & Hlet')].
      * exists [], tld. rewrite app_nil_r. auto.
      * exists (ch "." :: tld ++ pre), tld'.
        split; [list_eq | auto].
Qed.

Lemma local_re_chars s :
  matches local_re s -> Forall (fun c => local_char c = true) s.
Proof.
  intros H. unfold local_re in H; cbn [seq] in H.
  apply cat_inv in H as (s1 & s2 & -> & M1 & M2).
  apply cls_inv in M1 as (c & -> & Hc).
  cbn [app]. constructor; [apply alnum_local_char, Hc|].
  apply alt_inv in M2 as [M2 | M2].
  - apply eps_inv in M2 as ->. constructor.
  - apply cat_inv in M2 as (s3 & s4 & -> & M3 & M4).
    apply upto_cls_length in M3 as [_ Hf].
    apply cls_inv in M4 as (c' & -> & Hc').
    apply Forall_app; split; [exact Hf|].
    repeat constructor. apply alnum_local_char, Hc'.
Qed.

(** The domain accepted by the format pattern: a name that starts with
    a letter or digit, then a dot and a last label of two or more
    letters; only letters, digits, hyphens and dots occur. *)
Lemma domain_re_shape s :
  matches domain_re s ->
  Forall (fun c => domain_char c = true) s /\
  exists name tld,
    s = name ++ ch "." :: tld /\
    name <> [] /\
    (2 <= length tld)%nat /\
    Forall (fun c => letter c = true) tld.
Proof.
  intros H. unfold domain_re, Plus in H; cbn [seq] in H.
  apply cat_inv in H as (s1 & s2 & -> & M1 & M2).
  apply cls_inv in M1 as (c & -> & Hc).
  apply cat_inv in M2 as (s3 & s4 & -> & M3 & M4).
  apply cat_inv in M4 as (g & gs & -> & Mg & Mgs).
  assert (Hmid : Forall (fun c => domain_char c = true) s3).
  { apply alt_inv in M3 as [M3 | M3].
    - apply eps_inv in M3 as ->. constructor.
    - apply cat_inv in M3 as (a & b & -> & Ma & Mb).
      apply star_cls_forall in Ma. apply cls_inv in Mb as (c' & -> & Hc').
      apply Forall_app; split.
      + eapply Forall_impl; [exact Ma|]. intros x Hx. cbn in Hx.
        unfold domain_char. rewrite Hx. reflexivity.
      + repeat constructor. apply alnum_domain_char, Hc'. }
  pose proof (tld_group g Mg) as (tld & -> & Hl & Hlet).
  apply tld_groups_star in Mgs as [Hgs Hlast].
  split.
  - cbn [app]. constructor; [apply alnum_domain_char, Hc|].
    apply Forall_app; split; [exact Hmid|].
    constructor; [reflexivity|].
    apply Forall_app; split; [|exact Hgs].
    eapply Forall_impl; [exact Hlet|]. intros x Hx. apply letter_domain_char, Hx.
  - destruct Hlast as [-> | (pre & tld' & -> & Hl' & Hlet')].
    + exists (c :: s3), tld.
      split; [list_eq|].
      split; [discriminate | auto].
    + exists (c :: s3 ++ ch "." :: tld ++ pre), tld'.
      split; [list_eq|].
      split; [discriminate | auto].
Qed.

(** What [validateEmail] relies on after the format stage. *)
Lemma format_split (s : jsstring) :
  validateEmailFormat (JStr s) = true ->
  exists localPart domain,
    split (str "@") s = [localPart; domain] /\
    (length localPart <= 63)%nat.
Proof.
  unfold validateEmailFormat.
  destruct (negb (truthy (JStr s)) || negb (is_string (JStr s))); [discriminate|].
  intros H. apply test_matches in H.
  unfold emailRegex in H; cbn [seq] in H.
  apply cat_inv in H as (l & r & -> & Ml & Mr).
  apply cat_inv in Mr as (a & d & -> & Ma & Md).
  apply cls_inv in Ma as (c & -> & Hc).
  apply N.eqb_eq in Hc. subst c.
  pose proof (local_re_shape l Ml) as [Hlen Hnat].
  pose proof (domain_re_shape d Md) as [Hdc _].
  exists l, d. split; [|lia].
  apply (split_once (ch "@")); [exact Hnat|].
  eapply Forall_impl; [exact Hdc|]. intros x Hx. apply domain_char_not_at, Hx.
Qed.

(** X1.  An address that passes [validateEmailFormat] holds exactly
    one [@]: [email.split('@')] yields the local part and the domain
    and nothing else.  The local part has 1 to 63 characters of
    [[a-zA-Z0-9._%+-]]; the domain is made of letters, digits, hyphens
    and dots and ends with a dot followed by two or more letters. *)
Theorem format_accepts_one_at (s : jsstring) :
  validateEmailFormat (JStr s) = true ->
  exists localPart domain,
    split (str "@") s = [localPart; domain] /\
    s = localPart ++ ch "@" :: domain /\
    (1 <= length localPart <= 63)%nat /\
    Forall (fun c => local_char c = true) localPart /\
    Forall (fun c => domain_char c = true) domain /\
    exists name tld,
      domain = name ++ ch "." :: tld /\
      name <> [] /\
      (2 <= length tld)%nat /\
      Forall (fun c => letter c = true) tld.
Proof.
  unfold validateEmailFormat.
  destruct (negb (truthy (JStr s)) || negb (is_string (JStr s))); [discriminate|].
  intros H. apply test_matches in H.
  unfold emailRegex in H; cbn [seq] in H.
  apply cat_inv in H as (l & r & -> & Ml & Mr).
  apply cat_inv in Mr as (a & d & -> & Ma & Md).
  apply cls_inv in Ma as (c & -> & Hc).
  apply N.eqb_eq in Hc. subst c.
  pose proof (local_re_chars l Ml) as Hlc.
  pose proof (local_re_shape l Ml) as [Hlen Hnat].
  pose proof (domain_re_shape d Md) as [Hdc Hd].
  exists l, d. split.
  - apply (split_once (ch "@")); [exact Hnat|].
    eapply Forall_impl; [exact Hdc|]. intros x Hx. apply domain_char_not_at, Hx.
  - cbn [app]. auto.
Qed.

End DomainShape.

(* ===================================================================== *)
(** * Reading the proxies file *)
(* ===================================================================== *)

Section SplitJoin.
Import Text Props.

Lemma split_go_app (c : jschar) (a b cur : jsstring) :
  split_go [c] cur (a ++ c :: b) (length (a ++ c :: b))
  = split_go [c] cur a (length a) ++ split_go [c] [] b (length b).
Proof.
  revert cur. induction a as [|x a IH]; intros cur.
  - cbn [app length split_go]. rewrite startsWith_single.
    unfold jschar_eqb. rewrite N.eqb_refl. reflexivity.
  - cbn [app length split_go]. rewrite !startsWith_single.
    change (drop 1 (x :: a ++ c :: b)) with (a ++ c :: b).
    change (drop 1 (x :: a)) with a.
    destruct (jschar_eqb c x).
    + rewrite IH. reflexivity.
    + rewrite IH. reflexivity.
Qed.

(** [(a + c + b).split(c)] is [a.split(c)] followed by [b.split(c)]. *)
Lemma split_app (c : jschar) (a b : jsstring) :
  split [c] (a ++ c :: b) = split [c] a ++ split [c] b.
Proof. unfold split. apply split_go_app. Qed.

Lemma split_absent (c : jschar) (s : jsstring) :
  Forall (fun x => x <> c) s -> split [c] s = [s].
Proof. intros H. unfold split. rewrite split_go_absent by (assumption || lia). reflexivity. Qed.

(** Joining pieces that do not hold the separator and splitting
    again gives the pieces back. *)
Lemma split_join (c : jschar) (pieces : list jsstring) :
  pieces <> [] ->
  Forall (Forall (fun x => x <> c)) pieces ->
  split [c] (join [c] pieces) = pieces.
Proof.
  intros Hne H. revert Hne.
  induction H as [|p pieces Hp _ IH]; intros Hne; [exfalso; apply Hne; reflexivity|].
  destruct pieces as [|q pieces].
  - cbn [join]. apply split_absent, Hp.
  - change (join [c] (p :: q :: pieces)) with (p ++ c :: join [c] (q :: pieces)).
    rewrite split_app, (split_absent c p Hp), IH by discriminate. reflexivity.
Qed.

(** ** [trim] *)

Lemma trimStart_id s : no_lead s -> trimStart s = s.
Proof. destruct s as [|c s]; [reflexivity|]. cbn. intros ->. reflexivity. Qed.

Lemma no_lead_trimStart s : no_lead (trimStart s).
Proof.
  induction s as [|c s IH]; [exact I|]. cbn [trimStart].
  destruct (is_space c) eqn:E; [exact IH | exact E].
Qed.

Lemma trimStart_snoc s c :
  is_space c = false -> trimStart (s ++ [c]) = trimStart s ++ [c].
Proof.
  intros Hc. induction s as [|x s IH]; cbn [app trimStart].
  - rewrite Hc. reflexivity.
  - destruct (is_space x); [exact IH | reflexivity].
Qed.

Lemma trim_id s : no_lead s -> no_lead (rev s) -> trim s = s.
Proof.
  intros H1 H2. unfold trim, trimEnd.
  rewrite (trimStart_id s H1), (trimStart_id (rev s) H2). apply rev_involutive.
Qed.

Lemma trim_fixed s : trim s = s -> no_lead s /\ no_lead (rev s).
Proof.
  intros H. unfold trim, trimEnd in H.
  assert (H2 : no_lead (rev s)).
  { rewrite <- H at 1. rewrite rev_involutive. apply no_lead_trimStart. }
  split; [|exact H2].
  pose proof (no_lead_trimStart s) as H1.
  destruct (trimStart s) as [|c t] eqn:Et.
  - cbn in H. subst s. exact I.
  - cbn in H1.
    assert (Hr : rev (trimStart (rev (c :: t))) = c :: rev (trimStart (rev t))).
    { cbn [rev]. rewrite trimStart_snoc by exact H1.
      rewrite rev_app_distr. reflexivity. }
    rewrite Hr in H. rewrite <- H. exact H1.
Qed.

Lemma no_lead_app a b : a <> [] -> no_lead a -> no_lead (a ++ b).
Proof. destruct a; [congruence | auto]. Qed.

Lemma no_lead_rev_join (pieces : list jsstring) :
  pieces <> [] ->
  Forall (fun p => no_lead (rev p)) pieces ->
  no_lead (rev (join (str ":") pieces)).
Proof.
  intros Hne H. revert Hne.
  induction H as [|p pieces Hp _ IH]; intros Hne; [exfalso; apply Hne; reflexivity|].
  destruct pieces as [|q pieces]; [exact Hp|].
  change (join (str ":") (p :: q :: pieces))
    with (p ++ (str ":") ++ join (str ":") (q :: pieces)).
  rewrite !rev_app_distr.
  destruct (rev (join (str ":") (q :: pieces))) as [|x r] eqn:Er.
  - cbn. reflexivity.
  - specialize (IH ltac:(discriminate)). cbn in IH |- *. exact IH.
Qed.

End SplitJoin.

Section LoadFacts.
Import Text ProxyManager ProxyFile Props.

Lemma Forall_join {P : jschar -> Prop} (sep : jsstring) (pieces : list jsstring) :
  Forall P sep -> Forall (Forall P) pieces -> Forall P (join sep pieces).
Proof.
  intros Hs H. induction H as [|p pieces Hp _ IH]; [constructor|].
  destruct pieces as [|q pieces]; [exact Hp|].
  change (join sep (p :: q :: pieces)) with (p ++ sep ++ join sep (q :: pieces)).
  rewrite !Forall_app. auto.
Qed.

Lemma digit_not_space c : is_digit c = true -> is_space c = false.
Proof.
  unfold is_digit, is_space.
  rewrite andb_true_iff, !N.leb_le. intros [H1 H2].
  rewrite (proj2 (N.leb_gt c 13)) by lia.
  rewrite (proj2 (N.leb_gt 8192 c)) by lia.
  rewrite !(proj2 (N.eqb_neq c _)) by lia.
  rewrite !andb_false_r. reflexivity.
Qed.

Lemma digits_all p : forallb is_digit p = true -> digits p = p.
Proof.
  induction p as [|c p IH]; [reflexivity|]. cbn [forallb digits].
  rewrite andb_true_iff. intros [-> H]. rewrite IH by exact H. reflexivity.
Qed.

(** [parseInt] of a non-empty run of digits is the number they
    denote. *)
Lemma parseInt10_digits p :
  p <> [] -> forallb is_digit p = true -> parseInt10 p = Some (digits_value p).
Proof.
  intros Hne Hd. destruct p as [|c p]; [congruence|].
  pose proof Hd as Hc. cbn [forallb] in Hc. apply andb_true_iff in Hc as [Hc _].
  unfold parseInt10. cbn [trimStart]. rewrite (digit_not_space c Hc).
  assert (H1 : jschar_eqb c (ch "-") = false).
  { unfold is_digit in Hc. apply andb_true_iff in Hc as [Hc _]. apply N.leb_le in Hc.
    apply N.eqb_neq. change (ch "-") with 45%N. lia. }
  assert (H2 : jschar_eqb c (ch "+") = false).
  { unfold is_digit in Hc. apply andb_true_iff in Hc as [Hc _]. apply N.leb_le in Hc.
    apply N.eqb_neq. change (ch "+") with 43%N. lia. }
  rewrite H1, H2. rewrite (digits_all (c :: p) Hd).
  f_equal. apply Z.mul_1_l.
Qed.

Lemma parseProxies_app (a b : jsstring) :
  parseProxies (a ++ 10%N :: b) = parseProxies a ++ parseProxies b.
Proof.
  unfold parseProxies.
  replace (split [10%N] (a ++ 10%N :: b)) with (split [10%N] a ++ split [10%N] b)
    by (symmetry; apply split_app).
  rewrite map_app, List.filter_app, omap_app. reflexivity.
Qed.

Lemma parseProxies_skips (line : jsstring) :
  Forall (fun c => c <> 10%N) line ->
  is_entry (trim line) = false ->
  parseProxies line = [].
Proof.
  intros Hl He. unfold parseProxies.
  replace (split [10%N] line) with [line] by (symmetry; apply split_absent, Hl).
  cbn [map List.filter]. rewrite He. reflexivity.
Qed.

Lemma parseProxies_fields (h p : jsstring) (rest : list jsstring) :
  Forall field_ok (h :: p :: rest) ->
  h <> [] -> startsWith (str "#") h = false ->
  p <> [] -> forallb is_digit p = true ->
  parseProxies (join (str ":") (h :: p :: rest))
  = [loaded h (digits_value p) (rest !! 0%nat) (rest !! 1%nat)].
Proof.
  intros Hf Hh Hhash Hp Hd.
  set (fields := h :: p :: rest) in *.
  set (line := join (str ":") fields).
  assert (Hcolon : Forall (Forall (fun c => c <> ch ":")) fields).
  { eapply Forall_impl; [exact Hf|]. intros f [H _].
    eapply Forall_impl; [exact H|]. intros c [Hc _]. exact Hc. }
  assert (Hlf : Forall (fun c => c <> 10%N) line).
  { apply Forall_join; [repeat constructor; discriminate|].
    eapply Forall_impl; [exact Hf|]. intros f [H _].
    eapply Forall_impl; [exact H|]. intros c [_ Hc]. exact Hc. }
  assert (Htrim : Forall (fun f => trim f = f) fields).
  { eapply Forall_impl; [exact Hf|]. intros f [_ H]. exact H. }
  assert (Hline : trim line = line).
  { apply trim_id.
    - subst line fields.
      change (join (str ":") (h :: p :: rest))
        with (h ++ str ":" ++ join (str ":") (p :: rest)).
      apply no_lead_app; [exact Hh|].
      apply Forall_inv in Htrim. apply trim_fixed in Htrim. tauto.
    - apply no_lead_rev_join; [discriminate|].
      eapply Forall_impl; [exact Htrim|]. intros f H. apply trim_fixed in H. tauto. }
  assert (Hentry : is_entry line = true).
  { subst line fields.
    change (join (str ":") (h :: p :: rest))
      with (h ++ str ":" ++ join (str ":") (p :: rest)).
    destruct h as [|c h]; [congruence|]. cbn [app is_entry].
    change (str "#") with [ch "#"] in *. rewrite startsWith_single in *.
    rewrite Hhash. reflexivity. }
  unfold parseProxies.
  replace (split [10%N] line) with [line] by (symmetry; apply split_absent, Hlf).
  cbn [map List.filter]. rewrite Hline, Hentry.
  assert (Hone : forall pr, accepted (candidate line) = Some pr ->
                   omap (fun l => accepted (candidate l)) [line] = [pr]).
  { intros pr E. cbn [omap list_omap]. rewrite E. reflexivity. }
  apply Hone. clear Hone. unfold candidate.
  assert (Hsplit : map trim (split (str ":") line) = fields).
  { subst line. change (str ":") with [ch ":"].
    rewrite split_join; [|discriminate|exact Hcolon].
    clear -Htrim. induction Htrim as [|f fs Hf' _ IH]; [reflexivity|].
    cbn [map]. rewrite Hf', IH. reflexivity. }
  rewrite Hsplit. subst fields.
  change ((h :: p :: rest) !! 0%nat) with (Some h).
  change ((h :: p :: rest) !! 1%nat) with (Some p).
  change ((h :: p :: rest) !! 2%nat) with (rest !! 0%nat).
  change ((h :: p :: rest) !! 3%nat) with (rest !! 1%nat).
  cbv beta iota zeta. rewrite (parseInt10_digits p Hp Hd).
  unfold accepted. cbn [c_host c_port c_username c_password].
  destruct h as [|c h]; [congruence|]. reflexivity.
Qed.

Lemma parseProxies_fresh (content : jsstring) :
  Forall (fun p => host p <> [] /\ failures p = 0 /\ lastUsed p = 0 /\ connections p = 0)
         (parseProxies content).
Proof.
  apply Forall_forall. intros p Hp. unfold parseProxies in Hp.
  apply list_elem_of_omap in Hp as (line & _ & Ha).
  unfold accepted in Ha.
  destruct (c_host (candidate line)) as [[|h0 h]|]; try discriminate.
  destruct (c_port (candidate line)); try discriminate.
  injection Ha as <-. cbn. repeat split; discriminate || reflexivity.
Qed.

Lemma Forall_trimStart {P : jschar -> Prop} s : Forall P s -> Forall P (trimStart s).
Proof.
  induction 1 as [|c s Hc Hs IH]; [constructor|]. cbn [trimStart].
  destruct (is_space c); [exact IH | constructor; assumption].
Qed.

Lemma Forall_trim {P : jschar -> Prop} s : Forall P s -> Forall P (trim s).
Proof.
  intros H. unfold trim, trimEnd.
  apply Forall_rev, Forall_trimStart, Forall_rev, Forall_trimStart, H.
Qed.

Lemma parseProxies_host_only (line : jsstring) :
  Forall (fun c => c <> ch ":" /\ c <> 10%N) line ->
  parseProxies line = [].
Proof.
  intros H. unfold parseProxies.
  replace (split [10%N] line) with [line].
  2:{ symmetry. apply split_absent.
      eapply Forall_impl; [exact H|]. intros c [_ Hc]. exact Hc. }
  cbn [map List.filter]. destruct (is_entry (trim line)); [|reflexivity].
  cbn [omap list_omap]. unfold candidate.
  replace (split (str ":") (trim line)) with [trim line].
  2:{ symmetry. apply (split_absent (ch ":")). apply Forall_trim.
      eapply Forall_impl; [exact H|]. intros c [Hc _]. exact Hc. }
  unfold accepted. cbn.
  destruct (trim (trim line)); reflexivity.
Qed.

End LoadFacts.

Section LoadTheorems.
Import Text ProxyManager ProxyFile Props.

(** X18. [loadProxies] reads the file line by line: the entries of
    a text are those of the part before a line feed followed by those
    of the part after it.  A line that is blank or starts with [#]
    after trimming gives no entry, and neither does a line without a
    colon.  A line [host:port], optionally followed by [:username]
    and [:password], whose fields have no surrounding white space,
    whose host is not empty and does not start with [#] and whose
    port is a non-empty run of digits denoting a number up to 2^53,
    gives exactly one entry with these fields, the port read as a
    decimal number; fields after the fourth are ignored.  (Beyond
    2^53 the engine rounds the port to a double, and nothing is said
    of it.) *)
Theorem parseProxies_reads_lines :
  (forall a b : jsstring,
      parseProxies (a ++ 10%N :: b) = parseProxies a ++ parseProxies b) /\
  (forall line : jsstring,
      Forall (fun c => c <> 10%N) line ->
      is_entry (trim line) = false ->
      parseProxies line = []) /\
  (forall line : jsstring,
      Forall (fun c => c <> ch ":" /\ c <> 10%N) line ->
      parseProxies line = []) /\
  (forall (h p : jsstring) (rest : list jsstring),
      Forall field_ok (h :: p :: rest) ->
      h <> [] -> startsWith (str "#") h = false ->
      p <> [] -> forallb is_digit p = true ->
      digits_value p <= 2 ^ 53 ->
      parseProxies (join (str ":") (h :: p :: rest))
      = [loaded h (digits_value p) (rest !! 0%nat) (rest !! 1%nat)]).
Proof.
  split; [exact parseProxies_app|].
  split; [exact parseProxies_skips|].
  split; [exact parseProxies_host_only|].
  intros h p rest Hf Hh Hhash Hp Hd _.
  exact (parseProxies_fields h p rest Hf Hh Hhash Hp Hd).
Qed.

(** X19. On a manager whose cursor is at the start, [loadProxies]
    with a readable file returns [true] and installs the entries of
    the file, each with a non-empty host and all three counters at
    zero, so that the pool is well formed; nothing else of the state
    changes.  When the file cannot be read it returns [false] and
    leaves the state as it was.  It never throws. *)
Theorem loadProxies_installs_fresh_pool (file : Completion jsstring) (w : World) :
  currentIndex w = 0%nat ->
  match file with
  | Normal content =>
      exists w',
        loadProxies file w = (Normal true, w') /\
        w' = set_pool (parseProxies content) 0 w /\
        Forall (fun p => host p <> [] /\ failures p = 0 /\
                         lastUsed p = 0 /\ connections p = 0) (proxies w') /\
        pool_ok w'
  | Throw _ => loadProxies file w = (Normal false, w)
  end.
Proof.
  intros Hc. destruct file as [content|e]; [|reflexivity].
  exists (set_pool (parseProxies content) 0 w).
  split; [rewrite <- Hc; reflexivity|].
  split; [reflexivity|].
  pose proof (parseProxies_fresh content) as Hf.
  split; [exact Hf|].
  split.
  - cbn. eapply Forall_impl; [exact Hf|].
    intros p (_ & H1 & _ & H3). unfold within_budget, MAX_CONNECTIONS.
    rewrite H1, H3. lia.
  - cbn. destruct (parseProxies content); [left; reflexivity | right; cbn; lia].
Qed.

End LoadTheorems.

(* ===================================================================== *)
(** * The MX lookup *)
(* ===================================================================== *)

Section MxOrder.
Import Validator.

(** X2.  [checkMX] answers with the records of the resolver sorted by
    ascending priority: the same records, none lost or duplicated,
    and records of equal priority keep the order the resolver gave
    them.  It answers [false] exactly when the lookup fails or yields
    no record. *)
Theorem checkMX_sorts_by_priority env domain :
  match checkMX env domain with
  | Some mxs =>
      exists records,
        resolveMx env domain = Normal records /\
        records <> [] /\
        Permutation mxs records /\
        StronglySorted (fun a b => priority a <= priority b) mxs /\
        forall p, List.filter (fun r => priority r =? p) mxs
                  = List.filter (fun r => priority r =? p) records
  | None =>
      resolveMx env domain = Normal [] \/ exists e, resolveMx env domain = Throw e
  end.
Proof.
  unfold checkMX. destruct (resolveMx env domain) as [records|e]; [|right; eauto].
  destruct records as [|r records]; [left; reflexivity|].
  exists (r :: records). split; [reflexivity|]. split; [discriminate|].
  apply sort_mx_spec.
Qed.

End MxOrder.

(* ===================================================================== *)
(** * Invariants of the world, from the primitive operations up *)
(* ===================================================================== *)

Create HintDb kept discriminated.

Ltac kept_go :=
  repeat
    match goal with
    | |- forall _, _ => intro
    | |- Logic.inv _ (ret _) => exact (inv_ret _ _)
    | |- Logic.inv _ (throw _) => exact (inv_throw _ _)
    | |- Logic.inv _ get => exact (inv_get _)
    | |- Logic.inv _ getL => exact (inv_getL _)
    | |- Logic.inv _ (modifyL _) => exact (inv_modifyL _ _)
    | |- Logic.inv _ (bind _ _) => simple apply @inv_bind
    | |- Logic.inv _ (try_catch _ _) => simple apply @inv_try_catch
    | |- Logic.inv _ (try_finally _ _) => simple apply @inv_try_finally
    | |- Logic.inv _ (lift _) => simple apply @inv_lift
    | |- Logic.inv _ (with_locals _ _) => simple apply @inv_with_locals
    | |- Logic.inv _ (match ?x with _ => _ end) => destruct x
    | |- Logic.inv _ (if ?x then _ else _) => destruct x
    | |- Logic.inv _ _ => solve [auto with kept]
    end.

(** An invariant [I] of the world that the primitive operations keep
    (writes to a socket record, the three pool calls that follow a
    dialog, the acquisition, the dial log, the delays, the probe log)
    is kept by everything built from them. *)
Section Kept.
Import Logic ProxyManager Smtp Validator Routes.
Variable I : World -> Prop.

Hypothesis Hsockets : forall w sk, I w -> I (set_sockets sk w).
Hypothesis Hrelease : forall p, inv I (releaseProxy p).
Hypothesis Hfailure : forall p, inv I (markProxyFailure p).
Hypothesis Hsuccess : forall p, inv I (markProxySuccess p).
Hypothesis Hacquire : forall env, inv I (getNextProxy env).
Hypothesis Hdialed : forall w d, I w -> I (set_dialed d w).
Hypothesis Hsleeps : forall w sl, I w -> I (set_sleeps sl w).
Hypothesis Hprobes : forall w p, I w -> I (set_probes p w).

Hint Resolve Hrelease Hfailure Hsuccess Hacquire : kept.

Lemma kept_update_socket sid f : inv I (update_socket sid f).
Proof.
  apply inv_modify. intros s Hs. destruct (sockets s !! sid); [apply Hsockets|]; exact Hs.
Qed.
Hint Resolve kept_update_socket : kept.

Lemma kept_destroy sid : inv I (destroy sid).
Proof. unfold destroy. monadic. kept_go. Qed.
Hint Resolve kept_destroy : kept.

Lemma kept_socket_error sid : inv I (socket_error sid).
Proof. unfold socket_error. monadic. kept_go. Qed.
Hint Resolve kept_socket_error : kept.

Lemma kept_writeCommand env sid c : inv I (writeCommand env sid c).
Proof. unfold writeCommand. monadic. kept_go. Qed.

Lemma kept_readResponse env sid t : inv I (readResponse env sid t).
Proof. unfold readResponse. monadic. kept_go. Qed.
Hint Resolve kept_writeCommand kept_readResponse : kept.

Lemma kept_cleanup env : inv (on_world I) (cleanup env).
Proof. unfold cleanup. monadic. kept_go. Qed.
Hint Resolve kept_cleanup : kept.

Lemma kept_greet env sid domain config : inv (on_world I) (greet env sid domain config).
Proof. unfold greet. monadic. kept_go. Qed.

Lemma kept_probe env sid proxy email config :
  inv (on_world I) (probe env sid proxy email config).
Proof. unfold probe. monadic. kept_go. Qed.
Hint Resolve kept_greet kept_probe : kept.

Lemma kept_dial env proxy h p : inv I (dial env proxy h p).
Proof.
  unfold dial. monadic.
  kept_go; apply inv_modify; intros s Hs; first [apply Hdialed | apply Hsockets]; exact Hs.
Qed.
Hint Resolve kept_dial : kept.

Lemma kept_createProxyConnection env proxy h p :
  inv I (createProxyConnection env proxy h p).
Proof. unfold createProxyConnection. monadic. kept_go. Qed.
Hint Resolve kept_createProxyConnection : kept.

Lemma kept_attempt env host email domain config :
  inv (on_world I) (attempt env host email domain config).
Proof. unfold attempt. monadic. kept_go. Qed.

Lemma kept_sleep ms : inv I (sleep ms).
Proof. apply inv_modify. intros s Hs. apply Hsleeps, Hs. Qed.
Hint Resolve kept_sleep : kept.

Lemma kept_attempt_failed env retryCount :
  inv (on_world I) (attempt_failed env retryCount).
Proof. unfold attempt_failed. monadic. kept_go. Qed.
Hint Resolve kept_attempt kept_attempt_failed : kept.

Lemma kept_attempts env host email domain config remaining retryCount :
  inv (on_world I) (attempts env host email domain config remaining retryCount).
Proof.
  revert retryCount. induction remaining as [|k IH]; intros retryCount;
    cbn [attempts]; monadic; kept_go.
Qed.
Hint Resolve kept_attempts : kept.

Lemma kept_verifyMailbox env host email domain config :
  inv I (verifyMailbox env host email domain config).
Proof.
  unfold verifyMailbox. monadic. kept_go.
  apply inv_modify. intros s Hs. apply Hprobes, Hs.
Qed.

End Kept.

(** The same from [verifyMailbox] up: whatever [verifyMailbox] keeps,
    and the delays do not disturb, the pipeline and the routes keep. *)
Section KeptAbove.
Import Logic ProxyManager Smtp Validator Routes.
Variable I : World -> Prop.

Hypothesis Hsleeps : forall w sl, I w -> I (set_sleeps sl w).
Hypothesis Hverify :
  forall env host email domain config, inv I (verifyMailbox env host email domain config).

Lemma kept_sleep_above ms : inv I (sleep ms).
Proof. apply inv_modify. intros s Hs. apply Hsleeps, Hs. Qed.
Hint Resolve kept_sleep_above Hverify : kept.

Lemma kept_retry_loop env host email domain config maxRetries remaining retryCount lastError :
  inv I (retry_loop env host email domain config maxRetries remaining retryCount lastError).
Proof.
  revert retryCount lastError. induction remaining as [|k IH]; intros retryCount lastError;
    cbn [retry_loop]; monadic; kept_go.
Qed.

Lemma kept_verifyMailboxWithRetry env host email domain config :
  inv I (verifyMailboxWithRetry env host email domain config).
Proof. unfold verifyMailboxWithRetry. apply kept_retry_loop. Qed.
Hint Resolve kept_verifyMailboxWithRetry : kept.

Lemma kept_mx_turn env email domain config mx :
  inv (on_world I) (mx_turn env email domain config mx).
Proof. unfold mx_turn. monadic. kept_go. Qed.
Hint Resolve kept_mx_turn : kept.

Lemma kept_mx_loop env email domain config mxs :
  inv (on_world I) (mx_loop env email domain config mxs).
Proof. induction mxs as [|mx rest IH]; cbn [mx_loop]; monadic; kept_go. Qed.
Hint Resolve kept_mx_loop : kept.

Lemma kept_split_at {S} (J : S -> Prop) email : inv J (split_at email).
Proof. unfold split_at. monadic. kept_go. Qed.
Hint Resolve kept_split_at : kept.

Lemma kept_stages env email : inv (on_world I) (stages env email).
Proof. unfold stages. monadic. kept_go. Qed.
Hint Resolve kept_stages : kept.

Lemma kept_validateEmail env email : inv I (validateEmail env email).
Proof. unfold validateEmail. monadic. kept_go. Qed.
Hint Resolve kept_validateEmail : kept.

Lemma kept_validateEmailWithRetry_rec env depth email retryCount :
  inv I (validateEmailWithRetry_rec env depth email retryCount).
Proof.
  revert retryCount. induction depth as [|d IH]; intros retryCount;
    cbn [validateEmailWithRetry_rec]; monadic; kept_go.
Qed.

Lemma kept_validateEmailWithRetry env email : inv I (validateEmailWithRetry env email).
Proof. apply kept_validateEmailWithRetry_rec. Qed.

(** The routes, for any validator that keeps the invariant. *)
Variable validator : JSVal -> M World ValidationResult.
Hypothesis Hvalidator : forall email, inv I (validator email).

Lemma kept_settle {A} (p : M World A) : inv I p -> inv I (settle p).
Proof.
  intros Hp w Hw. specialize (Hp w Hw). unfold settle.
  destruct (p w) as [[a|e] w']; exact Hp.
Qed.

Lemma kept_allSettled {A} (ps : list (M World A)) :
  Forall (inv I) ps -> inv I (allSettled ps).
Proof.
  induction 1 as [|p ps Hp _ IH]; cbn [allSettled]; monadic; kept_go.
  apply kept_settle, Hp.
Qed.

Lemma kept_all {A} (ps : list (M World A)) :
  Forall (inv I) ps -> inv I (all ps).
Proof.
  intros H. unfold all. monadic. kept_go. apply kept_allSettled, H.
Qed.

Lemma kept_batch_loop emails fuel i :
  inv (on_world I) (batch_loop validator emails fuel i).
Proof.
  revert i. induction fuel as [|fuel IH]; intros i; cbn [batch_loop]; monadic; kept_go.
  apply kept_allSettled, Forall_forall. intros m Hm.
  apply list_elem_of_fmap in Hm as (email & -> & _). apply Hvalidator.
Qed.
Hint Resolve kept_batch_loop : kept.

Lemma kept_validate_batch body : inv I (validate_batch validator body).
Proof. unfold validate_batch. monadic. kept_go. Qed.

Lemma kept_flush_batch total : inv (on_world I) (flush_batch validator total).
Proof.
  unfold flush_batch. monadic. kept_go.
  apply kept_all, Forall_forall. intros m Hm.
  apply list_elem_of_fmap in Hm as (email & -> & _). apply Hvalidator.
Qed.
Hint Resolve kept_flush_batch : kept.

Lemma kept_bulk_loop total rows : inv (on_world I) (bulk_loop validator total rows).
Proof. induction rows as [|record rest IH]; cbn [bulk_loop]; monadic; kept_go. Qed.
Hint Resolve kept_bulk_loop : kept.

Lemma kept_validate_bulk rows : inv I (validate_bulk validator rows).
Proof. unfold validate_bulk. monadic. kept_go. Qed.

End KeptAbove.

(* ===================================================================== *)
(** * The pool stays well formed *)
(* ===================================================================== *)

Section PoolInvariant.
Import Logic ProxyManager Smtp Validator Routes Spec Props.
Variable w0 : World.

Lemma pool_kept_set_pool w ps ci :
  pool_kept w0 w ->
  Forall within_budget ps ->
  map endpoint ps = map endpoint (proxies w) ->
  (ps = [] \/ (ci < length ps)%nat) ->
  pool_kept w0 (set_pool ps ci w).
Proof.
  intros [_ Hs] Hb He Hc. split; [split; assumption|].
  unfold same_endpoints in *. cbn [proxies set_pool]. congruence.
Qed.

Lemma pool_kept_update w i p (f : Proxy -> Proxy) :
  pool_kept w0 w ->
  proxies w !! i = Some p ->
  within_budget (f p) ->
  endpoint (f p) = endpoint p ->
  pool_kept w0 (set_pool (<[i := f p]> (proxies w)) (currentIndex w) w).
Proof.
  intros H Hp Hb He. pose proof H as [[Hall Hc] Hs].
  apply pool_kept_set_pool; [exact H | | |].
  - apply Forall_insert; assumption.
  - rewrite list_fmap_insert, He. apply list_insert_id.
    rewrite list_lookup_fmap, Hp. reflexivity.
  - destruct Hc as [Hnil | Hc]; [rewrite Hnil in Hp; discriminate|].
    right. rewrite length_insert. exact Hc.
Qed.

Lemma pool_kept_update_proxy i (f : Proxy -> Proxy) :
  (forall p, within_budget p -> within_budget (f p) /\ endpoint (f p) = endpoint p) ->
  inv (pool_kept w0) (update_proxy i f).
Proof.
  intros Hf. apply inv_modify. intros w H.
  destruct (proxies w !! i) as [p|] eqn:Hp; [|exact H].
  assert (Hb : within_budget p).
  { destruct H as [[Hall _] _]. eapply Forall_lookup_1; eauto. }
  destruct (Hf p Hb). eapply pool_kept_update; eauto.
Qed.

Lemma pool_kept_log e : inv (pool_kept w0) (log_pool e).
Proof. apply inv_modify. intros w H. exact H. Qed.

Lemma pool_kept_markProxyFailure p : inv (pool_kept w0) (markProxyFailure p).
Proof.
  destruct p as [i|]; cbn [markProxyFailure]; monadic; [|apply inv_ret].
  apply inv_bind; [|intros; apply pool_kept_log].
  apply pool_kept_update_proxy. intros p [Hf Hc].
  split; [|reflexivity]. unfold within_budget in *. cbn. unfold MAX_CONNECTIONS in *. lia.
Qed.

Lemma pool_kept_markProxySuccess p : inv (pool_kept w0) (markProxySuccess p).
Proof.
  destruct p as [i|]; cbn [markProxySuccess]; monadic; [|apply inv_ret].
  apply inv_bind; [|intros; apply pool_kept_log].
  apply pool_kept_update_proxy. intros p [Hf Hc].
  split; [|reflexivity]. unfold within_budget in *. cbn. lia.
Qed.

Lemma pool_kept_releaseProxy p : inv (pool_kept w0) (releaseProxy p).
Proof.
  destruct p as [i|]; cbn [releaseProxy]; monadic; [|apply inv_ret].
  apply inv_bind; [|intros; apply pool_kept_log].
  apply pool_kept_update_proxy. intros p [Hf Hc].
  split; [|reflexivity]. unfold within_budget in *. cbn. unfold MAX_CONNECTIONS in *. lia.
Qed.

Lemma pool_kept_scan now rem : inv (pool_kept w0) (scan now rem).
Proof.
  induction rem as [|rem IH]; intros w H; [exact H|].
  destruct (proxies w !! currentIndex w) as [p|] eqn:Hp.
  - rewrite (scan_step _ _ _ _ Hp).
    assert (Hlen : (currentIndex w < length (proxies w))%nat)
      by (eapply lookup_lt_Some; eauto).
    assert (Hb : within_budget p).
    { destruct H as [[Hall _] _]. eapply Forall_lookup_1; eauto. }
    destruct (skipped now p) eqn:Hs.
    + apply IH. apply pool_kept_set_pool; [exact H | apply H | reflexivity |].
      right. apply Nat.mod_upper_bound. lia.
    + apply skipped_eligible in Hs as (_ & Hconn & _).
      unfold handed_out.
      assert (H1 : pool_kept w0 (set_pool (<[currentIndex w := mark now p]> (proxies w))
                                (currentIndex w) w)).
      { apply (pool_kept_update w (currentIndex w) p (mark now)); auto.
        destruct Hb as [Hf Hc]. split; cbn; lia. }
      destruct H1 as [[Hall _] Hsame].
      split; [split|]; [exact Hall | | exact Hsame].
      right. cbn [proxies currentIndex set_pool set_poolLog].
      rewrite length_insert. apply Nat.mod_upper_bound. lia.
  - cbn [scan]. unfold mbind, M_bind, bind, get at 1. rewrite Hp. exact H.
Qed.

Lemma pool_kept_getNextProxy_rec env depth : inv (pool_kept w0) (getNextProxy_rec env depth).
Proof.
  induction depth as [|d IH]; intros w H; [exact H|].
  rewrite getNextProxy_rec_step.
  destruct (length (proxies w) =? 0)%nat; [exact H|].
  pose proof (pool_kept_scan (clock env (ticks w)) (length (proxies w))
                (set_ticks (S (ticks w)) w) H) as Hscan.
  destruct (scan _ _ _) as [[[i|]|e] w']; [exact Hscan | | exact Hscan].
  destruct (forallb _ _); [|exact Hscan].
  apply IH.
  assert (H1 : pool_kept w0 (set_pool (map reset_proxy (proxies w')) (currentIndex w') w')).
  { apply pool_kept_set_pool; [exact Hscan | | |].
    - apply Forall_fmap, Forall_true. intros p. split; cbn; unfold MAX_CONNECTIONS; lia.
    - rewrite <- list_fmap_compose. reflexivity.
    - rewrite length_map. destruct Hscan as [[_ [Hnil | Hc]] _]; [|right; exact Hc].
      left. rewrite Hnil. reflexivity. }
  exact H1.
Qed.

Lemma pool_kept_getNextProxy env : inv (pool_kept w0) (getNextProxy env).
Proof. apply pool_kept_getNextProxy_rec. Qed.

Lemma pool_kept_verifyMailbox env host email domain config :
  inv (pool_kept w0) (verifyMailbox env host email domain config).
Proof.
  apply kept_verifyMailbox;
    auto using pool_kept_releaseProxy, pool_kept_markProxyFailure,
               pool_kept_markProxySuccess, pool_kept_getNextProxy.
Qed.

Lemma pool_kept_validateEmail env email : inv (pool_kept w0) (validateEmail env email).
Proof.
  apply kept_validateEmail; [auto | apply pool_kept_verifyMailbox].
Qed.

End PoolInvariant.

Section PoolInvariantStated.
Import Logic ProxyManager Smtp Validator Routes Spec Props.

(** X10.  A well-formed pool stays well formed.  If every entry has
    [failures >= 0] and [0 <= connections <= MAX_CONNECTIONS] and the
    cursor is inside the pool, the same holds after [getNextProxy],
    [markProxyFailure], [markProxySuccess] and [releaseProxy], after a
    whole [validateEmail], and after the batch and bulk routes; the
    pool keeps its entries, in the same order, with the same host,
    port and credentials. *)
Theorem pool_stays_well_formed env (w : World) :
  pool_ok w ->
  let kept (w' : World) := pool_ok w' /\ same_endpoints w w' in
  kept (snd (getNextProxy env w)) /\
  (forall p, kept (snd (markProxyFailure p w))) /\
  (forall p, kept (snd (markProxySuccess p w))) /\
  (forall p, kept (snd (releaseProxy p w))) /\
  (forall email, kept (snd (validateEmail env email w))) /\
  (forall body, kept (snd (batch_route env body w))) /\
  (forall rows, kept (snd (bulk_route env rows w))).
Proof.
  intros Hok kept.
  assert (H0 : pool_kept w w) by (split; [exact Hok | reflexivity]).
  assert (Hv : forall email, inv (pool_kept w) (validateEmailWithRetry env email)).
  { intros email. apply kept_validateEmailWithRetry;
      [auto | apply pool_kept_verifyMailbox]. }
  split; [apply (inv_run _ _ w (pool_kept_getNextProxy w env) H0)|].
  split; [intros p; apply (inv_run _ _ w (pool_kept_markProxyFailure w p) H0)|].
  split; [intros p; apply (inv_run _ _ w (pool_kept_markProxySuccess w p) H0)|].
  split; [intros p; apply (inv_run _ _ w (pool_kept_releaseProxy w p) H0)|].
  split; [intros email; apply (inv_run _ _ w (pool_kept_validateEmail w env email) H0)|].
  split.
  - intros body.
    apply (inv_run _ _ w (kept_validate_batch (pool_kept w) (fun _ _ H => H) _ Hv body) H0).
  - intros rows.
    apply (inv_run _ _ w (kept_validate_bulk (pool_kept w) (fun _ _ H => H) _ Hv rows) H0).
Qed.

End PoolInvariantStated.

(* ===================================================================== *)
(** * The cooldown and the reset *)
(* ===================================================================== *)

Section Cooldown.
Import Logic ProxyManager Spec.

(** A call that finds every entry over the failure budget resets the
    pool and hands out the entry under the cursor. *)
Lemma reset_hands_out env d w :
  (currentIndex w < length (proxies w))%nat ->
  Forall (fun p => MAX_FAILURES <= failures p) (proxies w) ->
  COOLDOWN_PERIOD <= clock env (S (ticks w)) ->
  exists w',
    getNextProxy_rec env (S (S d)) w = (Normal (Some (currentIndex w)), w') /\
    poolLog w' = poolLog w ++ [ResetAll; Acquired (currentIndex w)].
Proof.
  intros Hc Hall Hclock.
  rewrite getNextProxy_rec_step.
  destruct (length (proxies w) =? 0)%nat eqn:Hn.
  { apply Nat.eqb_eq in Hn. lia. }
  set (w1 := set_ticks (S (ticks w)) w).
  assert (Hsk : forall now q, In q (proxies w) -> skipped now q = true).
  { intros now q Hq. rewrite Forall_forall in Hall.
    unfold skipped. apply orb_true_iff. left. apply orb_true_iff. left.
    apply Z.leb_le, Hall, list_elem_of_In, Hq. }
  destruct (scan_spec (clock env (ticks w)) (length (proxies w)) w1 Hc)
    as [(k & q & _ & Hq & Hsq & _) | [_ Hrun]].
  { exfalso. change (proxies w1) with (proxies w) in Hq.
    rewrite Hsk in Hsq; [discriminate|].
    apply list_elem_of_In, list_elem_of_lookup. eauto. }
  pose proof (around_full w1 Hc) as Ha.
  change (proxies w1) with (proxies w) in Ha, Hrun. rewrite Ha in Hrun. rewrite Hrun.
  cbn [proxies set_pool].
  replace (forallb (fun p => MAX_FAILURES <=? failures p) (proxies w)) with true.
  2:{ symmetry. apply forallb_forall. intros q Hq. rewrite Forall_forall in Hall.
      apply Z.leb_le, Hall, list_elem_of_In, Hq. }
  cbn [currentIndex set_pool poolLog].
  set (w2 := set_poolLog _ _).
  assert (Hc2 : (currentIndex w2 < length (proxies w2))%nat).
  { subst w2. cbn. rewrite length_map. exact Hc. }
  rewrite getNextProxy_rec_step.
  replace (length (proxies w2) =? 0)%nat with false.
  2:{ symmetry. apply Nat.eqb_neq. lia. }
  set (w3 := set_ticks (S (ticks w2)) w2).
  destruct (lookup_lt_is_Some_2 _ _ Hc) as [p Hp].
  assert (Hp3 : proxies w3 !! currentIndex w3 = Some (reset_proxy p)).
  { subst w3 w2 w1. cbn. rewrite list_lookup_fmap, Hp. reflexivity. }
  replace (length (proxies w2)) with (S (pred (length (proxies w)))).
  2:{ subst w2 w1. cbn. rewrite length_map. lia. }
  rewrite (scan_step _ _ _ _ Hp3).
  replace (skipped (clock env (ticks w2)) (reset_proxy p)) with false.
  2:{ symmetry. change (ticks w2) with (S (ticks w)).
      unfold skipped, reset_proxy. cbn.
      unfold MAX_FAILURES, MAX_CONNECTIONS, COOLDOWN_PERIOD in *.
      rewrite Z.sub_0_r. apply Z.ltb_ge. exact Hclock. }
  eexists. split; [reflexivity|]. unfold handed_out. subst w3 w2 w1. cbn.
  rewrite <- app_assoc. reflexivity.
Qed.

(** X11.  The cooldown is kept by the stamp [lastUsed] of the
    entry, and it lasts as long as the failure budget.  A call of
    [getNextProxy] does not return an entry under the failure budget
    whose stamp is less than COOLDOWN_PERIOD before the clock reading
    of the call, whatever was done to the pool since the stamp was
    written: it returns another entry or none.  But when every entry
    has reached MAX_FAILURES, the call resets the pool, stamps
    included, and returns the entry under the cursor however recently
    that entry was used: the same proxy can be handed out twice
    within the cooldown. *)
Theorem cooldown_lasts_until_reset env w :
  (currentIndex w < length (proxies w))%nat ->
  (forall i p,
      proxies w !! i = Some p ->
      failures p < MAX_FAILURES ->
      clock env (ticks w) - lastUsed p < COOLDOWN_PERIOD ->
      exists r w', getNextProxy env w = (Normal r, w') /\ r <> Some i) /\
  (Forall (fun p => MAX_FAILURES <= failures p) (proxies w) ->
   COOLDOWN_PERIOD <= clock env (S (ticks w)) ->
   exists w',
     getNextProxy env w = (Normal (Some (currentIndex w)), w') /\
     poolLog w' = poolLog w ++ [ResetAll; Acquired (currentIndex w)]).
Proof.
  intros Hc. split.
  - intros i p Hp Hf Hcool.
    assert (Hsk : skipped (clock env (ticks w)) p = true).
    { unfold skipped. apply orb_true_iff. right. apply Z.ltb_lt, Hcool. }
    unfold getNextProxy, CALL_DEPTH. rewrite getNextProxy_rec_step.
    destruct (length (proxies w) =? 0)%nat eqn:Hn.
    { apply Nat.eqb_eq in Hn. lia. }
    set (w1 := set_ticks (S (ticks w)) w).
    destruct (scan_spec (clock env (ticks w)) (length (proxies w)) w1 Hc)
      as [(k & q & Hk & Hq & Hsq & _ & Hrun) | [Hall Hrun]].
    + change (proxies w1) with (proxies w) in Hrun. rewrite Hrun.
      eexists _, _. split; [reflexivity|].
      intros [= Heq]. rewrite Heq in Hq. change (proxies w1) with (proxies w) in Hq.
      congruence.
    + change (proxies w1) with (proxies w) in Hrun. rewrite Hrun.
      cbn [proxies set_pool].
      destruct (forallb _ _) eqn:Hfa.
      * exfalso. rewrite forallb_forall in Hfa.
        assert (Hin : In p (proxies w1)).
        { apply list_elem_of_In, list_elem_of_lookup. exists i. exact Hp. }
        specialize (Hfa p Hin). apply Z.leb_le in Hfa. lia.
      * eexists _, _. split; [reflexivity | discriminate].
  - intros Hall Hclock. exact (reset_hands_out env 1022 w Hc Hall Hclock).
Qed.

End Cooldown.

(* ===================================================================== *)
(** * What a validation reports *)
(* ===================================================================== *)

Section Outcome.
Import Logic Spec Props Smtp Validator.

(** A turn of the MX loop either leaves [checks] alone or sets
    [checks.smtp]. *)
Lemma mx_turn_flags env email domain config mx fr w :
  exists stop fr' w',
    mx_turn env email domain config mx (fr, w) = (Normal stop, (fr', w')) /\
    (smtp (checks (result fr')) = true \/ checks (result fr') = checks (result fr)).
Proof.
  unfold mx_turn. monadic. unfold try_catch, bind at 1, lift at 1. cbn [fst snd].
  destruct (verify_spec env (jsstring_eqb (provider config) (str "outlook.com"))
              (exchange mx) email domain config w) as (vr & w' & k & -> & Hv & Hp).
  destruct Hv as [[Hs He] | (Hs & Hm & He)]; rewrite Hs.
  - unfold isCatchAll. cbn [truthy andb].
    unfold bind, modifyL, getL. cbn [fst snd result checks mailbox on_result on_checks
      set_smtp_checks on_details].
    destruct (mailboxExists vr); cbn; eexists _, _, _; (split; [reflexivity|]);
      left; reflexivity.
  - unfold bind, modifyL. cbn. eexists _, _, _. split; [reflexivity|].
    right; reflexivity.
Qed.

Lemma mx_loop_flags env email domain config mxs fr w fr' w' :
  mx_loop env email domain config mxs (fr, w) = (Normal tt, (fr', w')) ->
  (mailbox (checks (result fr)) = true -> smtp (checks (result fr)) = true) ->
  mailbox (checks (result fr')) = true -> smtp (checks (result fr')) = true.
Proof.
  revert fr w. induction mxs as [|mx rest IH]; intros fr w.
  - cbn. intros [= <- <-]. auto.
  - cbn [mx_loop]. monadic. unfold bind at 1.
    destruct (mx_turn_flags env email domain config mx fr w)
      as (stop & fr1 & w1 & -> & Hflags).
    assert (H1 : (mailbox (checks (result fr)) = true -> smtp (checks (result fr)) = true) ->
                 mailbox (checks (result fr1)) = true -> smtp (checks (result fr1)) = true).
    { intros H0. destruct Hflags as [Hs | Hc]; [auto | rewrite Hc; exact H0]. }
    destruct stop.
    + cbn. intros [= <- <-]. exact H1.
    + intros E H0. apply (IH _ _ E), H1, H0.
Qed.

(** The six ways a validation ends. *)
Lemma validateEmail_outcome env email w :
  exists r w',
    validateEmail env email w = (Normal r, w') /\
    Validator.email r = email /\
    ((format (checks r) = false /\ dns (checks r) = false /\ mx (checks r) = false /\
      spf (checks r) = false /\ smtp (checks r) = false /\ mailbox (checks r) = false /\
      valid r = false /\ reason r = "Invalid email format"%string /\ w' = w)
     \/
     (format (checks r) = true /\ dns (checks r) = false /\ mx (checks r) = false /\
      spf (checks r) = false /\ smtp (checks r) = false /\ mailbox (checks r) = false /\
      valid r = false /\
      (reason r = "Domain exceeds maximum length"%string \/
       reason r = "Domain does not exist"%string) /\ w' = w)
     \/
     (format (checks r) = true /\ dns (checks r) = true /\ mx (checks r) = false /\
      spf (checks r) = false /\ smtp (checks r) = false /\ mailbox (checks r) = false /\
      valid r = false /\ reason r = "No mail servers found for domain"%string /\ w' = w)
     \/
     (format (checks r) = true /\ dns (checks r) = true /\ mx (checks r) = true /\
      smtp (checks r) = true /\ mailbox (checks r) = true /\
      valid r = true /\ reason r = "Email is valid"%string)
     \/
     (format (checks r) = true /\ dns (checks r) = true /\ mx (checks r) = true /\
      mailbox (checks r) = false /\ valid r = false /\
      (reason r = "Verification failed after 3 attempts"%string \/
       reason r = "Failed to verify mailbox"%string))).
Proof.
  unfold validateEmail, with_locals. monadic.
  rewrite run_bind, run_try_catch.
  unfold stages. monadic.
  do 4 run_step.
  cbn [initial on_result on_checks set_format result checks format].
  destruct (EmailFormat.validateEmailFormat email) eqn:Hfmt; cbn [negb].
  2:{ cbn. eexists _, _. split; [reflexivity|]. split; [reflexivity|].
      left. repeat split; reflexivity. }
  destruct email as [| | | |s|]; try discriminate Hfmt.
  destruct (format_split s Hfmt) as (l & d & Hsplit & Hlen).
  cbn [split_at]. monadic. do 2 run_step. rewrite Hsplit.
  change ([l; d] !! 0%nat) with (Some l). change ([l; d] !! 1%nat) with (Some d).
  cbn [default from_option id]. change (id l) with l.
  destruct (64 <? length l)%nat eqn:H64; [apply Nat.ltb_lt in H64; lia|].
  destruct (255 <? length d)%nat.
  { cbn. eexists _, _. split; [reflexivity|]. split; [reflexivity|].
    right; left. repeat split; try reflexivity. left; reflexivity. }
  do 4 run_step.
  cbn [on_result on_checks set_dns result checks dns].
  destruct (checkDNS env d) eqn:Hdns; cbn [negb].
  2:{ cbn. eexists _, _. split; [reflexivity|]. split; [reflexivity|].
      right; left. repeat split; try reflexivity. right; reflexivity. }
  destruct (checkMX env d) as [mxs|] eqn:Hmx.
  2:{ cbn. eexists _, _. split; [reflexivity|]. split; [reflexivity|].
      right; right; left. repeat split; reflexivity. }
  repeat run_step.
  set (fr0 := set_lastError None _).
  destruct (mx_loop_spec env (JStr s) d (Providers.getProviderConfig d) mxs fr0 w)
    as (fr' & w' & E & Hst & Hca & Hle & Hend); [reflexivity | reflexivity |].
  pose proof (mx_loop_flags _ _ _ _ _ _ _ _ _ E) as Hflags.
  rewrite E.
  assert (Hflags' : mailbox (checks (result fr')) = true ->
                    smtp (checks (result fr')) = true).
  { apply Hflags. subst fr0. cbn. discriminate. }
  cbv beta iota. run_step. run_step.
  assert (Hem : Validator.email (result fr') = JStr s).
  { change (Validator.email (result fr')) with (static (result fr')).1.1.1.1.1.1.1.1.
    rewrite Hst. reflexivity. }
  assert (Hfmt' : format (checks (result fr')) = true).
  { change (format (checks (result fr'))) with (static (result fr')).1.1.1.1.1.2.
    rewrite Hst. reflexivity. }
  assert (Hdns' : dns (checks (result fr')) = true).
  { change (dns (checks (result fr'))) with (static (result fr')).1.1.1.1.2.
    rewrite Hst. reflexivity. }
  assert (Hmx' : mx (checks (result fr')) = true).
  { change (mx (checks (result fr'))) with (static (result fr')).1.1.1.2.
    rewrite Hst. reflexivity. }
  destruct Hend as [[Hs Hm] | (Hs & Hm & _)]; rewrite Hs.
  - repeat run_step. cbn. eexists _, _. split; [reflexivity|]. cbn.
    split; [exact Hem|]. right; right; right; left.
    repeat split; auto.
  - rewrite Hdns', Hmx'. cbn [andb]. repeat run_step. cbn.
    eexists _, _. split; [reflexivity|]. cbn.
    split; [exact Hem|]. right; right; right; right.
    repeat split; auto.
    destruct Hle as [-> | [-> | ->]]; cbn; auto.
Qed.

End Outcome.

Section OutcomeStated.
Import Logic Spec Props Smtp Validator.

(** X3.  [validateEmail] always resolves, with the address it was
    given, and its checks follow the order of the stages: a check is
    true only if those of the earlier stages are ([format], [dns],
    [mx], then [smtp], then [mailbox]; [spf] needs [mx]); the address
    is reported valid exactly when the mailbox check is true.  When
    the MX check is false nothing was done on the network: no proxy
    was acquired, no connection opened, no delay awaited. *)
Theorem checks_follow_the_stages env email w :
  exists r w',
    validateEmail env email w = (Normal r, w') /\
    Validator.email r = email /\
    (dns (checks r) = true -> format (checks r) = true) /\
    (mx (checks r) = true -> dns (checks r) = true) /\
    (spf (checks r) = true -> mx (checks r) = true) /\
    (smtp (checks r) = true -> mx (checks r) = true) /\
    (mailbox (checks r) = true -> smtp (checks r) = true) /\
    (valid r = true <-> mailbox (checks r) = true) /\
    (mx (checks r) = false -> w' = w).
Proof.
  destruct (validateEmail_outcome env email w) as (r & w' & E & Hem & H).
  exists r, w'. split; [exact E|]. split; [exact Hem|].
  destruct H as [H | [H | [H | [H | H]]]];
    repeat match goal with H : _ /\ _ |- _ => destruct H end;
    repeat split; intros; congruence.
Qed.

(** X4.  The reason of a result is one of seven texts, and it
    tells the stage that decided: "Invalid email format" exactly when
    the format check is false; the two domain texts exactly when the
    format check is true and the DNS check false; "No mail servers
    found for domain" exactly when DNS is true and MX false; "Email
    is valid" exactly when the result is valid; one of the two
    verification texts exactly when MX is true and the result is not
    valid.  The texts "Local part exceeds maximum length", "Domain
    validation failed" and "Validation error: ..." of the source are
    never produced. *)
Theorem reason_tells_the_stage env email w :
  exists r w',
    validateEmail env email w = (Normal r, w') /\
    In (reason r)
       [ "Invalid email format"; "Domain exceeds maximum length";
         "Domain does not exist"; "No mail servers found for domain";
         "Email is valid"; "Verification failed after 3 attempts";
         "Failed to verify mailbox" ]%string /\
    (reason r = "Invalid email format"%string <-> format (checks r) = false) /\
    (reason r = "Domain exceeds maximum length"%string \/
     reason r = "Domain does not exist"%string
     <-> format (checks r) = true /\ dns (checks r) = false) /\
    (reason r = "No mail servers found for domain"%string
     <-> dns (checks r) = true /\ mx (checks r) = false) /\
    (reason r = "Email is valid"%string <-> valid r = true) /\
    (reason r = "Verification failed after 3 attempts"%string \/
     reason r = "Failed to verify mailbox"%string
     <-> mx (checks r) = true /\ valid r = false).
Proof.
  destruct (validateEmail_outcome env email w) as (r & w' & E & Hem & H).
  exists r, w'. split; [exact E|].
  destruct H as [H | [H | [H | [H | H]]]];
    repeat match goal with
           | H : _ /\ _ |- _ => destruct H
           | H : _ \/ _ |- _ => destruct H
           end;
    match goal with Hr : reason r = _ |- _ => rewrite Hr end;
    (split; [cbn; tauto|]);
    repeat split; intros;
    repeat match goal with
           | H : _ /\ _ |- _ => destruct H
           | H : _ \/ _ |- _ => destruct H
           end;
    first [ congruence | discriminate | tauto | (left; reflexivity) | (right; reflexivity) ].
Qed.

End OutcomeStated.

(* ===================================================================== *)
(** * What the reader returns, and when it gives up *)
(* ===================================================================== *)

Section ReaderShape.
Import Logic Regex Smtp Props.

Lemma response_re_shape (line : jsstring) :
  test response_re line = true -> reply_line line.
Proof.
  intros H. apply test_matches in H.
  unfold response_re in H; cbn [seq exactly] in H.
  apply cat_inv in H as (s1 & s2 & -> & M1 & M2).
  apply cat_inv in M1 as (a1 & s3 & -> & A1 & M1).
  apply cat_inv in M1 as (a2 & s4 & -> & A2 & M1).
  apply cat_inv in M1 as (a3 & s5 & -> & A3 & M1).
  apply eps_inv in M1 as ->.
  apply cls_inv in A1 as (d1 & -> & D1).
  apply cls_inv in A2 as (d2 & -> & D2).
  apply cls_inv in A3 as (d3 & -> & D3).
  exists d1, d2, d3, s2. split; [reflexivity|]. repeat (split; [assumption|]).
  apply alt_inv in M2 as [M2 | M2].
  - apply eps_inv in M2 as ->. left; reflexivity.
  - apply cat_inv in M2 as (b & t & -> & B & T).
    apply cls_inv in B as (c & -> & Hc).
    apply star_cls_forall in T.
    right. exists c, t. split; [reflexivity|]. split.
    + unfold one_of in Hc. cbn in Hc. unfold jschar_eqb in Hc.
      apply orb_true_iff in Hc as [Hc | Hc].
      * left. apply N.eqb_eq in Hc. exact Hc.
      * apply orb_true_iff in Hc as [Hc | Hc]; [|discriminate].
        right. apply N.eqb_eq in Hc. exact Hc.
    + eapply Forall_impl; [exact T|]. intros x Hx. cbn in Hx.
      apply negb_true_iff in Hx. exact Hx.
Qed.

Lemma listen_matches buf chunks line :
  listen buf chunks = Some line -> test response_re line = true.
Proof.
  revert buf. induction chunks as [|data later IH]; intros buf; [discriminate|].
  cbn [listen]. unfold handleData.
  destruct (includes CRLF (buf ++ data)).
  - destruct (find _ _) as [l|] eqn:Hf.
    + intros [= <-]. apply find_some in Hf. apply Hf.
    + apply IH.
  - apply IH.
Qed.

Lemma startsWith_app_l (p a b : jsstring) :
  startsWith p a = true -> startsWith p (a ++ b) = true.
Proof.
  revert a. induction p as [|x p IH]; intros a H; [reflexivity|].
  destruct a as [|y a]; [discriminate|].
  cbn [startsWith app] in *. apply andb_true_iff in H as [-> H].
  apply IH, H.
Qed.

Lemma includes_prefix (p a b : jsstring) :
  includes p (a ++ b) = false -> includes p a = false.
Proof.
  induction a as [|x a IH]; intros H.
  - cbn [app] in H. rewrite includes_unfold in H. apply orb_false_iff in H as [H _].
    rewrite includes_unfold. apply orb_false_iff. split; [|reflexivity].
    destruct (startsWith p []) eqn:E; [|reflexivity].
    pose proof (startsWith_app_l p [] b E) as E'. cbn [app] in E'. congruence.
  - rewrite includes_unfold in H |- *. cbn [app] in H.
    apply orb_false_iff in H as [H1 H2].
    apply orb_false_iff. split; [|apply IH, H2].
    destruct (startsWith p (x :: a)) eqn:E; [|reflexivity].
    pose proof (startsWith_app_l p (x :: a) b E) as E'. cbn [app] in E'.
    congruence.
Qed.

Lemma listen_without_crlf buf chunks :
  includes CRLF (buf ++ concat chunks) = false -> listen buf chunks = None.
Proof.
  revert buf. induction chunks as [|data later IH]; intros buf H; [reflexivity|].
  cbn [listen]. unfold handleData. cbn [concat] in H. rewrite app_assoc in H.
  rewrite (includes_prefix _ _ _ H). apply IH, H.
Qed.

(** X5.  [readResponse] either resolves with a reply line
    (three digits, then nothing or a space or hyphen and text
    without line break) or rejects with "Response timeout".  It
    rejects whenever the data received while it listens holds no
    CRLF: a reply terminated by a bare LF is never recognised. *)
Theorem readResponse_line_or_timeout env sid timeout w :
  match fst (readResponse env sid timeout w) with
  | Normal line => reply_line line
  | Throw e => e = Error "Response timeout"
  end /\
  (forall s,
      sockets w !! sid = Some s ->
      includes CRLF (concat (respond (net env (sk_session s)) (sk_sent s) timeout)) = false ->
      fst (readResponse env sid timeout w) = Throw (Error "Response timeout")).
Proof.
  unfold readResponse. monadic. rewrite run_bind. unfold get. cbv beta iota.
  destruct (sockets w !! sid) as [s|]; [|split; [reflexivity | discriminate]].
  split.
  - destruct (listen _ _) as [line|] eqn:E; [|reflexivity].
    apply response_re_shape, (listen_matches _ _ _ E).
  - intros s' [= <-] H. rewrite (listen_without_crlf [] _ H). reflexivity.
Qed.

Lemma returns_readResponse env sid timeout :
  returns (fun line => test response_re line = true) (readResponse env sid timeout).
Proof.
  intros w _. unfold readResponse. monadic. rewrite run_bind. unfold get. cbv beta iota.
  destruct (sockets w !! sid) as [s|]; [|exact I].
  destruct (listen _ _) as [line|] eqn:E; [|exact I].
  apply (listen_matches _ _ _ E).
Qed.

End ReaderShape.

(* ===================================================================== *)
(** * The answer of [verifyMailbox] *)
(* ===================================================================== *)

Section Answer.
Import Logic Regex Smtp Spec Props.

Lemma digit_range c : digit c = true -> (48 <= c <= 57)%N.
Proof.
  unfold digit, range. cbn. intros H. apply andb_true_iff in H as [H1 H2].
  apply N.leb_le in H1, H2. lia.
Qed.

(** The code of a reply line, and what [verifyMailbox] makes of it. *)
Lemma reply_code line :
  test response_re line = true ->
  let code := substring_to 3 line in
  0 <= parseInt code <= 999 /\
  startsWith (str "2") code || jsstring_eqb code (str "451")
    || jsstring_eqb code (str "452")
  = accepted_code (parseInt code).
Proof.
  intros H. apply response_re_shape in H as (d1 & d2 & d3 & rest & -> & D1 & D2 & D3 & _).
  apply digit_range in D1, D2, D3.
  unfold substring_to. cbn [take]. rewrite take_0. unfold parseInt. cbn [fold_left].
  cbn [str startsWith jsstring_eqb]. unfold jschar_eqb, accepted_code.
  change (N_of_ascii "2") with 50%N. change (N_of_ascii "4") with 52%N.
  change (N_of_ascii "5") with 53%N. change (N_of_ascii "1") with 49%N.
  rewrite !andb_true_r.
  split; [lia|].
  destruct (50 =? d1)%N eqn:E1, (d1 =? 52)%N eqn:E4, (d2 =? 53)%N eqn:E5,
           (d3 =? 49)%N eqn:E6, (d3 =? 50)%N eqn:E7;
    rewrite ?N.eqb_eq, ?N.eqb_neq in *; cbn [andb orb];
    symmetry;
    rewrite ?orb_true_iff, ?orb_false_iff, ?andb_true_iff, ?andb_false_iff,
            ?Z.leb_le, ?Z.leb_gt, ?Z.eqb_eq, ?Z.eqb_neq; lia.
Qed.

Lemma returns_lift {L S A} (P : A -> Prop) (m : M S A) :
  returns P m -> returns P (lift m : M (L * S) A).
Proof.
  intros Hm [l s] _. specialize (Hm s I). unfold lift. cbn [fst snd].
  destruct (m s) as [[a|e] s']; exact Hm.
Qed.

Lemma answered_probe env sid proxy email config :
  returns answered (probe env sid proxy email config).
Proof.
  unfold probe. monadic.
  apply returns_bind; intros w0.
  apply returns_bind; intros _.
  apply returns_bind; intros fromResponse.
  destruct (negb _); [apply returns_throw|].
  apply returns_bind; intros _.
  eapply returns_bind_with; [apply returns_lift, returns_readResponse|].
  intros rcptResponse Hline.
  apply returns_bind; intros _.
  apply returns_bind; intros _.
  apply returns_ret.
  destruct (reply_code rcptResponse Hline) as [Hrange Hcode].
  split; [reflexivity|]. split; [reflexivity|].
  eexists _, _. split; [reflexivity|]. split; [exact Hrange|].
  split; [reflexivity | exact Hcode].
Qed.

Lemma answered_attempt env host email domain config :
  returns answered (attempt env host email domain config).
Proof.
  unfold attempt. monadic.
  apply returns_bind; intros proxy.
  apply returns_bind; intros _.
  destruct proxy; [|apply returns_throw].
  apply returns_bind; intros sid.
  apply returns_bind; intros _.
  apply returns_bind; intros _.
  apply answered_probe.
Qed.

Lemma answered_attempts env host email domain config remaining retryCount :
  returns (fun vr => answered vr \/ gave_up vr)
          (attempts env host email domain config remaining retryCount).
Proof.
  revert retryCount. induction remaining as [|k IH]; intros retryCount;
    cbn [attempts]; monadic.
  - apply returns_ret. right. repeat split; reflexivity.
  - apply (returns_bind_with
             (fun r => match r with Some vr => answered vr | None => True end)).
    + apply returns_try_catch.
      * apply (returns_bind_with answered); [apply answered_attempt|].
        intros vr Hvr. apply returns_ret. exact Hvr.
      * intros e. apply returns_bind. intros _. apply returns_ret. exact I.
    + intros [vr|] Hr; [apply returns_ret; left; exact Hr | apply IH].
Qed.

End Answer.

(* ===================================================================== *)
(** * What a verification costs: connections and delays *)
(* ===================================================================== *)

Section HoareMore.
Import Logic.
Context {S : Type}.

Lemma hoare_of_inv {A} (I I' : S -> Prop) (m : M S A) :
  inv I m -> (forall s, I s -> I' s) -> hoare I m (fun _ => I) (fun _ => I').
Proof.
  intros H Hw. eapply hoare_conseq; [exact H | | |]; cbv beta; auto.
Qed.

Lemma hoare_lift {L A} (P : S -> Prop) (m : M S A) Q E :
  hoare P m Q E ->
  hoare (on_world (L := L) P) (lift m) (fun a => on_world (Q a)) (fun e => on_world (E e)).
Proof.
  intros Hm [l s] Hs. specialize (Hm s Hs). unfold lift. cbn [fst snd].
  destruct (m s) as [[a|e] s']; exact Hm.
Qed.

Lemma hoare_with_locals {L A} (P : S -> Prop) (init : L) (m : M (L * S) A) Q E :
  hoare (on_world P) m (fun a => on_world (Q a)) (fun e => on_world (E e)) ->
  hoare P (with_locals init m) Q E.
Proof.
  intros Hm s Hs. specialize (Hm (init, s) Hs). unfold with_locals.
  destruct (m (init, s)) as [[a|e] [l s']]; exact Hm.
Qed.

Lemma hoare_run {A} (P : S -> Prop) (m : M S A) Q E s a s' :
  hoare P m Q E -> P s -> m s = (Normal a, s') -> Q a s'.
Proof. intros H Hs Em. specialize (H s Hs). rewrite Em in H. exact H. Qed.

End HoareMore.

Section Dials.
Import Logic ProxyManager Smtp Spec Props.
Variable l0 : list (option nat * jsstring * Z).
Variable host : jsstring.

Lemma dialed_grew_mono k k' w :
  (k <= k')%nat -> dialed_grew l0 host k w -> dialed_grew l0 host k' w.
Proof. intros Hk (new & E & Hl & Hf). exists new. split; [|split]; auto. lia. Qed.

Lemma dialed_grew_pool k : pool_stable (dialed_grew l0 host k).
Proof. repeat split; intros; assumption. Qed.

(** Everything that does not dial keeps the count. *)
Lemma dials_release k p : inv (dialed_grew l0 host k) (releaseProxy p).
Proof. apply inv_releaseProxy, dialed_grew_pool. Qed.
Lemma dials_failure k p : inv (dialed_grew l0 host k) (markProxyFailure p).
Proof. apply inv_markProxyFailure, dialed_grew_pool. Qed.
Lemma dials_success k p : inv (dialed_grew l0 host k) (markProxySuccess p).
Proof. apply inv_markProxySuccess, dialed_grew_pool. Qed.
Lemma dials_acquire k env : inv (dialed_grew l0 host k) (getNextProxy env).
Proof. apply inv_getNextProxy, dialed_grew_pool. Qed.

Lemma dial_grows env i k :
  hoare (dialed_grew l0 host k) (dial env (Some i) host 25)
        (fun _ => dialed_grew l0 host (Datatypes.S k))
        (fun _ => dialed_grew l0 host (Datatypes.S k)).
Proof.
  intros w (new & E & Hl & Hf). unfold dial. monadic.
  rewrite run_bind. unfold get. cbv beta iota.
  rewrite run_bind. unfold modify at 1. cbv beta iota.
  assert (H1 : forall w', dialed w' = dialed w ++ [(Some i, host, 25)] ->
                          dialed_grew l0 host (Datatypes.S k) w').
  { intros w' E'. exists (new ++ [(Some i, host, 25)]).
    rewrite E', E, <- app_assoc.
    split; [reflexivity|]. split; [rewrite length_app; cbn; lia|].
    apply Forall_app; split; [exact Hf|]. repeat constructor. eauto. }
  destruct (connect _) as [[]|e].
  - rewrite run_bind. unfold get. cbv beta iota.
    rewrite run_bind. unfold modify. cbv beta iota. apply H1. reflexivity.
  - apply H1. reflexivity.
Qed.

Lemma createProxyConnection_grows env i k :
  hoare (dialed_grew l0 host k) (createProxyConnection env (Some i) host 25)
        (fun _ => dialed_grew l0 host (Datatypes.S k))
        (fun _ => dialed_grew l0 host (Datatypes.S k)).
Proof.
  cbn [createProxyConnection]. eapply hoare_try_catch; [apply dial_grows|].
  intros e. monadic. eapply hoare_bind; [apply dials_failure|].
  intros ?. apply inv_throw.
Qed.

Lemma attempt_grows env email domain config k :
  hoare (on_world (dialed_grew l0 host k)) (attempt env host email domain config)
        (fun _ => on_world (dialed_grew l0 host (Datatypes.S k)))
        (fun _ => on_world (dialed_grew l0 host (Datatypes.S k))).
Proof.
  assert (Hw : forall ls : Locals * World,
             on_world (dialed_grew l0 host k) ls ->
             on_world (dialed_grew l0 host (Datatypes.S k)) ls).
  { intros ls. apply dialed_grew_mono. lia. }
  unfold attempt. monadic.
  eapply hoare_bind.
  { apply hoare_of_inv; [apply inv_lift, dials_acquire | exact Hw]. }
  intros proxy. eapply hoare_bind.
  { apply hoare_of_inv; [apply inv_modifyL | exact Hw]. }
  intros ?. destruct proxy as [i|].
  2:{ apply hoare_throw. exact Hw. }
  eapply hoare_bind.
  { apply hoare_lift, createProxyConnection_grows. }
  intros sid. cbv beta.
  assert (Hsock : forall (w : World) sk,
             dialed_grew l0 host (Datatypes.S k) w ->
             dialed_grew l0 host (Datatypes.S k) (set_sockets sk w)).
  { intros w sk H. exact H. }
  apply inv_bind; [apply inv_modifyL|]. intros ?.
  apply inv_bind.
  - apply kept_greet; auto using dials_release, dials_failure.
  - intros ?. apply kept_probe; auto using dials_release, dials_failure, dials_success.
Qed.

Lemma attempt_failed_dials env retryCount k :
  inv (on_world (dialed_grew l0 host k)) (attempt_failed env retryCount).
Proof.
  apply kept_attempt_failed; auto using dials_release, dials_failure.
Qed.

Lemma grows_mono {A} (m : M (Locals * World) A) k k1 k2 k1' k2' :
  hoare (on_world (dialed_grew l0 host k)) m
        (fun _ => on_world (dialed_grew l0 host k1))
        (fun _ => on_world (dialed_grew l0 host k2)) ->
  (k1 <= k1')%nat -> (k2 <= k2')%nat ->
  hoare (on_world (dialed_grew l0 host k)) m
        (fun _ => on_world (dialed_grew l0 host k1'))
        (fun _ => on_world (dialed_grew l0 host k2')).
Proof.
  intros H H1 H2. eapply hoare_conseq; [exact H | auto | |]; cbv beta.
  - intros ? ls. apply dialed_grew_mono, H1.
  - intros ? ls. apply dialed_grew_mono, H2.
Qed.

Lemma attempts_grow env email domain config remaining retryCount k :
  hoare (on_world (dialed_grew l0 host k))
        (attempts env host email domain config remaining retryCount)
        (fun _ => on_world (dialed_grew l0 host (k + remaining)))
        (fun _ => on_world (dialed_grew l0 host (k + remaining))).
Proof.
  revert retryCount k. induction remaining as [|n IH]; intros retryCount k;
    cbn [attempts]; monadic.
  - apply hoare_ret. intros ls. apply dialed_grew_mono. lia.
  - apply hoare_bind with
      (Q1 := fun _ => on_world (dialed_grew l0 host (Datatypes.S k))).
    + apply hoare_try_catch with
        (E1 := fun _ => on_world (dialed_grew l0 host (Datatypes.S k))).
      * apply hoare_bind with
          (Q1 := fun _ => on_world (dialed_grew l0 host (Datatypes.S k))).
        { apply attempt_grows. }
        intros vr. apply hoare_ret. auto.
      * intros e.
        apply hoare_bind with
          (Q1 := fun _ => on_world (dialed_grew l0 host (Datatypes.S k))).
        { apply (grows_mono _ (Datatypes.S k) (Datatypes.S k) (Datatypes.S k));
            [apply attempt_failed_dials | lia | lia]. }
        intros ?. apply hoare_ret. intros ls. apply dialed_grew_mono. lia.
    + intros [vr|].
      * apply hoare_ret. intros ls. apply dialed_grew_mono. lia.
      * apply (grows_mono _ _ _ _ _ _ (IH (retryCount + 1) (Datatypes.S k))); lia.
Qed.

Lemma verifyMailbox_dials env email domain config :
  hoare (dialed_grew l0 host 0) (verifyMailbox env host email domain config)
        (fun _ => dialed_grew l0 host 3) (fun _ => dialed_grew l0 host 3).
Proof.
  unfold verifyMailbox. monadic.
  eapply hoare_bind with (Q1 := fun _ => dialed_grew l0 host 0).
  - intros w H. exact (dialed_grew_mono 0 _ _ ltac:(lia) H).
  - intros ?. apply hoare_with_locals.
    apply (attempts_grow env email domain config (Z.to_nat MAX_RETRIES) 0 0).
Qed.

End Dials.

(* ===================================================================== *)
(** * No connection is left open *)
(* ===================================================================== *)

Section HoareFinally.
Import Logic.
Context {S : Type}.

Lemma hoare_try_finally {A} (P P1 P2 : S -> Prop) (m : M S A) fin :
  hoare P m (fun _ => P1) (fun _ => P1) ->
  hoare P1 fin (fun _ => P2) (fun _ => P2) ->
  hoare P (try_finally m fin) (fun _ => P2) (fun _ => P2).
Proof.
  intros Hm Hf s Hs. specialize (Hm s Hs). unfold try_finally.
  destruct (m s) as [c s'].
  assert (Hs' : P1 s') by (destruct c; exact Hm).
  specialize (Hf s' Hs'). destruct (fin s') as [[[]|e] s'']; [destruct c|]; exact Hf.
Qed.

Lemma inv_lift_dep {L A} (P : L * S -> Prop) (m : M S A) :
  (forall l, inv (fun s => P (l, s)) m) -> inv P (lift m).
Proof.
  intros Hm [l s] Hs. specialize (Hm l s Hs). unfold lift. cbn [fst snd].
  destruct (m s) as [[a|e] s']; exact Hm.
Qed.

End HoareFinally.

Section Sockets.
Import Logic ProxyManager Smtp Spec Props.

Lemma all_closed_only_open h w : all_closed w -> only_open h w.
Proof.
  intros H i s Hi Hs. unfold all_closed in H.
  rewrite Forall_lookup in H. specialize (H i s Hi). congruence.
Qed.

Lemma only_open_none w : only_open None w -> all_closed w.
Proof.
  intros H. apply Forall_lookup. intros i s Hi.
  destruct (sk_destroyed s) eqn:Hs; [reflexivity|].
  specialize (H i s Hi Hs). discriminate.
Qed.

Lemma only_open_pool h : pool_stable (only_open h).
Proof. repeat split; intros; assumption. Qed.

Lemma all_closed_pool : pool_stable all_closed.
Proof. repeat split; intros; assumption. Qed.

(** Rewriting the record of an open socket, or closing any socket,
    opens nothing. *)
Lemma only_open_update h w sid s s' :
  only_open h w ->
  sockets w !! sid = Some s ->
  (sk_destroyed s' = false -> sk_destroyed s = false) ->
  only_open h (set_sockets (<[sid := s']> (sockets w)) w).
Proof.
  intros H Hs Himp i x Hi Hx. cbn [sockets set_sockets] in Hi.
  destruct (decide (i = sid)) as [-> | Hne].
  - rewrite list_lookup_insert_eq in Hi by (eapply lookup_lt_Some; eauto).
    injection Hi as <-. apply (H sid s Hs), Himp, Hx.
  - rewrite list_lookup_insert_ne in Hi by congruence. apply (H i x Hi Hx).
Qed.

Lemma only_open_destroy h sid : inv (only_open h) (destroy sid).
Proof.
  intros w Hw. unfold destroy. monadic. rewrite run_bind. unfold get. cbv beta iota.
  destruct (sockets w !! sid) as [s|] eqn:Hs; [|exact Hw].
  destruct (sk_destroyed s) eqn:Hd; [exact Hw|].
  rewrite run_bind. unfold update_socket, modify. rewrite Hs. cbv beta iota.
  apply (inv_releaseProxy _ (only_open_pool h)).
  eapply only_open_update; eauto.
Qed.

Lemma only_open_socket_error h sid : inv (only_open h) (socket_error sid).
Proof.
  unfold socket_error. monadic.
  apply inv_bind; [apply inv_get|]. intros w.
  destruct (sockets w !! sid) as [s|]; [|apply inv_ret].
  destruct (sk_destroyed s); [apply inv_ret|].
  apply inv_bind; [apply inv_markProxyFailure, only_open_pool|].
  intros ?. apply only_open_destroy.
Qed.

Lemma only_open_writeCommand h env sid c : inv (only_open h) (writeCommand env sid c).
Proof.
  intros w Hw. unfold writeCommand. monadic. rewrite run_bind. unfold get. cbv beta iota.
  destruct (sockets w !! sid) as [s|] eqn:Hs; [|exact Hw].
  destruct (sk_destroyed s) eqn:Hd; [exact Hw|].
  destruct (writes _ _) as [[]|err].
  - unfold update_socket, modify. rewrite Hs.
    eapply only_open_update; eauto.
  - rewrite run_bind.
    pose proof (only_open_socket_error h sid w Hw) as H.
    destruct (socket_error sid w) as [[[]|e] w1]; exact H.
Qed.

(** After [socket.destroy()] on the socket that was held, nothing is
    open. *)
Lemma destroy_closes sid :
  hoare (only_open (Some sid)) (destroy sid) (fun _ => all_closed) (fun _ => all_closed).
Proof.
  intros w Hw. unfold destroy. monadic. rewrite run_bind. unfold get. cbv beta iota.
  assert (Hother : forall i x, i <> sid -> sockets w !! i = Some x -> sk_destroyed x = true).
  { intros i x Hne Hi. destruct (sk_destroyed x) eqn:Hx; [reflexivity|].
    specialize (Hw i x Hi Hx). congruence. }
  destruct (sockets w !! sid) as [s|] eqn:Hs.
  2:{ apply Forall_lookup. intros i x Hi. apply (Hother i x); [|exact Hi].
      intros ->. congruence. }
  destruct (sk_destroyed s) eqn:Hd.
  { apply Forall_lookup. intros i x Hi.
    destruct (decide (i = sid)) as [-> | Hne]; [congruence | eauto]. }
  rewrite run_bind. unfold update_socket, modify. rewrite Hs. cbv beta iota.
  apply (inv_releaseProxy _ all_closed_pool).
  apply Forall_lookup. intros i x Hi. cbn [sockets set_sockets] in Hi.
  destruct (decide (i = sid)) as [-> | Hne].
  - rewrite list_lookup_insert_eq in Hi by (eapply lookup_lt_Some; eauto).
    injection Hi as <-. reflexivity.
  - rewrite list_lookup_insert_ne in Hi by congruence. eauto.
Qed.

Lemma cleanup_closes env :
  hoare holding (cleanup env) (fun _ => on_world all_closed) (fun _ => on_world all_closed).
Proof.
  unfold cleanup. monadic.
  apply hoare_try_catch with (E1 := fun _ => on_world all_closed).
  2:{ intros e. apply hoare_ret. auto. }
  intros [l w] Hw. rewrite run_bind, run_getL. cbv beta iota.
  unfold holding in Hw. cbn [fst snd] in Hw.
  destruct (socket l) as [sid|] eqn:Hl; rewrite ?Hl in Hw.
  2:{ unfold on_world. cbn [snd]. apply only_open_none, Hw. }
  rewrite run_bind, run_lift. unfold get. cbv beta iota.
  assert (Hother : forall i x, i <> sid -> sockets w !! i = Some x -> sk_destroyed x = true).
  { intros i x Hne Hi. destruct (sk_destroyed x) eqn:Hx; [reflexivity|].
    specialize (Hw i x Hi Hx). congruence. }
  destruct (sockets w !! sid) as [s|] eqn:Hs.
  2:{ apply Forall_lookup. intros i x Hi. cbn [snd] in Hi. apply (Hother i x); [|exact Hi].
      intros ->. congruence. }
  destruct (sk_destroyed s) eqn:Hd.
  { apply Forall_lookup. intros i x Hi. cbn [snd] in Hi.
    destruct (decide (i = sid)) as [-> | Hne]; [congruence | eauto]. }
  refine (hoare_try_finally (on_world (only_open (Some sid)))
            (on_world (only_open (Some sid))) (on_world all_closed) _ _ _ _ (l, w) Hw).
  - apply inv_bind.
    + apply inv_lift, only_open_writeCommand.
    + intros ?. apply inv_try_catch.
      * apply inv_bind; [apply inv_lift, kept_readResponse | intros; apply inv_ret].
      * intros; apply inv_ret.
  - apply hoare_lift, destroy_closes.
Qed.

Lemma holding_lift {A} (m : M World A) :
  (forall h, inv (only_open h) m) -> inv holding (lift m).
Proof. intros H. apply inv_lift_dep. intros l. exact (H (socket l)). Qed.

Lemma closed_holding (lw : Locals * World) : on_world all_closed lw -> holding lw.
Proof. destruct lw as [l w]. apply all_closed_only_open. Qed.

Lemma holding_read env sid t : inv holding (lift (readResponse env sid t)).
Proof. apply holding_lift. intros h. apply kept_readResponse. Qed.

Lemma holding_write env sid c : inv holding (lift (writeCommand env sid c)).
Proof. apply holding_lift. intros h. apply only_open_writeCommand. Qed.

Lemma holding_greet env sid domain config : inv holding (greet env sid domain config).
Proof.
  unfold greet. monadic.
  apply inv_bind; [apply holding_read|]. intros greeting.
  destruct (negb _); [apply inv_throw|].
  apply inv_bind; [apply holding_write|]. intros ?.
  apply inv_bind; [apply holding_read|]. intros ehloResponse.
  destruct (negb _); [|apply inv_ret].
  apply inv_bind; [apply holding_write|]. intros ?.
  apply inv_bind; [apply holding_read|]. intros ehloResponse'.
  destruct (negb _); [apply inv_throw | apply inv_ret].
Qed.

Lemma probe_closes env sid proxy email config :
  hoare holding (probe env sid proxy email config)
        (fun _ => on_world all_closed) (fun _ => holding).
Proof.
  unfold probe. monadic.
  eapply hoare_bind.
  { apply holding_lift. intros h. apply inv_get. }
  intros w0. cbv zeta. eapply hoare_bind; [apply holding_write|]. intros ?.
  eapply hoare_bind; [apply holding_read|]. intros fromResponse.
  destruct (negb _); [apply hoare_throw; auto|].
  eapply hoare_bind; [apply holding_write|]. intros ?.
  eapply hoare_bind; [apply holding_read|]. intros rcptResponse.
  eapply hoare_bind.
  { apply holding_lift. intros h. apply inv_markProxySuccess, only_open_pool. }
  intros ?. eapply hoare_bind with (Q1 := fun _ => on_world all_closed).
  { eapply hoare_conseq; [apply cleanup_closes | | |]; cbv beta; auto.
    intros ? lw. apply closed_holding. }
  intros ?. apply hoare_ret. auto.
Qed.

Lemma dial_opens env proxy h p :
  hoare all_closed (dial env proxy h p)
        (fun sid => only_open (Some sid)) (fun _ => all_closed).
Proof.
  intros w Hw. unfold dial. monadic.
  rewrite run_bind. unfold get. cbv beta iota.
  rewrite run_bind. unfold modify at 1. cbv beta iota.
  destruct (connect _) as [[]|e]; [|exact Hw].
  rewrite run_bind. unfold get. cbv beta iota.
  rewrite run_bind. unfold modify. cbv beta iota.
  intros i s Hi Hs. cbn [sockets set_sockets set_dialed] in Hi |- *.
  apply lookup_app_Some in Hi as [Hi | [Hlen Hi]].
  - unfold all_closed in Hw. rewrite Forall_lookup in Hw.
    specialize (Hw i s Hi). congruence.
  - apply list_lookup_singleton_Some in Hi as [Hi _]. f_equal. lia.
Qed.

Lemma createProxyConnection_opens env proxy h p :
  hoare all_closed (createProxyConnection env proxy h p)
        (fun sid => only_open (Some sid)) (fun _ => all_closed).
Proof.
  destruct proxy as [i|]; cbn [createProxyConnection]; [|apply dial_opens].
  eapply hoare_try_catch; [apply dial_opens|].
  intros e. monadic. eapply hoare_bind with (Q1 := fun _ => all_closed).
  { apply inv_markProxyFailure, all_closed_pool. }
  intros ?. apply hoare_throw. auto.
Qed.

Lemma attempt_closes env host email domain config :
  hoare (on_world all_closed) (attempt env host email domain config)
        (fun _ => on_world all_closed) (fun _ => holding).
Proof.
  unfold attempt. monadic.
  eapply hoare_bind.
  { apply hoare_of_inv; [apply inv_lift, inv_getNextProxy, all_closed_pool|].
    apply closed_holding. }
  intros proxy. eapply hoare_bind.
  { apply hoare_of_inv; [apply inv_modifyL | apply closed_holding]. }
  intros ?. destruct proxy as [i|].
  2:{ apply hoare_throw. apply closed_holding. }
  eapply hoare_bind with (Q1 := fun sid => on_world (only_open (Some sid))).
  { eapply hoare_conseq;
      [apply hoare_lift, (createProxyConnection_opens env (Some i) host 25) | | |];
      cbv beta; auto.
    intros ? lw. apply closed_holding. }
  intros sid. cbv beta. eapply hoare_bind with (Q1 := fun _ => holding).
  { intros [l w] Hw. cbn. exact Hw. }
  intros ?. eapply hoare_bind; [apply holding_greet|].
  intros ?. apply probe_closes.
Qed.

Lemma attempt_failed_closes env retryCount :
  hoare holding (attempt_failed env retryCount)
        (fun _ => on_world all_closed) (fun _ _ => True).
Proof.
  unfold attempt_failed. monadic.
  eapply hoare_bind with (Q1 := fun _ => holding).
  { intros lw Hlw. exact Hlw. }
  intros l. eapply hoare_bind with (Q1 := fun _ => holding).
  { eapply hoare_conseq with (P' := holding) (Q' := fun _ => holding)
                             (E' := fun _ => holding); cbv beta; auto.
    destruct (currentProxy l); [|apply inv_ret].
    apply holding_lift. intros h. apply inv_markProxyFailure, only_open_pool. }
  intros ?. eapply hoare_bind with (Q1 := fun _ => on_world all_closed).
  { eapply hoare_conseq; [apply cleanup_closes | | |]; cbv beta; auto. }
  intros ?. cbv zeta.
  eapply hoare_conseq with (P' := on_world all_closed)
                           (Q' := fun _ => on_world all_closed)
                           (E' := fun _ => on_world all_closed); cbv beta; auto.
  destruct (_ <? _).
  - apply inv_lift. apply inv_modify. intros w H. exact H.
  - apply inv_ret.
Qed.

Lemma attempts_close env host email domain config remaining retryCount :
  hoare (on_world all_closed)
        (attempts env host email domain config remaining retryCount)
        (fun _ => on_world all_closed) (fun _ _ => True).
Proof.
  revert retryCount. induction remaining as [|n IH]; intros retryCount;
    cbn [attempts]; monadic.
  - apply hoare_ret. auto.
  - eapply hoare_bind with (Q1 := fun _ => on_world all_closed).
    + eapply hoare_try_catch with (E1 := fun _ => holding).
      * eapply hoare_bind; [apply attempt_closes|].
        intros vr. apply hoare_ret. auto.
      * intros e. eapply hoare_bind; [apply attempt_failed_closes|].
        intros ?. apply hoare_ret. auto.
    + intros [vr|]; [apply hoare_ret; auto | apply IH].
Qed.

Lemma verifyMailbox_closes env host email domain config :
  inv all_closed (verifyMailbox env host email domain config).
Proof.
  intros w Hw.
  destruct (nothrow_run _ w (nothrow_verifyMailbox env host email domain config))
    as (vr & w' & E).
  rewrite E.
  refine (hoare_run all_closed _ (fun _ => all_closed) (fun _ _ => True) w vr w' _ Hw E).
  unfold verifyMailbox. monadic.
  eapply hoare_bind with (Q1 := fun _ => all_closed).
  - intros w1 H1. exact H1.
  - intros ?. apply hoare_with_locals, attempts_close.
Qed.

(** X16.  No connection is left open.  When every socket opened so
    far has been destroyed, the same holds after [verifyMailbox]
    whatever its outcome (every exit path of an attempt goes through
    [cleanup], which destroys the socket even when QUIT cannot be
    written or is not answered), and therefore after
    [verifyMailboxWithRetry], after [validateEmail] and after the
    single, batch and bulk routes. *)
Theorem no_socket_left_open env (w : World) :
  all_closed w ->
  (forall host email domain config,
      all_closed (snd (verifyMailbox env host email domain config w))) /\
  (forall host email domain config,
      all_closed (snd (verifyMailboxWithRetry env host email domain config w))) /\
  (forall email, all_closed (snd (Validator.validateEmail env email w))) /\
  (forall development email,
      all_closed (snd (SingleRoute.single_route env development email w))) /\
  (forall body, all_closed (snd (Routes.batch_route env body w))) /\
  (forall rows, all_closed (snd (Routes.bulk_route env rows w))).
Proof.
  intros Hw.
  assert (Hsl : forall (w : World) sl, all_closed w -> all_closed (set_sleeps sl w))
    by (intros; assumption).
  assert (Hv : forall email,
             inv all_closed (Routes.validateEmailWithRetry env email)).
  { intros email. apply (kept_validateEmailWithRetry all_closed Hsl).
    intros. apply verifyMailbox_closes. }
  split.
  { intros h e d c. apply (inv_run _ _ w (verifyMailbox_closes env h e d c) Hw). }
  split.
  { intros h e d c.
    apply (inv_run _ _ w (kept_verifyMailboxWithRetry all_closed Hsl
             verifyMailbox_closes env h e d c) Hw). }
  split.
  { intros e.
    apply (inv_run _ _ w (kept_validateEmail all_closed Hsl
             verifyMailbox_closes env e) Hw). }
  split.
  { intros dev e. apply (inv_run all_closed _ w); [|exact Hw].
    unfold SingleRoute.single_route, SingleRoute.validate_single. monadic.
    apply inv_try_catch; [|intros; apply inv_ret].
    destruct (negb _); [apply inv_ret|].
    apply inv_bind; [apply Hv | intros; apply inv_ret]. }
  split.
  - intros body. apply (inv_run _ _ w (kept_validate_batch all_closed Hsl _ Hv body) Hw).
  - intros rows. apply (inv_run _ _ w (kept_validate_bulk all_closed Hsl _ Hv rows) Hw).
Qed.

End Sockets.

Section Waits.
Import Logic ProxyManager Smtp Spec Props.

Lemma hoare_and_returns {S A} (P : S -> Prop) (m : M S A) Q E (R : A -> Prop) :
  hoare P m Q E -> returns R m -> hoare P m (fun a s => Q a s /\ R a) E.
Proof.
  intros H HR s Hs. specialize (H s Hs). specialize (HR s I).
  destruct (m s) as [[a|e] s']; [split|]; assumption.
Qed.

Lemma slept_pool s : pool_stable (slept s).
Proof. repeat split; intros; assumption. Qed.

Lemma slept_attempt env host email domain config s :
  inv (on_world (slept s)) (attempt env host email domain config).
Proof.
  apply kept_attempt; try (intros; assumption);
    intros; first [ apply inv_releaseProxy | apply inv_markProxyFailure
                  | apply inv_markProxySuccess | apply inv_getNextProxy ];
    apply slept_pool.
Qed.

Lemma slept_cleanup env s : inv (on_world (slept s)) (cleanup env).
Proof.
  apply kept_cleanup; try (intros; assumption);
    intros; first [ apply inv_releaseProxy | apply inv_markProxyFailure ];
    apply slept_pool.
Qed.

Lemma attempt_failed_waits env retryCount s :
  hoare (on_world (slept s)) (attempt_failed env retryCount)
        (fun _ => on_world (slept (s ++ delays 1 retryCount)))
        (fun _ _ => True).
Proof.
  unfold attempt_failed. monadic.
  eapply hoare_bind; [apply hoare_of_inv; [apply inv_getL | auto]|].
  intros l. eapply hoare_bind.
  { apply hoare_of_inv; [|auto].
    destruct (currentProxy l); [|apply inv_ret].
    apply inv_lift, inv_markProxyFailure, slept_pool. }
  intros ?. eapply hoare_bind; [apply hoare_of_inv; [apply slept_cleanup | auto]|].
  intros ?. cbv zeta. cbn [delays]. rewrite app_nil_r.
  destruct (retryCount + 1 <? MAX_RETRIES).
  - intros [l' w] H. unfold lift, sleep, modify. cbn [fst snd].
    unfold on_world, slept in *. cbn [snd sleeps set_sleeps] in *. rewrite H. reflexivity.
  - apply hoare_ret. intros [l' w] H. unfold on_world, slept in *.
    rewrite app_nil_r. exact H.
Qed.

Lemma attempts_wait env host email domain config remaining retryCount s :
  hoare (on_world (slept s))
        (attempts env host email domain config remaining retryCount)
        (fun vr =>
           on_world (fun w =>
             exists j, (j <= remaining)%nat /\
                       sleeps w = s ++ delays j retryCount /\
                       (success vr = false -> j = remaining)))
        (fun _ _ => True).
Proof.
  revert retryCount s. induction remaining as [|n IH]; intros retryCount s;
    cbn [attempts]; monadic.
  - apply hoare_ret. intros [l w] H. exists 0%nat. cbn [delays].
    rewrite app_nil_r. split; [lia|]. split; [exact H | reflexivity].
  - apply hoare_bind with
      (Q1 := fun r : option VerifyResult =>
               on_world (fun w =>
                 match r with
                 | Some vr => sleeps w = s /\ success vr = true
                 | None => sleeps w = s ++ delays 1 retryCount
                 end)).
    + apply hoare_try_catch with (E1 := fun _ => on_world (slept s)).
      * apply hoare_bind with
          (Q1 := fun vr : VerifyResult =>
                   on_world (fun w => sleeps w = s /\ success vr = true)).
        { eapply hoare_conseq;
            [apply (hoare_and_returns _ _ _ _ answered (slept_attempt env host email domain config s)),
                   answered_attempt | | |]; cbv beta; auto.
          intros vr [l w] [H Ha]. split; [exact H | apply Ha]. }
        intros vr. apply hoare_ret. auto.
      * intros e. eapply hoare_bind; [apply attempt_failed_waits|].
        intros ?. apply hoare_ret. auto.
    + intros [vr|].
      * apply hoare_ret. intros [l w] [H Hs]. exists 0%nat. cbn [delays].
        rewrite app_nil_r. split; [lia|]. split; [exact H|]. congruence.
      * eapply hoare_conseq; [apply (IH (retryCount + 1) (s ++ delays 1 retryCount)) | | |];
          cbv beta; auto.
        intros vr [l w] (j & Hj & Hsl & Hg). exists (Datatypes.S j).
        split; [lia|]. split.
        -- rewrite Hsl, <- app_assoc. cbn [delays]. rewrite app_nil_r. reflexivity.
        -- intros Hf. rewrite (Hg Hf). reflexivity.
Qed.

Lemma verifyMailbox_waits env host email domain config s :
  hoare (slept s) (verifyMailbox env host email domain config)
        (fun vr w =>
           exists sl, sleeps w = s ++ sl /\
                      In sl [[]; [2000]; [2000; 4000]] /\
                      (success vr = false -> sl = [2000; 4000]))
        (fun _ _ => True).
Proof.
  unfold verifyMailbox. monadic.
  eapply hoare_bind with (Q1 := fun _ => slept s).
  - intros w H. exact H.
  - intros ?. apply hoare_with_locals.
    eapply hoare_conseq;
      [apply (attempts_wait env host email domain config (Z.to_nat MAX_RETRIES) 0 s)
      | | |]; cbv beta; auto.
    intros vr [l w] (j & Hj & Hsl & Hg). unfold on_world. cbn [snd].
    exists (delays j 0). split; [exact Hsl|].
    change (Z.to_nat MAX_RETRIES) with 3%nat in *.
    split.
    + destruct j as [|[|[|[|j]]]]; [| | | |lia]; cbn; auto.
    + intros Hf. rewrite (Hg Hf). reflexivity.
Qed.

(** All the facts about one call, for the proofs that follow. *)
Lemma verifyMailbox_facts env host email domain config w :
  exists vr w',
    verifyMailbox env host email domain config w = (Normal vr, w') /\
    (answered vr \/ gave_up vr) /\
    probes w' = probes w ++ [host] /\
    dialed_grew (dialed w) host 3 w' /\
    (exists sl,
        sleeps w' = sleeps w ++ sl /\
        In sl [[]; [2000]; [2000; 4000]] /\
        (success vr = false -> sl = [2000; 4000])).
Proof.
  destruct (verifyMailbox_spec env host email domain config w) as (vr & w' & E & _ & Hp).
  exists vr, w'. split; [exact E|]. split; [|split; [exact Hp|split]].
  - refine (returns_run (fun vr => answered vr \/ gave_up vr) _ w vr w' _ E).
    unfold verifyMailbox. monadic. apply returns_bind. intros ?.
    apply returns_with_locals, answered_attempts.
  - assert (H0 : dialed_grew (dialed w) host 0 w).
    { exists []. rewrite app_nil_r. split; [reflexivity|]. split; [cbn; lia | constructor]. }
    exact (hoare_run _ _ _ _ _ _ _
             (verifyMailbox_dials (dialed w) host env email domain config) H0 E).
  - exact (hoare_run _ _ _ _ _ _ _
             (verifyMailbox_waits env host email domain config (sleeps w)) eq_refl E).
Qed.

(** X6.  [verifyMailbox] always resolves, whatever the network
    does: every failure of an attempt is caught.  Its answer has one
    of two shapes.  After a dialog that reached the RCPT reply:
    [success] is true, [code] is the three-digit code of the reply
    (0 to 999), and [mailboxExists] is true exactly for the codes 200
    to 299, 451 and 452.  After three failed attempts: [success] and
    [mailboxExists] are false and [error] is "Verification failed
    after 3 attempts". *)
Theorem verifyMailbox_always_answers env host email domain config w :
  exists vr w',
    verifyMailbox env host email domain config w = (Normal vr, w') /\
    (answered vr \/ gave_up vr).
Proof.
  destruct (verifyMailbox_facts env host email domain config w)
    as (vr & w' & E & H & _).
  exists vr, w'. auto.
Qed.

(** X7.  One call of [verifyMailbox] for a host costs at most
    three connection attempts (MAX_RETRIES), each to port 25 of that
    host and through an acquired proxy, never directly.  Between
    failed attempts it waits 2000 ms, then 4000 ms (RETRY_DELAY times
    the number of failures so far) and does not wait after the third:
    when it gives up it has waited exactly 2000 ms and 4000 ms. *)
Theorem verifyMailbox_effort env host email domain config w :
  exists vr w',
    verifyMailbox env host email domain config w = (Normal vr, w') /\
    probes w' = probes w ++ [host] /\
    (exists new,
        dialed w' = dialed w ++ new /\ (length new <= 3)%nat /\
        Forall (fun d => exists i : nat, d = (Some i, host, 25)) new) /\
    (exists sl,
        sleeps w' = sleeps w ++ sl /\
        In sl [[]; [2000]; [2000; 4000]] /\
        (success vr = false -> sl = [2000; 4000])).
Proof.
  destruct (verifyMailbox_facts env host email domain config w)
    as (vr & w' & E & _ & Hp & Hd & Hs).
  exists vr, w'. auto.
Qed.

End Waits.

(* ===================================================================== *)
(** * The retry wrapper of the verifier *)
(* ===================================================================== *)

Section Rounds.
Import Logic ProxyManager Smtp Spec Props.

Lemma dialed_grew_chain l0 host k1 k2 w1 w2 :
  dialed_grew l0 host k1 w1 ->
  dialed_grew (dialed w1) host k2 w2 ->
  dialed_grew l0 host (k1 + k2) w2.
Proof.
  intros (n1 & E1 & L1 & F1) (n2 & E2 & L2 & F2).
  exists (n1 ++ n2). rewrite E2, E1, <- app_assoc.
  split; [reflexivity|]. split; [rewrite length_app; lia|].
  apply Forall_app; auto.
Qed.

Lemma retry_loop_rounds env host email domain config maxRetries remaining retryCount
      lastError w :
  (remaining = 0%nat ->
   lastError = Some (Error "Verification failed after 3 attempts")) ->
  exists vr w' k,
    retry_loop env host email domain config maxRetries remaining retryCount lastError w
      = (Normal vr, w') /\
    (answered vr \/ gave_up vr) /\
    (k <= remaining)%nat /\
    (remaining <> 0 -> k <> 0)%nat /\
    probes w' = probes w ++ repeat host k /\
    dialed_grew (dialed w) host (3 * k) w' /\
    (success vr = false ->
     k = remaining /\
     sleeps w' = sleeps w ++ round_delays maxRetries remaining retryCount).
Proof.
  revert retryCount lastError w.
  induction remaining as [|n IH]; intros retryCount lastError w Hlast.
  - rewrite (Hlast eq_refl). eexists _, w, 0%nat. split; [reflexivity|].
    split; [right; repeat split; reflexivity|].
    split; [lia|]. split; [congruence|].
    split; [cbn; rewrite app_nil_r; reflexivity|].
    split.
    + exists []. rewrite app_nil_r. split; [reflexivity|]. split; [cbn; lia | constructor].
    + intros _. split; [reflexivity|]. cbn. rewrite app_nil_r. reflexivity.
  - cbn [retry_loop]. monadic. unfold bind at 1, try_catch at 1, bind at 1.
    destruct (verifyMailbox_facts env host email domain config w)
      as (vr & w1 & -> & Hv & Hp & Hd & (sl & Hsl & _ & Hgave)).
    destruct Hv as [Ha | Hg].
    + pose proof Ha as (Hs & _). rewrite Hs.
      exists vr, w1, 1%nat. split; [reflexivity|].
      split; [left; exact Ha|]. split; [lia|]. split; [congruence|].
      split; [exact Hp|]. split; [exact Hd|]. congruence.
    + pose proof Hg as (Hs & _ & _ & _ & He). rewrite Hs, He.
      cbn [or_else String.eqb Ascii.eqb Bool.eqb ret].
      set (pause := if retryCount <? maxRetries - 1 then _ else _).
      assert (Hpause : exists w2,
                 pause w1 = (Normal tt, w2) /\ probes w2 = probes w1 /\
                 dialed w2 = dialed w1 /\
                 sleeps w2 = sleeps w1 ++
                   (if retryCount <? maxRetries - 1
                    then [RETRY_DELAY * 2 ^ retryCount] else [])).
      { subst pause. destruct (retryCount <? maxRetries - 1); eexists;
          (split; [reflexivity|]); cbn; rewrite ?app_nil_r; auto. }
      destruct Hpause as (w2 & Hw2 & Hp2 & Hd2 & Hs2). unfold bind. rewrite Hw2.
      destruct (IH (retryCount + 1)
                   (Some (Error "Verification failed after 3 attempts")) w2)
        as (vr' & w' & k & -> & Hv' & Hk & _ & Hp' & Hd' & Hg').
      { intros _. reflexivity. }
      exists vr', w', (Datatypes.S k). split; [reflexivity|]. split; [exact Hv'|].
      split; [lia|]. split; [congruence|].
      split; [rewrite Hp', Hp2, Hp, <- app_assoc; reflexivity|].
      split.
      * rewrite Hd2 in Hd'.
        replace (3 * Datatypes.S k)%nat with (3 + 3 * k)%nat by lia.
        eapply dialed_grew_chain; eauto.
      * intros Hf. destruct (Hg' Hf) as [-> Hsl'].
        split; [reflexivity|].
        rewrite Hsl', Hs2, Hsl, (Hgave Hs). cbn [round_delays].
        rewrite <- !app_assoc. reflexivity.
Qed.

(** X8.  [verifyMailboxWithRetry] always resolves.  It calls
    [verifyMailbox] for the host until a dialog completes, at most 5
    times for the Outlook profile and 3 times otherwise, so it costs
    at most 15 (resp. 9) connection attempts.  When every round gives
    up, the answer is the one of the last round, with the error
    "Verification failed after 3 attempts" whatever the number of
    rounds, and the delays awaited are those of the rounds (2000 and
    4000 ms each) and the delays between rounds (2000 ms doubled each
    time, none after the last): one minute in all for Outlook. *)
Theorem verifyMailboxWithRetry_rounds env host email domain config w :
  let outlook := jsstring_eqb (provider config) (str "outlook.com") in
  let rounds := if outlook then 5%nat else 3%nat in
  exists vr w' k,
    verifyMailboxWithRetry env host email domain config w = (Normal vr, w') /\
    (answered vr \/ gave_up vr) /\
    (1 <= k <= rounds)%nat /\
    probes w' = probes w ++ repeat host k /\
    (exists new,
        dialed w' = dialed w ++ new /\ (length new <= 3 * k)%nat /\
        Forall (fun d => exists i : nat, d = (Some i, host, 25)) new) /\
    (success vr = false ->
     k = rounds /\
     sleeps w' = sleeps w ++
       if outlook
       then [2000; 4000; 2000; 2000; 4000; 4000; 2000; 4000; 8000;
             2000; 4000; 16000; 2000; 4000]
       else [2000; 4000; 2000; 2000; 4000; 4000; 2000; 4000]).
Proof.
  intros outlook rounds. unfold verifyMailboxWithRetry. fold outlook.
  set (maxRetries := if outlook then 5 else MAX_RETRIES).
  assert (Hr : Z.to_nat maxRetries = rounds).
  { subst maxRetries rounds. destruct outlook; reflexivity. }
  destruct (retry_loop_rounds env host email domain config maxRetries
              (Z.to_nat maxRetries) 0 None w)
    as (vr & w' & k & E & Hv & Hk & Hk0 & Hp & Hd & Hg).
  { rewrite Hr. subst rounds. destruct outlook; discriminate. }
  exists vr, w', k. split; [exact E|]. split; [exact Hv|].
  assert (k <> 0)%nat.
  { apply Hk0. rewrite Hr. subst rounds. destruct outlook; discriminate. }
  split; [lia|]. split; [exact Hp|]. split; [exact Hd|].
  intros Hf. destruct (Hg Hf) as [-> ->]. split; [exact Hr|].
  subst maxRetries rounds. destruct outlook; reflexivity.
Qed.

End Rounds.

(* ===================================================================== *)
(** * Provider profiles *)
(* ===================================================================== *)

Section Profiles.
Import Providers Smtp.

Lemma getProviderConfig_cases domain :
  In (getProviderConfig domain) (PROVIDERS ++ [generic]).
Proof.
  unfold getProviderConfig. cbv zeta.
  destruct (find (fun config => existsb (jsstring_eqb _) (domains config)) PROVIDERS)
    as [c|] eqn:E1.
  { apply in_or_app. left. apply (find_some _ _ E1). }
  destruct (find (fun config => existsb (fun m => includes m _) (mxDomains config))
                 PROVIDERS) as [c|] eqn:E2.
  { apply in_or_app. left. apply (find_some _ _ E2). }
  apply in_or_app. right. left. reflexivity.
Qed.

Lemma jsstring_eqb_eq (a b : jsstring) : jsstring_eqb a b = true -> a = b.
Proof.
  revert b. induction a as [|x a IH]; intros [|y b] H; try discriminate; [reflexivity|].
  cbn [jsstring_eqb] in H. apply andb_true_iff in H as [Hx H].
  apply N.eqb_eq in Hx. subst y. f_equal. apply IH, H.
Qed.

(** X9.  For a domain written in ASCII, in any letter case:
    a domain listed for a provider gets the profile of that provider;
    a domain that merely contains one of the Gmail patterns
    ("google.com", "googlemail.com", "gmail.com") anywhere gets the
    Gmail profile, since no listed domain of another provider
    contains one.  Every profile returned is one of the three
    providers or the generic one, rejects catch-all domains, and has
    a timeout between 10 and 30 seconds, so that the default TIMEOUT
    of the verifier is never used. *)
Theorem getProviderConfig_lookup (domain : jsstring) :
  Forall (fun c => (c < 128)%N) domain ->
  let lower := toLowerCase domain in
  let config := getProviderConfig domain in
  (forall p, In p PROVIDERS -> In lower (domains p) -> config = p) /\
  (existsb (fun m => includes m lower)
           [str "google.com"; str "googlemail.com"; str "gmail.com"] = true ->
   provider config = str "gmail.com") /\
  In (provider config)
     [str "gmail.com"; str "outlook.com"; str "yahoo.com"; str "generic"] /\
  rejectCatchAll config = true /\
  10000 <= timeout config <= 30000 /\
  effective_timeout config = timeout config.
Proof.
  intros _ lower config.
  split; [|split].
  - intros p Hp Hd. subst config. unfold getProviderConfig. fold lower.
    cbn in Hp. destruct Hp as [<- | [<- | [<- | []]]]; cbn in Hd;
      repeat (destruct Hd as [<- | Hd]; [vm_compute; reflexivity|]); destruct Hd.
  - intros Hinc. subst config. unfold getProviderConfig. fold lower. cbv zeta.
    destruct (find (fun config => existsb (jsstring_eqb _) (domains config)) PROVIDERS)
      as [c|] eqn:E1.
    + apply find_some in E1 as [Hc Hd].
      apply existsb_exists in Hd as (d & Hd & Heq).
      apply jsstring_eqb_eq in Heq. rewrite Heq in Hinc.
      cbn in Hc. destruct Hc as [<- | [<- | [<- | []]]]; cbn in Hd;
        repeat (destruct Hd as [<- | Hd];
                [first [reflexivity | vm_compute in Hinc; discriminate]|]);
        destruct Hd.
    + cbn [PROVIDERS find mxDomains]. rewrite Hinc. reflexivity.
  - pose proof (getProviderConfig_cases domain) as Hc. fold config in Hc.
    cbn in Hc. destruct Hc as [<- | [<- | [<- | [<- | []]]]];
      (split; [cbn; tauto|]); (split; [reflexivity|]);
      (split; [cbn; lia|]); reflexivity.
Qed.

End Profiles.

(* ===================================================================== *)
(** * The bulk route when every row has an address *)
(* ===================================================================== *)

Section BulkComplete.
Import Validator Routes Spec Props.
Variable validator : JSVal -> M World ValidationResult.
Hypothesis Hresolves : forall email w, exists r w', validator email w = (Normal r, w').

Lemma all_resolved (l : list jsstring) w :
  exists values w',
    all (map (fun email => validator (JStr email)) l) w = (Normal values, w') /\
    Forall2 (validated_as validator) l values.
Proof.
  unfold all, mbind, M_bind, bind.
  assert (H : exists values w',
    allSettled (map (fun email => validator (JStr email)) l) w
      = (Normal (map Normal values), w') /\
    Forall2 (validated_as validator) l values).
  { revert w; induction l as [|x l IH]; intros w.
    - exists [], w. split; [reflexivity | constructor].
    - cbn [map allSettled]. unfold mbind, M_bind, bind, settle.
      destruct (Hresolves (JStr x) w) as (r & w1 & E). rewrite E.
      destruct (IH w1) as (values & w' & -> & HF).
      exists (r :: values), w'. split; [reflexivity|].
      constructor; [|exact HF]. exists w. rewrite E. reflexivity. }
  destruct H as (values & w' & -> & HF). exists values, w'.
  split; [|exact HF].
  assert (Hf : fulfilled_values (map Normal values) = Normal values).
  { clear. induction values as [|v vs IH]; [reflexivity|]. cbn. rewrite IH. reflexivity. }
  rewrite Hf. reflexivity.
Qed.

Lemma flush_batch_resolved total st w :
  exists values w',
    flush_batch validator total (st, w) =
      (Normal tt,
       ({| batch := []; results := results st ++ map Validated values;
           processed := processed st + length (batch st);
           written := written st
                      ++ [Progress (processed st + length (batch st)) total
                                   (map Validated values)] |},
        w')) /\
    Forall2 (validated_as validator) (batch st) values.
Proof.
  unfold flush_batch, mbind, M_bind, bind, try_catch, getL, lift. cbn [fst snd].
  destruct (all_resolved (batch st) w) as (values & w1 & -> & HF).
  unfold modifyL at 1. cbn [fst snd batch results processed written].
  exists values.
  destruct (_ <? total)%nat; cbn; eexists; (split; [reflexivity | exact HF]).
Qed.

Lemma div5_step n : ((n + 5) / 5 = Datatypes.S (n / 5))%nat.
Proof.
  replace (n + 5)%nat with (n + 1 * 5)%nat by lia.
  rewrite Nat.div_add by lia. lia.
Qed.

Lemma bulk_loop_full total rows st w :
  length (addresses rows) = length rows ->
  (processed st + length (batch st) + length rows = total)%nat ->
  (length (batch st) < BATCH_SIZE)%nat ->
  (rows = [] -> batch st = []) ->
  exists values evs w',
    bulk_loop validator total rows (st, w) =
      (Normal tt,
       ({| batch := []; results := results st ++ map Validated values;
           processed := total;
           written := written st ++ evs |}, w')) /\
    Forall2 (validated_as validator) (batch st ++ addresses rows) values /\
    length evs = ((length (batch st) + length rows + 4) / 5)%nat /\
    Forall is_progress evs /\
    (rows <> [] -> exists ev, last evs = Some ev /\ reports total total ev).
Proof.
  revert st w. induction rows as [|record rows IH]; intros st w Hall Hsum Hb Hnil.
  - destruct st as [b r p wr]. cbn [batch processed results written] in *.
    specialize (Hnil eq_refl). subst b. cbn [length] in Hsum.
    exists [], [], w. cbn [map addresses omap list_omap app bulk_loop length].
    rewrite !app_nil_r. replace total with p by lia.
    split; [reflexivity|]. split; [constructor|]. split; [reflexivity|].
    split; [constructor | congruence].
  - cbn [bulk_loop]. unfold mbind at 1, M_bind at 1, bind at 1.
    unfold addresses in Hall |- *. cbn [omap list_omap] in Hall |- *.
    fold (addresses rows) in Hall |- *.
    assert (Hle : (length (addresses rows) <= length rows)%nat).
    { unfold addresses. clear. induction rows as [|r rs IHr]; [reflexivity|].
      cbn [omap list_omap length]. destruct (match email_of r with
        | Some (c :: e) => Some (c :: e) | _ => None end); cbn [length]; lia. }
    destruct (email_of record) as [[|c e]|] eqn:Hemail;
      [cbn [length] in Hall; lia | | cbn [length] in Hall; lia].
    cbn [length] in Hall, Hsum.
    assert (Hall' : length (addresses rows) = length rows) by lia.
    unfold mbind at 1, M_bind at 1, bind at 1, modifyL at 1. cbn [fst snd].
    unfold mbind at 1, M_bind at 1, bind at 1, getL at 1.
    cbn [fst snd batch processed].
    set (st1 := {| batch := batch st ++ [c :: e]; results := results st;
                   processed := processed st; written := written st |}).
    assert (Hl1 : length (batch st ++ [c :: e]) = Datatypes.S (length (batch st))).
    { rewrite length_app. cbn. lia. }
    destruct ((length (batch st ++ [c :: e]) =? BATCH_SIZE)%nat
              || (processed st + length (batch st ++ [c :: e]) =? total)%nat) eqn:Hflush.
    + (* the batch is full, or this is the last row: flush *)
      destruct (flush_batch_resolved total st1 w) as (values & w1 & -> & HF).
      cbn [batch results processed written st1] in *.
      set (st2 := {| batch := []; results := results st ++ map Validated values;
                     processed := processed st + length (batch st ++ [c :: e]);
                     written := written st ++ _ |}).
      assert (Hrest : rows = [] \/
                      (rows <> [] /\ length (batch st ++ [c :: e]) = BATCH_SIZE)).
      { destruct rows as [|r rs]; [left; reflexivity|]. right. split; [discriminate|].
        apply orb_true_iff in Hflush as [Hf | Hf]; [apply Nat.eqb_eq, Hf|].
        apply Nat.eqb_eq in Hf. cbn [length] in Hsum. lia. }
      destruct (IH st2 w1) as (values' & evs & w' & -> & HF' & Hlen & Hev & Hlast).
      { exact Hall'. }
      { cbn. lia. }
      { cbn. unfold BATCH_SIZE. lia. }
      { reflexivity. }
      cbn [batch results processed written st2 app length] in *.
      exists (values ++ values'),
             (Progress (processed st + length (batch st ++ [c :: e])) total
                       (map Validated values) :: evs), w'.
      split; [rewrite map_app, <- !app_assoc; reflexivity|].
      split.
      { replace (batch st ++ (c :: e) :: addresses rows)
          with ((batch st ++ [c :: e]) ++ addresses rows)
          by (rewrite <- app_assoc; reflexivity).
        apply Forall2_app; assumption. }
      split.
      { cbn [length]. rewrite Hlen. unfold BATCH_SIZE in *.
        destruct Hrest as [-> | [_ Hfull]].
        - cbn [length]. rewrite Nat.add_0_r.
          replace (length (batch st) + 1 + 4)%nat with (length (batch st) + 5)%nat by lia.
          rewrite div5_step, (Nat.div_small (length (batch st))) by lia.
          reflexivity.
        - rewrite Hl1 in Hfull.
          replace (length (batch st) + Datatypes.S (length rows) + 4)%nat
            with (length rows + 4 + 5)%nat by lia.
          rewrite div5_step. reflexivity. }
      split; [constructor; [exact I | exact Hev]|].
      intros _. destruct Hrest as [-> | [Hne _]].
      * assert (evs = []) as -> by (destruct evs; [reflexivity | discriminate]).
        eexists. split; [reflexivity|].
        cbn [length] in Hsum. rewrite Hl1.
        replace (processed st + Datatypes.S (length (batch st)))%nat with total by lia.
        eexists. reflexivity.
      * destruct (Hlast Hne) as (ev & Hev' & Hrep).
        exists ev. split; [|exact Hrep].
        destruct evs as [|e0 evs']; [discriminate|]. exact Hev'.
    + (* the batch is still short and rows remain *)
      apply orb_false_iff in Hflush as [Hf1 Hf2].
      apply Nat.eqb_neq in Hf1, Hf2.
      assert (Hne : rows <> []).
      { intros ->. cbn [length] in Hsum. lia. }
      destruct (IH st1 w) as (values & evs & w' & E & HF' & Hlen & Hev & Hlast).
      { exact Hall'. }
      { cbn. lia. }
      { cbn. unfold BATCH_SIZE in *. lia. }
      { intros ->. congruence. }
      cbn [batch results processed written st1] in *.
      exists values, evs, w'.
      split; [exact E|].
      split; [rewrite <- app_assoc in HF'; exact HF'|].
      split; [rewrite Hlen, Hl1; cbn [length]; f_equal; lia|].
      split; [exact Hev | intros _; apply Hlast, Hne].
Qed.

End BulkComplete.

Section BulkDeployed.
Import Validator Routes Spec Props.

Lemma validateEmailWithRetry_rec_once env depth email retryCount w :
  validateEmailWithRetry_rec env (Datatypes.S depth) email retryCount w
  = validateEmail env email w.
Proof.
  destruct (validateEmail_total env email w) as (r & w' & E).
  cbn [validateEmailWithRetry_rec]. unfold try_catch. rewrite E. reflexivity.
Qed.

Lemma validateEmailWithRetry_once env email w :
  validateEmailWithRetry env email w = validateEmail env email w.
Proof. apply (validateEmailWithRetry_rec_once env 1023). Qed.

Lemma validateEmailWithRetry_resolves env email w :
  exists r w', validateEmailWithRetry env email w = (Normal r, w').
Proof. rewrite validateEmailWithRetry_once. apply validateEmail_total. Qed.

(** X13.  When every row of the CSV has an address, the bulk route
    validates every row: the [complete] event holds one validation
    result per row, in row order, each the result of [validateEmail]
    for the address of that row, and no placeholder.  The batches are
    of five addresses, the last one of what remains: one progress
    event is written per batch, and the last one reports all rows
    processed. *)
Theorem bulk_validates_every_row env (rows : list Row) w :
  length (addresses rows) = length rows ->
  exists values evs w',
    bulk_route env rows w = (Normal (evs ++ [Complete (map Validated values)]), w') /\
    Forall2 (validated_as (validateEmail env)) (addresses rows) values /\
    length values = length rows /\
    length evs = ((length rows + 4) / 5)%nat /\
    Forall is_progress evs /\
    (rows <> [] ->
     exists ev, last evs = Some ev /\ reports (length rows) (length rows) ev).
Proof.
  intros Hall.
  set (st0 := {| batch := []; results := []; processed := 0%nat; written := [] |}).
  destruct (bulk_loop_full (validateEmailWithRetry env)
              (validateEmailWithRetry_resolves env) (length rows) rows st0 w)
    as (values & evs & w' & E & HF & Hlen & Hev & Hlast).
  { exact Hall. }
  { reflexivity. }
  { cbn. unfold BATCH_SIZE. lia. }
  { reflexivity. }
  cbn [batch results processed written st0 app length] in *.
  exists values, evs, w'.
  split.
  { unfold bulk_route, validate_bulk, with_locals, mbind, M_bind, bind, try_catch.
    fold st0. rewrite E. reflexivity. }
  split.
  { eapply Forall2_impl; [exact HF|]. intros a v [wi Hv]. exists wi.
    rewrite validateEmailWithRetry_once in Hv. exact Hv. }
  split; [apply Forall2_length in HF; rewrite <- HF; exact Hall|].
  split; [exact Hlen|]. split; [exact Hev | exact Hlast].
Qed.

End BulkDeployed.

(* ===================================================================== *)
(** * The single-address route *)
(* ===================================================================== *)

Section Single.
Import Validator Routes SingleRoute.

(** X12.  [POST /validate] answers 400 "Email is required", without
    validating anything, when the [email] of the body is missing or
    falsy (undefined, null, false, 0, the empty string); otherwise it
    answers 200 with the result of [validateEmail] for that value.
    It never answers 500: the validation never rejects. *)
Theorem single_route_answers env development (email : JSVal) w :
  if truthy email
  then exists r w',
         validateEmail env email w = (Normal r, w') /\
         single_route env development email w = (Normal (Status200 r), w')
  else single_route env development email w
       = (Normal (Status400 false "Email is required"), w).
Proof.
  unfold single_route, validate_single. monadic.
  destruct (truthy email); cbn [negb]; [|reflexivity].
  destruct (validateEmail_total env email w) as (r & w' & E).
  exists r, w'. split; [exact E|].
  rewrite run_try_catch, run_bind, validateEmailWithRetry_once, E. reflexivity.
Qed.

End Single.

(* ===================================================================== *)
(** * CSV lines: what is written is read back *)
(* ===================================================================== *)

Section CsvLines.
Import Text Csv.

Lemma includes_single (c : jschar) (s : jsstring) :
  includes [c] s = false -> Forall (fun x => x <> c) s.
Proof.
  induction s as [|x s IH]; intros H; [constructor|].
  rewrite includes_unfold, startsWith_single in H.
  apply orb_false_iff in H as [Hx Hs].
  constructor; [|apply IH, Hs].
  unfold jschar_eqb in Hx. apply N.eqb_neq in Hx. congruence.
Qed.

Lemma eqb_quote_false c : c <> quote -> jschar_eqb c quote = false.
Proof. intros H. apply N.eqb_neq, H. Qed.

Lemma eqb_comma_false c : c <> comma -> jschar_eqb c comma = false.
Proof. intros H. apply N.eqb_neq, H. Qed.

(** A field written without quotes is read character by character. *)
Lemma parse_plain_field (v t cur : jsstring) res :
  Forall (fun x => x <> quote) v ->
  Forall (fun x => x <> comma) v ->
  parse_loop (v ++ t) false cur res = parse_loop t false (cur ++ v) res.
Proof.
  intros Hq. revert cur. induction Hq as [|c v Hc _ IH]; intros cur Hcm.
  - rewrite app_nil_r. reflexivity.
  - apply Forall_cons in Hcm as [Hc' Hcm].
    cbn [app parse_loop]. rewrite (eqb_quote_false c Hc), (eqb_comma_false c Hc').
    cbn [andb]. rewrite IH by exact Hcm. rewrite <- app_assoc. reflexivity.
Qed.

(** The body of a quoted field, up to and including the closing
    quote, when what follows does not start with a quote. *)
Lemma parse_quoted_body (v t cur : jsstring) res :
  (forall x t', t = x :: t' -> x <> quote) ->
  parse_loop (double_quotes v ++ quote :: t) true cur res
  = parse_loop t false (cur ++ v) res.
Proof.
  intros Ht. revert cur. induction v as [|c v IH]; intros cur.
  - cbn [double_quotes flat_map app parse_loop]. unfold jschar_eqb at 1.
    rewrite N.eqb_refl. rewrite app_nil_r.
    destruct t as [|x t']; [reflexivity|].
    rewrite (eqb_quote_false x (Ht x t' eq_refl)). reflexivity.
  - unfold double_quotes. cbn [flat_map]. fold (double_quotes v).
    destruct (jschar_eqb c quote) eqn:Hc.
    + apply N.eqb_eq in Hc. subst c.
      cbn [app parse_loop]. unfold jschar_eqb at 1 2. rewrite N.eqb_refl.
      cbn [andb]. rewrite IH, <- app_assoc. reflexivity.
    + cbn [app parse_loop]. rewrite Hc. rewrite andb_false_r.
      rewrite IH, <- app_assoc. reflexivity.
Qed.

Lemma parse_field (v : Cell) (t cur : jsstring) res :
  (forall x t', t = x :: t' -> x <> quote) ->
  parse_loop (escapeCSVValue v ++ t) false cur res
  = parse_loop t false (cur ++ String_of v) res.
Proof.
  intros Ht. unfold escapeCSVValue. cbv zeta.
  destruct (includes [comma] (String_of v) || includes [quote] (String_of v)
            || includes [10%N] (String_of v)) eqn:Hq.
  - rewrite <- !app_assoc. cbn [app parse_loop]. unfold jschar_eqb at 1.
    rewrite N.eqb_refl.
    destruct (double_quotes (String_of v) ++ quote :: t) as [|next rest'] eqn:E.
    { destruct (double_quotes (String_of v)); discriminate. }
    cbn [andb negb]. rewrite <- E. apply parse_quoted_body, Ht.
  - apply orb_false_iff in Hq as [Hq _]. apply orb_false_iff in Hq as [Hc Hq].
    apply parse_plain_field; apply includes_single; assumption.
Qed.

Lemma join_cons sep c c' rest :
  join sep (c :: c' :: rest) = c ++ sep ++ join sep (c' :: rest).
Proof. reflexivity. Qed.

Lemma parse_row (row : list Cell) res :
  row <> [] ->
  parse_loop (join [comma] (map escapeCSVValue row)) false [] res
  = res ++ map String_of row.
Proof.
  revert res. induction row as [|v row IH]; intros res Hne; [congruence|].
  destruct row as [|v' row].
  - cbn [map join]. rewrite <- (app_nil_r (escapeCSVValue v)).
    rewrite parse_field by discriminate. reflexivity.
  - cbn [map]. rewrite join_cons. cbn [app].
    rewrite parse_field.
    2:{ intros x t' [= <- _]. discriminate. }
    cbn [app parse_loop]. change (jschar_eqb comma quote) with false.
    unfold jschar_eqb at 1. rewrite N.eqb_refl. cbn [andb negb].
    specialize (IH (res ++ [String_of v]) ltac:(discriminate)).
    cbn [map] in IH. rewrite IH, <- app_assoc. reflexivity.
Qed.

(** X14.  A row of cells written with [escapeCSVValue] and joined
    with commas is read back by [parseCSVLine] cell for cell, each
    trimmed of surrounding white space: commas, double quotes and
    line feeds inside a cell survive the round trip. *)
Theorem parseCSVLine_reads_back (row : list Cell) :
  row <> [] ->
  parseCSVLine (join [comma] (map escapeCSVValue row))
  = map (fun v => trim (String_of v)) row.
Proof.
  intros Hne. unfold parseCSVLine. rewrite parse_row by exact Hne.
  cbn [app]. rewrite map_map. reflexivity.
Qed.

Lemma parse_loop_plain (line cur : jsstring) res :
  Forall (fun x => x <> quote) line ->
  parse_loop line false cur res
  = res ++ split_go [comma] (rev cur) line (length line).
Proof.
  intros H. revert cur res. induction H as [|c line Hc _ IH]; intros cur res.
  - cbn. rewrite rev_involutive. reflexivity.
  - cbn [parse_loop length split_go]. rewrite (eqb_quote_false c Hc).
    rewrite startsWith_single. cbn [negb]. rewrite andb_true_r.
    unfold jschar_eqb. rewrite (N.eqb_sym comma c).
    destruct (c =? comma)%N.
    + rewrite IH. cbn [rev drop length]. rewrite rev_involutive, <- app_assoc.
      reflexivity.
    + rewrite IH. rewrite rev_app_distr. reflexivity.
Qed.

(** X15.  On a line without double quote, [parseCSVLine] is
    [line.split(',')] followed by [trim] on every piece. *)
Theorem parseCSVLine_without_quotes (line : jsstring) :
  Forall (fun x => x <> quote) line ->
  parseCSVLine line = map trim (split [comma] line).
Proof.
  intros H. unfold parseCSVLine, split. rewrite parse_loop_plain by exact H.
  reflexivity.
Qed.

End CsvLines.

(* ===================================================================== *)
(** * The files of a user *)
(* ===================================================================== *)

Section Paths.
Import Text CsvFlow Props.

Lemma startsWith_app_same (a b c : jsstring) :
  startsWith (a ++ b) (a ++ c) = startsWith b c.
Proof.
  induction a as [|x a IH]; [reflexivity|]. cbn [app startsWith].
  unfold jschar_eqb. rewrite N.eqb_refl. exact IH.
Qed.

Lemma safe_char_no_slash c : safe_char c = true -> c <> ch "/".
Proof. intros H ->. vm_compute in H. discriminate. Qed.

Lemma sanitize_no_slash name : no_slash (sanitize name).
Proof.
  unfold no_slash, sanitize. apply Forall_map, Forall_forall. intros c _.
  destruct (safe_char c) eqn:E; [apply safe_char_no_slash, E | discriminate].
Qed.

Lemma sanitize_safe name : Forall (fun c => safe_char c = true) (sanitize name).
Proof.
  unfold sanitize. apply Forall_map, Forall_forall. intros c _.
  destruct (safe_char c) eqn:E; [exact E | vm_compute; reflexivity].
Qed.

Lemma uint_no_slash d : no_slash (str (DecimalString.NilEmpty.string_of_uint d)).
Proof.
  induction d; cbn [DecimalString.NilEmpty.string_of_uint str];
    try constructor; try discriminate; assumption.
Qed.

Lemma string_of_Z_no_slash z : no_slash (str (string_of_Z z)).
Proof.
  unfold string_of_Z, DecimalString.NilZero.string_of_int.
  assert (H : forall d, no_slash (str (DecimalString.NilZero.string_of_uint d))).
  { intros d. unfold DecimalString.NilZero.string_of_uint.
    destruct d; try apply uint_no_slash. repeat constructor. discriminate. }
  destruct (Z.to_int z) as [d|d]; [apply H|].
  cbn [str]. constructor; [discriminate | apply H].
Qed.

(** Below a folder whose name has no slash, [id + "/"] is a prefix
    only for the owner. *)
Lemma owner_prefix (id1 id2 rest : jsstring) :
  no_slash id1 -> no_slash id2 ->
  startsWith (id2 ++ str "/") (id1 ++ str "/" ++ rest) = true -> id2 = id1.
Proof.
  intros H1 H2. revert id2 H2. induction H1 as [|c id1 Hc _ IH]; intros id2 H2 Hs.
  - destruct H2 as [|d id2 Hd _]; [reflexivity|].
    cbn in Hs. apply andb_true_iff in Hs as [Hs _]. apply N.eqb_eq in Hs.
    exfalso. apply Hd. exact Hs.
  - destruct H2 as [|d id2 Hd H2].
    + cbn in Hs. apply andb_true_iff in Hs as [Hs _]. apply N.eqb_eq in Hs.
      exfalso. apply Hc. symmetry. exact Hs.
    + cbn [app startsWith] in Hs. apply andb_true_iff in Hs as [Hd' Hs].
      apply N.eqb_eq in Hd'. subst d. f_equal. apply IH; assumption.
Qed.

(** In [id + "/processing/" + leaf] the first occurrence of
    ["/processing/"] is the one after [id]. *)
Lemma replace_first_after (id leaf : jsstring) :
  no_slash id ->
  replace_first (str "/processing/") (str "/validated/") (id ++ str "/processing/" ++ leaf)
  = id ++ str "/validated/" ++ leaf.
Proof.
  induction 1 as [|c id Hc _ IH].
  - reflexivity.
  - cbn [app]. cbn [replace_first].
    assert (E : startsWith (str "/processing/") (c :: id ++ str "/processing/" ++ leaf) = false).
    { change (str "/processing/") with (ch "/" :: str "processing/").
      cbn [startsWith]. unfold jschar_eqb.
      rewrite (proj2 (N.eqb_neq (ch "/") c)); [reflexivity | congruence]. }
    rewrite E. f_equal. exact IH.
Qed.

End Paths.

Section Files.
Import Text CsvFlow Props.

Ltac run_outside :=
  unfold try_catch, bind, outside, throw, ret; cbv beta iota.

(** X20.  [uploadAndProcessCSV] stores the file inside the
    folder [processing] of the user who is signed in: the path it
    returns is [id + "/processing/" + leaf], where [leaf] is the
    time, an underscore and the sanitized file name, and holds no
    slash, whatever the name of the file; the sanitized name has the
    length of the name, holds only letters, digits, dots,
    underscores and hyphens, and is the name itself when the name
    holds nothing else.  The file is uploaded once, without upsert.
    Any failure (nobody signed in, no bucket, a storage error) is
    reported as "Failed to upload file". *)
Theorem uploadAndProcessCSV_stays_in_folder (env : Env) (file : File) (s : Store) :
  match uploadAndProcessCSV env file s with
  | (Normal path, s') =>
      exists id stamp,
        getUser env (length s) = Normal (Some id) /\
        path = id ++ str "/processing/" ++ stamp ++ str "_" ++ sanitize (name file) /\
        no_slash (stamp ++ str "_" ++ sanitize (name file)) /\
        s' = s ++ [GetUser; EnsureUserBucket id; GetTime; Upload path (text file) false]
  | (Throw e, s') => e = Error "Failed to upload file"
  end /\
  length (sanitize (name file)) = length (name file) /\
  Forall (fun c => safe_char c = true) (sanitize (name file)) /\
  (Forall (fun c => safe_char c = true) (name file) -> sanitize (name file) = name file).
Proof.
  split.
  - unfold uploadAndProcessCSV. monadic. run_outside.
    destruct (getUser env (length s)) as [[id|]|e] eqn:Hu; cbv beta iota;
      [|reflexivity|reflexivity].
    destruct (ensureUserBucket env _ id) as [[]|e]; cbv beta iota; [|reflexivity].
    destruct (upload env _ _ _ _) as [[e|]|e]; cbv beta iota;
      [reflexivity| |reflexivity].
    exists id, (str (string_of_Z (getTime env (length ((s ++ [GetUser]) ++ [EnsureUserBucket id]))))).
    split; [reflexivity|]. split; [reflexivity|]. split.
    + unfold no_slash. rewrite !Forall_app. split; [apply string_of_Z_no_slash|].
      split; [repeat constructor; discriminate | apply sanitize_no_slash].
    + rewrite <- !app_assoc. reflexivity.
  - split; [apply length_map|]. split; [apply sanitize_safe|].
    intros H. unfold sanitize. induction H as [|c l Hc _ IH]; [reflexivity|].
    cbn [map]. rewrite Hc, IH. reflexivity.
Qed.

(** X21.  [downloadProcessedCSV] asks the storage for a file
    only when a user is signed in and the path starts with the id of
    that user followed by a slash; otherwise nothing is requested.
    It resolves with the data of the storage, and any failure
    (nobody signed in, a path of someone else, a storage error, no
    data) is reported as "Failed to download file". *)
Theorem downloadProcessedCSV_checks_owner (env : Env) (filePath : jsstring) (s : Store) :
  match downloadProcessedCSV env filePath s with
  | (Normal data, s') =>
      exists id,
        getUser env (length s) = Normal (Some id) /\
        startsWith (id ++ str "/") filePath = true /\
        download env (S (length s)) filePath = Normal (Some data, None) /\
        s' = s ++ [GetUser; Download filePath]
  | (Throw e, s') =>
      e = Error "Failed to download file" /\
      (s' = s ++ [GetUser] \/
       exists id,
         getUser env (length s) = Normal (Some id) /\
         startsWith (id ++ str "/") filePath = true /\
         s' = s ++ [GetUser; Download filePath])
  end.
Proof.
  unfold downloadProcessedCSV. monadic. run_outside.
  destruct (getUser env (length s)) as [[id|]|e] eqn:Hu; cbv beta iota; [|auto|auto].
  destruct (startsWith (id ++ str "/") filePath) eqn:Hs; cbn [negb]; cbv beta iota; [|auto].
  assert (Hlen : length (s ++ [GetUser]) = S (length s))
    by (rewrite length_app; cbn; lia).
  rewrite Hlen.
  destruct (download env (S (length s)) filePath) as [[data err]|e] eqn:Hd; cbv beta iota.
  - cbn [fst snd]. destruct err as [e|]; cbv beta iota.
    + split; [reflexivity|]. right. exists id. rewrite <- app_assoc. auto.
    + destruct data as [data|]; cbv beta iota.
      * exists id. rewrite <- app_assoc. auto.
      * split; [reflexivity|]. right. exists id. rewrite <- app_assoc. auto.
  - split; [reflexivity|]. right. exists id. rewrite <- app_assoc. auto.
Qed.

(** X22.  What a user uploads, only that user can ask for.  Let
    [path] be the path returned by an upload of the user [id1], and
    let the ids hold no slash.  Then the path of the validated copy,
    obtained by replacing ["/processing/"] by ["/validated/"], is
    [id1 + "/validated/" + leaf] with the same leaf; and for both
    paths [downloadProcessedCSV] sends the request to the storage
    when the user signed in is [id1], and fails without any request
    when it is another user. *)
Theorem only_the_owner_downloads (env1 env2 : Env) (file : File) (s s1 s2 : Store)
        (path id1 id2 : jsstring) :
  uploadAndProcessCSV env1 file s = (Normal path, s1) ->
  getUser env1 (length s) = Normal (Some id1) ->
  getUser env2 (length s2) = Normal (Some id2) ->
  no_slash id1 -> no_slash id2 ->
  exists leaf,
    path = id1 ++ str "/processing/" ++ leaf /\
    replace_first (str "/processing/") (str "/validated/") path
    = id1 ++ str "/validated/" ++ leaf /\
    no_slash leaf /\
    forall p,
      p = path \/ p = replace_first (str "/processing/") (str "/validated/") path ->
      (id2 = id1 ->
         snd (downloadProcessedCSV env2 p s2) = s2 ++ [GetUser; Download p]) /\
      (id2 <> id1 ->
         downloadProcessedCSV env2 p s2
         = (Throw (Error "Failed to download file"), s2 ++ [GetUser])).
Proof.
  intros Eup Hu1 Hu2 Hn1 Hn2.
  destruct (uploadAndProcessCSV_stays_in_folder env1 file s) as [H _].
  rewrite Eup in H. destruct H as (id & stamp & Hid & Hpath & Hleaf & _).
  assert (id = id1) by congruence. subst id.
  exists (stamp ++ str "_" ++ sanitize (name file)).
  split; [exact Hpath|].
  assert (Hval : replace_first (str "/processing/") (str "/validated/") path
                 = id1 ++ str "/validated/" ++ stamp ++ str "_" ++ sanitize (name file)).
  { rewrite Hpath. apply (replace_first_after id1 _ Hn1). }
  split; [exact Hval|]. split; [exact Hleaf|].
  assert (Hshape : forall p,
             p = path \/ p = replace_first (str "/processing/") (str "/validated/") path ->
             exists rest, p = id1 ++ str "/" ++ rest).
  { intros p [-> | ->]; [rewrite Hpath | rewrite Hval]; eexists; reflexivity. }
  intros p Hp. destruct (Hshape p Hp) as [rest Hrest]. clear Hp.
  assert (Hrun : forall b,
             startsWith (id2 ++ str "/") p = b ->
             if b then snd (downloadProcessedCSV env2 p s2) = s2 ++ [GetUser; Download p]
             else downloadProcessedCSV env2 p s2
                  = (Throw (Error "Failed to download file"), s2 ++ [GetUser])).
  { intros b Hb. unfold downloadProcessedCSV. monadic. run_outside.
    rewrite Hu2. cbv beta iota. rewrite Hb. destruct b; cbn [negb]; cbv beta iota.
    - destruct (download env2 _ p) as [[data [e|]]|e]; cbv beta iota; cbn [fst snd];
        try (rewrite <- app_assoc; reflexivity).
      destruct data; cbv beta iota; cbn [snd]; rewrite <- app_assoc; reflexivity.
    - reflexivity. }
  split.
  - intros ->. apply (Hrun true). rewrite Hrest.
    change (id1 ++ str "/" ++ rest) with (id1 ++ (str "/" ++ rest)).
    rewrite startsWith_app_same. reflexivity.
  - intros Hne. apply (Hrun false).
    destruct (startsWith (id2 ++ str "/") p) eqn:Hs; [|reflexivity].
    exfalso. apply Hne. rewrite Hrest in Hs. apply (owner_prefix id1 id2 rest Hn1 Hn2 Hs).
Qed.

End Files.

(* ===================================================================== *)
(** * The page: validating the rows of a file *)
(* ===================================================================== *)

Section BatchClient.
Import Text CsvFlow Props.
Variable env : Env.

Lemma post_batch_run emails s :
  post_batch env emails s = (fst (post_batch env emails s), s ++ [PostBatch emails]).
Proof.
  unfold post_batch. monadic. unfold bind, outside, throw.
  destruct (fetch env (length s) emails) as [response|e]; [|reflexivity].
  destruct (ok response); reflexivity.
Qed.

Lemma post_batch_answered emails s r :
  fst (post_batch env emails s) = Normal r <-> answered_with env (length s) emails r.
Proof.
  unfold post_batch, answered_with. monadic. unfold bind, outside, throw.
  destruct (fetch env (length s) emails) as [response|e]; cbv beta iota.
  - destruct (ok response) eqn:Hok; cbn [negb fst]; split.
    + intros H. exists response. auto.
    + intros (resp & E & _ & Hj). injection E as <-. exact Hj.
    + discriminate.
    + intros (resp & E & Hok' & _). injection E as <-. congruence.
  - split; [discriminate|]. intros (resp & E & _). discriminate.
Qed.

Lemma validateEmailBatch_rec_step d emails retryCount s :
  validateEmailBatch_rec env (S d) emails retryCount s =
  match fst (post_batch env emails s) with
  | Normal r => (Normal r, s ++ [PostBatch emails])
  | Throw e =>
      if retryCount <? MAX_RETRIES
      then validateEmailBatch_rec env d emails (retryCount + 1)
             (s ++ [PostBatch emails; Sleep (RETRY_DELAY * (retryCount + 1))])
      else (Throw e, s ++ [PostBatch emails])
  end.
Proof.
  cbn [validateEmailBatch_rec]. unfold try_catch. rewrite post_batch_run.
  destruct (fst (post_batch env emails s)) as [r|e]; [reflexivity|].
  cbv beta iota. destruct (retryCount <? MAX_RETRIES); [|reflexivity].
  monadic. unfold bind, sleep, outside. cbv beta iota.
  rewrite <- app_assoc. reflexivity.
Qed.

(** The runs of [validateEmailBatch]: [k] requests fail, then one
    succeeds or, after three retries, the failure is thrown. *)
Lemma validateEmailBatch_rec_runs d emails s :
  exists k,
    (k < 4)%nat /\
    snd (validateEmailBatch_rec env (4 + d) emails 0 s)
    = s ++ take (2 * k + 1) (batch_schedule emails) /\
    (forall j r, (j < k)%nat -> ~ answered_with env (length s + 2 * j) emails r) /\
    match fst (validateEmailBatch_rec env (4 + d) emails 0 s) with
    | Normal r => answered_with env (length s + 2 * k) emails r
    | Throw e =>
        k = 3%nat /\
        fst (post_batch env emails (s ++ take 6 (batch_schedule emails))) = Throw e
    end.
Proof.
  assert (Hlen : forall (x : list Call), length (s ++ x) = (length s + length x)%nat)
    by (intros; apply length_app).
  assert (Hfail : forall s' n e r,
             fst (post_batch env emails s') = Throw e ->
             length s' = (length s + n)%nat ->
             ~ answered_with env (length s + n) emails r).
  { intros s' n e r He Hn Ha. rewrite <- Hn in Ha.
    apply post_batch_answered in Ha. congruence. }
  change (4 + d)%nat with (S (S (S (S d)))).
  rewrite validateEmailBatch_rec_step.
  destruct (fst (post_batch env emails s)) as [r|e0] eqn:E0.
  { exists 0%nat. split; [lia|]. split; [reflexivity|]. split; [intros; lia|].
    cbn [fst]. rewrite Nat.add_0_r. apply post_batch_answered, E0. }
  change (0 <? MAX_RETRIES) with true. cbv iota.
  rewrite validateEmailBatch_rec_step.
  set (s1 := s ++ [PostBatch emails; Sleep (RETRY_DELAY * (0 + 1))]).
  destruct (fst (post_batch env emails s1)) as [r|e1] eqn:E1.
  { exists 1%nat. split; [lia|]. split; [subst s1; rewrite <- app_assoc; reflexivity|].
    split.
    - intros j r' Hj. assert (j = 0)%nat by lia. subst j.
      apply (Hfail s 0%nat e0); [exact E0 | lia].
    - cbn [fst]. apply post_batch_answered in E1.
      replace (length s + 2 * 1)%nat with (length s1); [exact E1|].
      subst s1. rewrite Hlen. reflexivity. }
  change (0 + 1 <? MAX_RETRIES) with true. cbv iota.
  rewrite validateEmailBatch_rec_step.
  set (s2 := s1 ++ [PostBatch emails; Sleep (RETRY_DELAY * (0 + 1 + 1))]).
  assert (L1 : length s1 = (length s + 2)%nat) by (subst s1; rewrite Hlen; reflexivity).
  assert (L2 : length s2 = (length s + 4)%nat)
    by (subst s2; rewrite length_app, L1; cbn; lia).
  destruct (fst (post_batch env emails s2)) as [r|e2] eqn:E2.
  { exists 2%nat. split; [lia|]. split.
    { subst s2 s1. rewrite <- !app_assoc. reflexivity. }
    split.
    - intros j r' Hj.
      assert (Hc : j = 0%nat \/ j = 1%nat) by lia. destruct Hc as [-> | ->].
      + apply (Hfail s 0%nat e0); [exact E0 | lia].
      + apply (Hfail s1 2%nat e1); [exact E1 | lia].
    - cbn [fst]. apply post_batch_answered in E2.
      replace (length s + 2 * 2)%nat with (length s2) by lia. exact E2. }
  change (0 + 1 + 1 <? MAX_RETRIES) with true. cbv iota.
  rewrite validateEmailBatch_rec_step.
  set (s3 := s2 ++ [PostBatch emails; Sleep (RETRY_DELAY * (0 + 1 + 1 + 1))]).
  assert (L3 : length s3 = (length s + 6)%nat)
    by (subst s3; rewrite length_app, L2; cbn; lia).
  assert (Hs3 : s3 = s ++ take 6 (batch_schedule emails)).
  { subst s3 s2 s1. rewrite <- !app_assoc. reflexivity. }
  assert (Hearlier : forall j r', (j < 3)%nat ->
                       ~ answered_with env (length s + 2 * j) emails r').
  { intros j r' Hj.
    assert (Hc : j = 0%nat \/ j = 1%nat \/ j = 2%nat) by lia.
    destruct Hc as [-> | [-> | ->]].
    - apply (Hfail s 0%nat e0); [exact E0 | lia].
    - apply (Hfail s1 2%nat e1); [exact E1 | lia].
    - apply (Hfail s2 4%nat e2); [exact E2 | lia]. }
  exists 3%nat. split; [lia|].
  destruct (fst (post_batch env emails s3)) as [r|e3] eqn:E3.
  - split; [rewrite Hs3, <- app_assoc; reflexivity|].
    split; [exact Hearlier|].
    cbn [fst]. apply post_batch_answered in E3.
    replace (length s + 2 * 3)%nat with (length s3) by lia. exact E3.
  - change (0 + 1 + 1 + 1 <? MAX_RETRIES) with false. cbv iota.
    split; [rewrite Hs3, <- app_assoc; reflexivity|].
    split; [exact Hearlier|].
    cbn [fst]. split; [reflexivity|]. rewrite <- Hs3. exact E3.
Qed.

Lemma validateEmailBatch_runs emails s :
  exists k,
    (k < 4)%nat /\
    snd (validateEmailBatch env emails s) = s ++ take (2 * k + 1) (batch_schedule emails) /\
    (forall j r, (j < k)%nat -> ~ answered_with env (length s + 2 * j) emails r) /\
    match fst (validateEmailBatch env emails s) with
    | Normal r => answered_with env (length s + 2 * k) emails r
    | Throw e =>
        k = 3%nat /\
        fst (post_batch env emails (s ++ take 6 (batch_schedule emails))) = Throw e
    end.
Proof. exact (validateEmailBatch_rec_runs 1020 emails s). Qed.

(** X23.  [validateEmailBatch] sends the batch up to four
    times, always with the same addresses, waiting 2 s, 4 s and 6 s
    before the second, third and fourth request.  It stops at the
    first request that is answered with [ok] and a readable body, and
    resolves with that body; every earlier request failed.  When the
    four requests fail it rejects with the error of the fourth. *)
Theorem validateEmailBatch_four_requests emails s :
  exists k,
    (k < 4)%nat /\
    snd (validateEmailBatch env emails s) = s ++ take (2 * k + 1) (batch_schedule emails) /\
    (forall j r, (j < k)%nat -> ~ answered_with env (length s + 2 * j) emails r) /\
    match fst (validateEmailBatch env emails s) with
    | Normal r => answered_with env (length s + 2 * k) emails r
    | Throw e =>
        k = 3%nat /\
        fst (post_batch env emails (s ++ take 6 (batch_schedule emails))) = Throw e
    end.
Proof. exact (validateEmailBatch_runs emails s). Qed.

End BatchClient.

Section Annotate.
Import Text CsvFlow Props.
Variable env : Env.

Lemma uploads_app a b : uploads (a ++ b) = uploads a ++ uploads b.
Proof. apply omap_app. Qed.

Lemma progress_app a b : progress (a ++ b) = progress a ++ progress b.
Proof. apply omap_app. Qed.

Lemma schedule_quiet n emails :
  uploads (take n (batch_schedule emails)) = []
  /\ progress (take n (batch_schedule emails)) = [].
Proof. do 8 (destruct n as [|n]; [split; reflexivity|]). split; reflexivity. Qed.

Lemma validateEmailBatch_quiet emails s :
  exists c new,
    validateEmailBatch env emails s = (c, s ++ new) /\
    uploads new = [] /\ progress new = [].
Proof.
  destruct (validateEmailBatch_runs env emails s) as (k & _ & Hs & _).
  exists (fst (validateEmailBatch env emails s)), (take (2 * k + 1) (batch_schedule emails)).
  split; [|apply schedule_quiet].
  rewrite <- Hs. destruct (validateEmailBatch env emails s); reflexivity.
Qed.

Lemma result_cells_length r : length (result_cells r) = length validationHeaders.
Proof. destruct r; reflexivity. Qed.

Lemma imap_annotated (g : nat -> list jsstring) (rows : list (list jsstring)) :
  (forall i, length (g i) = length validationHeaders) ->
  Forall2 annotated rows (imap (fun i row => row ++ g i) rows).
Proof.
  revert g. induction rows as [|row rows IH]; intros g Hg; [constructor|].
  cbn [imap]. constructor.
  - exists (g 0%nat). auto.
  - apply (IH (fun i => g (S i))). intros i. apply Hg.
Qed.

Lemma push_results_annotated rows rs : Forall2 annotated rows (push_results rows rs).
Proof.
  unfold push_results.
  apply (imap_annotated (fun i => result_cells (mjoin (rs !! i)))).
  intros i. apply result_cells_length.
Qed.

Lemma push_errors_annotated rows : Forall2 annotated rows (push_errors rows).
Proof.
  unfold push_errors. induction rows as [|row rows IH]; [constructor|].
  cbn [map]. constructor; [|exact IH].
  eexists. split; [reflexivity|]. reflexivity.
Qed.

(** The retries of one batch always end, with every row of the
    batch extended. *)
Lemma batch_tries_runs remaining retryCount batchRows emails s :
  retryCount = MAX_RETRIES - Z.of_nat remaining ->
  (1 <= remaining)%nat ->
  exists rows' new,
    batch_tries env remaining retryCount batchRows emails s = (Normal rows', s ++ new) /\
    Forall2 annotated batchRows rows' /\
    uploads new = [] /\ progress new = [].
Proof.
  revert retryCount s. induction remaining as [|k IH]; intros retryCount s Hrc Hk; [lia|].
  cbn [batch_tries]. monadic. rewrite run_bind, run_try_catch, run_bind.
  destruct (validateEmailBatch_quiet emails s) as (c & new & E & Hu & Hp).
  rewrite E. destruct c as [r|e]; cbv beta iota.
  - exists (push_results batchRows r), new.
    split; [reflexivity|]. split; [apply push_results_annotated|]. auto.
  - destruct (retryCount + 1 =? MAX_RETRIES) eqn:Hlast; cbv beta iota zeta.
    + apply Z.eqb_eq in Hlast. assert (k = 0%nat) by (unfold MAX_RETRIES in *; lia).
      subst k. cbn [batch_tries]. exists (push_errors batchRows), new.
      split; [reflexivity|]. split; [apply push_errors_annotated|]. auto.
    + apply Z.eqb_neq in Hlast. rewrite run_bind. unfold sleep, outside at 1.
      cbv beta iota. rewrite run_ret. cbv beta iota.
      destruct (IH (retryCount + 1) ((s ++ new) ++ [Sleep (RETRY_DELAY * (retryCount + 1))]))
        as (rows' & new2 & E2 & Ha & Hu2 & Hp2);
        [unfold MAX_RETRIES in *; lia | unfold MAX_RETRIES in *; lia|].
      rewrite E2.
      exists rows', (new ++ [Sleep (RETRY_DELAY * (retryCount + 1))] ++ new2).
      split; [rewrite <- !app_assoc; reflexivity|]. split; [exact Ha|].
      rewrite !uploads_app, !progress_app, Hu, Hp, Hu2, Hp2. split; reflexivity.
Qed.

Lemma updateValidatedFile_runs filePath hd vh rows s :
  exists c new,
    updateValidatedFile env filePath hd vh rows s = (c, s ++ new) /\
    uploads new
    = [(replace_first (str "/processing/") (str "/validated/") filePath,
        Csv.csvContent hd vh rows, true)] /\
    progress new = [].
Proof.
  unfold updateValidatedFile. monadic. cbv zeta. rewrite run_bind.
  unfold outside at 1. cbv beta iota.
  destruct (upload env _ _ _ _) as [[e|]|e]; cbv beta iota.
  - eexists _, [_]. split; [reflexivity|]. split; reflexivity.
  - rewrite run_bind. unfold outside. cbv beta iota.
    destruct (remove env _ _) as [d|e]; cbv beta iota;
      eexists _, [_; _]; (split; [rewrite <- app_assoc; reflexivity|]); split; reflexivity.
  - eexists _, [_]. split; [reflexivity|]. split; reflexivity.
Qed.

Lemma drop_take_length {A} (k : nat) (l : list A) : drop (length (take k l)) l = drop k l.
Proof.
  rewrite length_take. destruct (Nat.le_ge_cases k (length l)) as [H | H].
  - rewrite Nat.min_l by exact H. reflexivity.
  - rewrite Nat.min_r by exact H. rewrite !drop_ge by lia. reflexivity.
Qed.

Section Loop.
Variable filePath : jsstring.
Variable hd : list jsstring.
Variable ei : nat.
Variable rows0 : list (list jsstring).

Lemma batches_runs fuel :
  forall i done done' rest s,
    rows0 = done ++ rest ->
    Forall2 annotated done done' ->
    length done = Nat.min i (length rows0) ->
    (length rows0 - i <= fuel)%nat ->
    exists c rows' count' new,
      batches env fuel filePath hd ei (length rows0) i ((done' ++ rest, length done), s)
      = (c, ((rows', count'), s ++ new)) /\
      Forall (fun u => u.1.1 = replace_first (str "/processing/") (str "/validated/") filePath
                       /\ u.2 = true) (uploads new) /\
      match c with
      | Throw e => e = Error "Failed to save validation results"
      | Normal _ =>
          Forall2 annotated rows0 rows' /\
          ((length rows0 <= i)%nat -> new = [] /\ rows' = done' ++ rest) /\
          ((i < length rows0)%nat ->
             last (uploads new)
             = Some (replace_first (str "/processing/") (str "/validated/") filePath,
                     Csv.csvContent hd validationHeaders rows', true) /\
             last (progress new) = Some (length rows0, length rows0))
      end.
Proof.
  assert (Hstop : forall i done done' rest s,
             rows0 = done ++ rest ->
             Forall2 annotated done done' ->
             length done = Nat.min i (length rows0) ->
             (length rows0 <= i)%nat ->
             exists c rows' count' new,
               (Normal tt, ((done' ++ rest, length done), s))
               = (c, ((rows', count'), s ++ new)) /\
               Forall (fun u => u.1.1 = replace_first (str "/processing/") (str "/validated/")
                                          filePath /\ u.2 = true) (uploads new) /\
               match c with
               | Throw e => e = Error "Failed to save validation results"
               | Normal _ =>
                   Forall2 annotated rows0 rows' /\
                   ((length rows0 <= i)%nat -> new = [] /\ rows' = done' ++ rest) /\
                   ((i < length rows0)%nat ->
                      last (uploads new)
                      = Some (replace_first (str "/processing/") (str "/validated/") filePath,
                              Csv.csvContent hd validationHeaders rows', true) /\
                      last (progress new) = Some (length rows0, length rows0))
               end).
  { intros i done done' rest s Hrows Hann Hlen Hle.
    exists (Normal tt), (done' ++ rest), (length done), [].
    split; [rewrite app_nil_r; reflexivity|]. split; [constructor|].
    assert (rest = []).
    { apply nil_length_inv. rewrite Hrows, length_app in Hlen, Hle. lia. }
    subst rest. rewrite app_nil_r in *. subst rows0.
    split; [exact Hann|]. split; [auto | lia]. }
  induction fuel as [|fuel IH]; intros i done done' rest s Hrows Hann Hlen Hfuel.
  { cbn [batches]. apply (Hstop i); auto. lia. }
  cbn [batches]. destruct (i <? length rows0)%nat eqn:Hi; cbn [negb].
  2:{ apply Nat.ltb_ge in Hi. apply (Hstop i); auto. }
  apply Nat.ltb_lt in Hi.
  assert (Hd : length done = i) by lia.
  assert (Hd' : length done' = i) by (rewrite <- (Forall2_length _ _ _ Hann); exact Hd).
  assert (Hrest : length rest = (length rows0 - i)%nat).
  { rewrite Hrows, length_app. lia. }
  monadic. rewrite run_bind, run_getL. cbv beta iota zeta. cbn [fst snd].
  assert (Hdrop : drop i (done' ++ rest) = rest) by (apply drop_app_length'; lia).
  rewrite Hdrop.
  rewrite run_bind, run_lift.
  destruct (batch_tries_runs (Z.to_nat MAX_RETRIES) 0 (take BATCH_SIZE rest)
              (map (fun row => row !! ei) (take BATCH_SIZE rest)) s)
    as (rows_b & new1 & E1 & Hb & Hu1 & Hp1); [reflexivity | unfold MAX_RETRIES; lia|].
  rewrite E1. cbv beta iota.
  rewrite run_bind, run_modifyL. cbv beta iota. cbn [fst snd].
  rewrite run_bind, run_getL. cbv beta iota. cbn [fst snd].
  assert (Htake : take i (done' ++ rest) = done') by (apply take_app_length'; lia).
  assert (Hdrop2 : drop (i + length (take BATCH_SIZE rest)) (done' ++ rest)
                   = drop BATCH_SIZE rest).
  { rewrite <- Hd', drop_app_add. apply drop_take_length. }
  rewrite Htake, Hdrop2.
  rewrite run_bind, run_lift. unfold outside at 1. cbv beta iota.
  rewrite run_bind, run_try_catch, run_lift.
  set (rows2 := done' ++ rows_b ++ drop BATCH_SIZE rest).
  set (count2 := (length done + length (take BATCH_SIZE rest))%nat).
  set (s2 := (s ++ new1) ++ [Progress count2 (length rows0)]).
  destruct (updateValidatedFile_runs filePath hd validationHeaders rows2 s2)
    as (c3 & new3 & E3 & Hu3 & Hp3).
  rewrite E3.
  assert (Hnew : forall new4, s2 ++ new3 ++ new4
            = s ++ (new1 ++ [Progress count2 (length rows0)] ++ new3 ++ new4)).
  { intros new4. subst s2. rewrite <- !app_assoc. reflexivity. }
  assert (Hupl : forall new4,
             uploads (new1 ++ [Progress count2 (length rows0)] ++ new3 ++ new4)
             = (replace_first (str "/processing/") (str "/validated/") filePath,
                Csv.csvContent hd validationHeaders rows2, true) :: uploads new4).
  { intros new4. rewrite !uploads_app, Hu1, Hu3. reflexivity. }
  assert (Hprog : forall new4,
             progress (new1 ++ [Progress count2 (length rows0)] ++ new3 ++ new4)
             = (count2, length rows0) :: progress new4).
  { intros new4. rewrite !progress_app, Hp1, Hp3. reflexivity. }
  destruct c3 as [[]|e3]; cbv beta iota.
  2:{ rewrite run_throw.
      exists (Throw (Error "Failed to save validation results")), rows2, count2,
             (new1 ++ [Progress count2 (length rows0)] ++ new3 ++ []).
      split; [rewrite <- Hnew, !app_nil_r; reflexivity|].
      split; [|reflexivity].
      rewrite Hupl. repeat constructor. }
  destruct (IH (i + BATCH_SIZE)%nat (done ++ take BATCH_SIZE rest) (done' ++ rows_b)
              (drop BATCH_SIZE rest) (s2 ++ new3))
    as (c & rows' & count' & new4 & E4 & Hu4 & Hc4).
  { rewrite Hrows, <- app_assoc, take_drop. reflexivity. }
  { apply Forall2_app; assumption. }
  { rewrite length_app, length_take. unfold BATCH_SIZE in *. lia. }
  { unfold BATCH_SIZE. lia. }
  assert (Hcount : length (done ++ take BATCH_SIZE rest) = count2)
    by (subst count2; apply length_app).
  rewrite Hcount in E4. rewrite <- app_assoc in E4. fold rows2 in E4.
  rewrite E4.
  exists c, rows', count', (new1 ++ [Progress count2 (length rows0)] ++ new3 ++ new4).
  split; [rewrite <- Hnew, app_assoc; reflexivity|].
  split; [rewrite Hupl; constructor; [split; reflexivity | exact Hu4]|].
  destruct c as [[]|e]; [|exact Hc4].
  destruct Hc4 as (Hall & Hstopped & Hmore).
  split; [exact Hall|]. split; [intros; lia|].
  intros _. rewrite Hupl, Hprog.
  destruct (Nat.le_gt_cases (length rows0) (i + BATCH_SIZE)) as [Hend | Hgo].
  - destruct (Hstopped Hend) as [-> ->]. cbn [uploads progress omap list_omap last].
    rewrite <- app_assoc. fold rows2. split; [reflexivity|].
    f_equal. f_equal. subst count2. rewrite length_take. unfold BATCH_SIZE in *. lia.
  - destruct (Hmore Hgo) as [Hlu Hlp].
    rewrite !last_cons, Hlu, Hlp. split; reflexivity.
Qed.

End Loop.

Lemma parseCSV_store text s : snd (parseCSV env text s) = s.
Proof.
  unfold parseCSV. cbv zeta.
  destruct (List.filter _ _) as [|first rest]; [reflexivity|].
  destruct (list_find _ _) as [[i h]|]; reflexivity.
Qed.

(** X24.  When [updateCSVWithValidation] resolves, a user
    was signed in, the path was in the folder of that user, and the
    file was downloaded and parsed; nothing was uploaded anywhere
    but to the path of the validated copy, with upsert.  If the file
    has no data row, nothing at all was done after the download: no
    validated copy exists.  Otherwise the last upload holds the
    header line extended by the eight validation headers and every
    data row, in order, extended by exactly eight cells, whether its
    batch was validated or failed three times; and the last
    progress reported is 100 %.  When it rejects, the message
    starts with "Failed to update CSV: ". *)
Theorem updateCSVWithValidation_annotates (filePath : jsstring) (s : Store) :
  match updateCSVWithValidation env filePath s with
  | (Throw e, _) => exists m, e = Error ("Failed to update CSV: " +:+ m)
  | (Normal _, s') =>
      exists id text data new,
        getUser env (length s) = Normal (Some id) /\
        startsWith (id ++ str "/") filePath = true /\
        download env (S (length s)) filePath = Normal (Some text, None) /\
        parseCSV env text (s ++ [GetUser; Download filePath])
        = (Normal data, s ++ [GetUser; Download filePath]) /\
        s' = s ++ [GetUser; Download filePath] ++ new /\
        Forall (fun u => u.1.1 = replace_first (str "/processing/") (str "/validated/") filePath
                         /\ u.2 = true) (uploads new) /\
        (rows data = [] -> new = []) /\
        (rows data <> [] ->
           exists rows',
             Forall2 annotated (rows data) rows' /\
             last (uploads new)
             = Some (replace_first (str "/processing/") (str "/validated/") filePath,
                     Csv.csvContent (headers data) validationHeaders rows', true) /\
             last (progress new) = Some (length (rows data), length (rows data)))
  end.
Proof.
  unfold updateCSVWithValidation. monadic.
  rewrite run_try_catch, run_bind. unfold outside at 1. cbv beta iota.
  destruct (getUser env (length s)) as [[id|]|e] eqn:Hu; cbv beta iota;
    try (rewrite ?run_throw; eexists; reflexivity).
  destruct (startsWith (id ++ str "/") filePath) eqn:Hs; cbn [negb]; cbv beta iota;
    try (rewrite ?run_throw; eexists; reflexivity).
  rewrite run_bind. unfold outside at 1. cbv beta iota.
  assert (Hlen : length (s ++ [GetUser]) = S (length s))
    by (rewrite length_app; cbn; lia).
  rewrite Hlen.
  destruct (download env (S (length s)) filePath) as [[data err]|e] eqn:Hd; cbv beta iota;
    try (rewrite ?run_throw; eexists; reflexivity).
  cbn [fst snd].
  destruct err as [e|]; cbv beta iota; try (rewrite ?run_throw; eexists; reflexivity).
  destruct data as [text|]; cbv beta iota; try (rewrite ?run_throw; eexists; reflexivity).
  rewrite run_bind.
  assert (Hs2 : (s ++ [GetUser]) ++ [Download filePath] = s ++ [GetUser; Download filePath])
    by (rewrite <- app_assoc; reflexivity).
  rewrite Hs2. set (s2 := s ++ [GetUser; Download filePath]).
  pose proof (parseCSV_store text s2) as Hp.
  destruct (parseCSV env text s2) as [[data|e] sp] eqn:Ep; cbn [snd] in Hp; subst sp;
    cbv beta iota; [|eexists; reflexivity].
  destruct (batches_runs filePath (headers data) (emailIndex data) (rows data)
              (length (rows data)) 0%nat [] [] (rows data) s2)
    as (c & rows' & count' & new & E & Hu' & Hc);
    [reflexivity | constructor | reflexivity | lia|].
  cbn [app length] in E. unfold with_locals. rewrite E.
  destruct c as [[]|e]; [|eexists; reflexivity].
  destruct Hc as (Hall & Hstop & Hmore).
  exists id, text, data, new.
  split; [first [assumption | reflexivity]|]. split; [first [assumption | reflexivity]|].
  split; [first [assumption | reflexivity]|]. split; [first [assumption | reflexivity]|].
  split; [subst s2; rewrite <- app_assoc; reflexivity|].
  split; [exact Hu'|]. split.
  - intros Hnil. apply Hstop. rewrite Hnil. cbn. lia.
  - intros Hne. exists rows'. split; [exact Hall|]. apply Hmore.
    destruct (rows data); [congruence | cbn; lia].
Qed.

End Annotate.

(* ===================================================================== *)
(** * The validated file is read back *)
(* ===================================================================== *)

Section TrimFacts.
Import Text Csv Props.

Lemma trimStart_split s :
  exists ws, s = ws ++ trimStart s /\ Forall (fun c => is_space c = true) ws.
Proof.
  induction s as [|c s (ws & E & H)]; [exists []; split; [reflexivity | constructor]|].
  cbn [trimStart]. destruct (is_space c) eqn:Hc.
  - exists (c :: ws). split; [cbn; congruence | constructor; assumption].
  - exists []. split; [reflexivity | constructor].
Qed.

(** [s] is [trim s] between two runs of white space. *)
Lemma trim_split s :
  exists a b,
    s = a ++ trim s ++ b /\
    Forall (fun c => is_space c = true) a /\ Forall (fun c => is_space c = true) b.
Proof.
  destruct (trimStart_split s) as (a & Ea & Ha).
  destruct (trimStart_split (rev (trimStart s))) as (b & Eb & Hb).
  exists a, (rev b). split; [|split; [exact Ha | apply Forall_rev, Hb]].
  unfold trim, trimEnd.
  rewrite Ea at 1. f_equal.
  rewrite <- (rev_involutive (trimStart s)) at 1. rewrite Eb at 1.
  apply rev_app_distr.
Qed.

Lemma trimStart_lead ws s :
  Forall (fun c => is_space c = true) ws -> trimStart (ws ++ s) = trimStart s.
Proof. induction 1 as [|c ws Hc _ IH]; [reflexivity|]. cbn [app trimStart]. rewrite Hc. exact IH. Qed.

Lemma trimStart_all ws :
  Forall (fun c => is_space c = true) ws -> trimStart ws = [].
Proof. intros H. rewrite <- (app_nil_r ws). apply (trimStart_lead ws [] H). Qed.

Lemma trim_lead ws s :
  Forall (fun c => is_space c = true) ws -> trim (ws ++ s) = trim s.
Proof. intros H. unfold trim. rewrite trimStart_lead by exact H. reflexivity. Qed.

Lemma trimEnd_trail s ws :
  Forall (fun c => is_space c = true) ws -> trimEnd (s ++ ws) = trimEnd s.
Proof.
  intros H. unfold trimEnd. rewrite rev_app_distr.
  rewrite trimStart_lead by (apply Forall_rev, H). reflexivity.
Qed.

Lemma trimStart_app_keep s t :
  trimStart s <> [] -> trimStart (s ++ t) = trimStart s ++ t.
Proof.
  induction s as [|c s IH]; cbn [trimStart app]; [congruence|].
  destruct (is_space c); [exact IH | reflexivity].
Qed.

Lemma trim_trail s ws :
  Forall (fun c => is_space c = true) ws -> trim (s ++ ws) = trim s.
Proof.
  intros H. unfold trim.
  destruct (trimStart s) as [|c t] eqn:E.
  - assert (Hs : trimStart (s ++ ws) = []).
    { destruct (trimStart_split s) as (a & Ea & Ha). rewrite E, app_nil_r in Ea.
      subst a. apply trimStart_all, Forall_app. split; assumption. }
    rewrite Hs. reflexivity.
  - rewrite trimStart_app_keep by (rewrite E; discriminate).
    rewrite E. apply trimEnd_trail, H.
Qed.

Lemma trim_nonblank s c : In c s -> is_space c = false -> trim s <> [].
Proof.
  intros Hin Hc Hnil. destruct (trim_split s) as (a & b & E & Ha & Hb).
  rewrite Hnil in E. cbn [app] in E. rewrite E in Hin.
  apply in_app_or in Hin as [Hin | Hin];
    [rewrite Forall_forall in Ha; apply list_elem_of_In, Ha in Hin
    |rewrite Forall_forall in Hb; apply list_elem_of_In, Hb in Hin]; congruence.
Qed.

Lemma space_plain c : is_space c = true -> c <> quote /\ c <> comma.
Proof. intros H. split; intros ->; vm_compute in H; discriminate. Qed.

End TrimFacts.

Section ParseLoopFacts.
Import Text Csv Props.

(** The cells already closed are only added to. *)
Lemma parse_loop_result n :
  forall line inQuotes cur r1 res,
    (length line <= n)%nat ->
    parse_loop line inQuotes cur (r1 ++ res) = r1 ++ parse_loop line inQuotes cur res.
Proof.
  induction n as [|n IH]; intros line q cur r1 res Hn.
  - destruct line; [|cbn in Hn; lia]. cbn. symmetry; apply app_assoc.
  - destruct line as [|char rest]; [cbn; symmetry; apply app_assoc|].
    cbn [length] in Hn. cbn [parse_loop].
    destruct (jschar_eqb char quote).
    + destruct rest as [|next rest']; [apply IH; cbn; lia|].
      destruct (q && jschar_eqb next quote); apply IH; cbn in *; lia.
    + destruct (jschar_eqb char comma && negb q).
      * rewrite <- app_assoc. apply IH. lia.
      * apply IH. lia.
Qed.

(** What precedes the current value stays in front of the first
    cell. *)
Lemma parse_loop_lead n :
  forall line inQuotes p cur,
    (length line <= n)%nat ->
    exists c r,
      parse_loop line inQuotes cur [] = c :: r /\
      parse_loop line inQuotes (p ++ cur) [] = (p ++ c) :: r.
Proof.
  induction n as [|n IH]; intros line q p cur Hn.
  - destruct line; [|cbn in Hn; lia]. exists cur, []. split; reflexivity.
  - destruct line as [|char rest]; [exists cur, []; split; reflexivity|].
    cbn [length] in Hn. cbn [parse_loop].
    destruct (jschar_eqb char quote).
    + destruct rest as [|next rest'].
      * apply IH. cbn. lia.
      * destruct (q && jschar_eqb next quote).
        -- rewrite <- app_assoc. apply IH. cbn in *. lia.
        -- apply IH. cbn in *. lia.
    + destruct (jschar_eqb char comma && negb q).
      * cbn [app].
        pose proof (parse_loop_result (length rest) rest q [] [cur] [] (le_n _)) as H1.
        pose proof (parse_loop_result (length rest) rest q [] [p ++ cur] [] (le_n _)) as H2.
        rewrite app_nil_r in H1, H2.
        exists cur, (parse_loop rest q [] []). split; [exact H1 | exact H2].
      * rewrite <- app_assoc. apply IH. lia.
Qed.

Lemma parse_loop_plain_tail ws inQuotes cur res :
  Forall (fun c => c <> quote /\ c <> comma) ws ->
  parse_loop ws inQuotes cur res = res ++ [cur ++ ws].
Proof.
  intros H. revert cur. induction H as [|c ws [Hq Hc] _ IH]; intros cur.
  - cbn. rewrite app_nil_r. reflexivity.
  - cbn [parse_loop]. rewrite (eqb_quote_false c Hq), (eqb_comma_false c Hc).
    cbn [andb]. rewrite IH, <- app_assoc. reflexivity.
Qed.

(** Characters that are neither quotes nor commas, at the end of the
    line, end up at the end of the last cell. *)
Lemma parse_loop_trail n :
  forall line inQuotes cur res ws,
    (length line <= n)%nat ->
    Forall (fun c => c <> quote /\ c <> comma) ws ->
    exists res' c,
      parse_loop line inQuotes cur res = res' ++ [c] /\
      parse_loop (line ++ ws) inQuotes cur res = res' ++ [c ++ ws].
Proof.
  induction n as [|n IH]; intros line q cur res ws Hn Hws.
  - destruct line; [|cbn in Hn; lia]. exists res, cur.
    split; [reflexivity | apply parse_loop_plain_tail, Hws].
  - destruct line as [|char rest].
    { exists res, cur. split; [reflexivity | apply parse_loop_plain_tail, Hws]. }
    cbn [length] in Hn. cbn [app parse_loop].
    destruct (jschar_eqb char quote).
    + destruct rest as [|next rest'].
      * cbn [app]. destruct ws as [|w ws'].
        -- exists res, cur. split; [reflexivity|]. rewrite app_nil_r. reflexivity.
        -- pose proof (Forall_inv Hws) as [Hwq _].
           rewrite (eqb_quote_false w Hwq), andb_false_r.
           exists res, cur. split; [reflexivity|].
           apply parse_loop_plain_tail, Hws.
      * cbn [app]. destruct (q && jschar_eqb next quote).
        -- apply IH; [cbn in *; lia | exact Hws].
        -- apply (IH (next :: rest')); [cbn in *; lia | exact Hws].
    + destruct (jschar_eqb char comma && negb q); apply IH; (lia || exact Hws).
Qed.

(** Trimming the line first, as [parseCSV] does, changes nothing. *)
Lemma parseCSVLine_trim line : parseCSVLine (trim line) = parseCSVLine line.
Proof.
  destruct (trim_split line) as (a & b & E & Ha & Hb).
  set (core := trim line) in *. rewrite E. unfold parseCSVLine.
  assert (Hpa : Forall (fun c => c <> quote) a /\ Forall (fun c => c <> comma) a).
  { split; (eapply Forall_impl; [exact Ha|]); intros c Hc; apply space_plain in Hc; tauto. }
  assert (Hpb : Forall (fun c => c <> quote /\ c <> comma) b).
  { eapply Forall_impl; [exact Hb|]. intros c Hc. apply space_plain, Hc. }
  destruct Hpa as [Haq Hac].
  rewrite (parse_plain_field a (core ++ b) [] [] Haq Hac). cbn [app].
  destruct (parse_loop_trail (length core) core false [] [] b (le_n _) Hpb)
    as (res' & d & E1 & E2).
  destruct (parse_loop_lead (length (core ++ b)) (core ++ b) false a [] (le_n _))
    as (c & r & E3 & E4).
  rewrite app_nil_r in E4. rewrite E4, E1.
  rewrite E2 in E3. destruct res' as [|c0 r0]; cbn [app] in E3.
  - injection E3 as <- <-. cbn [map app].
    rewrite trim_lead, trim_trail by assumption. reflexivity.
  - injection E3 as <- <-. cbn [map app]. rewrite !map_app. cbn [map].
    rewrite trim_lead, trim_trail by assumption. reflexivity.
Qed.

End ParseLoopFacts.

Section FileRoundTrip.
Import Text Csv CsvFlow Props.
Variable env : Env.

Lemma double_quotes_no_lf v :
  Forall (fun c => c <> 10%N) v -> Forall (fun c => c <> 10%N) (double_quotes v).
Proof.
  induction 1 as [|c v Hc _ IH]; [constructor|].
  unfold double_quotes. cbn [flat_map]. fold (double_quotes v).
  destruct (jschar_eqb c quote) eqn:E; cbn [app].
  - apply N.eqb_eq in E. subst c. repeat constructor; try discriminate. exact IH.
  - constructor; assumption.
Qed.

Lemma escape_no_lf v :
  Forall (fun c => c <> 10%N) v -> Forall (fun c => c <> 10%N) (escapeCSVValue (Text v)).
Proof.
  intros H. unfold escapeCSVValue. cbn [String_of]. cbv zeta.
  destruct (_ || _); [|exact H].
  apply Forall_app. split; [repeat constructor; discriminate|].
  apply Forall_app. split; [apply double_quotes_no_lf, H | repeat constructor; discriminate].
Qed.

Lemma line_no_lf cells :
  Forall (Forall (fun c => c <> 10%N)) cells ->
  Forall (fun c => c <> 10%N)
         (join [comma] (map (fun v => escapeCSVValue (Text v)) cells)).
Proof.
  intros H. apply Forall_join; [repeat constructor; discriminate|].
  apply Forall_map. eapply Forall_impl; [exact H|]. intros v Hv. apply escape_no_lf, Hv.
Qed.

Lemma line_nonblank cells :
  (2 <= length cells)%nat ->
  trim (join [comma] (map (fun v => escapeCSVValue (Text v)) cells)) <> [].
Proof.
  intros H. destruct cells as [|c1 [|c2 rest]]; [cbn in H; lia | cbn in H; lia|].
  cbn [map]. rewrite join_cons. apply (trim_nonblank _ comma); [|reflexivity].
  apply in_or_app. right. left. reflexivity.
Qed.

Lemma parseCSVLine_join cells :
  cells <> [] ->
  parseCSVLine (join [comma] (map (fun v => escapeCSVValue (Text v)) cells)) = map trim cells.
Proof.
  intros Hne. unfold parseCSVLine.
  rewrite <- (map_map Text escapeCSVValue).
  rewrite (parse_row (map Text cells) []) by (destruct cells; [congruence | discriminate]).
  cbn [app]. rewrite !map_map. reflexivity.
Qed.

(** X25.  The file written by [updateValidatedFile] is read
    back by [parseCSV]: when no cell holds a line feed and every
    line has at least two cells, parsing the text gives the header
    cells and the rows, cell for cell and in order, each cell
    trimmed; commas and double quotes inside cells survive.  The
    parser never reports an empty file on such a text; it rejects
    only when no header names an email column, and the column it
    picks is one of the headers. *)
Theorem validated_file_reads_back (hd vh : list jsstring) (rows : list (list jsstring))
        (s : Store) :
  Forall (Forall (Forall (fun c => c <> 10%N))) ((hd ++ vh) :: rows) ->
  Forall (fun cells => (2 <= length cells)%nat) ((hd ++ vh) :: rows) ->
  match parseCSV env (csvContent hd vh rows) s with
  | (Normal data, s') =>
      s' = s /\
      headers data = map trim (hd ++ vh) /\
      CsvFlow.rows data = map (map trim) rows /\
      (emailIndex data < length (hd ++ vh))%nat
  | (Throw e, s') => s' = s /\ e = Error "No email column found in CSV"
  end.
Proof.
  intros Hlf Hlen.
  set (line := fun cells : list jsstring =>
                 join [comma] (map (fun v => escapeCSVValue (Text v)) cells)).
  assert (Hcontent : csvContent hd vh rows = join [10%N] (map line ((hd ++ vh) :: rows)))
    by reflexivity.
  assert (Hsplit : split [10%N] (csvContent hd vh rows) = map line ((hd ++ vh) :: rows)).
  { rewrite Hcontent. apply split_join; [discriminate|].
    apply Forall_map. eapply Forall_impl; [exact Hlf|]. intros cells H. apply line_no_lf, H. }
  assert (Hkeep : forall table : list (list jsstring),
             Forall (fun cells => (2 <= length cells)%nat) table ->
             List.filter (fun l : jsstring => match l with [] => false | _ => true end)
                         (map trim (map line table))
             = map trim (map line table)).
  { induction 1 as [|cells table Hc _ IH]; [reflexivity|].
    cbn [map List.filter]. pose proof (line_nonblank cells Hc) as Hnb. fold (line cells) in Hnb.
    destruct (trim (line cells)); [congruence|]. rewrite IH. reflexivity. }
  unfold parseCSV. cbv zeta.
  match goal with
  | |- context [List.filter ?f (map trim (split ?sep ?t))] =>
      replace (List.filter f (map trim (split sep t)))
        with (trim (line (hd ++ vh)) :: map trim (map line rows))
        by (symmetry; etransitivity; [|apply (Hkeep _ Hlen)]; f_equal; f_equal; exact Hsplit)
  end.
  assert (Hhead : parseCSVLine (trim (line (hd ++ vh))) = map trim (hd ++ vh)).
  { rewrite parseCSVLine_trim. apply parseCSVLine_join.
    apply Forall_inv in Hlen. destruct (hd ++ vh); [cbn in Hlen; lia | discriminate]. }
  assert (Hrows : map parseCSVLine (map trim (map line rows)) = map (map trim) rows).
  { apply Forall_inv_tail in Hlen. clear -Hlen. induction Hlen as [|cells table Hc _ IH];
      [reflexivity|].
    cbn [map]. rewrite parseCSVLine_trim, IH. f_equal. apply parseCSVLine_join.
    destruct cells; [cbn in Hc; lia | discriminate]. }
  rewrite Hhead, Hrows.
  destruct (list_find _ _) as [[i h]|] eqn:Hfind; cbn [fst snd].
  - split; [reflexivity|]. split; [reflexivity|]. split; [reflexivity|].
    apply list_find_Some in Hfind as (Hi & _). apply lookup_lt_Some in Hi.
    rewrite length_map in Hi. exact Hi.
  - split; reflexivity.
Qed.

End FileRoundTrip.

(* ===================================================================== *)
(** * Runs of the further properties *)
(* ===================================================================== *)

Section MoreRuns.
Import Spec Props Regex EmailFormat ProxyManager Smtp Validator Routes Scenarios Samples.

Lemma format_accepts_one_at_witness :
  validateEmailFormat address = true /\
  exists localPart domain,
    split (str "@") (str "a@example.com") = [localPart; domain].
Proof.
  assert (H : validateEmailFormat (JStr (str "a@example.com")) = true)
    by (vm_compute; reflexivity).
  split; [exact H|].
  destruct (format_accepts_one_at (str "a@example.com") H) as (l & d & E & _).
  exists l, d. exact E.
Defined.

Lemma pool_stays_well_formed_witness :
  pool_ok (started [proxy_a; proxy_b]) /\
  pool_ok (snd (validateEmail accepting address (started [proxy_a; proxy_b]))).
Proof.
  assert (H : pool_ok (started [proxy_a; proxy_b])).
  { split; [|right; cbn; lia].
    repeat constructor; cbn; unfold MAX_CONNECTIONS; lia. }
  split; [exact H|].
  destruct (pool_stays_well_formed accepting (started [proxy_a; proxy_b]) H)
    as (_ & _ & _ & _ & Hv & _).
  apply (Hv address).
Defined.

Lemma cooldown_lasts_until_reset_witness :
  (currentIndex just_used < length (proxies just_used))%nat /\
  (exists r w', getNextProxy accepting just_used = (Normal r, w') /\ r <> Some 0%nat) /\
  (forall p, proxies failed_thrice !! 0%nat = Some p ->
             clock accepting (S (ticks failed_thrice)) - lastUsed p < COOLDOWN_PERIOD) /\
  (exists w',
      getNextProxy accepting failed_thrice = (Normal (Some 0%nat), w') /\
      poolLog w' = poolLog failed_thrice ++ [ResetAll; Acquired 0%nat]).
Proof.
  assert (H1 : (currentIndex just_used < length (proxies just_used))%nat)
    by (vm_compute; lia).
  assert (H2 : (currentIndex failed_thrice < length (proxies failed_thrice))%nat)
    by (vm_compute; lia).
  split; [exact H1|]. split; [|split].
  - destruct (cooldown_lasts_until_reset accepting just_used H1) as [H _].
    eapply H; [vm_compute; reflexivity | vm_compute; reflexivity | vm_compute; reflexivity].
  - intros p Hp. vm_compute in Hp. injection Hp as <-. vm_compute. reflexivity.
  - destruct (cooldown_lasts_until_reset accepting failed_thrice H2) as [_ H].
    apply H; [repeat constructor; vm_compute; discriminate | vm_compute; discriminate].
Defined.

Lemma getProviderConfig_lookup_witness :
  Forall (fun c => (c < 128)%N) (str "Mail.GMail.com") /\
  provider (getProviderConfig (str "Mail.GMail.com")) = str "gmail.com".
Proof.
  assert (H : Forall (fun c => (c < 128)%N) (str "Mail.GMail.com"))
    by (repeat constructor).
  split; [exact H|].
  destruct (getProviderConfig_lookup (str "Mail.GMail.com") H) as (_ & Hp & _).
  apply Hp. vm_compute. reflexivity.
Defined.

Lemma bulk_validates_every_row_witness :
  length (addresses full_rows) = length full_rows /\
  exists values evs w',
    bulk_route patient full_rows (started [proxy_a])
      = (Normal (evs ++ [Complete (map Validated values)]), w') /\
    length values = 6%nat.
Proof.
  assert (H : length (addresses full_rows) = length full_rows)
    by (vm_compute; reflexivity).
  split; [exact H|].
  destruct (bulk_validates_every_row patient full_rows (started [proxy_a]) H)
    as (values & evs & w' & E & _ & Hlen & _).
  exists values, evs, w'. split; [exact E | exact Hlen].
Defined.

Lemma parseCSVLine_reads_back_witness :
  cells <> [] /\
  Csv.parseCSVLine (Text.join [Csv.comma] (map Csv.escapeCSVValue cells))
  = [ str "Doe, Jane"; str "true";
      str "say " ++ [Csv.quote] ++ str "hi" ++ [Csv.quote] ].
Proof.
  assert (H : cells <> []) by discriminate.
  split; [exact H|].
  rewrite (parseCSVLine_reads_back cells H). vm_compute. reflexivity.
Defined.

Lemma parseCSVLine_without_quotes_witness :
  Forall (fun x => x <> Csv.quote) plain_line /\
  Csv.parseCSVLine plain_line = [ str "a@example.com"; str "Ann"; str "42" ].
Proof.
  assert (H : Forall (fun x => x <> Csv.quote) plain_line)
    by (repeat constructor; discriminate).
  split; [exact H|].
  rewrite (parseCSVLine_without_quotes plain_line H). vm_compute. reflexivity.
Defined.

Lemma no_socket_left_open_witness :
  all_closed (started [proxy_a; proxy_b]) /\
  sockets (snd (validateEmail accepting address (started [proxy_a; proxy_b]))) <> [] /\
  all_closed (snd (validateEmail accepting address (started [proxy_a; proxy_b]))).
Proof.
  assert (H : all_closed (started [proxy_a; proxy_b])) by constructor.
  split; [exact H|].
  split; [vm_compute; discriminate|].
  destruct (no_socket_left_open accepting (started [proxy_a; proxy_b]) H)
    as (_ & _ & Hv & _).
  apply (Hv address).
Defined.

Lemma loadProxies_installs_fresh_pool_witness :
  currentIndex (started []) = 0%nat /\
  exists w',
    ProxyFile.loadProxies (Normal proxies_txt) (started []) = (Normal true, w') /\
    proxies w'
    = [ proxy_a;
        loaded (str "10.0.0.2") 1080 (Some (str "alice")) (Some (str "secret")) ] /\
    pool_ok w'.
Proof.
  assert (H : currentIndex (started []) = 0%nat) by reflexivity.
  split; [exact H|].
  destruct (loadProxies_installs_fresh_pool (Normal proxies_txt) (started []) H)
    as (w' & E & Ew & _ & Hok).
  exists w'. split; [exact E|]. split; [|exact Hok].
  rewrite Ew. vm_compute. reflexivity.
Defined.

Lemma only_the_owner_downloads_witness :
  CsvFlow.uploadAndProcessCSV (storage_for ann) contacts []
  = (Normal (str "7c9e6679-ann/processing/1700000000000_my_contacts__1__2024.csv"),
     [ CsvFlow.GetUser; CsvFlow.EnsureUserBucket ann; CsvFlow.GetTime;
       CsvFlow.Upload (str "7c9e6679-ann/processing/1700000000000_my_contacts__1__2024.csv")
                      (str "email") false ]) /\
  no_slash ann /\ no_slash bob /\
  CsvFlow.downloadProcessedCSV (storage_for bob)
    (str "7c9e6679-ann/processing/1700000000000_my_contacts__1__2024.csv") []
  = (Throw (Error "Failed to download file"), [CsvFlow.GetUser]).
Proof.
  assert (Hup : CsvFlow.uploadAndProcessCSV (storage_for ann) contacts []
                = (Normal (str "7c9e6679-ann/processing/1700000000000_my_contacts__1__2024.csv"),
                   [ CsvFlow.GetUser; CsvFlow.EnsureUserBucket ann; CsvFlow.GetTime;
                     CsvFlow.Upload
                       (str "7c9e6679-ann/processing/1700000000000_my_contacts__1__2024.csv")
                       (str "email") false ]))
    by (vm_compute; reflexivity).
  assert (Ha : no_slash ann) by (repeat constructor; discriminate).
  assert (Hb : no_slash bob) by (repeat constructor; discriminate).
  split; [exact Hup|]. split; [exact Ha|]. split; [exact Hb|].
  destruct (only_the_owner_downloads (storage_for ann) (storage_for bob) contacts [] _ []
              _ ann bob Hup eq_refl eq_refl Ha Hb) as (leaf & _ & _ & _ & H).
  apply (H _ (or_introl eq_refl)). discriminate.
Defined.

Lemma validated_file_reads_back_witness :
  Forall (Forall (Forall (fun c => c <> 10%N)))
         ((table_headers ++ CsvFlow.validationHeaders) :: table_rows) /\
  Forall (fun cells => (2 <= length cells)%nat)
         ((table_headers ++ CsvFlow.validationHeaders) :: table_rows) /\
  exists data,
    CsvFlow.parseCSV (storage_for ann)
      (Csv.csvContent table_headers CsvFlow.validationHeaders table_rows) []
    = (Normal data, []) /\
    CsvFlow.rows data
    = [ [ str "Doe, Jane"; str "jane@example.com" ];
        [ str "say " ++ [Csv.quote] ++ str "hi" ++ [Csv.quote]; str "joe@example.com" ] ] /\
    CsvFlow.emailIndex data = 1%nat.
Proof.
  assert (H1 : Forall (Forall (Forall (fun c => c <> 10%N)))
                      ((table_headers ++ CsvFlow.validationHeaders) :: table_rows))
    by (repeat constructor; discriminate).
  assert (H2 : Forall (fun cells => (2 <= length cells)%nat)
                      ((table_headers ++ CsvFlow.validationHeaders) :: table_rows))
    by (repeat constructor; cbn; lia).
  split; [exact H1|]. split; [exact H2|].
  pose proof (validated_file_reads_back (storage_for ann) table_headers
                CsvFlow.validationHeaders table_rows [] H1 H2) as H.
  destruct (CsvFlow.parseCSV (storage_for ann)
              (Csv.csvContent table_headers CsvFlow.validationHeaders table_rows) [])
    as [[data|e] s'] eqn:E.
  - destruct H as (-> & _ & Hr & _). exists data.
    split; [reflexivity|]. split; [rewrite Hr; vm_compute; reflexivity|].
    vm_compute in E. injection E as <-. reflexivity.
  - vm_compute in E. discriminate.
Defined.

End MoreRuns.
